(** * A shallow embedding of sudoku.c (Roger House's Sudoku solver)

    The C program keeps one global [Game]; every function receives a pointer
    to it and mutates it in place.  Here each function takes the game and
    returns the updated game (explicit state passing).  C [int]s are modelled
    as [Z]: for the supported sizes (subsquare side between 3 and [MAX_N] = 6)
    every index and counter of the solver stays far inside the [int] range.
    A [Bitmask] ([uint64_t]) is a [Z] in [0, 2^64); the only operation that
    could leave that range, the complement [~], is written with its 64-bit
    wrap-around.  Output on stdout and stderr is not modelled; what [main]
    prints is summarised by a [report].  (The text that [print_board]
    writes is modelled on its own, in the section on printing.)  *)

From Stdlib Require Import ZArith List Bool Ascii String Lia.
From stdpp Require Import gmap list list_numbers pretty.

Open Scope Z_scope.

(** ** Constants *)

Definition MAX_N : Z := 6.
Definition MAX_N2 : Z := MAX_N * MAX_N.
Definition MAX_NUM_SQUARES : Z := MAX_N2 * MAX_N2.
Definition MAX_NUM_NEIGHBORS : Z := 3 * MAX_N2 - 2 * MAX_N - 1.

(** ** Outcomes

    [assert] failures abort the process, [exit(1)] ends it with a format
    error, and an access outside an array is undefined behaviour in C; the
    three are kept apart.  [NoFuel] is not a behaviour of the program: it
    only says that the fuel handed to one of the two unbounded loops of the
    model was used up before the loop ended. *)

Inductive outcome (A : Type) : Type :=
| Ok (a : A)
| AssertFail
| OutOfBounds
| Exit1
| NoFuel.
Arguments Ok {A} a.
Arguments AssertFail {A}.
Arguments OutOfBounds {A}.
Arguments Exit1 {A}.
Arguments NoFuel {A}.

Definition obind {A B} (m : outcome A) (f : A -> outcome B) : outcome B :=
  match m with
  | Ok a => f a
  | AssertFail => AssertFail
  | OutOfBounds => OutOfBounds
  | Exit1 => Exit1
  | NoFuel => NoFuel
  end.

#[global] Instance outcome_bind : MBind outcome := fun A B f m => obind m f.
#[global] Instance outcome_ret : MRet outcome := fun A a => Ok a.

(** Loop with a body that may fail: the C [for] loops over a fixed index
    range whose body contains an [assert]. *)
Fixpoint ofold {A B} (f : A -> B -> outcome A) (a : A) (l : list B) : outcome A :=
  match l with
  | [] => Ok a
  | b :: l' => a' ← f a b; ofold f a' l'
  end.

(** ** Local [int] arrays

    [seen], [index], [used], ... are small local arrays that the code zeroes
    before use; they are modelled as finite maps read with default 0. *)

Definition aget (a : gmap Z Z) (k : Z) : Z := default 0 (a !! k).
Definition aset (a : gmap Z Z) (k v : Z) : gmap Z Z := <[k := v]> a.
Definition ainc (a : gmap Z Z) (k : Z) : gmap Z Z := aset a k (aget a k + 1).

(** ** Data model *)

Record Square := mkSquare {
  cur_value : Z;                 (* current value of square (0 is empty) *)
  frozen : bool;                 (* true means cur_value cannot change *)
  neighbor : list (Z * Z);       (* (neighbor_i[k], neighbor_j[k]) for k = 0, 1, ... *)
  candidate : gmap Z Z;          (* stack of candidate bitmasks, by index *)
  topmask : Z;                   (* index of the top of the candidate stack *)
  num_candidates : Z             (* number of 1-bits in candidate[0] *)
}.

Record Game_Stats := mkStats {
  num_occupied_squares_originally : Z;
  sum_num_candidates_originally : Z;
  num_frozen_as_only_candidate : Z;
  num_frozen_by_row_optimization : Z;
  num_frozen_by_column_optimization : Z;
  num_frozen_by_subsquare_optimization : Z;
  sum_num_candidates_after_optimization : Z;
  num_unstackings : Z
}.

Record Game := mkGame {
  N : Z;                         (* side of a subsquare *)
  N2 : Z;                        (* N squared, the side of the board *)
  num_squares : Z;
  num_neighbors : Z;
  board : gmap (Z * Z) Square;
  saved_board : gmap (Z * Z) Square;
  stats : Game_Stats
}.

(** The global [game] is zero-initialised by the C runtime: a square that
    was never written reads as all zeroes. *)
Definition zero_square : Square := mkSquare 0 false [] ∅ 0 0.
Definition zero_stats : Game_Stats := mkStats 0 0 0 0 0 0 0 0.
Definition zero_game : Game := mkGame 0 0 0 0 ∅ ∅ zero_stats.

(** [G->board[i][j]] read and written. *)
Definition sq (G : Game) (i j : Z) : Square := default zero_square (board G !! (i, j)).
Definition saved_sq (G : Game) (i j : Z) : Square :=
  default zero_square (saved_board G !! (i, j)).

Definition set_board (G : Game) (b : gmap (Z * Z) Square) : Game :=
  mkGame (N G) (N2 G) (num_squares G) (num_neighbors G) b (saved_board G) (stats G).
Definition set_stats (G : Game) (st : Game_Stats) : Game :=
  mkGame (N G) (N2 G) (num_squares G) (num_neighbors G) (board G) (saved_board G) st.
Definition set_sq (G : Game) (i j : Z) (s : Square) : Game :=
  set_board G (<[(i, j) := s]> (board G)).

Definition with_cur_value (p : Square) (v : Z) : Square :=
  mkSquare v (frozen p) (neighbor p) (candidate p) (topmask p) (num_candidates p).
Definition with_frozen (p : Square) (f : bool) : Square :=
  mkSquare (cur_value p) f (neighbor p) (candidate p) (topmask p) (num_candidates p).
Definition with_neighbor (p : Square) (l : list (Z * Z)) : Square :=
  mkSquare (cur_value p) (frozen p) l (candidate p) (topmask p) (num_candidates p).
Definition with_candidate (p : Square) (c : gmap Z Z) : Square :=
  mkSquare (cur_value p) (frozen p) (neighbor p) c (topmask p) (num_candidates p).
Definition with_topmask (p : Square) (t : Z) : Square :=
  mkSquare (cur_value p) (frozen p) (neighbor p) (candidate p) t (num_candidates p).
Definition with_num_candidates (p : Square) (n : Z) : Square :=
  mkSquare (cur_value p) (frozen p) (neighbor p) (candidate p) (topmask p) n.

(** [p->candidate[k]] and [p->neighbor_i[k], p->neighbor_j[k]]. *)
Definition cand (p : Square) (k : Z) : Z := aget (candidate p) k.
Definition nbr (p : Square) (k : Z) : Z * Z :=
  if k <? 0 then (0, 0) else default (0, 0) (neighbor p !! Z.to_nat k).

(** The squares visited by [for (k = 0; k < G->num_neighbors; ++k)] through
    [p->neighbor_i[k]] and [p->neighbor_j[k]].  None of these loops writes a
    neighbor array, so the coordinates can be read before the loop runs. *)
Definition neighbors_of (G : Game) (p : Square) : list (Z * Z) :=
  map (nbr p) (seqZ 0 (num_neighbors G)).

(** [for (k = 0; k < G->num_neighbors; ++k) p->candidate[k] = 0;] *)
Definition clear_candidates (G : Game) (c : gmap Z Z) : gmap Z Z :=
  foldl (fun c k => aset c k 0) c (seqZ 0 (num_neighbors G)).

(** ** Bit masks *)

(** [init_bit_mask_array]: 64 masks, each the previous one shifted right. *)
Definition init_bit_mask_array : list Z :=
  map (fun i => Z.shiftr 0x8000000000000000 i) (seqZ 0 64).

(** [bit(i)]: position 1 is the leftmost bit of the 64-bit mask.  The
    function asserts [1 <= i <= 64]; every caller passes a value between 1
    and [G->N2], which is at most [MAX_N2] = 36 for a game built by
    [init_board], so the assertion is a precondition here and the table is
    read with default 0. *)
Definition bit (i : Z) : Z :=
  if i <? 1 then 0 else default 0 (init_bit_mask_array !! Z.to_nat (i - 1)).

(** [~b] on a [uint64_t]. *)
Definition bnot64 (b : Z) : Z := Z.lxor b (Z.ones 64).

(** [b & bit(k)] used as a C condition. *)
Definition has_bit (b k : Z) : bool := negb (Z.land b (bit k) =? 0).

(** ** Board geometry *)

(** [find_sub_square]: C integer division truncates. *)
Definition find_sub_square (G : Game) (row col : Z) : Z * Z :=
  (N G * ((row - 1) ÷ N G) + 1, N G * ((col - 1) ÷ N G) + 1).

(** The three neighbor loops of [init_board] for square (i, j); each
    iteration that is not skipped by [continue] stores one coordinate pair
    at index [neighbor_count] and increments it. *)
Definition column_neighbors (G : Game) (i j : Z) : list (Z * Z) :=
  flat_map (fun ii => if ii =? i then [] else [(ii, j)]) (seqZ 1 (N2 G)).
Definition row_neighbors (G : Game) (i j : Z) : list (Z * Z) :=
  flat_map (fun jj => if jj =? j then [] else [(i, jj)]) (seqZ 1 (N2 G)).
Definition subsquare_neighbors (G : Game) (i j : Z) : list (Z * Z) :=
  let '(srow, scol) := find_sub_square G i j in
  flat_map (fun ii =>
      if ii =? i then []
      else flat_map (fun jj => if jj =? j then [] else [(ii, jj)]) (seqZ scol (N G)))
    (seqZ srow (N G)).

Definition init_neighbors (G : Game) (i j : Z) : list (Z * Z) :=
  column_neighbors G i j ++ row_neighbors G i j ++ subsquare_neighbors G i j.

(** One iteration of the (i, j) loops of [init_board]. *)
Definition init_square (G : Game) (i j : Z) : Game :=
  let p := sq G i j in
  let p := with_cur_value p 0 in
  let p := with_frozen p false in
  let p := with_candidate p (clear_candidates G (candidate p)) in
  let p := with_topmask p (-1) in
  let p := with_num_candidates p 0 in
  let p :=
    if (i =? 0) || (j =? 0)
    then with_neighbor p (map (fun _ => (-1, -1)) (seqZ 0 (num_neighbors G)))
    else with_neighbor p (init_neighbors G i j) in
  set_sq G i j p.

(** [init_board].  The final [assert (neighbor_count == G->num_neighbors)]
    looks at the count of the last square only; [init_neighbors_length]
    below proves it for every square when [n >= 1], so it never fires for
    the sizes the program uses and is not modelled as an outcome. *)
Definition init_board (G : Game) (n : Z) : Game :=
  let G := mkGame n (n * n) ((n * n) * (n * n)) (3 * (n * n) - 2 * n - 1)
                  (board G) (saved_board G) (stats G) in
  let G :=
    foldl (fun G i => foldl (fun G j => init_square G i j) G (seqZ 0 (N2 G + 1)))
          G (seqZ 0 (N2 G + 1)) in
  set_stats G zero_stats.

(** [save_board]: [memcpy] of the whole board. *)
Definition save_board (G : Game) : Game :=
  mkGame (N G) (N2 G) (num_squares G) (num_neighbors G) (board G) (board G) (stats G).

(** ** The alphabet *)

(** The value of a C [char] holding an ASCII character. *)
Definition code (c : ascii) : Z := Z.of_N (N_of_ascii c).

(** [map_alphabet_to_int]. *)
Definition map_alphabet_to_int (c : ascii) : Z :=
  if (code "1" <=? code c) && (code c <=? code "9") then code c - code "1" + 1
  else if code "0" =? code c then 10
  else if (code "A" <=? code c) && (code c <=? code "Z") then code c - code "A" + 11
  else if (code "a" <=? code c) && (code c <=? code "z") then code c - code "a" + 37
  else if code "#" =? code c then 63
  else if code "$" =? code c then 64
  else -1.

(** The static table of [map_int_to_alphabet]: 65 characters; the array
    has 66 elements, the last one the terminating NUL. *)
Definition mapToInt : string :=
  "-1234567890ABCDEFGHIJKLMNOPQRSTUVWXYZabcdefghijklmnopqrstuvwxyz#$".

(** [map_int_to_alphabet]: the assertion aborts, an index past the 66
    elements of the table is out of bounds. *)
Definition map_int_to_alphabet (G : Game) (i : Z) : outcome ascii :=
  if negb ((0 <=? i) && (i <=? N2 G)) then AssertFail
  else if 66 <=? i then OutOfBounds
  else Ok (default zero (String.get (Z.to_nat i) mapToInt)).

(** ** Loading *)

(** [isspace] in the C locale. *)
Definition isspace (c : ascii) : bool :=
  (code c =? 32) || ((9 <=? code c) && (code c <=? 13)).

Definition isdigit (c : ascii) : bool :=
  (code "0" <=? code c) && (code c <=? code "9").

(** [atoi]: leading white space, an optional sign, then decimal digits up
    to the first character that is not one.  The C standard leaves the
    result undefined when the number does not fit an [int]; the model
    follows the C library of the platform (glibc), where [atoi (s)] is
    [(int) strtol (s, NULL, 10)]: [strtol] saturates at the range of
    [long] (64 bits), and the conversion to [int] keeps the low 32 bits
    (two's complement). *)
Fixpoint atoi_digits (s : string) (acc : Z) : Z :=
  match s with
  | String c s' => if isdigit c then atoi_digits s' (10 * acc + (code c - code "0")) else acc
  | EmptyString => acc
  end.

(** The number that the text denotes. *)
Fixpoint strtol_value (s : string) : Z :=
  match s with
  | String c s' =>
      if isspace c then strtol_value s'
      else if code c =? code "-" then - atoi_digits s' 0
      else if code c =? code "+" then atoi_digits s' 0
      else atoi_digits s 0
  | EmptyString => 0
  end.

(** [strtol]: [LONG_MIN] or [LONG_MAX] when the number is out of range. *)
Definition strtol (s : string) : Z :=
  Z.max (- 2 ^ 63) (Z.min (2 ^ 63 - 1) (strtol_value s)).

(** The conversion of a [long] to [int]. *)
Definition long_to_int (z : Z) : Z := (z + 2 ^ 31) mod 2 ^ 32 - 2 ^ 31.

Definition atoi (s : string) : Z := long_to_int (strtol s).

(** [strncmp (s, lit, 2) == 0] for a two-character literal. *)
Definition starts_with2 (a b : ascii) (s : string) : bool :=
  match s with
  | String x (String y _) => (code x =? code a) && (code y =? code b)
  | _ => false
  end.

(** [linebuff + k]. *)
Fixpoint advance (k : nat) (s : string) : string :=
  match k, s with
  | S k', String _ s' => advance k' s'
  | _, _ => s
  end.

(** [n = strlen (linebuff)] and the loop of [get_line] that overwrites
    trailing white space with NUL, from the end of the line backwards.
    [strlen] stops at the first NUL of the buffer, so a NUL that the file
    holds inside a line ends the line for [get_line] and for the column
    loop of [load_file]. *)
Fixpoint trim_trailing (s : string) : string :=
  match s with
  | EmptyString => EmptyString
  | String c s' =>
      if code c =? 0 then EmptyString
      else
        match trim_trailing s' with
        | EmptyString => if isspace c then EmptyString else String c EmptyString
        | t => String c t
        end
  end.

(** [get_line].  The file is the list of the strings that successive calls
    of [fgets] return (each line with its terminator; [fgets] returning NULL
    is the empty list).  The result is the game, the line to process and the
    rest of the file. *)
Fixpoint get_line (G : Game) (allowN : bool) (file : list string)
  : outcome (Game * string * list string) :=
  match file with
  | [] => Exit1                           (* file ended prematurely *)
  | linebuff :: rest =>
      if starts_with2 "/" "/" linebuff then          (* comment line *)
        if negb allowN then get_line G allowN rest
        else if negb (starts_with2 "N" "=" (advance 2 linebuff)) then get_line G allowN rest
        else
          let n := atoi (advance 4 linebuff) in
          if (3 <=? n) && (n <=? MAX_N) then get_line (init_board G n) allowN rest
          else Exit1
      else
        let t := trim_trailing linebuff in
        match t with
        | EmptyString => get_line G allowN rest      (* skip whitespace lines *)
        | _ => Ok (G, t, rest)
        end
  end.

(** [while (isspace (c)) ++c;] *)
Fixpoint skip_spaces (s : string) : string :=
  match s with
  | String c s' => if isspace c then skip_spaces s' else s
  | EmptyString => s
  end.

(** [*c] and [++c] on the line buffer: past the last character the buffer
    holds the terminating NUL. *)
Definition deref (s : string) : ascii :=
  match s with String c _ => c | EmptyString => zero end.
Definition next (s : string) : string :=
  match s with String _ s' => s' | EmptyString => EmptyString end.

Definition bump_occupied (G : Game) : Game :=
  let st := stats G in
  set_stats G (mkStats (num_occupied_squares_originally st + 1)
    (sum_num_candidates_originally st) (num_frozen_as_only_candidate st)
    (num_frozen_by_row_optimization st) (num_frozen_by_column_optimization st)
    (num_frozen_by_subsquare_optimization st)
    (sum_num_candidates_after_optimization st) (num_unstackings st)).

(** The body of the column loop of [load_file] for square (i, j); [c] is
    the read position in the line. *)
Definition load_square (G : Game) (i j : Z) (c : string) : outcome (Game * string) :=
  let c := skip_spaces c in
  let p := sq G i j in
  r ← (if code (deref c) =? code "-" then
         Ok (G, with_frozen (with_cur_value p 0) false)
       else
         let d := map_alphabet_to_int (deref c) in
         if (d =? -1) || (N2 G <? d) then Exit1
         else Ok (bump_occupied G, with_frozen (with_cur_value p d) true));
  let '(G, p) := r in
  let p := with_candidate p (clear_candidates G (candidate p)) in
  let p := with_topmask p (-1) in
  Ok (set_sq G i j p, next c).

(** The column loop for row [i]. *)
Definition load_row (G : Game) (i : Z) (linebuff : string) : outcome Game :=
  r ← ofold (fun '(G, c) j => load_square G i j c) (G, linebuff) (seqZ 1 (N2 G));
  Ok r.1.

(** The row loop of [load_file].  [G->N2] is read again at every test of
    [i <= G->N2], after the first [get_line] may have changed it; the loop
    needs at most [MAX_N2] iterations, counted by [fuel]. *)
Fixpoint load_rows (fuel : nat) (G : Game) (i : Z) (allowN : bool) (file : list string)
  : outcome Game :=
  match fuel with
  | O => if i <=? N2 G then NoFuel else Ok G
  | S fuel' =>
      if i <=? N2 G then
        r ← get_line G allowN file;
        let '(G, linebuff, rest) := r in
        G ← load_row G i linebuff;
        load_rows fuel' G (i + 1) false rest    (* can't change N after first line *)
      else Ok G
  end.

(** [load_file] on an opened file. *)
Definition load_file (G : Game) (file : list string) (allowN : bool) : outcome Game :=
  load_rows (Z.to_nat MAX_N2) G 1 allowN file.

(** ** Verification *)

(** [for (x = from; x <= bound; x += step)], at most [fuel] iterations. *)
Fixpoint upto_by (fuel : nat) (x step bound : Z) : list Z :=
  match fuel with
  | O => []
  | S fuel' => if x <=? bound then x :: upto_by fuel' (x + step) step bound else []
  end.

(** The origins visited by [for (i = 1; i <= G->N2; i += G->N)]. *)
Definition origins (G : Game) : list Z := upto_by (Z.to_nat (N2 G)) 1 (N G) (N2 G).

(** The squares scanned for row [i], for column [i], and for the subsquare
    with origin (i, j), in the order of the loops. *)
Definition row_squares (G : Game) (i : Z) : list (Z * Z) :=
  map (fun j => (i, j)) (seqZ 1 (N2 G)).
Definition column_squares (G : Game) (i : Z) : list (Z * Z) :=
  map (fun j => (j, i)) (seqZ 1 (N2 G)).
Definition subsquare_squares (G : Game) (i j : Z) : list (Z * Z) :=
  flat_map (fun ii => map (fun jj => (i + ii, j + jj)) (seqZ 0 (N G))) (seqZ 0 (N G)).

Definition all_rows (G : Game) : list (list (Z * Z)) :=
  map (row_squares G) (seqZ 1 (N2 G)).
Definition all_columns (G : Game) : list (list (Z * Z)) :=
  map (column_squares G) (seqZ 1 (N2 G)).
Definition all_subsquares (G : Game) : list (list (Z * Z)) :=
  flat_map (fun i => map (fun j => subsquare_squares G i j) (origins G)) (origins G).

(** The counting loop of [verify_solution] over one row, column or
    subsquare: [++used[n]] after [assert (0 <= n && n <= G->N2)]. *)
Definition count_used (G : Game) (squares : list (Z * Z)) : outcome (gmap Z Z) :=
  ofold (fun used c =>
           let n := cur_value (sq G c.1 c.2) in
           if (0 <=? n) && (n <=? N2 G) then Ok (ainc used n) else AssertFail)
        ∅ squares.

(** The loop over [k] that follows: the first value used more than once,
    or, for a full solution, not exactly once, makes the function return
    false. *)
Definition used_ok (G : Game) (full_solution : bool) (used : gmap Z Z) : bool :=
  forallb (fun k => negb (1 <? aget used k)
                    && negb (full_solution && negb (aget used k =? 1)))
          (seqZ 1 (N2 G)).

Fixpoint verify_units (G : Game) (full_solution : bool) (units : list (list (Z * Z)))
  : outcome bool :=
  match units with
  | [] => Ok true
  | u :: rest =>
      used ← count_used G u;
      if used_ok G full_solution used then verify_units G full_solution rest
      else Ok false
  end.

(** [verify_solution]: rows, then columns, then subsquares. *)
Definition verify_solution (G : Game) (full_solution : bool) : outcome bool :=
  verify_units G full_solution (all_rows G ++ all_columns G ++ all_subsquares G).

(** [verify_solution_to_our_problem]: the loops run from 0. *)
Definition verify_solution_to_our_problem (G : Game) : bool :=
  forallb (fun i =>
    forallb (fun j =>
      let p := sq G i j in
      let q := saved_sq G i j in
      negb (negb (cur_value q =? 0) && negb (cur_value q =? cur_value p)))
      (seqZ 0 (N2 G + 1)))
    (seqZ 0 (N2 G + 1)).

(** ** Candidates *)

(** The squares visited by the nested loops [i = 1 .. N2], [j = 1 .. N2]. *)
Definition all_squares (G : Game) : list (Z * Z) :=
  flat_map (fun i => map (fun j => (i, j)) (seqZ 1 (N2 G))) (seqZ 1 (N2 G)).

(** [find_candidate]. *)
Definition find_candidate (G : Game) (row col : Z) : Game * bool :=
  let p := sq G row col in
  if frozen p then (G, true)
  else
    let seen :=
      foldl (fun seen c => ainc seen (cur_value (sq G c.1 c.2))) ∅ (neighbors_of G p) in
    let '(b, n) :=
      foldl (fun '(b, n) k =>
               if aget seen k =? 0 then (Z.lor b (bit k), n + 1) else (b, n))
            (0, 0) (seqZ 1 (N2 G)) in
    let p := with_num_candidates p n in
    let p := with_topmask p 0 in
    let p := with_candidate p (aset (candidate p) 0 b) in
    (set_sq G row col p, negb (b =? 0)).

(** [find_candidates]: no early exit, every square is processed. *)
Definition find_candidates (G : Game) : Game * bool :=
  foldl (fun '(G, retval) c =>
           let '(G, ok) := find_candidate G c.1 c.2 in
           (G, if ok then retval else false))
        (G, true) (all_squares G).

(** [freeze_one]. *)
Definition freeze_one (G : Game) (row col piece : Z) : Game :=
  let p := sq G row col in
  let p := with_cur_value p piece in
  let p := with_frozen p true in
  let p := with_candidate p (clear_candidates G (candidate p)) in
  let p := with_topmask p (-1) in
  let p := with_num_candidates p 0 in
  set_sq G row col p.

(** [get_first_candidate]. *)
Definition get_first_candidate (G : Game) (b : Z) : Z :=
  default 0 (List.find (fun i => has_bit b i) (seqZ 1 (N2 G))).

(** [compute_candidate_stats]. *)
Definition compute_candidate_stats (G : Game) (before : bool) : Game :=
  let sum_cand :=
    foldl (fun s c => let p := sq G c.1 c.2 in
                      if frozen p then s else s + num_candidates p)
          0 (all_squares G) in
  let st := stats G in
  if before then
    set_stats G (mkStats (num_occupied_squares_originally st) sum_cand
      (num_frozen_as_only_candidate st) (num_frozen_by_row_optimization st)
      (num_frozen_by_column_optimization st) (num_frozen_by_subsquare_optimization st)
      (sum_num_candidates_after_optimization st) (num_unstackings st))
  else
    set_stats G (mkStats (num_occupied_squares_originally st)
      (sum_num_candidates_originally st)
      (num_frozen_as_only_candidate st) (num_frozen_by_row_optimization st)
      (num_frozen_by_column_optimization st) (num_frozen_by_subsquare_optimization st)
      sum_cand (num_unstackings st)).

(** ** Preprocessing *)

(** The four [++G->stats. ...] of the deduction rules and of the search. *)
Inductive counter := OnlyCandidate | RowOpt | ColumnOpt | SubsquareOpt | Unstacking.

Definition bump (G : Game) (c : counter) : Game :=
  let st := stats G in
  let inc (c' : counter) (x : Z) :=
    match c, c' with
    | OnlyCandidate, OnlyCandidate | RowOpt, RowOpt | ColumnOpt, ColumnOpt
    | SubsquareOpt, SubsquareOpt | Unstacking, Unstacking => x + 1
    | _, _ => x
    end in
  set_stats G (mkStats (num_occupied_squares_originally st)
    (sum_num_candidates_originally st)
    (inc OnlyCandidate (num_frozen_as_only_candidate st))
    (inc RowOpt (num_frozen_by_row_optimization st))
    (inc ColumnOpt (num_frozen_by_column_optimization st))
    (inc SubsquareOpt (num_frozen_by_subsquare_optimization st))
    (sum_num_candidates_after_optimization st)
    (inc Unstacking (num_unstackings st))).

(** [check_for_only_one_candidate]: the loops run over the whole board and
    freeze every square that qualifies when it is reached; nothing leaves
    the loops early. *)
Definition check_for_only_one_candidate (G : Game) : Game * bool :=
  foldl (fun '(G, found_one) c =>
           let p := sq G c.1 c.2 in
           if negb (frozen p) && (num_candidates p =? 1) then
             let t := get_first_candidate G (cand p 0) in
             (bump (freeze_one G c.1 c.2 t) OnlyCandidate, true)
           else (G, found_one))
        (G, false) (all_squares G).

(** The scan of one row, column or subsquare by the three optimizations:
    for every unfrozen square and every value [k] that is a candidate in
    [candidate[0]], count it in [seen[k]] and remember the square in
    [index[k]] (for a subsquare: [row_index[k]], [col_index[k]]). *)
Definition scan_unit (G : Game) (squares : list (Z * Z))
  : gmap Z Z * gmap Z (Z * Z) :=
  foldl (fun acc c =>
           let p := sq G c.1 c.2 in
           if frozen p then acc
           else
             foldl (fun '(seen, index) k =>
                      if has_bit (cand p 0) k then (ainc seen k, <[k := c]> index)
                      else (seen, index))
                   acc (seqZ 1 (N2 G)))
        (∅, ∅) squares.

(** The loop that follows the scan: the first [k] with [seen[k] == 1]. *)
Definition seen_once (G : Game) (seen : gmap Z Z) : option Z :=
  List.find (fun k => aget seen k =? 1) (seqZ 1 (N2 G)).

(** The loop over the units of one optimization: the first unit with a
    value seen once freezes one square and returns true at once. *)
Fixpoint try_units (G : Game) (c : counter) (units : list (list (Z * Z))) : Game * bool :=
  match units with
  | [] => (G, false)
  | u :: rest =>
      let '(seen, index) := scan_unit G u in
      match seen_once G seen with
      | Some k =>
          let '(row, col) := default (0, 0) (index !! k) in
          (bump (freeze_one G row col k) c, true)
      | None => try_units G c rest
      end
  end.

Definition try_row_optimization (G : Game) : Game * bool :=
  try_units G RowOpt (all_rows G).
Definition try_column_optimization (G : Game) : Game * bool :=
  try_units G ColumnOpt (all_columns G).
Definition try_subsquare_optimization (G : Game) : Game * bool :=
  try_units G SubsquareOpt (all_subsquares G).

(** The [while (true)] loop of [preprocess_board]; the result is the game
    and [no_candidates]. *)
Fixpoint preprocess_loop (fuel : nat) (G : Game) (first_time : bool)
  : outcome (Game * bool) :=
  match fuel with
  | O => NoFuel
  | S fuel' =>
      let '(G, ok) := find_candidates G in
      let no_candidates := negb ok in
      let G := if first_time then compute_candidate_stats G true else G in
      if no_candidates then Ok (G, true)
      else
        let '(G, changed) := check_for_only_one_candidate G in
        if changed then preprocess_loop fuel' G false else
        let '(G, changed) := try_row_optimization G in
        if changed then preprocess_loop fuel' G false else
        let '(G, changed) := try_column_optimization G in
        if changed then preprocess_loop fuel' G false else
        let '(G, changed) := try_subsquare_optimization G in
        if changed then preprocess_loop fuel' G false else
        Ok (G, false)
  end.

(** [preprocess_board]: true means every unfrozen square has a candidate. *)
Definition preprocess_board (fuel : nat) (G : Game) : outcome (Game * bool) :=
  r ← preprocess_loop fuel G true;
  let '(G, no_candidates) := r in
  let G := compute_candidate_stats G false in
  Ok (G, negb no_candidates).

(** ** Backtracking search *)

(** One iteration of the loop of [update_neighbors], for the neighbor at
    coordinates [c]. *)
Definition update_neighbor (G : Game) (piece_number : Z) (make_avail : bool) (c : Z * Z)
  : outcome Game :=
  let q := sq G c.1 c.2 in
  if frozen q then Ok G
  else if make_avail then
    (* --(q->topmask); assert (q->topmask >= 0); *)
    let q := with_topmask q (topmask q - 1) in
    if 0 <=? topmask q then Ok (set_sq G c.1 c.2 q) else AssertFail
  else
    if negb (0 <=? topmask q) then AssertFail
    else if MAX_NUM_NEIGHBORS <=? topmask q + 1 then OutOfBounds
    else
      let b := cand q (topmask q) in
      let q := with_topmask q (topmask q + 1) in
      let q := with_candidate q
                 (aset (candidate q) (topmask q) (Z.land b (bnot64 (bit piece_number)))) in
      Ok (set_sq G c.1 c.2 q).

(** [update_neighbors]. *)
Definition update_neighbors (G : Game) (row col piece_number : Z) (make_avail : bool)
  : outcome Game :=
  let p := sq G row col in
  if frozen p then AssertFail
  else ofold (fun G c => update_neighbor G piece_number make_avail c) G (neighbors_of G p).

(** The state of the two nested loops of [find_solution]: the game, the
    loop variables [i] and [j], [piece_to_place], and the stack of
    coordinates ([row_stack], [col_stack]; [top] is one less than the
    length of the list, whose head is the top of the stack). *)
Record search_state := mkSearch {
  sG : Game;
  si : Z;
  sj : Z;
  piece_to_place : Z;
  stack : list (Z * Z)
}.

(** The loop over [k] of [find_solution]: the first [k] from
    [piece_to_place + 1] to [N2] whose bit is set in
    [p->candidate[p->topmask]]. *)
Definition find_piece (G : Game) (p : Square) (piece_to_place : Z) : outcome (option Z) :=
  if N2 G <? piece_to_place + 1 then Ok None        (* the loop body never runs *)
  else if (topmask p <? 0) || (MAX_NUM_NEIGHBORS <=? topmask p) then OutOfBounds
  else Ok (List.find (fun k => has_bit (cand p (topmask p)) k)
                     (seqZ (piece_to_place + 1) (N2 G - piece_to_place))).

(** One step of [find_solution]: the exit of the row loop, the exit of
    the column loop followed by [++i], or one execution of the body of the
    column loop followed by [++j].  [inr G] says that the function
    returns. *)
Definition search_step (s : search_state) : outcome (search_state + Game) :=
  let G := sG s in
  let i := si s in
  let j := sj s in
  if N2 G <? i then Ok (inr G)
  else if N2 G <? j then Ok (inl (mkSearch G (i + 1) 1 (piece_to_place s) (stack s)))
  else
    let p := sq G i j in
    if frozen p then Ok (inl (mkSearch G i (j + 1) (piece_to_place s) (stack s)))
    else
      found ← find_piece G p (piece_to_place s);
      match found with
      | Some k =>
          let G := set_sq G i j (with_cur_value p k) in
          G ← update_neighbors G i j k false;
          (* ++top; assert (top < G->num_squares); *)
          if negb (Z.of_nat (length (stack s)) <? num_squares G) then AssertFail
          else Ok (inl (mkSearch G i (j + 1) 0 ((i, j) :: stack s)))
      | None =>
          match stack s with
          | [] => AssertFail                       (* assert (top >= 0) *)
          | (i', j') :: rest =>
              let G := bump G Unstacking in
              let piece := cur_value (sq G i' j') in
              G ← update_neighbors G i' j' piece true;
              let G := set_sq G i' j' (with_cur_value (sq G i' j') 0) in
              (* --j here, ++j at the end of the loop body *)
              Ok (inl (mkSearch G i' (j' - 1 + 1) piece rest))
          end
      end.

Fixpoint search_run (fuel : nat) (s : search_state) : outcome Game :=
  match fuel with
  | O => NoFuel
  | S fuel' =>
      r ← search_step s;
      match r with
      | inl s' => search_run fuel' s'
      | inr G => Ok G
      end
  end.

(** [find_solution]. *)
Definition find_solution (fuel : nat) (G : Game) : outcome Game :=
  search_run fuel (mkSearch G 1 1 0 []).

(** ** The main program *)

(** What [main] prints besides the board and the statistics. *)
Inductive report :=
| InvalidSetup            (* ****** INVALID SETUP ***** *)
| NoSolutionExists        (* ****** NO SOLUTIONS EXISTS ***** *)
| NotASolution            (* ****** NOT A SOLUTION TO THE ORIGINAL PROBLEM ***** *)
| InvalidSolution         (* ****** INVALID SOLUTION ***** *)
| Solved.                 (* none of the above *)

(** [main] from [save_board] on; every [Ok] result is a return with
    status 0.  [fp] and [fs] are the fuel of the preprocessing loop and of
    the search. *)
Definition solve (fp fs : nat) (G : Game) : outcome (report * Game) :=
  let G := save_board G in
  valid ← verify_solution G false;
  if negb valid then Ok (InvalidSetup, G)
  else
    r ← preprocess_board fp G;
    let '(G, solvable) := r in
    if negb solvable then Ok (NoSolutionExists, G)
    else
      G ← find_solution fs G;
      if negb (verify_solution_to_our_problem G) then Ok (NotASolution, G)
      else
        full ← verify_solution G true;
        if negb full then Ok (InvalidSolution, G) else Ok (Solved, G).

(** [main] on the contents of the input file. *)
Definition main (fp fs : nat) (file : list string) : outcome (report * Game) :=
  let G := init_board zero_game 3 in
  G ← load_file G file true;
  solve fp fs G.

(** * Specification vocabulary *)

(** Square (i, j) lies on the board. *)
Definition on_board (G : Game) (i j : Z) : Prop :=
  1 <= i <= N2 G /\ 1 <= j <= N2 G.

(** The value alphabet: the characters of the table after the blank
    marker. *)
Definition alphabet : list ascii :=
  list_ascii_of_string "1234567890ABCDEFGHIJKLMNOPQRSTUVWXYZabcdefghijklmnopqrstuvwxyz#$".

Definition in_alphabet (c : ascii) : bool := existsb (Ascii.eqb c) alphabet.

(** What a terminated run reported. *)
Definition report_of (r : outcome (report * Game)) : option report :=
  match r with Ok (rep, _) => Some rep | _ => None end.
Definition game_of {A} (r : outcome (A * Game)) : Game :=
  match r with Ok (_, G) => G | _ => zero_game end.

(** The values on the board, row by row. *)
Definition board_values (G : Game) : list (list Z) :=
  map (fun i => map (fun j => cur_value (sq G i j)) (seqZ 1 (N2 G))) (seqZ 1 (N2 G)).

(** ** Input files used in the examples *)

Definition nl : string := String (ascii_of_nat 10) EmptyString.

Definition file_of (lines : list string) : list string :=
  map (fun s => (s ++ nl)%string) lines.

(** The example of the usage text. *)
Definition usage_file : list string := file_of [
  "// From The Santa Rosa, CA Press Democrat, 2006 Feb 18.";
  "";
  "  - - 4   5 - -   - - 9";
  "  - 8 -   - 7 2   - - -";
  "  2 - 1   9 - -   - 7 -";
  "                      ";
  "  - - -   2 5 -   9 - -";
  "  - 1 9   - - -   6 5 -";
  "  - - 2   - 9 7   - - -";
  "                       ";
  "  - 6 -   - - 9   2 - 4 ";
  "  - - -   3 6 -   - 9 - ";
  "  1 - -   - - 8   3 - - "]%string.

(** Four blanks; (1,1) and (1,4) each have the single candidate 1, and
    (2,2) and (2,5) each have the single candidate 2. *)
Definition twin_file : list string := file_of [
  "- 3 4 - 5 6 7 8 9";
  "5 - 7 8 - 9 3 4 6";
  "6 8 9 3 4 7 1 2 5";
  "2 1 3 4 6 5 8 9 7";
  "4 5 6 7 9 8 2 1 3";
  "7 9 8 2 1 3 5 6 4";
  "3 4 1 6 7 2 9 5 8";
  "8 6 5 9 3 1 4 7 2";
  "9 7 2 5 8 4 6 3 1"]%string.

(** Row 1 needs 1, 2 and 3 in its first three squares, and 3 is already in
    their subsquare. *)
Definition dead_end_file : list string := file_of [
  "- - - 4 5 6 7 8 9";
  "3 - - - - - - - -";
  "- - - - - - - - -";
  "- - - - - - - - -";
  "- - - - - - - - -";
  "- - - - - - - - -";
  "- - - - - - - - -";
  "- - - - - - - - -";
  "- - - - - - - - -"]%string.

(** The value 5 twice in row 1. *)
Definition invalid_file : list string := file_of [
  "5 - 4 5 - - - - 9";
  "- 8 - - 7 2 - - -";
  "2 - 1 9 - - - 7 -";
  "- - - 2 5 - 9 - -";
  "- 1 9 - - - 6 5 -";
  "- - 2 - 9 7 - - -";
  "- 6 - - - 9 2 - 4";
  "- - - 3 6 - - 9 -";
  "1 - - - - 8 3 - -"]%string.

(** The board that [main] hands to [solve] for a file. *)
Definition loaded (file : list string) : Game :=
  match load_file (init_board zero_game 3) file true with
  | Ok G => G
  | _ => zero_game
  end.

(** ** Frame conditions *)

(** The sizes and the saved board are the same in both games. *)
Definition same_frame (G G' : Game) : Prop :=
  N G' = N G /\ N2 G' = N2 G /\ num_squares G' = num_squares G
  /\ num_neighbors G' = num_neighbors G /\ saved_board G' = saved_board G.

(** From [G] to [G'] no neighbor array changed and every square that was
    frozen in [G] is exactly as it was, field by field. *)
Definition keeps_frozen (G G' : Game) : Prop :=
  same_frame G G'
  /\ forall a b, neighbor (sq G' a b) = neighbor (sq G a b)
                 /\ (frozen (sq G a b) = true -> sq G' a b = sq G a b).

(** In addition no square was frozen or unfrozen. *)
Definition keeps_flags (G G' : Game) : Prop :=
  keeps_frozen G G' /\ forall a b, frozen (sq G' a b) = frozen (sq G a b).

(** In addition no value changed: only candidate stacks moved. *)
Definition keeps_values (G G' : Game) : Prop :=
  keeps_flags G G' /\ forall a b, cur_value (sq G' a b) = cur_value (sq G a b).

(** Every clue is frozen: the squares of the board (row and column 0
    included) with a nonzero value are frozen, as [load_file] leaves them. *)
Definition clues_frozen (G : Game) : bool :=
  forallb (fun i =>
    forallb (fun j => (cur_value (sq G i j) =? 0) || frozen (sq G i j))
            (seqZ 0 (N2 G + 1)))
    (seqZ 0 (N2 G + 1)).

(** The games in the middle of a run, for the examples. *)
Definition preprocessed (fp : nat) (G : Game) : Game :=
  match preprocess_board fp (save_board G) with Ok (G', _) => G' | _ => zero_game end.
Definition searched (fs : nat) (G : Game) : Game :=
  match find_solution fs G with Ok G' => G' | _ => zero_game end.

(** Boolean tests on a run, for the examples. *)
Definition reports_solvable (fp : nat) (G : Game) : bool :=
  match preprocess_board fp (save_board G) with Ok (_, true) => true | _ => false end.
Definition search_returns (fs : nat) (G : Game) : bool :=
  match find_solution fs G with Ok _ => true | _ => false end.

(** ** The search: vocabulary *)

(** The state in which [find_solution] enters its loops. *)
Definition search_start (G : Game) : search_state := mkSearch G 1 1 0 [].

(** The state after [n] steps of the search. *)
Fixpoint search_steps (n : nat) (s : search_state) : outcome (search_state + Game) :=
  match n with
  | O => Ok (inl s)
  | S n' =>
      r ← search_step s;
      match r with
      | inl s' => search_steps n' s'
      | inr G => Ok (inr G)
      end
  end.

Definition state_after (n : nat) (G : Game) : search_state :=
  match search_steps n (search_start G) with
  | Ok (inl s) => s
  | _ => search_start zero_game
  end.

(** Square (a, b) is scanned before square (i, j). *)
Definition before (a b i j : Z) : Prop := a < i \/ (a = i /\ b < j).

(** The stack, read from its top, goes back in scan order. *)
Fixpoint descending (l : list (Z * Z)) : Prop :=
  match l with
  | [] => True
  | c :: l' => (forall d, d ∈ l' -> before d.1 d.2 c.1 c.2) /\ descending l'
  end.

(** The stack holds exactly the unfrozen squares scanned so far, each with
    a value of the alphabet. *)
Definition stack_inv (s : search_state) : Prop :=
  let G := sG s in
  (1 <= si s /\ 1 <= sj s /\ 0 <= piece_to_place s)
  /\ descending (stack s)
  /\ (forall a b, (a, b) ∈ stack s ->
        on_board G a b /\ before a b (si s) (sj s)
        /\ frozen (sq G a b) = false /\ 1 <= cur_value (sq G a b) <= N2 G)
  /\ (forall a b, on_board G a b -> before a b (si s) (sj s) ->
        frozen (sq G a b) = false -> (a, b) ∈ stack s).

(** The search is at a dead end: the square under the cursor is unfrozen
    and no value above [piece_to_place] is a candidate in the top mask. *)
Definition dead_end (s : search_state) : Prop :=
  let G := sG s in
  let p := sq G (si s) (sj s) in
  on_board G (si s) (sj s)
  /\ frozen p = false
  /\ 0 <= topmask p < MAX_NUM_NEIGHBORS
  /\ forall k, piece_to_place s < k <= N2 G -> has_bit (cand p (topmask p)) k = false.

(** [dead_end] as a test. *)
Definition is_dead_end (s : search_state) : bool :=
  let G := sG s in
  let p := sq G (si s) (sj s) in
  (1 <=? si s) && (si s <=? N2 G) && (1 <=? sj s) && (sj s <=? N2 G)
  && negb (frozen p)
  && (0 <=? topmask p) && (topmask p <? MAX_NUM_NEIGHBORS)
  && forallb (fun k => negb (has_bit (cand p (topmask p)) k))
             (seqZ (piece_to_place s + 1) (N2 G - piece_to_place s)).

(** ** Uniqueness of the clues *)

(** The sizes of a game built by [init_board]. *)
Definition well_sized (G : Game) : Prop := 1 <= N G /\ N2 G = N G * N G.

(** Squares (a, b) and (a', b') lie in the same subsquare. *)
Definition same_subsquare (G : Game) (a b a' b' : Z) : Prop :=
  (a - 1) ÷ N G = (a' - 1) ÷ N G /\ (b - 1) ÷ N G = (b' - 1) ÷ N G.

(** Two squares see each other: they are different squares of one row, one
    column or one subsquare. *)
Definition sees (G : Game) (a b a' b' : Z) : Prop :=
  (a, b) <> (a', b') /\ (a = a' \/ b = b' \/ same_subsquare G a b a' b').

(** The clues violate partial uniqueness: some value of the alphabet
    occurs in two squares of one row, column or subsquare. *)
Definition clue_conflict (G : Game) : Prop :=
  exists a b a' b',
    on_board G a b /\ on_board G a' b' /\ sees G a b a' b'
    /\ cur_value (sq G a b) = cur_value (sq G a' b')
    /\ 1 <= cur_value (sq G a b) <= N2 G.

(** The units that [verify_solution] scans. *)
Definition all_units (G : Game) : list (list (Z * Z)) :=
  all_rows G ++ all_columns G ++ all_subsquares G.

(** Every square of the board holds 0 or a value of the alphabet. *)
Definition values_in_range (G : Game) : bool :=
  forallb (fun c => (0 <=? cur_value (sq G c.1 c.2)) && (cur_value (sq G c.1 c.2) <=? N2 G))
          (all_squares G).

(** How often the value [k] occurs in the squares [u]. *)
Definition occurrences (G : Game) (u : list (Z * Z)) (k : Z) : Z :=
  Z.of_nat (length (filter (fun c => cur_value (sq G c.1 c.2) = k) u)).

(** [clue_conflict] at two given squares, as a test. *)
Definition conflict_at (G : Game) (a b a' b' : Z) : bool :=
  (1 <=? a) && (a <=? N2 G) && (1 <=? b) && (b <=? N2 G)
  && (1 <=? a') && (a' <=? N2 G) && (1 <=? b') && (b' <=? N2 G)
  && negb ((a =? a') && (b =? b'))
  && ((a =? a') || (b =? b')
      || (((a - 1) ÷ N G =? (a' - 1) ÷ N G) && ((b - 1) ÷ N G =? (b' - 1) ÷ N G)))
  && (cur_value (sq G a b) =? cur_value (sq G a' b'))
  && (1 <=? cur_value (sq G a b)) && (cur_value (sq G a b) <=? N2 G).

(** ** The loader: vocabulary *)

(** The number of tokens of a line: every character that is not white
    space is one token ([load_file] reads one character per square). *)
Fixpoint tokens (s : string) : nat :=
  match s with
  | EmptyString => O
  | String c s' => if isspace c then tokens s' else S (tokens s')
  end.

(** The subsquare size after a call of [get_line] (0 if it failed). *)
Definition line_N (r : outcome (Game * string * list string)) : Z :=
  match r with Ok (G, _, _) => N G | _ => 0 end.


(** A size directive after the first data line of a 9x9 puzzle. *)
Definition late_directive_file : list string := file_of [
  "  - - 4   5 - -   - - 9";
  "//N=4";
  "  - 8 -   - 7 2   - - -";
  "  2 - 1   9 - -   - 7 -";
  "  - - -   2 5 -   9 - -";
  "  - 1 9   - - -   6 5 -";
  "  - - 2   - 9 7   - - -";
  "  - 6 -   - - 9   2 - 4 ";
  "  - - -   3 6 -   - 9 - ";
  "  1 - -   - - 8   3 - - "]%string.

(** The result of loading one row, for the examples. *)
Definition row_loads (G : Game) (i : Z) (line : string) : bool :=
  match load_row G i line with Ok _ => true | _ => false end.
Definition row_loaded (G : Game) (i : Z) (line : string) : Game :=
  match load_row G i line with Ok G' => G' | _ => zero_game end.

(** ** The board that [init_board] builds *)

(** The fields that [init_board] gives to square (i, j) of the game [G]
    (only the sizes of [G] matter). *)
Definition fresh_square (G : Game) (i j : Z) (p : Square) : Prop :=
  cur_value p = 0 /\ frozen p = false /\ topmask p = -1 /\ num_candidates p = 0
  /\ neighbor p = if (i =? 0) || (j =? 0)
                  then map (fun _ => (-1, -1)) (seqZ 0 (num_neighbors G))
                  else init_neighbors G i j.

(** The neighbor arrays of the board are those of [init_board]. *)
Definition neighbors_built (G : Game) : Prop :=
  well_sized G
  /\ num_neighbors G = 3 * N2 G - 2 * N G - 1
  /\ forall i j, on_board G i j -> neighbor (sq G i j) = init_neighbors G i j.

(** ** Exactness of the candidate masks *)

(** The bitmask on top of the candidate stack of a square. *)
Definition top_mask (p : Square) : Z := cand p (topmask p).

(** The invariant of the specification: for every unfrozen square of the
    board and every value [v] of the alphabet, bit [v] is set in the top
    mask exactly when no neighbor holds [v]. *)
Definition candidates_exact (G : Game) : Prop :=
  forall i j, on_board G i j -> frozen (sq G i j) = false ->
  forall v, 1 <= v <= N2 G ->
    (has_bit (top_mask (sq G i j)) v = true
     <-> forall c, c ∈ neighbor (sq G i j) -> cur_value (sq G c.1 c.2) <> v).

(** The same as a test, over the squares, values and neighbors of the
    board. *)
Definition candidates_exact_b (G : Game) : bool :=
  forallb (fun c =>
    let p := sq G c.1 c.2 in
    frozen p ||
    forallb (fun v =>
      Bool.eqb (has_bit (top_mask p) v)
               (forallb (fun d => negb (cur_value (sq G d.1 d.2) =? v)) (neighbor p)))
      (seqZ 1 (N2 G)))
    (all_squares G).

(** [neighbors_built] as a test. *)
Definition neighbors_built_b (G : Game) : bool :=
  (1 <=? N G) && (N2 G =? N G * N G) && (num_neighbors G =? 3 * N2 G - 2 * N G - 1)
  && forallb (fun c => bool_decide (neighbor (sq G c.1 c.2) = init_neighbors G c.1 c.2))
             (all_squares G).

(** Every unfrozen square of the board is empty. *)
Definition unfrozen_empty (G : Game) : Prop :=
  forall a b, on_board G a b -> frozen (sq G a b) = false -> cur_value (sq G a b) = 0.

(** The number of stack entries that are neighbors of a square: the depth
    of its candidate stack. *)
Definition depth (q : Square) (stk : list (Z * Z)) : Z :=
  Z.of_nat (length (filter (fun c => c ∈ neighbor q) stk)).

(** Every frame of every candidate stack is exact for the part of the move
    stack it was pushed for: for an unfrozen square [q] and a lower part
    [stk] of the move stack, frame [depth q stk] has bit [v] set exactly
    when no neighbor of [q] that is frozen or in [stk] holds [v]. *)
Definition frames_exact (s : search_state) : Prop :=
  let G := sG s in
  forall a b, on_board G a b -> frozen (sq G a b) = false ->
    topmask (sq G a b) = depth (sq G a b) (stack s)
    /\ forall pre stk, stack s = pre ++ stk ->
       forall v, 1 <= v <= N2 G ->
         (has_bit (cand (sq G a b) (depth (sq G a b) stk)) v = true
          <-> forall c, c ∈ neighbor (sq G a b) ->
                frozen (sq G c.1 c.2) = true \/ c ∈ stk ->
                cur_value (sq G c.1 c.2) <> v).

(** The invariant of the search. *)
Definition search_inv (s : search_state) : Prop :=
  stack_inv s
  /\ neighbors_built (sG s)
  /\ N2 (sG s) <= 64
  /\ (forall a b, on_board (sG s) a b -> frozen (sq (sG s) a b) = false ->
        (a, b) ∉ stack s -> cur_value (sq (sG s) a b) = 0)
  /\ frames_exact s.

(** What [update_neighbors] does to one unfrozen neighbor. *)
Definition restrict_square (piece_number : Z) (q : Square) : Square :=
  with_candidate (with_topmask q (topmask q + 1))
    (aset (candidate q) (topmask q + 1)
          (Z.land (cand q (topmask q)) (bnot64 (bit piece_number)))).
Definition release_square (q : Square) : Square := with_topmask q (topmask q - 1).
Definition moved_square (piece_number : Z) (make_avail : bool) (q : Square) : Square :=
  if make_avail then release_square q else restrict_square piece_number q.

(** A board on which the base candidates can be computed: the neighbor
    arrays of [init_board], at most 64 values, and no value on an unfrozen
    square. *)
Definition ready (G : Game) : Prop :=
  neighbors_built G /\ N2 G <= 64 /\ unfrozen_empty G.

(** The base candidates are exact and every candidate stack of an unfrozen
    square holds its base frame only. *)
Definition base_exact (G : Game) : Prop :=
  candidates_exact G
  /\ forall a b, on_board G a b -> frozen (sq G a b) = false -> topmask (sq G a b) = 0.

(** The board right after the call of [update_neighbors] that releases the
    move on top of the stack, before the value of the square is cleared. *)
Definition after_release (s : search_state) : outcome Game :=
  match stack s with
  | (i', j') :: _ =>
      let G := bump (sG s) Unstacking in
      update_neighbors G i' j' (cur_value (sq G i' j')) true
  | [] => AssertFail
  end.
Definition released (s : search_state) : Game :=
  match after_release s with Ok G => G | _ => zero_game end.
Definition release_returns (s : search_state) : bool :=
  match after_release s with Ok _ => true | _ => false end.

(** ** Boards that [load_file] produces *)

(** The neighbor arrays are those of [init_board] for a supported size,
    and every square in rows and columns 0 to [N2] holds 0 or a value of
    the alphabet, frozen when it is not 0. *)
Definition loaded_ok (G : Game) : Prop :=
  neighbors_built G /\ N G <= MAX_N
  /\ forall a b, 0 <= a <= N2 G -> 0 <= b <= N2 G ->
       0 <= cur_value (sq G a b) <= N2 G
       /\ (cur_value (sq G a b) = 0 \/ frozen (sq G a b) = true).

(** * Further functions of sudoku.c *)

(** ** Printing bit masks *)

(** The loop of [convert_bitmask]: one character for the leftmost bit of
    the 64-bit mask, then [b <<= 1] on a [uint64_t]. *)
Fixpoint convert_bits (n : nat) (b : Z) : string :=
  match n with
  | O => EmptyString
  | S n' =>
      String (if Z.land b 0x8000000000000000 =? 0 then "0"%char else "1"%char)
             (convert_bits n' (Z.land (Z.shiftl b 1) (Z.ones 64)))
  end.

(** [convert_bitmask]: the 64 characters stored in [s] before the NUL. *)
Definition convert_bitmask (b : Z) : string := convert_bits 64 b.

(** ** Solutions *)

(** The values on the board, as a function of the coordinates. *)
Definition values (G : Game) : Z -> Z -> Z := fun a b => cur_value (sq G a b).

(** [S] is a solution on the board of [G]: every square of the board gets
    a value from 1 to [N2], and two squares that see each other (two
    different squares of one row, column or subsquare) get different
    values. *)
Definition is_solution (G : Game) (S : Z -> Z -> Z) : Prop :=
  (forall a b, on_board G a b -> 1 <= S a b <= N2 G)
  /\ forall a b a' b', on_board G a b -> on_board G a' b' -> sees G a b a' b' ->
       S a b <> S a' b'.

(** The board of [G] is a solved Sudoku. *)
Definition solved (G : Game) : Prop := is_solution G (values G).

(** No two squares that see each other hold the same value, empty squares
    apart. *)
Definition conflict_free (G : Game) : Prop :=
  forall a b a' b', on_board G a b -> on_board G a' b' -> sees G a b a' b' ->
    values G a b = values G a' b' -> values G a b = 0.

(** Every frozen square of the board holds a value of the alphabet. *)
Definition frozen_valued (G : Game) : Prop :=
  forall a b, on_board G a b -> frozen (sq G a b) = true -> 1 <= cur_value (sq G a b) <= N2 G.

(** [S] agrees with the board of [G] on every frozen square: [S] keeps
    the clues. *)
Definition extends (G : Game) (S : Z -> Z -> Z) : Prop :=
  forall a b, on_board G a b -> frozen (sq G a b) = true -> cur_value (sq G a b) = S a b.

(** The number of candidates in a mask: the positions from 1 to [N2]
    whose bit is set. *)
Definition popcount (G : Game) (b : Z) : Z :=
  Z.of_nat (length (filter (fun v => has_bit b v = true) (seqZ 1 (N2 G)))).

(** Square [c] is unfrozen and has the value [k] among its base
    candidates. *)
Definition offers (G : Game) (k : Z) (c : Z * Z) : Prop :=
  frozen (sq G c.1 c.2) = false /\ has_bit (cand (sq G c.1 c.2) 0) k = true.

#[global] Instance offers_dec G k c : Decision (offers G k c).
Proof. unfold offers. apply _. Defined.

(** The state of the board inside one pass of preprocessing, with respect
    to a solution [S]: the board can still be completed to [S], the count
    of every unfrozen square is the number of candidates in its base mask,
    and that mask holds the value of [S]. *)
Definition pass_inv (G : Game) (S : Z -> Z -> Z) : Prop :=
  ready G /\ extends G S
  /\ forall i j, on_board G i j -> frozen (sq G i j) = false ->
       num_candidates (sq G i j) = popcount G (cand (sq G i j) 0)
       /\ has_bit (cand (sq G i j) 0) (S i j) = true.

(** The frozen squares of [G] hold the same values on the board of [G'],
    as a test. *)
Definition agrees_b (G G' : Game) : bool :=
  forallb (fun c => negb (frozen (sq G c.1 c.2))
                    || (cur_value (sq G c.1 c.2) =? cur_value (sq G' c.1 c.2)))
          (all_squares G).

(** [frozen_valued] as a test. *)
Definition frozen_valued_b (G : Game) : bool :=
  forallb (fun c => negb (frozen (sq G c.1 c.2))
                    || ((1 <=? cur_value (sq G c.1 c.2)) && (cur_value (sq G c.1 c.2) <=? N2 G)))
          (all_squares G).

(** The loader accepts the file, as a test. *)
Definition loads (file : list string) : bool :=
  match load_file (init_board zero_game 3) file true with Ok _ => true | _ => false end.

(** ** Safety of the search *)

(** The board has room for its candidate stacks: [num_squares] is the
    number of squares of the board, and a square has fewer neighbors than
    its candidate array has elements. *)
Definition roomy (G : Game) : Prop :=
  num_squares G = N2 G * N2 G /\ num_neighbors G < MAX_NUM_NEIGHBORS.

(** What one call of [update_neighbors] needs from an unfrozen neighbor:
    a frame to pop, or a stack with room for one more frame. *)
Definition can_move (make_avail : bool) (q : Square) : Prop :=
  if make_avail then 1 <= topmask q
  else 0 <= topmask q /\ topmask q + 1 < MAX_NUM_NEIGHBORS.

(** ** The search and a solution

    The search tries the values of every unfrozen square in increasing
    order, so the assignments it goes through come in lexicographic order
    (squares in scan order).  With respect to a solution [S], a state is
    [on_track] when every placed value is the one of [S] and the value of
    [S] for the square under the cursor is still to be tried, and [behind]
    when some placed value is smaller than the one of [S] while all values
    placed earlier are those of [S]. *)
Definition on_track (s : search_state) (S : Z -> Z -> Z) : Prop :=
  (forall a b, (a, b) ∈ stack s -> values (sG s) a b = S a b)
  /\ (on_board (sG s) (si s) (sj s) -> frozen (sq (sG s) (si s) (sj s)) = false ->
      piece_to_place s < S (si s) (sj s))
  /\ (~ (on_board (sG s) (si s) (sj s) /\ frozen (sq (sG s) (si s) (sj s)) = false) ->
      piece_to_place s = 0).

Definition behind (s : search_state) (S : Z -> Z -> Z) : Prop :=
  exists a b, (a, b) ∈ stack s /\ values (sG s) a b < S a b
    /\ forall c d, (c, d) ∈ stack s -> before c d a b -> values (sG s) c d = S c d.

(** The search has not gone past the solution [S]. *)
Definition not_past (s : search_state) (S : Z -> Z -> Z) : Prop :=
  search_inv s /\ is_solution (sG s) S /\ extends (sG s) S
  /\ (on_track s S \/ behind s S).

(** ** Statistics *)

(** The number of frozen squares of the board. *)
Definition frozen_count (G : Game) : Z :=
  Z.of_nat (length (filter (fun c => frozen (sq G c.1 c.2) = true) (all_squares G))).

(** The integers that [print_statistics] computes from the counters
    before it prints them. *)
Definition num_empty_squares_originally (G : Game) : Z :=
  num_squares G - num_occupied_squares_originally (stats G).
Definition num_optimizations (G : Game) : Z :=
  num_frozen_as_only_candidate (stats G) + num_frozen_by_row_optimization (stats G)
  + num_frozen_by_column_optimization (stats G)
  + num_frozen_by_subsquare_optimization (stats G).
Definition num_occupied_squares_after_optimization (G : Game) : Z :=
  num_occupied_squares_originally (stats G) + num_optimizations G.
Definition num_empty_squares_after_optimization (G : Game) : Z :=
  num_squares G - num_occupied_squares_after_optimization G.

(** From [G] to [G'] every freeze was counted: the sizes and the number of
    clues are the same, the frozen squares have grown by as many as the
    four counters of the rules, and none was lost. *)
Definition counted (G G' : Game) : Prop :=
  N G' = N G /\ N2 G' = N2 G /\ num_squares G' = num_squares G
  /\ num_occupied_squares_originally (stats G') = num_occupied_squares_originally (stats G)
  /\ frozen_count G' - num_optimizations G' = frozen_count G - num_optimizations G
  /\ frozen_count G <= frozen_count G'.

(** ** The loader: lines and characters *)

(** A line without its white space. *)
Fixpoint squeeze (s : string) : string :=
  match s with
  | EmptyString => EmptyString
  | String c s' => if isspace c then squeeze s' else String c (squeeze s')
  end.

(** What one character of a data line puts on a square: the marker [-]
    an empty, unfrozen square, every other accepted character a frozen
    value. *)
Definition char_value (c : ascii) : Z :=
  if code c =? code "-" then 0 else map_alphabet_to_int c.
Definition char_frozen (c : ascii) : bool := negb (code c =? code "-").

(** A character that [load_file] accepts for a square of [G]. *)
Definition char_ok (G : Game) (c : ascii) : bool :=
  (code c =? code "-")
  || negb ((map_alphabet_to_int c =? -1) || (N2 G <? map_alphabet_to_int c)).

(** The kinds of line that [get_line] tells apart. *)
Definition comment_line (l : string) : bool := starts_with2 "/" "/" l.
Definition directive_line (l : string) : bool :=
  comment_line l && starts_with2 "N" "=" (advance 2 l).
Definition blank_line (l : string) : bool :=
  match trim_trailing l with EmptyString => true | _ => false end.
Definition data_line (l : string) : bool := negb (comment_line l) && negb (blank_line l).

(** The data lines of a file. *)
Definition data_lines (file : list string) : list string :=
  filter (fun l => data_line l = true) file.

(** The first data line, trimmed, and the lines after it. *)
Fixpoint next_data (file : list string) : option (string * list string) :=
  match file with
  | [] => None
  | l :: rest => if data_line l then Some (trim_trailing l, rest) else next_data rest
  end.

(** The outcome of a loading step without the read position. *)
Definition board_of (r : outcome (Game * string)) : outcome Game :=
  match r with
  | Ok (G, _) => Ok G
  | AssertFail => AssertFail
  | OutOfBounds => OutOfBounds
  | Exit1 => Exit1
  | NoFuel => NoFuel
  end.

(** No size directive can take effect: the directive is switched off, or
    no line of the file is one. *)
Definition plain (allowN : bool) (file : list string) : Prop :=
  allowN = false \/ forall l, l ∈ file -> directive_line l = false.

(** The books of the loader balance: the counter of occupied squares is
    the number of frozen squares, no rule has counted anything yet,
    [num_squares] is the number of squares of the board, and a square is
    frozen exactly when it holds a value. *)
Definition load_inv (G : Game) : Prop :=
  num_occupied_squares_originally (stats G) = frozen_count G
  /\ num_optimizations G = 0
  /\ num_squares G = N2 G * N2 G
  /\ forall a b, on_board G a b -> (frozen (sq G a b) = true <-> cur_value (sq G a b) <> 0).

(** The squares from (i, j) on, in scan order, are still as [init_board]
    left them: empty and unfrozen. *)
Definition fresh_from (G : Game) (i j : Z) : Prop :=
  forall a b, on_board G a b -> i < a \/ (a = i /\ j <= b) ->
    frozen (sq G a b) = false /\ cur_value (sq G a b) = 0.

(** ** Termination of the search *)

#[global] Instance before_dec a b i j : Decision (before a b i j).
Proof. unfold before. apply _. Defined.

(** The unfrozen squares that the cursor has not passed. *)
Definition remaining (s : search_state) : Z :=
  Z.of_nat (length (filter (fun c => frozen (sq (sG s) c.1 c.2) = false
                                     /\ ~ before c.1 c.2 (si s) (sj s))
                           (all_squares (sG s)))).

(** The way of the cursor to the end of the board. *)
Definition distance (s : search_state) : Z :=
  (N2 (sG s) + 1 - si s) * (N2 (sG s) + 2) + (N2 (sG s) + 1 - sj s).

(** What is left to do, in lexicographic order: the squares not passed,
    the values not tried on the square under the cursor, the way to the
    end of the board. *)
Definition effort (s : search_state) : Z :=
  (remaining s * (N2 (sG s) + 2) + (N2 (sG s) + 1 - piece_to_place s))
  * ((N2 (sG s) + 2) * (N2 (sG s) + 2))
  + distance s.

(** A state of the search on a board with room, with the cursor and the
    threshold in their ranges. *)
Definition searching (s : search_state) : Prop :=
  search_inv s /\ roomy (sG s)
  /\ si s <= N2 (sG s) + 1 /\ sj s <= N2 (sG s) + 1 /\ piece_to_place s <= N2 (sG s).

(** The search has left the part of the tree above the state [s]: it has
    returned, or it has given up at a dead end with nothing to undo, or
    it has just undone the move that was on top of the stack of [s]. *)
Definition unwound (s : search_state) (r : outcome (search_state + Game)) : Prop :=
  match r with
  | Ok (inr _) => True
  | Ok (inl s') =>
      searching s'
      /\ exists p rest, stack s = p :: rest /\ stack s' = rest
           /\ si s' = p.1 /\ sj s' = p.2
           /\ piece_to_place s' = values (sG s) p.1 p.2
           /\ forall c, c ∈ rest -> values (sG s') c.1 c.2 = values (sG s) c.1 c.2
  | AssertFail => stack s = []
  | _ => False
  end.

(** ** The outcomes of a run *)

(** The count of every unfrozen square is the number of candidates in its
    base mask, as [find_candidate] leaves it. *)
Definition counted_masks (G : Game) : Prop :=
  forall i j, on_board G i j -> frozen (sq G i j) = false ->
    num_candidates (sq G i j) = popcount G (cand (sq G i j) 0).

(** No solved Sudoku keeps the frozen squares of [G]. *)
Definition unsolvable (G : Game) : Prop :=
  ~ exists S, is_solution G S /\ extends G S.

(** The clues are kept from [G] to [G']. *)
Definition clues_in (G G' : Game) : Prop :=
  forall a b, on_board G a b -> frozen (sq G a b) = true ->
    cur_value (sq G' a b) = cur_value (sq G a b).

(** The values [V] come first in reading order: they are those of [S] on
    the whole board of [G], or at the first square, in scan order, where
    the two differ the value of [V] is the smaller one. *)
Definition first_in_scan_order (G : Game) (V S : Z -> Z -> Z) : Prop :=
  (forall a b, on_board G a b -> V a b = S a b)
  \/ exists a b, on_board G a b /\ V a b < S a b
       /\ forall c d, on_board G c d -> before c d a b -> V c d = S c d.

(** ** The sums of candidates *)

(** The values of the alphabet that no neighbor of square [c] holds. *)
Definition free_values (G : Game) (c : Z * Z) : list Z :=
  filter (fun v => Forall (fun d => cur_value (sq G d.1 d.2) <> v) (neighbor (sq G c.1 c.2)))
         (seqZ 1 (N2 G)).

(** Their number, summed over the unfrozen squares of the board. *)
Definition free_total (G : Game) : Z :=
  foldr Z.add 0
        (map (fun c => Z.of_nat (length (free_values G c)))
             (filter (fun c => frozen (sq G c.1 c.2) = false) (all_squares G))).

(** ** Printing the board

    [print_board (G, false)], the only call of [print_board] in the
    program, as the text it writes to stdout. *)

Definition LINESIZE : nat := 500.

(** The rows of [print_board]: two blanks, then for every square its
    character and one blank, or three blanks after the last column of a
    subsquare that is not the last of the row; the line terminator; and an
    empty line after the last row of a band of subsquares that is not the
    last of the board.  [%] is the remainder of C ([Z.rem]); the C program
    divides by [G->N], which is at least 1 on every board of
    [init_board]. *)
Definition print_row (G : Game) (i : Z) : outcome string :=
  out ← ofold (fun out j =>
                 ch ← map_int_to_alphabet G (cur_value (sq G i j));
                 Ok (out +:+ String ch (if (j <? N2 G) && (Z.rem j (N G) =? 0)
                                        then "   " else " ")))
              "  "%string (seqZ 1 (N2 G));
  Ok (out +:+ nl +:+ (if (i <? N2 G) && (Z.rem i (N G) =? 0) then nl else "")).

(** [print_board] with [everything] false: an empty line, the size
    directive unless the size is 3 ([%d] prints the decimal numeral), and
    the rows. *)
Definition print_board (G : Game) : outcome string :=
  ofold (fun out i => r ← print_row G i; Ok (out +:+ r))
        (nl +:+ (if N G =? 3 then "" else "//N=" +:+ pretty (N G) +:+ nl +:+ nl))
        (seqZ 1 (N2 G)).

(** The strings that successive calls of [fgets (linebuff, size, infp)]
    return on a file with the contents [text]: every call reads up to and
    including the next line terminator, but [size - 1] characters at most.
    [room] is the number of characters that the current call can still
    read and [cur] what it has read. *)
Fixpoint fgets_go (size room : nat) (cur text : string) : list string :=
  match text with
  | EmptyString => match cur with EmptyString => [] | _ => [cur] end
  | String c t =>
      let cur' := cur +:+ String c EmptyString in
      if (code c =? 10) || (room <=? 1)%nat
      then cur' :: fgets_go size (size - 1) EmptyString t
      else fgets_go size (room - 1) cur' t
  end.

Definition fgets_lines (size : nat) (text : string) : list string :=
  fgets_go size (size - 1) EmptyString text.

(** The output of [print_board] line by line. *)
Definition glyph (v : Z) : ascii := default zero (String.get (Z.to_nat v) mapToInt).

Definition gap (G : Game) (j : Z) : string :=
  if (j <? N2 G) && (Z.rem j (N G) =? 0) then "   " else " ".

Fixpoint cells (G : Game) (i : Z) (js : list Z) : string :=
  match js with
  | [] => EmptyString
  | j :: js' => String (glyph (cur_value (sq G i j))) (gap G j +:+ cells G i js')
  end.

Fixpoint glyphs (G : Game) (i : Z) (js : list Z) : string :=
  match js with
  | [] => EmptyString
  | j :: js' => String (glyph (cur_value (sq G i j))) (glyphs G i js')
  end.

Definition row_line (G : Game) (i : Z) : string :=
  "  " +:+ cells G i (seqZ 1 (N2 G)) +:+ nl.

Definition band_end (G : Game) (i : Z) : bool := (i <? N2 G) && (Z.rem i (N G) =? 0).

Definition row_lines (G : Game) (rows : list Z) : list string :=
  flat_map (fun i => row_line G i :: (if band_end G i then [nl] else [])) rows.

Definition header_lines (G : Game) : list string :=
  nl :: (if N G =? 3 then [] else ["//N=" +:+ pretty (N G) +:+ nl; nl]).

Definition printed_lines (G : Game) : list string :=
  header_lines G ++ row_lines G (seqZ 1 (N2 G)).

Definition concat_lines (ls : list string) : string :=
  foldr String.append EmptyString ls.

Fixpoint no_newline (s : string) : bool :=
  match s with
  | EmptyString => true
  | String c s' => negb (code c =? 10) && no_newline s'
  end.

Fixpoint no_nul (s : string) : bool :=
  match s with
  | EmptyString => true
  | String c s' => negb (code c =? 0) && no_nul s'
  end.

(** A line that one call of [fgets] with a buffer of [size] characters
    returns whole: it ends with its only line terminator and is shorter
    than the buffer. *)
Definition whole_line (size : nat) (l : string) : Prop :=
  exists body, l = body +:+ nl /\ no_newline body = true
               /\ (String.length body + 1 < size)%nat.

(** The facts about the character of a value that printing and loading
    rely on, as a test. *)
Definition glyph_ok (v : Z) : bool :=
  negb (isspace (glyph v)) && negb (code (glyph v) =? 10)
  && (char_value (glyph v) =? v)
  && Bool.eqb (char_frozen (glyph v)) (negb (v =? 0))
  && ((v =? 0) || negb (map_alphabet_to_int (glyph v) =? -1)).

(** [n] times the character [c]. *)
Fixpoint pad (n : nat) (c : ascii) : string :=
  match n with
  | O => EmptyString
  | S n' => String c (pad n' c)
  end.

(** ** Lines with more text *)





(** * Basic facts about the state *)

#[global] Arguments compute_candidate_stats : simpl never.
#[global] Arguments find_candidates : simpl never.
#[global] Arguments find_candidate : simpl never.
#[global] Arguments check_for_only_one_candidate : simpl never.
#[global] Arguments try_row_optimization : simpl never.
#[global] Arguments try_column_optimization : simpl never.
#[global] Arguments try_subsquare_optimization : simpl never.
#[global] Arguments freeze_one : simpl never.
#[global] Arguments bump : simpl never.
#[global] Arguments update_neighbors : simpl never.
#[global] Arguments update_neighbor : simpl never.
#[global] Arguments set_sq : simpl never.
#[global] Arguments set_stats : simpl never.
#[global] Arguments sq : simpl never.
#[global] Arguments init_board : simpl never.
#[global] Arguments bit : simpl never.
#[global] Arguments clear_candidates : simpl never.
#[global] Arguments neighbors_of : simpl never.
#[global] Arguments seqZ : simpl never.
#[global] Arguments advance : simpl never.
#[global] Arguments atoi : simpl never.
#[global] Arguments starts_with2 : simpl never.
#[global] Arguments trim_trailing : simpl never.
#[global] Arguments load_row : simpl never.
#[global] Arguments map_alphabet_to_int : simpl never.

Lemma sq_set_sq_eq G i j p : sq (set_sq G i j p) i j = p.
Proof. unfold sq, set_sq; simpl. by rewrite lookup_insert_eq. Qed.

Lemma set_sq_params G i j p :
  N (set_sq G i j p) = N G /\ N2 (set_sq G i j p) = N2 G
  /\ num_squares (set_sq G i j p) = num_squares G
  /\ num_neighbors (set_sq G i j p) = num_neighbors G
  /\ saved_board (set_sq G i j p) = saved_board G.
Proof. done. Qed.

Lemma sq_set_sq_ne G i j p a b : (i, j) <> (a, b) -> sq (set_sq G i j p) a b = sq G a b.
Proof. intros H. unfold sq, set_sq; simpl. by rewrite lookup_insert_ne. Qed.

Lemma sq_set_sq G i j p a b :
  sq (set_sq G i j p) a b = if decide ((i, j) = (a, b)) then p else sq G a b.
Proof.
  case_decide as H.
  - inversion H; subst. apply sq_set_sq_eq.
  - by apply sq_set_sq_ne.
Qed.

Lemma sq_set_stats G st a b : sq (set_stats G st) a b = sq G a b.
Proof. reflexivity. Qed.

Lemma aget_aset_eq a k v : aget (aset a k v) k = v.
Proof. unfold aget, aset. by rewrite lookup_insert_eq. Qed.

Lemma aget_aset_ne a k k' v : k <> k' -> aget (aset a k v) k' = aget a k'.
Proof. intros. unfold aget, aset. by rewrite lookup_insert_ne. Qed.

Lemma aget_ainc a k k' : aget (ainc a k) k' = if decide (k = k') then aget a k + 1 else aget a k'.
Proof.
  unfold ainc. case_decide; subst.
  - apply aget_aset_eq.
  - by apply aget_aset_ne.
Qed.

Lemma aget_empty k : aget ∅ k = 0.
Proof. reflexivity. Qed.

Lemma obind_Ok {A B} (m : outcome A) (f : A -> outcome B) (b : B) :
  (x ← m; f x) = Ok b -> exists a, m = Ok a /\ f a = Ok b.
Proof. destruct m; simpl; try discriminate. eauto. Qed.

Lemma elem_of_seqZ' (m len k : Z) : k ∈ seqZ m len <-> m <= k < m + len.
Proof. rewrite elem_of_seqZ. lia. Qed.

Lemma forallb_seqZ (f : Z -> bool) (m len : Z) :
  forallb f (seqZ m len) = true <-> forall k, m <= k < m + len -> f k = true.
Proof.
  rewrite forallb_forall. split; intros H k Hk; apply H.
  - by apply list_elem_of_In, elem_of_seqZ'.
  - by apply list_elem_of_In, elem_of_seqZ' in Hk.
Qed.


Lemma elem_of_all_squares G a b : (a, b) ∈ all_squares G <-> on_board G a b.
Proof.
  unfold all_squares, on_board. rewrite list_elem_of_In, in_flat_map. split.
  - intros (i & Hi & Hin). apply list_elem_of_In, elem_of_seqZ' in Hi.
    apply list_elem_of_In, list_elem_of_fmap in Hin as (j & E & Hj).
    apply elem_of_seqZ' in Hj. inversion E; subst. lia.
  - intros [Ha Hb]. exists a. split.
    + apply list_elem_of_In, elem_of_seqZ'. lia.
    + apply list_elem_of_In, list_elem_of_fmap. exists b. split; [done|].
      apply elem_of_seqZ'. lia.
Qed.


(** * The alphabet maps (claim C10) *)

Lemma alphabet_table_ok :
  forallb (fun i => map_alphabet_to_int (default zero (String.get (Z.to_nat i) mapToInt)) =? i)
          (seqZ 1 64) = true.
Proof. vm_compute. reflexivity. Qed.

Lemma map_alphabet_to_int_minus1 (c : ascii) :
  (map_alphabet_to_int c =? -1) = negb (in_alphabet c).
Proof. destruct c as [[] [] [] [] [] [] [] []]; vm_compute; reflexivity. Qed.

(** C10.  On the value range the two alphabet maps are mutually inverse:
    for a game whose board side is at most 64 (the size of the table) and
    every [i] with [1 <= i <= N2], [map_int_to_alphabet] returns a
    character that [map_alphabet_to_int] sends back to [i]; 0 is printed as
    the blank marker ['-'], which is outside the value alphabet; and
    [map_alphabet_to_int] returns -1 exactly for the characters outside the
    table 1-9, 0, A-Z, a-z, #, $. *)
Theorem alphabet_maps_inverse (G : Game) :
  0 <= N2 G <= 64 ->
  (forall i, 1 <= i <= N2 G ->
     exists c, map_int_to_alphabet G i = Ok c /\ map_alphabet_to_int c = i)
  /\ map_int_to_alphabet G 0 = Ok "-"%char
  /\ ~ In "-"%char alphabet
  /\ (forall c, map_alphabet_to_int c = -1 <-> ~ In c alphabet).
Proof.
  intros HN. repeat split.
  - intros i Hi. unfold map_int_to_alphabet.
    replace ((0 <=? i) && (i <=? N2 G)) with true by lia.
    replace (66 <=? i) with false by lia. simpl.
    eexists; split; [reflexivity|].
    pose proof alphabet_table_ok as H.
    rewrite forallb_forall in H.
    specialize (H i). apply Z.eqb_eq, H.
    apply list_elem_of_In, elem_of_seqZ'. lia.
  - unfold map_int_to_alphabet.
    replace ((0 <=? 0) && (0 <=? N2 G)) with true by lia. reflexivity.
  - intros H. vm_compute in H. intuition discriminate.
  - intros H Hin.
    assert (in_alphabet c = true) as Hc.
    { apply existsb_exists. exists c. split; [done|]. apply Ascii.eqb_refl. }
    pose proof (map_alphabet_to_int_minus1 c) as E. rewrite Hc in E. simpl in E. lia.
  - intros H. apply Z.eqb_eq. rewrite map_alphabet_to_int_minus1.
    destruct (in_alphabet c) eqn:E; [|done].
    apply existsb_exists in E as (x & Hx & Heq). apply Ascii.eqb_eq in Heq. subst. done.
Qed.

Lemma alphabet_maps_inverse_witness :
  (exists c, map_int_to_alphabet (loaded usage_file) 9 = Ok c /\ map_alphabet_to_int c = 9)
  /\ map_int_to_alphabet (loaded usage_file) 0 = Ok "-"%char.
Proof.
  assert (0 <= N2 (loaded usage_file) <= 64) as H by (vm_compute; split; discriminate).
  destruct (alphabet_maps_inverse (loaded usage_file) H) as (H1 & H2 & _).
  split; [apply H1; vm_compute; split; discriminate | exact H2].
Defined.

(** * Frame lemmas: what each operation leaves alone *)

Lemma foldl_invariant {A B} (P : A -> Prop) (f : A -> B -> A) (l : list B) (a : A) :
  P a -> (forall a b, b ∈ l -> P a -> P (f a b)) -> P (foldl f a l).
Proof.
  revert a. induction l as [|b l IH]; intros a Ha Hf; simpl; [done|].
  apply IH.
  - apply Hf; [left | done].
  - intros a' b' Hb'. apply Hf. by right.
Qed.

Lemma ofold_invariant {A B} (P : A -> Prop) (f : A -> B -> outcome A) (l : list B) (a a' : A) :
  P a -> (forall a b a', b ∈ l -> P a -> f a b = Ok a' -> P a') ->
  ofold f a l = Ok a' -> P a'.
Proof.
  revert a. induction l as [|b l IH]; intros a Ha Hf; simpl.
  - intros [= <-]. done.
  - intros H. apply obind_Ok in H as (a1 & H1 & H2).
    apply (IH a1); [| |done].
    + eapply Hf; [left | done | done].
    + intros x y z Hy. apply Hf. by right.
Qed.

Section Frames.

Lemma same_frame_refl G : same_frame G G.
Proof. by repeat split. Qed.

Lemma same_frame_trans G1 G2 G3 : same_frame G1 G2 -> same_frame G2 G3 -> same_frame G1 G3.
Proof. unfold same_frame. intros (?&?&?&?&?) (?&?&?&?&?). repeat split; congruence. Qed.

Lemma keeps_frozen_refl G : keeps_frozen G G.
Proof. split; [apply same_frame_refl | done]. Qed.

Lemma keeps_frozen_trans G1 G2 G3 :
  keeps_frozen G1 G2 -> keeps_frozen G2 G3 -> keeps_frozen G1 G3.
Proof.
  intros [F1 H1] [F2 H2]. split; [by eapply same_frame_trans|].
  intros a b. destruct (H1 a b) as [N1 K1], (H2 a b) as [N2' K2].
  split; [congruence|]. intros Hf.
  rewrite <- (K1 Hf). apply K2. by rewrite (K1 Hf).
Qed.

Lemma keeps_flags_refl G : keeps_flags G G.
Proof. split; [apply keeps_frozen_refl | done]. Qed.

Lemma keeps_flags_trans G1 G2 G3 :
  keeps_flags G1 G2 -> keeps_flags G2 G3 -> keeps_flags G1 G3.
Proof.
  intros [F1 H1] [F2 H2]. split; [by eapply keeps_frozen_trans|].
  intros a b. by rewrite H2, H1.
Qed.

Lemma keeps_values_refl G : keeps_values G G.
Proof. split; [apply keeps_flags_refl | done]. Qed.

Lemma keeps_values_trans G1 G2 G3 :
  keeps_values G1 G2 -> keeps_values G2 G3 -> keeps_values G1 G3.
Proof.
  intros [F1 H1] [F2 H2]. split; [by eapply keeps_flags_trans|].
  intros a b. by rewrite H2, H1.
Qed.

(** Writing an unfrozen square. *)
Lemma set_sq_keeps_frozen G i j p :
  frozen (sq G i j) = false -> neighbor p = neighbor (sq G i j) ->
  keeps_frozen G (set_sq G i j p).
Proof.
  intros Hf Hn. split; [apply set_sq_params|].
  intros a b. rewrite sq_set_sq. case_decide as E.
  - inversion E; subst. split; [done|]. rewrite Hf. discriminate.
  - done.
Qed.

Lemma set_sq_keeps_flags G i j p :
  frozen (sq G i j) = false -> frozen p = false -> neighbor p = neighbor (sq G i j) ->
  keeps_flags G (set_sq G i j p).
Proof.
  intros Hf Hp Hn. split; [by apply set_sq_keeps_frozen|].
  intros a b. rewrite sq_set_sq. case_decide as E; [|done].
  inversion E; subst. congruence.
Qed.

Lemma set_sq_keeps_values G i j p :
  frozen (sq G i j) = false -> frozen p = false -> neighbor p = neighbor (sq G i j) ->
  cur_value p = cur_value (sq G i j) ->
  keeps_values G (set_sq G i j p).
Proof.
  intros Hf Hp Hn Hv. split; [by apply set_sq_keeps_flags|].
  intros a b. rewrite sq_set_sq. case_decide as E; [|done].
  inversion E; subst. congruence.
Qed.

Lemma set_stats_keeps_values G st : keeps_values G (set_stats G st).
Proof. repeat split. Qed.

Lemma bump_keeps_values G c : keeps_values G (bump G c).
Proof. apply set_stats_keeps_values. Qed.

Lemma compute_candidate_stats_keeps_values G b :
  keeps_values G (compute_candidate_stats G b).
Proof. unfold compute_candidate_stats. destruct b; apply set_stats_keeps_values. Qed.

Lemma keeps_values_frozen G G' : keeps_values G G' -> keeps_frozen G G'.
Proof. by intros [[? _] _]. Qed.

Lemma keeps_flags_frozen G G' : keeps_flags G G' -> keeps_frozen G G'.
Proof. by intros [? _]. Qed.

Lemma keeps_values_flags G G' : keeps_values G G' -> keeps_flags G G'.
Proof. by intros [? _]. Qed.

(** [find_candidate] and [find_candidates] move candidate stacks only. *)
Lemma find_candidate_keeps_values G row col :
  keeps_values G (find_candidate G row col).1.
Proof.
  unfold find_candidate.
  destruct (frozen (sq G row col)) eqn:Hf; [apply keeps_values_refl|].
  destruct (foldl _ (0, 0) _) as [b n]. simpl.
  by apply set_sq_keeps_values.
Qed.

Lemma find_candidates_keeps_values G : keeps_values G (find_candidates G).1.
Proof.
  unfold find_candidates.
  apply (foldl_invariant (fun r => keeps_values G r.1)); [apply keeps_values_refl|].
  intros [G1 r] c _ H. simpl in *.
  pose proof (find_candidate_keeps_values G1 c.1 c.2) as H'.
  destruct (find_candidate G1 c.1 c.2) as [G2 ok]. simpl in *.
  by eapply keeps_values_trans.
Qed.

(** [freeze_one] on an unfrozen square. *)
Lemma freeze_one_keeps_frozen G row col piece :
  frozen (sq G row col) = false -> keeps_frozen G (freeze_one G row col piece).
Proof. intros Hf. unfold freeze_one. by apply set_sq_keeps_frozen. Qed.

Lemma check_for_only_one_candidate_keeps_frozen G :
  keeps_frozen G (check_for_only_one_candidate G).1.
Proof.
  unfold check_for_only_one_candidate.
  apply (foldl_invariant (fun r => keeps_frozen G r.1)); [apply keeps_frozen_refl|].
  intros [G1 r] c _ H. simpl in *.
  destruct (frozen (sq G1 c.1 c.2)) eqn:Hf; simpl; [done|].
  destruct (num_candidates (sq G1 c.1 c.2) =? 1); simpl; [|done].
  eapply keeps_frozen_trans; [exact H|].
  eapply keeps_frozen_trans; [by apply freeze_one_keeps_frozen|].
  apply keeps_values_frozen, bump_keeps_values.
Qed.

(** The scan of a unit remembers unfrozen squares only, and remembers
    one for every value it has counted. *)
Lemma scan_unit_index G squares seen index :
  scan_unit G squares = (seen, index) ->
  (forall k, 0 <= aget seen k)
  /\ (forall k, aget seen k <> 0 -> is_Some (index !! k))
  /\ (forall k c, index !! k = Some c -> c ∈ squares /\ frozen (sq G c.1 c.2) = false).
Proof.
  unfold scan_unit.
  set (P := fun (l : list (Z * Z)) (r : gmap Z Z * gmap Z (Z * Z)) =>
    (forall k, 0 <= aget r.1 k)
    /\ (forall k, aget r.1 k <> 0 -> is_Some (r.2 !! k))
    /\ (forall k c, r.2 !! k = Some c -> c ∈ l /\ frozen (sq G c.1 c.2) = false)).
  assert (forall l done0 acc, P done0 acc ->
    P (done0 ++ l) (foldl (fun acc c =>
         let p := sq G c.1 c.2 in
         if frozen p then acc
         else foldl (fun '(seen, index) k =>
                    if has_bit (cand p 0) k then (ainc seen k, <[k := c]> index)
                    else (seen, index)) acc (seqZ 1 (N2 G))) acc l)) as Hgen.
  { induction l as [|c l IH]; intros done0 acc Hacc; simpl.
    - by rewrite app_nil_r.
    - replace (done0 ++ c :: l) with ((done0 ++ [c]) ++ l) by (by rewrite <- app_assoc).
      apply IH.
      destruct (frozen (sq G c.1 c.2)) eqn:Hf.
      + destruct Hacc as (H1 & H2 & H3). repeat split; [done..| |].
        * apply elem_of_app. left. by eapply H3.
        * by eapply H3.
      + apply (foldl_invariant (P (done0 ++ [c]))).
        * destruct Hacc as (H1 & H2 & H3). repeat split; [done..| |].
          -- apply elem_of_app. left. by eapply H3.
          -- by eapply H3.
        * intros [s ix] k _ (H1 & H2 & H3). simpl in *.
          destruct (has_bit (cand (sq G c.1 c.2) 0) k); [|done].
          split; [|split]; simpl.
          -- intros k'. rewrite aget_ainc. case_decide; [specialize (H1 k)|specialize (H1 k')]; lia.
          -- intros k'. rewrite aget_ainc. case_decide as E.
             ++ subst. rewrite lookup_insert_eq. eauto.
             ++ rewrite lookup_insert_ne by done. apply H2.
          -- intros k' c' Hk'. destruct (decide (k = k')) as [->|E].
             ++ rewrite lookup_insert_eq in Hk'. injection Hk' as <-.
                split; [|done]. apply elem_of_app. right. by left.
             ++ rewrite lookup_insert_ne in Hk' by done. by eapply H3. }
  intros H. specialize (Hgen squares [] (∅, ∅)). simpl in Hgen.
  rewrite H in Hgen. apply Hgen.
  repeat split; simpl; intros; try done.
Qed.

Lemma seen_once_Some G seen k : seen_once G seen = Some k -> aget seen k = 1 /\ 1 <= k <= N2 G.
Proof.
  unfold seen_once. intros H. apply find_some in H as [Hin H].
  apply list_elem_of_In, elem_of_seqZ' in Hin. split; lia.
Qed.

Lemma try_units_keeps_frozen G c units : keeps_frozen G (try_units G c units).1.
Proof.
  induction units as [|u rest IH]; simpl; [apply keeps_frozen_refl|].
  destruct (scan_unit G u) as [seen index] eqn:Hscan.
  destruct (seen_once G seen) as [k|] eqn:Hk; [|done].
  apply scan_unit_index in Hscan as (H1 & H2 & H3).
  apply seen_once_Some in Hk as [Hk _].
  destruct (H2 k) as [[row col] Hix]; [lia|].
  rewrite Hix. simpl.
  destruct (H3 _ _ Hix) as [_ Hf]. simpl in Hf.
  eapply keeps_frozen_trans; [by apply freeze_one_keeps_frozen|].
  apply keeps_values_frozen, bump_keeps_values.
Qed.

Lemma preprocess_loop_keeps_frozen fuel G first G' nc :
  preprocess_loop fuel G first = Ok (G', nc) -> keeps_frozen G G'.
Proof.
  revert G first. induction fuel as [|fuel IH]; intros G first; simpl; [discriminate|].
  pose proof (find_candidates_keeps_values G) as H0.
  destruct (find_candidates G) as [G0 ok]. simpl in H0.
  apply keeps_values_frozen in H0.
  set (G1 := if first then compute_candidate_stats G0 true else G0).
  assert (keeps_frozen G G1) as H1.
  { subst G1. destruct first; [|done].
    eapply keeps_frozen_trans; [exact H0|].
    apply keeps_values_frozen, compute_candidate_stats_keeps_values. }
  clearbody G1. clear H0.
  destruct (negb ok); [intros [= <- <-]; done|].
  pose proof (check_for_only_one_candidate_keeps_frozen G1) as H2.
  destruct (check_for_only_one_candidate G1) as [G2 c2]. simpl in H2.
  assert (keeps_frozen G G2) as H2' by (by eapply keeps_frozen_trans).
  destruct c2; [intros H; eapply keeps_frozen_trans; [exact H2'|by eapply IH]|].
  unfold try_row_optimization, try_column_optimization, try_subsquare_optimization.
  pose proof (try_units_keeps_frozen G2 RowOpt (all_rows G2)) as H3.
  destruct (try_units G2 RowOpt (all_rows G2)) as [G3 c3]. simpl in H3.
  assert (keeps_frozen G G3) as H3' by (by eapply keeps_frozen_trans).
  destruct c3; [intros H; eapply keeps_frozen_trans; [exact H3'|by eapply IH]|].
  pose proof (try_units_keeps_frozen G3 ColumnOpt (all_columns G3)) as H4.
  destruct (try_units G3 ColumnOpt (all_columns G3)) as [G4 c4]. simpl in H4.
  assert (keeps_frozen G G4) as H4' by (by eapply keeps_frozen_trans).
  destruct c4; [intros H; eapply keeps_frozen_trans; [exact H4'|by eapply IH]|].
  pose proof (try_units_keeps_frozen G4 SubsquareOpt (all_subsquares G4)) as H5.
  destruct (try_units G4 SubsquareOpt (all_subsquares G4)) as [G5 c5]. simpl in H5.
  assert (keeps_frozen G G5) as H5' by (by eapply keeps_frozen_trans).
  destruct c5; [intros H; eapply keeps_frozen_trans; [exact H5'|by eapply IH]|].
  intros [= <- <-]. done.
Qed.

Lemma preprocess_board_keeps_frozen fuel G G' ok :
  preprocess_board fuel G = Ok (G', ok) -> keeps_frozen G G'.
Proof.
  unfold preprocess_board. intros H.
  apply obind_Ok in H as ([G1 nc] & H1 & H2).
  injection H2 as <- <-.
  eapply keeps_frozen_trans; [by eapply preprocess_loop_keeps_frozen|].
  apply keeps_values_frozen, compute_candidate_stats_keeps_values.
Qed.

(** [update_neighbors] moves candidate stacks of unfrozen squares only. *)
Lemma update_neighbor_keeps_values G piece make_avail c G' :
  update_neighbor G piece make_avail c = Ok G' -> keeps_values G G'.
Proof.
  unfold update_neighbor.
  destruct (frozen (sq G c.1 c.2)) eqn:Hf; [intros [= <-]; apply keeps_values_refl|].
  destruct make_avail.
  - simpl. destruct (0 <=? topmask (sq G c.1 c.2) - 1); [|discriminate].
    intros [= <-]. by apply set_sq_keeps_values.
  - destruct (negb (0 <=? topmask (sq G c.1 c.2))); [discriminate|].
    destruct (MAX_NUM_NEIGHBORS <=? topmask (sq G c.1 c.2) + 1); [discriminate|].
    intros [= <-]. by apply set_sq_keeps_values.
Qed.

Lemma update_neighbors_keeps_values G row col piece make_avail G' :
  update_neighbors G row col piece make_avail = Ok G' -> keeps_values G G'.
Proof.
  unfold update_neighbors.
  destruct (frozen (sq G row col)); [discriminate|].
  apply (ofold_invariant (keeps_values G)); [apply keeps_values_refl|].
  intros G1 c G2 _ H1 H2.
  eapply keeps_values_trans; [exact H1|]. by eapply update_neighbor_keeps_values.
Qed.

Lemma update_neighbors_unfrozen G row col piece make_avail G' :
  update_neighbors G row col piece make_avail = Ok G' -> frozen (sq G row col) = false.
Proof. unfold update_neighbors. by destruct (frozen (sq G row col)). Qed.

(** One step of the search freezes and unfreezes nothing and leaves the
    frozen squares alone. *)
Lemma search_step_keeps_flags s s' :
  search_step s = Ok (inl s') -> keeps_flags (sG s) (sG s').
Proof.
  unfold search_step.
  destruct (N2 (sG s) <? si s); [discriminate|].
  destruct (N2 (sG s) <? sj s); [intros [= <-]; apply keeps_flags_refl|].
  destruct (frozen (sq (sG s) (si s) (sj s))) eqn:Hf;
    [intros [= <-]; apply keeps_flags_refl|].
  intros H. apply obind_Ok in H as (found & _ & H).
  destruct found as [k|].
  - apply obind_Ok in H as (G1 & H1 & H).
    destruct (negb _); [discriminate|]. injection H as <-. simpl.
    eapply keeps_flags_trans; [|eapply keeps_values_flags, update_neighbors_keeps_values, H1].
    by apply set_sq_keeps_flags.
  - destruct (stack s) as [|[i' j'] rest]; [discriminate|].
    apply obind_Ok in H as (G1 & H1 & H). injection H as <-. simpl.
    pose proof (update_neighbors_unfrozen _ _ _ _ _ _ H1) as Hu.
    apply update_neighbors_keeps_values in H1.
    eapply keeps_flags_trans; [apply keeps_values_flags, (bump_keeps_values _ Unstacking)|].
    eapply keeps_flags_trans; [apply keeps_values_flags, H1|].
    destruct H1 as [[_ Hfl] _].
    apply set_sq_keeps_flags; simpl; rewrite ?Hfl; done.
Qed.

Lemma search_step_done s G : search_step s = Ok (inr G) -> G = sG s /\ N2 G < si s.
Proof.
  unfold search_step.
  destruct (N2 (sG s) <? si s) eqn:E; [intros [= <-]; split; [done|lia]|].
  destruct (N2 (sG s) <? sj s); [discriminate|].
  destruct (frozen (sq (sG s) (si s) (sj s))); [discriminate|].
  intros H. apply obind_Ok in H as (found & _ & H).
  destruct found as [k|].
  - apply obind_Ok in H as (G1 & H1 & H). destruct (negb _); discriminate.
  - destruct (stack s) as [|[i' j'] rest]; [discriminate|].
    apply obind_Ok in H as (G1 & H1 & H). discriminate.
Qed.

Lemma search_run_keeps_flags fuel s G :
  search_run fuel s = Ok G -> keeps_flags (sG s) G.
Proof.
  revert s. induction fuel as [|fuel IH]; intros s; simpl; [discriminate|].
  intros H. apply obind_Ok in H as ([s'|G'] & H1 & H2).
  - eapply keeps_flags_trans; [by apply search_step_keeps_flags|by apply IH].
  - injection H2 as <-. apply search_step_done in H1 as [-> _]. apply keeps_flags_refl.
Qed.

End Frames.

(** * The neighbor relation (claim C7) *)

Lemma foldl_invariant_done {A B} (P : list B -> A -> Prop) (f : A -> B -> A) (l : list B) a :
  P [] a -> (forall done a b, b ∈ l -> P done a -> P (done ++ [b]) (f a b)) ->
  P l (foldl f a l).
Proof.
  intros H0 Hstep.
  assert (forall l' done a, (forall b, b ∈ l' -> b ∈ l) -> P done a ->
            P (done ++ l') (foldl f a l')) as Hgen.
  { induction l' as [|b l' IH]; intros done0 a0 Hsub Hd; simpl.
    - by rewrite app_nil_r.
    - replace (done0 ++ b :: l') with ((done0 ++ [b]) ++ l') by (by rewrite <- app_assoc).
      apply IH; [intros b' Hb'; apply Hsub; by right|].
      apply Hstep; [apply Hsub; left|done]. }
  apply (Hgen l [] a); done.
Qed.

Lemma flat_map_skip {A B} (c : A -> bool) (g : A -> list B) (l : list A) :
  flat_map (fun x => if c x then [] else g x) l = flat_map g (filter (fun x => c x = false) l).
Proof.
  induction l as [|x l IH]; simpl; [done|].
  rewrite filter_cons. case_decide as E.
  - rewrite E. simpl. by rewrite IH.
  - destruct (c x); [done|congruence].
Qed.

Lemma flat_map_singleton {A B} (g : A -> B) (l : list A) :
  flat_map (fun x => [g x]) l = g <$> l.
Proof. induction l as [|x l IH]; simpl; [done|]. by rewrite IH. Qed.

Lemma flat_map_bind {A B} (f : A -> list B) (l : list A) : flat_map f l = l ≫= f.
Proof. induction l as [|x l IH]; simpl; [done|]. by rewrite IH. Qed.

Lemma length_flat_map_const {A B} (f : A -> list B) (l : list A) (k : nat) :
  (forall x, x ∈ l -> length (f x) = k) -> length (flat_map f l) = (k * length l)%nat.
Proof.
  induction l as [|x l IH]; intros H; simpl; [lia|].
  rewrite length_app, IH, (H x); [lia|left|]. intros y Hy. apply H. by right.
Qed.

Lemma length_filter_remove_one (l : list Z) (x : Z) :
  NoDup l -> x ∈ l -> S (length (filter (fun y => (y =? x) = false) l)) = length l.
Proof.
  induction l as [|y l IH]; intros Hnd Hx; [by apply elem_of_nil in Hx|].
  apply NoDup_cons in Hnd as [Hy Hnd]. rewrite filter_cons.
  destruct (decide (y = x)) as [->|Hne].
  - rewrite decide_False by (rewrite Z.eqb_refl; done). simpl. f_equal.
    clear IH Hx Hnd. induction l as [|z l IH]; [done|].
    rewrite filter_cons. apply not_elem_of_cons in Hy as [Hz Hy].
    rewrite decide_True by lia. simpl. f_equal. by apply IH.
  - rewrite decide_True by lia. simpl. f_equal. apply IH; [done|].
    apply elem_of_cons in Hx as [->|Hx]; [done|done].
Qed.

Lemma length_skip_seqZ (m len x : Z) :
  m <= x < m + len ->
  Z.of_nat (length (filter (fun y => (y =? x) = false) (seqZ m len))) = len - 1.
Proof.
  intros H.
  pose proof (length_filter_remove_one (seqZ m len) x (NoDup_seqZ _ _)) as E.
  rewrite length_seqZ in E. specialize (E ltac:(apply elem_of_seqZ'; lia)). lia.
Qed.

(** ** The squares listed by the three loops *)

Lemma column_neighbors_eq G i j :
  column_neighbors G i j
  = (fun ii => (ii, j)) <$> filter (fun ii => (ii =? i) = false) (seqZ 1 (N2 G)).
Proof.
  unfold column_neighbors.
  rewrite (flat_map_skip (fun ii => ii =? i) (fun ii => [(ii, j)])).
  apply flat_map_singleton.
Qed.

Lemma row_neighbors_eq G i j :
  row_neighbors G i j
  = (fun jj => (i, jj)) <$> filter (fun jj => (jj =? j) = false) (seqZ 1 (N2 G)).
Proof.
  unfold row_neighbors.
  rewrite (flat_map_skip (fun jj => jj =? j) (fun jj => [(i, jj)])).
  apply flat_map_singleton.
Qed.

Lemma subsquare_neighbors_eq G i j :
  subsquare_neighbors G i j
  = flat_map (fun ii => (fun jj => (ii, jj))
                          <$> filter (fun jj => (jj =? j) = false)
                                     (seqZ (find_sub_square G i j).2 (N G)))
             (filter (fun ii => (ii =? i) = false) (seqZ (find_sub_square G i j).1 (N G))).
Proof.
  unfold subsquare_neighbors. destruct (find_sub_square G i j) as [srow scol]. simpl.
  rewrite (flat_map_skip (fun ii => ii =? i)
    (fun ii => flat_map (fun jj => if jj =? j then [] else [(ii, jj)]) (seqZ scol (N G)))).
  apply flat_map_ext. intros ii.
  rewrite (flat_map_skip (fun jj => jj =? j) (fun jj => [(ii, jj)])).
  apply flat_map_singleton.
Qed.

Lemma elem_of_column_neighbors G i j a b :
  (a, b) ∈ column_neighbors G i j <-> b = j /\ a <> i /\ 1 <= a <= N2 G.
Proof.
  rewrite column_neighbors_eq, list_elem_of_fmap. split.
  - intros (ii & [= -> ->] & H). apply list_elem_of_filter in H as [H1 H2].
    apply elem_of_seqZ' in H2. lia.
  - intros (-> & Hne & Ha). exists a. split; [done|].
    apply list_elem_of_filter. split; [lia|]. apply elem_of_seqZ'. lia.
Qed.

Lemma elem_of_row_neighbors G i j a b :
  (a, b) ∈ row_neighbors G i j <-> a = i /\ b <> j /\ 1 <= b <= N2 G.
Proof.
  rewrite row_neighbors_eq, list_elem_of_fmap. split.
  - intros (jj & [= -> ->] & H). apply list_elem_of_filter in H as [H1 H2].
    apply elem_of_seqZ' in H2. lia.
  - intros (-> & Hne & Ha). exists b. split; [done|].
    apply list_elem_of_filter. split; [lia|]. apply elem_of_seqZ'. lia.
Qed.

Lemma elem_of_subsquare_neighbors G i j a b :
  (a, b) ∈ subsquare_neighbors G i j
  <-> a <> i /\ b <> j
      /\ (find_sub_square G i j).1 <= a < (find_sub_square G i j).1 + N G
      /\ (find_sub_square G i j).2 <= b < (find_sub_square G i j).2 + N G.
Proof.
  rewrite subsquare_neighbors_eq, list_elem_of_In, in_flat_map. split.
  - intros (ii & Hii & H). apply list_elem_of_In, list_elem_of_filter in Hii as [H1 H2].
    apply list_elem_of_In, list_elem_of_fmap in H as (jj & [= -> ->] & H).
    apply list_elem_of_filter in H as [H3 H4].
    apply elem_of_seqZ' in H2, H4. lia.
  - intros (Ha & Hb & Hr & Hc). exists a. split.
    + apply list_elem_of_In, list_elem_of_filter. split; [lia|]. apply elem_of_seqZ'. lia.
    + apply list_elem_of_In, list_elem_of_fmap. exists b. split; [done|].
      apply list_elem_of_filter. split; [lia|]. apply elem_of_seqZ'. lia.
Qed.

(** The origin of a subsquare, with floor division. *)
Lemma find_sub_square_floor G row col :
  1 <= N G -> 1 <= row -> 1 <= col ->
  find_sub_square G row col
  = (N G * ((row - 1) `div` N G) + 1, N G * ((col - 1) `div` N G) + 1).
Proof.
  intros HN Hr Hc. unfold find_sub_square.
  by rewrite !Z.quot_div_nonneg by lia.
Qed.

Lemma in_subsquare_iff n x o :
  1 <= n -> 1 <= x -> 1 <= o ->
  (n * ((o - 1) `div` n) + 1 <= x < n * ((o - 1) `div` n) + 1 + n)
  <-> (x - 1) `div` n = (o - 1) `div` n.
Proof.
  intros Hn Hx Ho.
  pose proof (Z.div_mod (x - 1) n ltac:(lia)) as Ex.
  pose proof (Z.mod_pos_bound (x - 1) n ltac:(lia)) as Mx.
  split.
  - intros H. symmetry. apply (Z.div_unique (x - 1) n _ (x - 1 - n * ((o - 1) `div` n))); lia.
  - intros <-. lia.
Qed.

(** Membership in the neighbor list that [init_board] computes. *)
Lemma elem_of_init_neighbors G i j a b :
  well_sized G -> on_board G i j ->
  (a, b) ∈ init_neighbors G i j <-> on_board G a b /\ sees G i j a b.
Proof.
  intros [HN HN2] [Hi Hj]. unfold init_neighbors.
  rewrite !elem_of_app, elem_of_column_neighbors, elem_of_row_neighbors,
    elem_of_subsquare_neighbors.
  rewrite find_sub_square_floor by lia. simpl.
  unfold on_board, sees, same_subsquare.
  pose proof (Z.div_mod (i - 1) (N G) ltac:(lia)) as Ei.
  pose proof (Z.mod_pos_bound (i - 1) (N G) ltac:(lia)) as Mi.
  pose proof (Z.div_mod (j - 1) (N G) ltac:(lia)) as Ej.
  pose proof (Z.mod_pos_bound (j - 1) (N G) ltac:(lia)) as Mj.
  assert (0 <= (i - 1) `div` N G < N G) as Qi.
  { split; [apply Z.div_pos; lia|]. apply Z.div_lt_upper_bound; nia. }
  assert (0 <= (j - 1) `div` N G < N G) as Qj.
  { split; [apply Z.div_pos; lia|]. apply Z.div_lt_upper_bound; nia. }
  split.
  - intros [(-> & Hne & Ha)|[(-> & Hne & Hb)|(Hna & Hnb & Hr & Hc)]].
    + split; [lia|]. split; [intros [= ->]; done|]. by right; left.
    + split; [lia|]. split; [intros [= ->]; done|]. by left.
    + assert (1 <= a <= N2 G) by nia. assert (1 <= b <= N2 G) by nia.
      split; [lia|]. split; [intros [= ->]; done|].
      right; right. rewrite !Z.quot_div_nonneg by lia.
      split; symmetry; apply in_subsquare_iff; lia.
  - intros ([Ha Hb] & Hne & Hs).
    destruct (decide (b = j)) as [->|Hbj].
    { left. repeat split; try lia. intros ->. done. }
    destruct (decide (a = i)) as [->|Hai].
    { right; left. repeat split; try lia. }
    right; right. destruct Hs as [E|[E|[E1 E2]]]; [lia|lia|].
    rewrite !Z.quot_div_nonneg in E1, E2 by lia.
    split; [done|]. split; [done|].
    split; apply in_subsquare_iff; lia.
Qed.

Lemma NoDup_init_neighbors G i j : NoDup (init_neighbors G i j).
Proof.
  unfold init_neighbors. apply NoDup_app. split; [|split].
  - rewrite column_neighbors_eq. apply NoDup_fmap_2.
    + intros x y [=]. done.
    + apply NoDup_filter, NoDup_seqZ.
  - intros [a b] H1 H2. apply elem_of_column_neighbors in H1 as (-> & Hne & _).
    apply elem_of_app in H2 as [H2|H2].
    + apply elem_of_row_neighbors in H2. lia.
    + apply elem_of_subsquare_neighbors in H2. lia.
  - apply NoDup_app. split; [|split].
    + rewrite row_neighbors_eq. apply NoDup_fmap_2.
      * intros x y [=]. done.
      * apply NoDup_filter, NoDup_seqZ.
    + intros [a b] H1 H2. apply elem_of_row_neighbors in H1 as (-> & Hne & _).
      apply elem_of_subsquare_neighbors in H2. lia.
    + rewrite subsquare_neighbors_eq, flat_map_bind. apply NoDup_bind.
      * intros x1 x2 [a b] _ _ H1 H2.
        apply list_elem_of_fmap in H1 as (? & [= -> ->] & _).
        apply list_elem_of_fmap in H2 as (? & [= -> _] & _). done.
      * intros ii _. apply NoDup_fmap_2.
        -- intros x y [=]. done.
        -- apply NoDup_filter, NoDup_seqZ.
      * apply NoDup_filter, NoDup_seqZ.
Qed.

Lemma init_neighbors_length G i j :
  well_sized G -> on_board G i j ->
  Z.of_nat (length (init_neighbors G i j)) = 3 * N2 G - 2 * N G - 1.
Proof.
  intros [HN HN2] [Hi Hj]. unfold init_neighbors.
  rewrite !length_app, column_neighbors_eq, row_neighbors_eq, subsquare_neighbors_eq.
  rewrite !length_fmap.
  rewrite find_sub_square_floor by lia. simpl.
  pose proof (Z.div_mod (i - 1) (N G) ltac:(lia)) as Ei.
  pose proof (Z.mod_pos_bound (i - 1) (N G) ltac:(lia)) as Mi.
  pose proof (Z.div_mod (j - 1) (N G) ltac:(lia)) as Ej.
  pose proof (Z.mod_pos_bound (j - 1) (N G) ltac:(lia)) as Mj.
  rewrite (length_flat_map_const _ _ (Z.to_nat (N G - 1))).
  2:{ intros x _. rewrite length_fmap.
      pose proof (length_skip_seqZ (N G * ((j - 1) `div` N G) + 1) (N G) j ltac:(lia)). lia. }
  pose proof (length_skip_seqZ 1 (N2 G) i ltac:(lia)) as L1.
  pose proof (length_skip_seqZ 1 (N2 G) j ltac:(lia)) as L2.
  pose proof (length_skip_seqZ (N G * ((i - 1) `div` N G) + 1) (N G) i ltac:(lia)) as L3.
  rewrite !Nat2Z.inj_add, Nat2Z.inj_mul, L1, L2, L3, Z2Nat.id by lia. nia.
Qed.

(** ** What [init_board] writes *)

Lemma init_neighbors_frame G G' i j :
  same_frame G G' -> init_neighbors G' i j = init_neighbors G i j.
Proof.
  intros (HN & HN2 & _).
  unfold init_neighbors, column_neighbors, row_neighbors, subsquare_neighbors, find_sub_square.
  by rewrite HN, HN2.
Qed.

Lemma fresh_square_frame G G' i j p :
  same_frame G G' -> fresh_square G i j p -> fresh_square G' i j p.
Proof.
  intros HF (H1 & H2 & H3 & H4 & H5). unfold fresh_square.
  rewrite (init_neighbors_frame G G') by done.
  destruct HF as (_ & _ & _ & -> & _). done.
Qed.

Lemma init_square_frame G i j : same_frame G (init_square G i j).
Proof. unfold init_square. apply set_sq_params. Qed.

Lemma init_square_fresh G i j : fresh_square G i j (sq (init_square G i j) i j).
Proof.
  unfold init_square. rewrite sq_set_sq_eq. unfold fresh_square.
  destruct ((i =? 0) || (j =? 0)); simpl; done.
Qed.

Lemma init_square_other G i j a b :
  (i, j) <> (a, b) -> sq (init_square G i j) a b = sq G a b.
Proof. intros H. unfold init_square. by apply sq_set_sq_ne. Qed.

Lemma init_row_spec G i js :
  let G' := foldl (fun G j => init_square G i j) G js in
  same_frame G G'
  /\ (forall j, j ∈ js -> fresh_square G i j (sq G' i j))
  /\ (forall a b, a <> i \/ b ∉ js -> sq G' a b = sq G a b).
Proof.
  apply (foldl_invariant_done (fun done0 G' =>
    same_frame G G'
    /\ (forall j, j ∈ done0 -> fresh_square G i j (sq G' i j))
    /\ (forall a b, a <> i \/ b ∉ done0 -> sq G' a b = sq G a b))).
  - split; [apply same_frame_refl|]. split; [|done].
    intros j Hj. by apply elem_of_nil in Hj.
  - intros done0 G' b _ (HF & Hfr & Hun). split; [|split].
    + eapply same_frame_trans; [exact HF|apply init_square_frame].
    + intros j Hj. destruct (decide (j = b)) as [->|Hne].
      * apply (fresh_square_frame G'); [|apply init_square_fresh].
        destruct HF as (?&?&?&?&?). repeat split; congruence.
      * rewrite init_square_other by congruence. apply Hfr.
        apply elem_of_app in Hj as [Hj|Hj]; [done|].
        apply list_elem_of_singleton in Hj. done.
    + intros a c Hac. rewrite init_square_other.
      * apply Hun. destruct Hac as [Hac|Hac]; [by left|right].
        intros Hc. apply Hac, elem_of_app. by left.
      * intros [= -> ->]. destruct Hac as [Hac|Hac]; [done|].
        apply Hac, elem_of_app. right. by apply list_elem_of_singleton.
Qed.

Lemma init_board_spec G0 n :
  let G := init_board G0 n in
  N G = n /\ N2 G = n * n /\ num_squares G = (n * n) * (n * n)
  /\ num_neighbors G = 3 * (n * n) - 2 * n - 1
  /\ saved_board G = saved_board G0 /\ stats G = zero_stats
  /\ forall i j, 0 <= i <= n * n -> 0 <= j <= n * n -> fresh_square G i j (sq G i j).
Proof.
  unfold init_board.
  set (G1 := mkGame n (n * n) (n * n * (n * n)) (3 * (n * n) - 2 * n - 1)
                    (board G0) (saved_board G0) (stats G0)).
  assert (let G2 := foldl (fun G i => foldl (fun G j => init_square G i j) G
                                            (seqZ 0 (N2 G + 1))) G1 (seqZ 0 (N2 G1 + 1)) in
          same_frame G1 G2
          /\ forall i, i ∈ seqZ 0 (N2 G1 + 1) ->
               forall j, j ∈ seqZ 0 (N2 G1 + 1) -> fresh_square G1 i j (sq G2 i j)) as H.
  { apply (foldl_invariant_done (fun done0 G2 =>
      same_frame G1 G2
      /\ forall i, i ∈ done0 ->
           forall j, j ∈ seqZ 0 (N2 G1 + 1) -> fresh_square G1 i j (sq G2 i j))).
    - split; [apply same_frame_refl|]. intros i Hi. by apply elem_of_nil in Hi.
    - intros done0 G2 b _ (HF & Hfr).
      pose proof (init_row_spec G2 b (seqZ 0 (N2 G2 + 1))) as (HF' & Hrow & Hun).
      assert (N2 G2 = N2 G1) as HN2 by apply HF.
      split; [by eapply same_frame_trans|].
      intros i Hi j Hj. destruct (decide (i = b)) as [->|Hne].
      + apply (fresh_square_frame G2).
        * destruct HF as (?&?&?&?&?). repeat split; congruence.
        * apply Hrow. by rewrite HN2.
      + rewrite Hun by (by left). apply Hfr; [|done].
        apply elem_of_app in Hi as [Hi|Hi]; [done|].
        apply list_elem_of_singleton in Hi. done. }
  destruct H as [(HN & HN2 & Hsq & Hnn & Hsaved) Hfresh].
  set (G2 := foldl _ G1 _) in *.
  split; [exact HN|]. split; [exact HN2|]. split; [exact Hsq|]. split; [exact Hnn|].
  split; [exact Hsaved|]. split; [done|].
  intros i j Hi Hj. rewrite sq_set_stats.
  apply (fresh_square_frame G1).
  - repeat split; assumption.
  - apply (Hfresh i); apply elem_of_seqZ'; simpl; lia.
Qed.

Lemma init_board_built G0 n : 1 <= n -> neighbors_built (init_board G0 n).
Proof.
  intros Hn. pose proof (init_board_spec G0 n) as (HN & HN2 & _ & Hnn & _ & _ & Hfr).
  split; [|split].
  - split; [lia|]. by rewrite HN2, HN.
  - by rewrite HN2, HN.
  - intros i j [Hi Hj].
    destruct (Hfr i j) as (_ & _ & _ & _ & Hnb); [lia..|].
    rewrite Hnb. replace ((i =? 0) || (j =? 0)) with false by lia. done.
Qed.

(** In a game with the neighbor arrays of [init_board], the loops over
    [k < num_neighbors] visit exactly the entries of the array. *)
Lemma neighbors_of_full G p :
  Z.of_nat (length (neighbor p)) = num_neighbors G -> neighbors_of G p = neighbor p.
Proof.
  intros H. unfold neighbors_of. apply list_eq. intros k.
  rewrite list_lookup_fmap.
  destruct (decide (Z.of_nat k < num_neighbors G)) as [Hk|Hk].
  - rewrite lookup_seqZ_lt by done. simpl. unfold nbr.
    replace (0 + Z.of_nat k <? 0) with false by lia.
    replace (Z.to_nat (0 + Z.of_nat k)) with k by lia.
    destruct (neighbor p !! k) eqn:E; [done|].
    apply lookup_ge_None in E. lia.
  - rewrite lookup_seqZ_ge by lia. simpl. symmetry. apply lookup_ge_None. lia.
Qed.

Lemma neighbors_built_spec G i j :
  neighbors_built G -> on_board G i j ->
  neighbors_of G (sq G i j) = neighbor (sq G i j)
  /\ NoDup (neighbor (sq G i j))
  /\ (forall a b, (a, b) ∈ neighbor (sq G i j) <-> on_board G a b /\ sees G i j a b).
Proof.
  intros (Hw & Hnn & Hnb) Hon. rewrite (Hnb i j Hon). split; [|split].
  - rewrite <- (Hnb i j Hon). apply neighbors_of_full.
    rewrite (Hnb i j Hon), init_neighbors_length by done. lia.
  - apply NoDup_init_neighbors.
  - intros a b. by apply elem_of_init_neighbors.
Qed.

Lemma sees_sym G a b a' b' : sees G a b a' b' -> sees G a' b' a b.
Proof.
  unfold sees, same_subsquare. intros [Hne Hs]. split; [congruence|].
  destruct Hs as [->|[->|[-> ->]]]; auto.
Qed.

(** C7.  After [init_board (n)] with [n >= 1], the neighbor list of every
    square (i, j) of the board contains exactly the squares of the board
    that share its row, its column or its subsquare, the square itself
    excluded and no square listed twice; it has [3 n^2 - 2 n - 1] entries,
    which is [num_neighbors], so that the loops over the neighbors visit
    exactly this list; the subsquare of (i, j) has its origin at
    [(n * floor ((i-1)/n) + 1, n * floor ((j-1)/n) + 1)]; and the relation
    is symmetric. *)
Theorem init_board_neighbors (G0 : Game) (n i j : Z) :
  1 <= n ->
  on_board (init_board G0 n) i j ->
  let G := init_board G0 n in
  (forall a b, (a, b) ∈ neighbor (sq G i j) <-> on_board G a b /\ sees G i j a b)
  /\ NoDup (neighbor (sq G i j))
  /\ Z.of_nat (length (neighbor (sq G i j))) = 3 * (n * n) - 2 * n - 1
  /\ num_neighbors G = 3 * (n * n) - 2 * n - 1
  /\ neighbors_of G (sq G i j) = neighbor (sq G i j)
  /\ find_sub_square G i j = (n * ((i - 1) `div` n) + 1, n * ((j - 1) `div` n) + 1)
  /\ (forall a b, (a, b) ∈ neighbor (sq G i j) -> (i, j) ∈ neighbor (sq G a b)).
Proof.
  intros Hn Hon G.
  pose proof (init_board_built G0 n Hn) as HB. fold G in HB.
  pose proof (init_board_spec G0 n) as (HN & HN2 & _ & Hnn & _). fold G in HN, HN2, Hnn.
  pose proof (neighbors_built_spec G i j HB Hon) as (H1 & H2 & H3).
  split; [exact H3|]. split; [exact H2|]. split; [|split; [exact Hnn|split; [exact H1|split]]].
  - destruct HB as (Hw & _ & Hnb). rewrite (Hnb i j Hon), init_neighbors_length by done.
    by rewrite HN2, HN.
  - rewrite find_sub_square_floor; [by rewrite HN | rewrite HN; lia | apply Hon | apply Hon].
  - intros a b Hab. apply H3 in Hab as [Hon' Hs].
    apply (neighbors_built_spec G a b HB Hon'). split; [done|]. by apply sees_sym.
Qed.

Lemma init_board_neighbors_witness :
  Z.of_nat (length (neighbor (sq (init_board zero_game 3) 5 7))) = 3 * (3 * 3) - 2 * 3 - 1
  /\ NoDup (neighbor (sq (init_board zero_game 3) 5 7)).
Proof.
  destruct (init_board_neighbors zero_game 3 5 7) as (_ & H2 & H3 & _).
  - lia.
  - unfold on_board. vm_compute. repeat split; discriminate.
  - split; [exact H3 | exact H2].
Defined.

(** * Boards that the loader produces *)

Lemma map_alphabet_to_int_range c :
  (map_alphabet_to_int c =? -1)
  || ((1 <=? map_alphabet_to_int c) && (map_alphabet_to_int c <=? 64)) = true.
Proof. destruct c as [[] [] [] [] [] [] [] []]; vm_compute; reflexivity. Qed.

Lemma init_board_loaded_ok G0 n : 1 <= n <= MAX_N -> loaded_ok (init_board G0 n).
Proof.
  intros Hn. pose proof (init_board_spec G0 n) as (HN & HN2 & _ & _ & _ & _ & Hfr).
  split; [apply init_board_built; lia|]. split; [lia|].
  intros a b Ha Hb. rewrite HN2 in *.
  destruct (Hfr a b Ha Hb) as (-> & _). split; [nia|by left].
Qed.

Lemma loaded_ok_write G G' i j p :
  loaded_ok G -> same_frame G G' ->
  (forall a b, sq G' a b = if decide ((i, j) = (a, b)) then p else sq G a b) ->
  neighbor p = neighbor (sq G i j) ->
  0 <= cur_value p <= N2 G /\ (cur_value p = 0 \/ frozen p = true) ->
  loaded_ok G'.
Proof.
  intros ((Hw & Hnn & Hnb) & HN & Hval) HF Hsq Hnp Hp.
  pose proof HF as (EN & EN2 & _ & Enn & _).
  split; [|split].
  - split; [|split].
    + destruct Hw. split; congruence.
    + congruence.
    + intros a b Hon. rewrite (init_neighbors_frame G G') by done.
      unfold on_board in Hon. rewrite EN2 in Hon.
      rewrite Hsq. case_decide as E; [inversion E; subst; rewrite Hnp|]; by apply Hnb.
  - congruence.
  - intros a b Ha Hb. rewrite EN2 in *. rewrite Hsq.
    case_decide as E; [done|by apply Hval].
Qed.

Lemma load_square_loaded_ok G i j c G' c' :
  loaded_ok G -> load_square G i j c = Ok (G', c') -> loaded_ok G'.
Proof.
  intros HL. unfold load_square. cbv [mbind outcome_bind obind].
  destruct (code (deref (skip_spaces c)) =? code "-").
  - intros [= <- _].
    apply (loaded_ok_write G _ i j
             (with_topmask (with_candidate (with_frozen (with_cur_value (sq G i j) 0) false)
                (clear_candidates G (candidate (with_frozen (with_cur_value (sq G i j) 0) false))))
                (-1)));
      [exact HL | apply set_sq_params | intros a b; apply sq_set_sq | reflexivity |].
    simpl. destruct HL as ((Hw & _) & _). destruct Hw. split; [nia|by left].
  - pose proof (map_alphabet_to_int_range (deref (skip_spaces c))) as Hr.
    destruct ((map_alphabet_to_int (deref (skip_spaces c)) =? -1)
              || (N2 G <? map_alphabet_to_int (deref (skip_spaces c)))) eqn:E;
      [discriminate|].
    intros [= <- _].
    set (d := map_alphabet_to_int (deref (skip_spaces c))) in *.
    apply (loaded_ok_write G _ i j
             (with_topmask (with_candidate (with_frozen (with_cur_value (sq G i j) d) true)
                (clear_candidates (bump_occupied G)
                   (candidate (with_frozen (with_cur_value (sq G i j) d) true))))
                (-1)));
      [exact HL | apply (set_sq_params (bump_occupied G))
       | intros a b; apply (sq_set_sq (bump_occupied G)) | reflexivity |].
    simpl. split; [lia|by right].
Qed.

Lemma load_row_loaded_ok G i line G' :
  loaded_ok G -> load_row G i line = Ok G' -> loaded_ok G'.
Proof.
  intros HL. unfold load_row. intros H.
  apply obind_Ok in H as ([G1 c1] & H1 & [= <-]).
  revert H1. apply (ofold_invariant (fun r : Game * string => loaded_ok r.1)); [done|].
  intros [G2 c2] j [G3 c3] _ H2 H3. simpl in *. by eapply load_square_loaded_ok.
Qed.

Lemma get_line_loaded_ok G allowN file G' line rest :
  loaded_ok G -> get_line G allowN file = Ok (G', line, rest) -> loaded_ok G'.
Proof.
  revert G. induction file as [|l file IH]; intros G HL; simpl; [discriminate|].
  destruct (starts_with2 "/" "/" l).
  - destruct (negb allowN); [by apply IH|].
    destruct (negb (starts_with2 "N" "=" (advance 2 l))); [by apply IH|].
    destruct ((3 <=? atoi (advance 4 l)) && (atoi (advance 4 l) <=? MAX_N)) eqn:E;
      [|discriminate].
    apply IH, init_board_loaded_ok. lia.
  - destruct (trim_trailing l); [by apply IH|]. by intros [= <- _ _].
Qed.

Lemma load_rows_loaded_ok fuel G i allowN file G' :
  loaded_ok G -> load_rows fuel G i allowN file = Ok G' -> loaded_ok G'.
Proof.
  revert G i allowN file. induction fuel as [|fuel IH]; intros G i allowN file HL; simpl.
  - destruct (i <=? N2 G); [discriminate|]. by intros [= <-].
  - destruct (i <=? N2 G); [|by intros [= <-]].
    intros H. apply obind_Ok in H as ([[G1 l] rest] & H1 & H2).
    apply obind_Ok in H2 as (G2 & H2 & H3).
    eapply IH; [|exact H3].
    eapply load_row_loaded_ok; [|exact H2]. by eapply get_line_loaded_ok.
Qed.

(** Every board that [main] gets from [load_file] is [loaded_ok]. *)
Lemma load_file_loaded_ok G0 n file allowN G :
  1 <= n <= MAX_N -> load_file (init_board G0 n) file allowN = Ok G -> loaded_ok G.
Proof. intros Hn. apply load_rows_loaded_ok, init_board_loaded_ok, Hn. Qed.

Lemma loaded_ok_sizes G : loaded_ok G -> well_sized G /\ N2 G <= MAX_N2.
Proof.
  intros ((Hw & _) & HN & _). split; [done|]. destruct Hw as [H1 ->].
  unfold MAX_N2, MAX_N in *. nia.
Qed.

Lemma loaded_ok_clues_frozen G : loaded_ok G -> clues_frozen G = true.
Proof.
  intros (_ & _ & H). unfold clues_frozen. apply forallb_seqZ. intros a Ha.
  apply forallb_seqZ. intros b Hb.
  destruct (H a b) as [_ [->| ->]]; try lia; try done; apply orb_true_r.
Qed.

Lemma loaded_ok_values_in_range G : loaded_ok G -> values_in_range G = true.
Proof.
  intros (_ & _ & H). unfold values_in_range. apply forallb_forall. intros [a b] Hin.
  apply list_elem_of_In, elem_of_all_squares in Hin as [Ha Hb]. simpl.
  destruct (H a b) as [? _]; lia.
Qed.

(* [main] is the loader on the 9x9 board followed by [solve]. *)
Lemma main_eq fp fs file :
  main fp fs file = obind (load_file (init_board zero_game 3) file true) (solve fp fs).
Proof. reflexivity. Qed.

Lemma main_loaded fp fs file G :
  load_file (init_board zero_game 3) file true = Ok G ->
  main fp fs file = solve fp fs G /\ loaded_ok G.
Proof.
  intros Hload. split.
  - rewrite main_eq, Hload. reflexivity.
  - eapply load_file_loaded_ok; [|exact Hload]. unfold MAX_N. lia.
Qed.

Lemma main_Ok fp fs file r :
  main fp fs file = Ok r ->
  exists G, load_file (init_board zero_game 3) file true = Ok G
            /\ loaded_ok G /\ solve fp fs G = Ok r.
Proof.
  rewrite main_eq. intros H.
  apply obind_Ok in H as (G & Hload & H).
  exists G. split; [exact Hload|]. split; [|exact H].
  eapply load_file_loaded_ok; [|exact Hload]. unfold MAX_N. lia.
Qed.

(** * Clue preservation (claim C4) *)

Lemma verify_against_snapshot G G' :
  N2 G' = N2 G -> saved_board G' = board G -> clues_frozen G = true ->
  (forall a b, frozen (sq G a b) = true -> sq G' a b = sq G a b) ->
  verify_solution_to_our_problem G' = true.
Proof.
  intros HN Hs Hc Hk. unfold verify_solution_to_our_problem, clues_frozen in *.
  rewrite HN. rewrite forallb_seqZ in *. intros i Hi. specialize (Hc i Hi).
  rewrite forallb_seqZ in *. intros j Hj. specialize (Hc j Hj).
  assert (saved_sq G' i j = sq G i j) as -> by (unfold saved_sq, sq; by rewrite Hs).
  destruct (cur_value (sq G i j) =? 0) eqn:E; [done|]. simpl in *.
  rewrite (Hk i j Hc). by rewrite Z.eqb_refl.
Qed.

Lemma reports_solvable_run fp G :
  reports_solvable fp G = true ->
  preprocess_board fp (save_board G) = Ok (preprocessed fp G, true).
Proof.
  unfold reports_solvable, preprocessed.
  destruct (preprocess_board fp (save_board G)) as [[G1 []]| | | |]; done.
Qed.

Lemma search_returns_run fs G :
  search_returns fs G = true -> find_solution fs G = Ok (searched fs G).
Proof.
  unfold search_returns, searched. destruct (find_solution fs G); done.
Qed.

Lemma clues_kept (fp fs : nat) (G G1 G2 : Game) :
  clues_frozen G = true ->
  preprocess_board fp (save_board G) = Ok (G1, true) ->
  find_solution fs G1 = Ok G2 ->
  (forall i j, frozen (sq G i j) = true -> sq G1 i j = sq G i j /\ sq G2 i j = sq G i j)
  /\ verify_solution_to_our_problem G2 = true.
Proof.
  intros Hc Hp Hs.
  apply preprocess_board_keeps_frozen in Hp.
  apply search_run_keeps_flags, keeps_flags_frozen in Hs. simpl in Hs.
  assert (keeps_frozen (save_board G) G2) as H2 by (by eapply keeps_frozen_trans).
  split.
  - intros i j Hf. split.
    + by apply (proj2 Hp i j).
    + by apply (proj2 H2 i j).
  - destruct H2 as [(HN' & HN & Hq & Hnn & Hsaved) Hk].
    apply (verify_against_snapshot G); [exact HN | exact Hsaved | exact Hc |].
    intros a b Hf. by apply (proj2 (Hk a b)).
Qed.

(** C4.  Clue preservation.  Let [G] be a board on which every square with
    a nonzero value is frozen (the board as loaded).  If preprocessing of
    the saved board reports solvable with board [G1] and the search then
    returns with board [G2], every square that was frozen in [G] is in [G1]
    and in [G2] exactly as it was in [G] (value, flag, neighbors and
    candidate stack), and [verify_solution_to_our_problem] returns true on
    the final board.  For the program as a whole: whatever the input file,
    a run of [main] that returns never reports NOT A SOLUTION TO THE
    ORIGINAL PROBLEM. *)
Theorem clues_preserved :
  (forall fp fs G G1 G2,
     clues_frozen G = true ->
     preprocess_board fp (save_board G) = Ok (G1, true) ->
     find_solution fs G1 = Ok G2 ->
     (forall i j, frozen (sq G i j) = true -> sq G1 i j = sq G i j /\ sq G2 i j = sq G i j)
     /\ verify_solution_to_our_problem G2 = true)
  /\ (forall fp fs file rep G', main fp fs file = Ok (rep, G') -> rep <> NotASolution).
Proof.
  split; [apply clues_kept|].
  intros fp fs file rep G' H.
  apply main_Ok in H as (G & _ & Hload & H).
  apply loaded_ok_clues_frozen in Hload.
  unfold solve in H.
  apply obind_Ok in H as (valid & _ & H).
  destruct valid; simpl in H; [|by injection H as <- _].
  apply obind_Ok in H as ([G1 solvable] & Hp & H).
  destruct solvable; simpl in H; [|by injection H as <- _].
  apply obind_Ok in H as (G2 & Hs & H).
  destruct (clues_kept fp fs G G1 G2 Hload Hp Hs) as [_ Hv]. rewrite Hv in H. simpl in H.
  apply obind_Ok in H as (full & _ & H).
  destruct full; simpl in H; injection H as <- _; discriminate.
Qed.

Lemma clues_preserved_witness :
  verify_solution_to_our_problem
    (searched 2000 (preprocessed 40 (loaded usage_file))) = true.
Proof.
  refine (proj2 (proj1 clues_preserved 40%nat 2000%nat (loaded usage_file)
                   (preprocessed 40 (loaded usage_file))
                   (searched 2000 (preprocessed 40 (loaded usage_file))) _ _ _)).
  - vm_compute; reflexivity.
  - apply reports_solvable_run. vm_compute; reflexivity.
  - apply search_returns_run. vm_compute; reflexivity.
Defined.

(** * How the search ends (claim C5) *)

Lemma find_piece_Some G p piece k :
  find_piece G p piece = Ok (Some k) ->
  piece < k <= N2 G /\ has_bit (cand p (topmask p)) k = true
  /\ 0 <= topmask p < MAX_NUM_NEIGHBORS.
Proof.
  unfold find_piece.
  destruct (N2 G <? piece + 1); [discriminate|].
  destruct ((topmask p <? 0) || (MAX_NUM_NEIGHBORS <=? topmask p)) eqn:E; [discriminate|].
  intros [= H]. apply find_some in H as [Hin H].
  apply list_elem_of_In, elem_of_seqZ' in Hin. repeat split; [lia..|done|lia|lia].
Qed.

Lemma find_piece_dead_end s :
  dead_end s -> find_piece (sG s) (sq (sG s) (si s) (sj s)) (piece_to_place s) = Ok None.
Proof.
  intros (_ & _ & Ht & Hk). unfold find_piece.
  destruct (N2 (sG s) <? piece_to_place s + 1); [done|].
  replace ((topmask _ <? 0) || (MAX_NUM_NEIGHBORS <=? topmask _)) with false by lia.
  f_equal. destruct (List.find _ _) as [k|] eqn:E; [|done].
  apply find_some in E as [Hin E].
  apply list_elem_of_In, elem_of_seqZ' in Hin.
  rewrite Hk in E by lia. discriminate.
Qed.

Lemma is_dead_end_spec s : is_dead_end s = true -> dead_end s.
Proof.
  unfold is_dead_end, dead_end. intros H.
  repeat (apply andb_prop in H as [H ?]).
  rewrite forallb_seqZ in *. unfold on_board.
  repeat split; try lia.
  - by apply negb_true_iff.
  - intros k Hk. apply negb_true_iff. match goal with F : forall k, _ |- _ => apply F end. lia.
Qed.

Lemma stack_inv_start G : stack_inv (search_start G).
Proof.
  unfold stack_inv, search_start; simpl. split; [lia|]. split; [done|]. split.
  - intros a b H. by apply elem_of_nil in H.
  - intros a b [Ha Hb] [H|[H1 H2]]; lia.
Qed.

Lemma before_trans a b c d e f : before a b c d -> before c d e f -> before a b e f.
Proof. unfold before. lia. Qed.

Lemma before_irrefl a b : ~ before a b a b.
Proof. unfold before. lia. Qed.

Lemma stack_inv_step s s' :
  stack_inv s -> search_step s = Ok (inl s') -> stack_inv s'.
Proof.
  intros ((Hi & Hj & Hp) & Hd & Hst & Hall). unfold search_step.
  destruct (N2 (sG s) <? si s) eqn:Ei; [discriminate|].
  destruct (N2 (sG s) <? sj s) eqn:Ej.
  { (* end of a row *)
    intros [= <-]. unfold stack_inv; simpl. split; [lia|]. split; [done|]. split.
    - intros a b Hin. destruct (Hst a b Hin) as (Hon & Hbef & Hfr & Hv).
      split; [done|]. split; [|done]. destruct Hon. unfold before in *. lia.
    - intros a b [Ha Hb] Hbef Hf. apply Hall; [done| |done].
      unfold before in *. lia. }
  destruct (frozen (sq (sG s) (si s) (sj s))) eqn:Hf.
  { (* a frozen square is skipped *)
    intros [= <-]. unfold stack_inv; simpl. split; [lia|]. split; [done|]. split.
    - intros a b Hin. destruct (Hst a b Hin) as (Hon & Hbef & Hfr & Hv).
      split; [done|]. split; [|done]. unfold before in *. lia.
    - intros a b Hon Hbef Hfr.
      destruct (decide ((a, b) = (si s, sj s))) as [E|E].
      + inversion E; subst. congruence.
      + apply Hall; [done| |done]. unfold before in *.
        assert (a <> si s \/ b <> sj s) by (destruct (decide (a = si s)); [right|left]; congruence).
        lia. }
  intros H. apply obind_Ok in H as (found & Hfound & H).
  destruct found as [k|].
  - (* a piece is placed *)
    apply find_piece_Some in Hfound as (Hk & _).
    apply obind_Ok in H as (G1 & H1 & H).
    destruct (negb _); [discriminate|]. injection H as <-.
    apply update_neighbors_keeps_values in H1.
    destruct H1 as [[[(_ & HN2 & _) _] Hfl] Hval].
    unfold stack_inv; simpl.
    assert (forall a b, frozen (sq G1 a b) = frozen (sq (sG s) a b)) as Hfl'.
    { intros a b. rewrite Hfl, sq_set_sq. case_decide as E; [|done].
      inversion E; subst. simpl. done. }
    assert (forall a b, cur_value (sq G1 a b)
              = if decide ((si s, sj s) = (a, b)) then k else cur_value (sq (sG s) a b))
      as Hval'.
    { intros a b. rewrite Hval, sq_set_sq. by case_decide. }
    simpl in HN2.
    split; [lia|]. split; [|split].
    + split; [|done]. intros [a b] Hin. simpl. by apply Hst.
    + intros a b Hin. unfold on_board. rewrite HN2, Hfl', Hval'.
      apply elem_of_cons in Hin as [E|Hin].
      * inversion E; subst. rewrite decide_True by done.
        unfold before. repeat split; try lia. done.
      * destruct (Hst a b Hin) as (Hon & Hbef & Hfr & Hv).
        case_decide as E.
        { inversion E; subst. by apply before_irrefl in Hbef. }
        unfold before in *. unfold on_board in Hon. repeat split; try lia. done.
    + intros a b Hon Hbef Hfr. rewrite Hfl' in Hfr.
      unfold on_board in Hon. rewrite HN2 in Hon.
      destruct (decide ((a, b) = (si s, sj s))) as [E|E]; [rewrite E; left|].
      right. apply Hall; [done| |done]. unfold before in *.
      assert (a <> si s \/ b <> sj s) by (destruct (decide (a = si s)); [right|left]; congruence).
      lia.
  - (* a move is undone *)
    destruct (stack s) as [|[i' j'] rest] eqn:Estack; [discriminate|].
    apply obind_Ok in H as (G1 & H1 & H). injection H as <-.
    apply update_neighbors_keeps_values in H1.
    destruct H1 as [[[(_ & HN2 & _) _] Hfl] Hval].
    destruct (Hst i' j') as (Hon' & Hbef' & Hfr' & Hv'); [left|].
    destruct Hd as [Htop Hd].
    unfold stack_inv; simpl.
    assert (forall a b, frozen (sq (set_sq G1 i' j' (with_cur_value (sq G1 i' j') 0)) a b)
                        = frozen (sq (sG s) a b)) as Hfl'.
    { intros a b. rewrite sq_set_sq. case_decide as E; [|apply Hfl].
      inversion E; subst. simpl. apply Hfl. }
    assert (forall a b, (i', j') <> (a, b) ->
              cur_value (sq (set_sq G1 i' j' (with_cur_value (sq G1 i' j') 0)) a b)
              = cur_value (sq (sG s) a b)) as Hval'.
    { intros a b E. rewrite sq_set_sq_ne by done. apply Hval. }
    simpl in HN2.
    assert (N2 (set_sq G1 i' j' (with_cur_value (sq G1 i' j') 0)) = N2 (sG s)) as HN2'
      by exact HN2.
    unfold on_board in *. rewrite HN2'.
    split; [change (cur_value (sq (bump (sG s) Unstacking) i' j'))
              with (cur_value (sq (sG s) i' j')); lia|].
    split; [done|]. split.
    + intros a b Hin.
      destruct (Hst a b) as (Hon & Hbef & Hfr & Hv); [by right|].
      specialize (Htop (a, b) Hin). simpl in Htop.
      rewrite Hfl', Hval'.
      * unfold before in *. repeat split; try lia. done.
      * intros E. inversion E; subst. by apply before_irrefl in Htop.
    + intros a b Hon Hbef Hfr. rewrite Hfl' in Hfr.
      replace (j' - 1 + 1) with j' in Hbef by lia.
      assert ((a, b) ∈ (i', j') :: rest) as Hin.
      { apply Hall; [lia| |done]. by eapply before_trans. }
      apply elem_of_cons in Hin as [E|Hin]; [|done].
      inversion E; subst. by apply before_irrefl in Hbef.
Qed.

Lemma stack_inv_steps n s s' :
  stack_inv s -> search_steps n s = Ok (inl s') -> stack_inv s'.
Proof.
  revert s. induction n as [|n IH]; intros s Hs; simpl.
  - by intros [= <-].
  - intros H. apply obind_Ok in H as ([s1|G1] & H1 & H2); [|discriminate].
    apply (IH s1); [by eapply stack_inv_step|done].
Qed.

Lemma search_run_steps fuel s G :
  search_run fuel s = Ok G ->
  exists n s', search_steps n s = Ok (inl s') /\ search_step s' = Ok (inr G).
Proof.
  revert s. induction fuel as [|fuel IH]; intros s; simpl; [discriminate|].
  intros H. apply obind_Ok in H as ([s1|G1] & H1 & H2).
  - destruct (IH s1 H2) as (n & s' & Hn & Hs').
    exists (S n), s'. split; [|done]. simpl. by rewrite H1.
  - injection H2 as <-. exists O, s. by split.
Qed.

(** C5.  A dead end (the square under the cursor is unfrozen and no value
    above [piece_to_place] is left in its top mask) reached with an empty
    move stack makes the step of the search fail its assertion; [main] has
    no handler, so the process aborts where a solvable report was already
    behind it, and nothing like NO SOLUTIONS EXISTS is printed.  And the
    search has no other way out: whenever [find_solution] returns, every
    square of the board is frozen or carries a value between 1 and [N2], so
    that on a board whose frozen squares carry values every square does. *)
Theorem search_exhaustion_aborts :
  (forall s, dead_end s -> stack s = [] -> search_step s = AssertFail)
  /\ (forall fp fs G G1,
        verify_solution (save_board G) false = Ok true ->
        preprocess_board fp (save_board G) = Ok (G1, true) ->
        find_solution fs G1 = AssertFail -> solve fp fs G = AssertFail)
  /\ (forall fs G G', find_solution fs G = Ok G' ->
        forall a b, on_board G' a b ->
          frozen (sq G' a b) = true \/ 1 <= cur_value (sq G' a b) <= N2 G')
  /\ (forall fs G G', find_solution fs G = Ok G' ->
        (forall a b, on_board G a b -> frozen (sq G a b) = true ->
           1 <= cur_value (sq G a b) <= N2 G) ->
        forall a b, on_board G' a b -> 1 <= cur_value (sq G' a b) <= N2 G').
Proof.
  assert (forall fs G G', find_solution fs G = Ok G' ->
        forall a b, on_board G' a b ->
          frozen (sq G' a b) = true \/ 1 <= cur_value (sq G' a b) <= N2 G') as Hfull.
  { intros fs G G' H a b Hon.
    apply search_run_steps in H as (n & s' & Hn & Hlast).
    apply stack_inv_steps in Hn; [|apply stack_inv_start].
    apply search_step_done in Hlast as [-> Hi].
    destruct Hn as (_ & _ & Hst & Hall).
    destruct (frozen (sq (sG s') a b)) eqn:Hf; [by left|right].
    apply Hst, Hall; [done| |done].
    left. destruct Hon. lia. }
  split; [|split; [|split]].
  - intros s Hd Hs. pose proof (find_piece_dead_end s Hd) as Hf.
    destruct Hd as ([[_ Hi] [_ Hj]] & Hfr & _). unfold search_step.
    replace (N2 (sG s) <? si s) with false by lia.
    replace (N2 (sG s) <? sj s) with false by lia.
    rewrite Hfr, Hf, Hs. reflexivity.
  - intros fp fs G G1 Hv Hp Hs. unfold solve. rewrite Hv. simpl.
    rewrite Hp. simpl. by rewrite Hs.
  - exact Hfull.
  - intros fs G G' H Hfz a b Hon.
    destruct (Hfull fs G G' H a b Hon) as [Hf|Hv]; [|done].
    apply search_run_keeps_flags in H. simpl in H.
    destruct H as [[(_ & EN2 & _) Hk] Hfl].
    rewrite Hfl in Hf. rewrite (proj2 (Hk a b) Hf), EN2.
    apply Hfz; [|done]. unfold on_board in *. by rewrite <- EN2.
Qed.

(** The file [dead_end_file] passes the check of its clues and the
    preprocessing, and the search gives up after eight steps, with an empty
    stack: the run ends in the failed assertion, not in a report. *)
Example dead_end_file_aborts : main 40 100 dead_end_file = AssertFail.
Proof. vm_compute. reflexivity. Qed.

Lemma search_exhaustion_aborts_witness :
  search_step (state_after 8 (preprocessed 40 (loaded dead_end_file))) = AssertFail
  /\ (frozen (sq (searched 2000 (preprocessed 40 (loaded usage_file))) 1 1) = true
      \/ 1 <= cur_value (sq (searched 2000 (preprocessed 40 (loaded usage_file))) 1 1)
           <= N2 (searched 2000 (preprocessed 40 (loaded usage_file)))).
Proof.
  split.
  - apply (proj1 search_exhaustion_aborts).
    + apply is_dead_end_spec. vm_compute. reflexivity.
    + vm_compute. reflexivity.
  - apply (proj1 (proj2 (proj2 search_exhaustion_aborts)) 2000%nat
             (preprocessed 40 (loaded usage_file))).
    + apply search_returns_run. vm_compute. reflexivity.
    + vm_compute. repeat split; discriminate.
Defined.

(** * Invalid setups (claim C6) *)

Lemma values_in_range_spec G :
  values_in_range G = true ->
  forall a b, on_board G a b -> 0 <= cur_value (sq G a b) <= N2 G.
Proof.
  unfold values_in_range. rewrite forallb_forall. intros H a b Hon.
  specialize (H (a, b)). simpl in H.
  apply elem_of_all_squares, list_elem_of_In in Hon. specialize (H Hon). lia.
Qed.

(** The origins of the subsquares. *)
Lemma upto_by_elem fuel x step bound y :
  1 <= step ->
  y ∈ upto_by fuel x step bound -> exists t, 0 <= t /\ y = x + t * step /\ y <= bound.
Proof.
  intros Hs. revert x. induction fuel as [|fuel IH]; intros x; simpl.
  - intros H. by apply elem_of_nil in H.
  - destruct (x <=? bound) eqn:E; [|intros H; by apply elem_of_nil in H].
    intros H. apply elem_of_cons in H as [->|H].
    + exists 0. lia.
    + apply IH in H as (t & Ht & -> & Hb). exists (t + 1). lia.
Qed.

Lemma upto_by_intro fuel x step bound t :
  1 <= step -> 0 <= t -> (Z.to_nat t < fuel)%nat -> x + t * step <= bound ->
  x + t * step ∈ upto_by fuel x step bound.
Proof.
  intros Hs. revert x t. induction fuel as [|fuel IH]; intros x t Ht Hf Hb; simpl; [lia|].
  replace (x <=? bound) with true by nia.
  destruct (decide (t = 0)) as [->|Hne].
  - replace (x + 0 * step) with x by lia. left.
  - right. replace (x + t * step) with ((x + step) + (t - 1) * step) by lia.
    apply IH; [lia|lia|lia].
Qed.

Lemma elem_of_origins G x :
  well_sized G -> x ∈ origins G <-> exists t, 0 <= t < N G /\ x = 1 + t * N G.
Proof.
  intros [HN HN2]. unfold origins. split.
  - intros H. apply upto_by_elem in H as (t & Ht & -> & Hb); [|done].
    exists t. split; [|done]. nia.
  - intros (t & Ht & ->). apply upto_by_intro; [lia|lia| |nia].
    rewrite HN2. nia.
Qed.

Lemma elem_of_subsquare_squares G i j a b :
  (a, b) ∈ subsquare_squares G i j <-> i <= a < i + N G /\ j <= b < j + N G.
Proof.
  unfold subsquare_squares. rewrite list_elem_of_In, in_flat_map. split.
  - intros (ii & Hii & Hin). apply list_elem_of_In, elem_of_seqZ' in Hii.
    apply list_elem_of_In, list_elem_of_fmap in Hin as (jj & E & Hjj).
    apply elem_of_seqZ' in Hjj. inversion E; subst. lia.
  - intros [Ha Hb]. exists (a - i). split.
    + apply list_elem_of_In, elem_of_seqZ'. lia.
    + apply list_elem_of_In, list_elem_of_fmap. exists (b - j). split; [f_equal; lia|].
      apply elem_of_seqZ'. lia.
Qed.

Lemma all_units_on_board G u a b :
  well_sized G -> u ∈ all_units G -> (a, b) ∈ u -> on_board G a b.
Proof.
  intros Hw Hu Hc. pose proof Hw as [HN HN2]. unfold all_units in Hu.
  rewrite !elem_of_app in Hu. destruct Hu as [Hu|[Hu|Hu]].
  - apply list_elem_of_fmap in Hu as (i & -> & Hi). apply elem_of_seqZ' in Hi.
    apply list_elem_of_fmap in Hc as (j & E & Hj). apply elem_of_seqZ' in Hj.
    inversion E; subst. unfold on_board. lia.
  - apply list_elem_of_fmap in Hu as (i & -> & Hi). apply elem_of_seqZ' in Hi.
    apply list_elem_of_fmap in Hc as (j & E & Hj). apply elem_of_seqZ' in Hj.
    inversion E; subst. unfold on_board. lia.
  - unfold all_subsquares in Hu. apply list_elem_of_In, in_flat_map in Hu as (i & Hi & Hu).
    apply list_elem_of_In, list_elem_of_fmap in Hu as (j & -> & Hj).
    apply list_elem_of_In, elem_of_origins in Hi as (ti & Hti & ->); [|done].
    apply elem_of_origins in Hj as (tj & Htj & ->); [|done].
    apply elem_of_subsquare_squares in Hc. unfold on_board. nia.
Qed.

(** Two squares that see each other share a unit. *)
Lemma sees_shares_unit G a b a' b' :
  well_sized G -> on_board G a b -> on_board G a' b' -> sees G a b a' b' ->
  exists u, u ∈ all_units G /\ (a, b) ∈ u /\ (a', b') ∈ u.
Proof.
  intros Hw [Ha Hb] [Ha' Hb'] [Hne Hs]. pose proof Hw as [HN HN2].
  destruct Hs as [<-|[<-|[Hr Hc]]].
  - exists (row_squares G a). split; [|split].
    + unfold all_units. rewrite !elem_of_app. left.
      apply list_elem_of_fmap. exists a. split; [done|]. apply elem_of_seqZ'. lia.
    + apply list_elem_of_fmap. exists b. split; [done|]. apply elem_of_seqZ'. lia.
    + apply list_elem_of_fmap. exists b'. split; [done|]. apply elem_of_seqZ'. lia.
  - exists (column_squares G b). split; [|split].
    + unfold all_units. rewrite !elem_of_app. right; left.
      apply list_elem_of_fmap. exists b. split; [done|]. apply elem_of_seqZ'. lia.
    + apply list_elem_of_fmap. exists a. split; [done|]. apply elem_of_seqZ'. lia.
    + apply list_elem_of_fmap. exists a'. split; [done|]. apply elem_of_seqZ'. lia.
  - rewrite !Z.quot_div_nonneg in Hr, Hc by lia.
    set (ti := (a - 1) `div` N G) in *. set (tj := (b - 1) `div` N G) in *.
    assert (0 <= ti < N G) as Hti.
    { subst ti. split; [apply Z.div_pos; lia|]. apply Z.div_lt_upper_bound; nia. }
    assert (0 <= tj < N G) as Htj.
    { subst tj. split; [apply Z.div_pos; lia|]. apply Z.div_lt_upper_bound; nia. }
    pose proof (Z.div_mod (a - 1) (N G) ltac:(lia)) as Ea.
    pose proof (Z.mod_pos_bound (a - 1) (N G) ltac:(lia)) as Ma.
    pose proof (Z.div_mod (b - 1) (N G) ltac:(lia)) as Eb.
    pose proof (Z.mod_pos_bound (b - 1) (N G) ltac:(lia)) as Mb.
    pose proof (Z.div_mod (a' - 1) (N G) ltac:(lia)) as Ea'.
    pose proof (Z.mod_pos_bound (a' - 1) (N G) ltac:(lia)) as Ma'.
    pose proof (Z.div_mod (b' - 1) (N G) ltac:(lia)) as Eb'.
    pose proof (Z.mod_pos_bound (b' - 1) (N G) ltac:(lia)) as Mb'.
    rewrite <- Hr in Ea'. rewrite <- Hc in Eb'. fold ti in Ea, Ea'. fold tj in Eb, Eb'.
    exists (subsquare_squares G (1 + ti * N G) (1 + tj * N G)). split; [|split].
    + unfold all_units. rewrite !elem_of_app. right; right.
      unfold all_subsquares. apply list_elem_of_In, in_flat_map.
      exists (1 + ti * N G). split.
      * apply list_elem_of_In, elem_of_origins; [done|]. by exists ti.
      * apply list_elem_of_In, list_elem_of_fmap. exists (1 + tj * N G). split; [done|].
        apply elem_of_origins; [done|]. by exists tj.
    + apply elem_of_subsquare_squares. nia.
    + apply elem_of_subsquare_squares. nia.
Qed.

(** Counting. *)
Lemma count_used_spec G u :
  (forall c, c ∈ u -> 0 <= cur_value (sq G c.1 c.2) <= N2 G) ->
  exists used, count_used G u = Ok used /\ forall k, aget used k = occurrences G u k.
Proof.
  unfold count_used, occurrences.
  assert (forall l (acc : gmap Z Z),
    (forall c, c ∈ l -> 0 <= cur_value (sq G c.1 c.2) <= N2 G) ->
    exists used,
      ofold (fun used c =>
           let n := cur_value (sq G c.1 c.2) in
           if (0 <=? n) && (n <=? N2 G) then Ok (ainc used n) else AssertFail) acc l
      = Ok used
      /\ forall k, aget used k
           = aget acc k + Z.of_nat (length (filter (fun c => cur_value (sq G c.1 c.2) = k) l)))
    as Hgen.
  { induction l as [|c l IH]; intros acc Hr; simpl.
    - exists acc. split; [done|]. intros k. lia.
    - destruct (Hr c) as [H1 H2]; [left|].
      replace ((0 <=? cur_value (sq G c.1 c.2)) && (cur_value (sq G c.1 c.2) <=? N2 G))
        with true by lia. simpl.
      destruct (IH (ainc acc (cur_value (sq G c.1 c.2)))) as (used & Hu & Hk).
      { intros c' Hc'. apply Hr. by right. }
      exists used. split; [done|]. intros k. rewrite Hk, aget_ainc.
      rewrite filter_cons. case_decide; subst; simpl length; lia. }
  intros Hr. destruct (Hgen u ∅ Hr) as (used & Hu & Hk).
  exists used. split; [done|]. intros k. rewrite Hk, aget_empty. lia.
Qed.

Lemma used_ok_partial_false G used k :
  1 <= k <= N2 G -> 1 < aget used k -> used_ok G false used = false.
Proof.
  intros Hk Hu. unfold used_ok. apply not_true_is_false. intros H.
  rewrite forallb_seqZ in H. specialize (H k ltac:(lia)). simpl in H.
  rewrite andb_true_r in H. apply negb_true_iff in H. lia.
Qed.

Lemma occurrences_two G u c c' k :
  c <> c' -> c ∈ u -> c' ∈ u ->
  cur_value (sq G c.1 c.2) = k -> cur_value (sq G c'.1 c'.2) = k ->
  1 < occurrences G u k.
Proof.
  intros Hne Hc Hc' Hk Hk'. unfold occurrences.
  assert (forall x l, x ∈ l -> cur_value (sq G x.1 x.2) = k ->
            (1 <= length (filter (fun c => cur_value (sq G c.1 c.2) = k) l))%nat) as Hone.
  { intros x l Hx Hv. induction l as [|y l IH]; [by apply elem_of_nil in Hx|].
    rewrite filter_cons. apply elem_of_cons in Hx as [<-|Hx].
    - rewrite decide_True by done. simpl. lia.
    - case_decide; simpl; specialize (IH Hx); lia. }
  induction u as [|y u IH]; [by apply elem_of_nil in Hc|].
  rewrite filter_cons.
  apply elem_of_cons in Hc as [<-|Hc]; apply elem_of_cons in Hc' as [<-|Hc'].
  - done.
  - rewrite decide_True by done. simpl. specialize (Hone c' u Hc' Hk'). lia.
  - rewrite decide_True by done. simpl. specialize (Hone c u Hc Hk). lia.
  - specialize (IH Hc Hc'). case_decide; simpl; lia.
Qed.

Lemma verify_units_partial_false G units u k :
  (forall u' c, u' ∈ units -> c ∈ u' -> 0 <= cur_value (sq G c.1 c.2) <= N2 G) ->
  u ∈ units -> 1 <= k <= N2 G -> 1 < occurrences G u k ->
  verify_units G false units = Ok false.
Proof.
  intros Hr Hu Hk Hocc. induction units as [|u0 rest IH]; [by apply elem_of_nil in Hu|].
  simpl. destruct (count_used_spec G u0) as (used & -> & Hused).
  { intros c Hc. eapply Hr; [left|done]. }
  simpl. destruct (used_ok G false used) eqn:E; [|done].
  apply IH.
  - intros u' c Hu' Hc. eapply Hr; [by right|done].
  - apply elem_of_cons in Hu as [->|Hu]; [|done].
    rewrite (used_ok_partial_false G used k) in E; [done|done|]. by rewrite Hused.
Qed.

Lemma verify_solution_save_board G full :
  verify_solution (save_board G) full = verify_solution G full.
Proof.
  unfold verify_solution.
  change (all_rows (save_board G) ++ all_columns (save_board G) ++ all_subsquares (save_board G))
    with (all_units G).
  fold (all_units G).
  induction (all_units G) as [|u rest IH]; [done|]. simpl.
  change (count_used (save_board G) u) with (count_used G u).
  destruct (count_used G u) as [used| | | |]; simpl; try done.
  change (used_ok (save_board G) full used) with (used_ok G full used).
  by rewrite IH.
Qed.

Lemma conflict_fails_partial_check G :
  well_sized G -> values_in_range G = true -> clue_conflict G ->
  verify_solution (save_board G) false = Ok false.
Proof.
  intros Hw Hr (a & b & a' & b' & Hon & Hon' & Hsees & Hv & Hk).
  rewrite verify_solution_save_board.
  change (verify_solution G false) with (verify_units G false (all_units G)).
  destruct (sees_shares_unit G a b a' b' Hw Hon Hon' Hsees) as (u & Hu & Hc & Hc').
  apply (verify_units_partial_false G (all_units G) u (cur_value (sq G a b))); [|done..|].
  - intros u' [x y] Hu' Hc0. simpl. apply values_in_range_spec; [done|].
    by eapply all_units_on_board.
  - apply (occurrences_two G u (a, b) (a', b')); [by destruct Hsees|done..|].
    simpl. by rewrite Hv.
Qed.

(** C6.  Invalid setup.  If the clues violate partial uniqueness (two
    different squares of one row, one column or one subsquare hold the same
    value of the alphabet), [main] reports INVALID SETUP and returns
    normally, and the game it leaves is the loaded one with nothing but the
    snapshot taken: the preprocessing loop and the search loop have run
    zero times, whatever fuel they were given (none is needed).  This holds
    for every board with the sizes of [init_board] and values in range, and
    so for every file that loads. *)
Theorem invalid_setup_reported :
  (forall fp fs G,
     well_sized G -> values_in_range G = true -> clue_conflict G ->
     solve fp fs G = Ok (InvalidSetup, save_board G)
     /\ solve 0 0 G = Ok (InvalidSetup, save_board G))
  /\ (forall fp fs file G,
        load_file (init_board zero_game 3) file true = Ok G -> clue_conflict G ->
        main fp fs file = Ok (InvalidSetup, save_board G)
        /\ main 0 0 file = Ok (InvalidSetup, save_board G)).
Proof.
  assert (forall fp fs G, well_sized G -> values_in_range G = true -> clue_conflict G ->
            solve fp fs G = Ok (InvalidSetup, save_board G)) as Hsolve.
  { intros fp fs G Hw Hr Hc. unfold solve.
    by rewrite (conflict_fails_partial_check G Hw Hr Hc). }
  split.
  - intros fp fs G Hw Hr Hc. split; by apply Hsolve.
  - intros fp fs file G Hload Hc.
    destruct (main_loaded fp fs file G Hload) as [E HL].
    destruct (main_loaded 0 0 file G Hload) as [E0 _].
    rewrite E, E0.
    destruct (loaded_ok_sizes G HL) as [Hw _].
    pose proof (loaded_ok_values_in_range G HL) as Hr.
    split; by apply Hsolve.
Qed.

Lemma conflict_at_spec G a b a' b' : conflict_at G a b a' b' = true -> clue_conflict G.
Proof.
  unfold conflict_at. intros H. repeat (apply andb_prop in H as [H ?]).
  exists a, b, a', b'. unfold on_board, sees, same_subsquare.
  split; [lia|]. split; [lia|]. split; [|split; [lia|lia]].
  split.
  - intros [= -> ->]. rewrite !Z.eqb_refl in *. discriminate.
  - lia.
Qed.

Lemma invalid_setup_reported_witness :
  solve 40 2000 (loaded invalid_file) = Ok (InvalidSetup, save_board (loaded invalid_file))
  /\ solve 0 0 (loaded invalid_file) = Ok (InvalidSetup, save_board (loaded invalid_file)).
Proof.
  apply (proj1 invalid_setup_reported 40%nat 2000%nat (loaded invalid_file)).
  - unfold well_sized. vm_compute. split; [discriminate | reflexivity].
  - vm_compute; reflexivity.
  - apply (conflict_at_spec _ 1 1 1 4). vm_compute; reflexivity.
Defined.

(** * The single-candidate rule freezes in batches (claims C1 and C3) *)

(** C3.  On the board of [twin_file] after the first computation of the
    base candidates, one call of [check_for_only_one_candidate] freezes four
    squares, with no recomputation of candidates in between: (1,1) and then
    (1,4), which share row 1, both get the value 1, and (2,2) and then
    (2,5), which share row 2, both get the value 2.  The rule does not
    restart the loop after its first freeze, as the three other rules do. *)
Theorem only_one_candidate_freezes_many :
  let G := (find_candidates (save_board (loaded twin_file))).1 in
  let r := check_for_only_one_candidate G in
  r.2 = true
  /\ num_frozen_as_only_candidate (stats r.1) = num_frozen_as_only_candidate (stats G) + 4
  /\ map (fun c => (frozen (sq G c.1 c.2), frozen (sq r.1 c.1 c.2), cur_value (sq r.1 c.1 c.2)))
         [(1, 1); (1, 4); (2, 2); (2, 5)]
     = [(false, true, 1); (false, true, 1); (false, true, 2); (false, true, 2)].
Proof. vm_compute. repeat split; reflexivity. Qed.

(** C1.  [twin_file] is an input whose clues pass the partial check, for
    which preprocessing reports solvable and the search returns normally;
    the board it returns has the value 1 twice in row 1 and fails the full
    verification, and [main] prints INVALID SOLUTION. *)
Theorem twin_file_invalid_solution :
  verify_solution (save_board (loaded twin_file)) false = Ok true
  /\ reports_solvable 40 (loaded twin_file) = true
  /\ search_returns 100 (preprocessed 40 (loaded twin_file)) = true
  /\ verify_solution (searched 100 (preprocessed 40 (loaded twin_file))) true = Ok false
  /\ nth 0 (board_values (searched 100 (preprocessed 40 (loaded twin_file)))) []
     = [1; 3; 4; 1; 5; 6; 7; 8; 9]
  /\ report_of (main 40 100 twin_file) = Some InvalidSolution.
Proof. vm_compute. repeat split; reflexivity. Qed.

(** * The loader (claim C8; lemmas for claim C9) *)





(** The number of a directive is an [int]: 4294967300 is 2^32 + 4, which
    [atoi] returns as 4, and the directive is honoured. *)
Example directive_number_is_int :
  atoi "4294967300" = 4
  /\ line_N (get_line (init_board zero_game 3) true (file_of ["//N=4294967300"; "- - -"]%string)) = 4.
Proof. vm_compute. split; reflexivity. Qed.

(** A directive after the first data line changes nothing: the file loads
    as a 9x9 puzzle. *)
Example late_directive_ignored :
  N (loaded late_directive_file) = 3
  /\ board_values (loaded late_directive_file) = board_values (loaded (tail usage_file)).
Proof. vm_compute. split; reflexivity. Qed.

(** ** Short lines, long lines, long files *)













Lemma row_loads_run G i line :
  row_loads G i line = true -> load_row G i line = Ok (row_loaded G i line).
Proof. unfold row_loads, row_loaded. by destruct (load_row G i line). Qed.

(** * Bit masks *)

Lemma bit_table_ok : forallb (fun k => bit k =? 2 ^ (64 - k)) (seqZ 1 64) = true.
Proof. vm_compute. reflexivity. Qed.

Lemma bit_pow2 k : 1 <= k <= 64 -> bit k = 2 ^ (64 - k).
Proof.
  intros Hk. pose proof bit_table_ok as H. rewrite forallb_seqZ in H.
  apply Z.eqb_eq, H. lia.
Qed.

Lemma land_pow2_testbit m n : 0 <= n -> (Z.land m (2 ^ n) =? 0) = negb (Z.testbit m n).
Proof.
  intros Hn. destruct (Z.testbit m n) eqn:E; simpl.
  - apply Z.eqb_neq. intros H.
    assert (Z.testbit (Z.land m (2 ^ n)) n = true) as Ht.
    { rewrite Z.land_spec, E, Z.pow2_bits_true by lia. done. }
    rewrite H, Z.bits_0 in Ht. discriminate.
  - apply Z.eqb_eq, Z.bits_inj'. intros i Hi.
    rewrite Z.land_spec, Z.bits_0, Z.pow2_bits_eqb by lia.
    destruct (n =? i) eqn:Ei; [|apply andb_false_r].
    apply Z.eqb_eq in Ei. subst. by rewrite E.
Qed.

Lemma has_bit_testbit m v : 1 <= v <= 64 -> has_bit m v = Z.testbit m (64 - v).
Proof.
  intros Hv. unfold has_bit. rewrite bit_pow2, land_pow2_testbit by lia.
  apply negb_involutive.
Qed.

Lemma has_bit_zero v : 1 <= v <= 64 -> has_bit 0 v = false.
Proof. intros Hv. rewrite has_bit_testbit by done. apply Z.bits_0. Qed.

Lemma has_bit_lor b k v :
  1 <= k <= 64 -> 1 <= v <= 64 -> has_bit (Z.lor b (bit k)) v = has_bit b v || (v =? k).
Proof.
  intros Hk Hv. rewrite !has_bit_testbit by done.
  rewrite Z.lor_spec, bit_pow2, Z.pow2_bits_eqb by lia.
  f_equal. destruct (v =? k) eqn:E; lia.
Qed.

Lemma has_bit_restrict m k v :
  1 <= k <= 64 -> 1 <= v <= 64 ->
  has_bit (Z.land m (bnot64 (bit k))) v = has_bit m v && negb (v =? k).
Proof.
  intros Hk Hv. rewrite !has_bit_testbit by done. unfold bnot64.
  rewrite Z.land_spec, Z.lxor_spec, bit_pow2, Z.pow2_bits_eqb by lia.
  rewrite Z.ones_spec_low by lia. f_equal.
  destruct (v =? k) eqn:E; destruct (64 - k =? 64 - v) eqn:E'; simpl; lia.
Qed.

(** * Base candidates *)

Lemma seen_fold_spec G (l : list (Z * Z)) :
  let seen := foldl (fun seen c => ainc seen (cur_value (sq G c.1 c.2))) ∅ l in
  forall v, 0 <= aget seen v
            /\ (aget seen v = 0 <-> forall c, c ∈ l -> cur_value (sq G c.1 c.2) <> v).
Proof.
  apply (foldl_invariant_done (fun done0 seen =>
    forall v, 0 <= aget seen v
              /\ (aget seen v = 0 <-> forall c, c ∈ done0 -> cur_value (sq G c.1 c.2) <> v))).
  - intros v. rewrite aget_empty. split; [lia|]. split; [|done].
    intros _ c Hc. by apply elem_of_nil in Hc.
  - intros done0 seen c _ H v. destruct (H v) as [H0 H1]. rewrite aget_ainc.
    case_decide as E.
    + rewrite E. split; [lia|]. split; [lia|]. intros Hall. exfalso.
      apply (Hall c); [|done]. apply elem_of_app. right. by left.
    + split; [done|]. rewrite H1. split.
      * intros Hall d Hd. apply elem_of_app in Hd as [Hd|Hd]; [by apply Hall|].
        apply list_elem_of_singleton in Hd. by subst.
      * intros Hall d Hd. apply Hall, elem_of_app. by left.
Qed.

Lemma mask_fold_spec (seen : gmap Z Z) (n2 : Z) :
  n2 <= 64 ->
  let r := foldl (fun '(b, n) k =>
                    if aget seen k =? 0 then (Z.lor b (bit k), n + 1) else (b, n))
                 (0, 0) (seqZ 1 n2) in
  forall v, 1 <= v <= 64 -> (has_bit r.1 v = true <-> 1 <= v <= n2 /\ aget seen v = 0).
Proof.
  intros Hn.
  assert (forall v, 1 <= v <= 64 ->
            (has_bit (foldl (fun '(b, n) k =>
                    if aget seen k =? 0 then (Z.lor b (bit k), n + 1) else (b, n))
                 (0, 0) (seqZ 1 n2)).1 v = true
             <-> v ∈ seqZ 1 n2 /\ aget seen v = 0)) as H.
  { apply (foldl_invariant_done (fun done0 (r : Z * Z) =>
      forall v, 1 <= v <= 64 -> (has_bit r.1 v = true <-> v ∈ done0 /\ aget seen v = 0))).
    - intros v Hv. simpl. rewrite has_bit_zero by done. split; [done|].
      intros [H _]. by apply elem_of_nil in H.
    - intros done0 [b n] k Hk H v Hv. apply elem_of_seqZ' in Hk.
      destruct (aget seen k =? 0) eqn:E; simpl.
      + rewrite has_bit_lor by lia. rewrite orb_true_iff, (H v Hv), elem_of_app,
          list_elem_of_singleton. split.
        * intros [[H1 H2]|H1]; [by split; [left|]|].
          apply Z.eqb_eq in H1. subst. split; [by right|lia].
        * intros [[H1|H1] H2]; [by left|right]. lia.
      + rewrite (H v Hv), elem_of_app, list_elem_of_singleton. split.
        * intros [H1 H2]. by split; [left|].
        * intros [[H1|H1] H2]; [done|]. subst. lia. }
  intros r v Hv. subst r. rewrite (H v Hv), elem_of_seqZ'. split; intros [? ?]; split; lia.
Qed.

Lemma find_candidate_spec G row col :
  N2 G <= 64 -> frozen (sq G row col) = false ->
  let G' := (find_candidate G row col).1 in
  topmask (sq G' row col) = 0
  /\ (forall v, 1 <= v <= N2 G ->
        (has_bit (cand (sq G' row col) 0) v = true
         <-> forall c, c ∈ neighbors_of G (sq G row col) -> cur_value (sq G c.1 c.2) <> v))
  /\ (forall a b, (row, col) <> (a, b) -> sq G' a b = sq G a b).
Proof.
  intros HN Hf. unfold find_candidate. rewrite Hf.
  pose proof (seen_fold_spec G (neighbors_of G (sq G row col))) as Hseen.
  set (seen := foldl _ ∅ (neighbors_of G (sq G row col))) in *.
  pose proof (mask_fold_spec seen (N2 G) HN) as Hmask.
  destruct (foldl _ (0, 0) (seqZ 1 (N2 G))) as [b n]. simpl in *.
  rewrite sq_set_sq_eq. split; [done|]. split.
  - intros v Hv. unfold cand. simpl. rewrite aget_aset_eq.
    rewrite (Hmask v) by lia. destruct (Hseen v) as [_ <-]. split; [by intros [_ ?]|].
    intros H. split; [lia|done].
  - intros a c Hne. by apply sq_set_sq_ne.
Qed.

Lemma find_candidate_other G row col a b :
  (row, col) <> (a, b) -> sq (find_candidate G row col).1 a b = sq G a b.
Proof.
  intros Hne. unfold find_candidate. destruct (frozen (sq G row col)); [done|].
  destruct (foldl _ (0, 0) _) as [m n]. simpl. by apply sq_set_sq_ne.
Qed.

Lemma find_candidates_spec G :
  neighbors_built G -> N2 G <= 64 ->
  let G' := (find_candidates G).1 in
  keeps_values G G'
  /\ forall i j, on_board G i j -> frozen (sq G i j) = false ->
       topmask (sq G' i j) = 0
       /\ forall v, 1 <= v <= N2 G ->
            (has_bit (cand (sq G' i j) 0) v = true
             <-> forall c, c ∈ neighbor (sq G i j) -> cur_value (sq G c.1 c.2) <> v).
Proof.
  intros HB HN.
  assert (let r := find_candidates G in
          keeps_values G r.1
          /\ forall c, c ∈ all_squares G -> frozen (sq G c.1 c.2) = false ->
               topmask (sq r.1 c.1 c.2) = 0
               /\ forall v, 1 <= v <= N2 G ->
                    (has_bit (cand (sq r.1 c.1 c.2) 0) v = true
                     <-> forall d, d ∈ neighbor (sq G c.1 c.2) ->
                           cur_value (sq G d.1 d.2) <> v)) as H.
  { unfold find_candidates.
    apply (foldl_invariant_done (fun done0 (r : Game * bool) =>
      keeps_values G r.1
      /\ forall c, c ∈ done0 -> frozen (sq G c.1 c.2) = false ->
           topmask (sq r.1 c.1 c.2) = 0
           /\ forall v, 1 <= v <= N2 G ->
                (has_bit (cand (sq r.1 c.1 c.2) 0) v = true
                 <-> forall d, d ∈ neighbor (sq G c.1 c.2) ->
                       cur_value (sq G d.1 d.2) <> v))).
    - split; [apply keeps_values_refl|]. intros c Hc. by apply elem_of_nil in Hc.
    - intros done0 [G1 r] [row col] Hin [HK Hdone]. simpl in *.
      pose proof (find_candidate_keeps_values G1 row col) as HK1.
      destruct HK as [[[HF Hnb] Hfl] Hval].
      pose proof (find_candidate_spec G1 row col) as Hspec.
      pose proof (find_candidate_other G1 row col) as Hoth.
      destruct (find_candidate G1 row col) as [G2 ok]. simpl in *.
      split.
      { eapply keeps_values_trans; [|exact HK1]. repeat split; try apply HF; try done.
        - apply Hnb. - apply Hnb. }
      intros [a b] Hc Hfr. simpl in *.
      destruct (decide ((row, col) = (a, b))) as [E|E].
      + inversion E; subst a b.
        destruct Hspec as (Ht & Hm & _); [destruct HF as (_ & -> & _); lia | by rewrite Hfl |].
        split; [done|]. intros v Hv.
        destruct HF as (_ & HN2 & _ & Hnn & _).
        rewrite Hm by lia.
        assert (neighbors_of G1 (sq G1 row col) = neighbor (sq G row col)) as ->.
        { apply elem_of_all_squares in Hin.
          destruct (neighbors_built_spec G row col HB Hin) as (Hno & _).
          rewrite <- Hno. unfold neighbors_of. rewrite Hnn.
          unfold nbr. by rewrite (proj1 (Hnb row col)). }
        split; intros H d Hd; specialize (H d Hd); by rewrite ?Hval in *.
      + rewrite Hoth by done. apply (Hdone (a, b)); [|done].
        apply elem_of_app in Hc as [Hc|Hc]; [done|].
        apply list_elem_of_singleton in Hc. congruence. }
  destruct H as [HK H]. split; [exact HK|].
  intros i j Hon Hfr. apply (H (i, j)); [by apply elem_of_all_squares|done].
Qed.

Lemma find_candidates_exact G :
  neighbors_built G -> N2 G <= 64 -> candidates_exact (find_candidates G).1.
Proof.
  intros HB HN. destruct (find_candidates_spec G HB HN) as [HK H].
  destruct HK as [[[HF Hnb] Hfl] Hval].
  intros i j Hon Hfr v Hv.
  assert (N2 (find_candidates G).1 = N2 G) as HN2 by apply HF.
  unfold on_board in Hon. rewrite HN2 in Hon, Hv. rewrite Hfl in Hfr.
  destruct (H i j Hon Hfr) as [Ht Hm]. unfold top_mask. rewrite Ht, (Hm v Hv).
  rewrite (proj1 (Hnb i j)).
  split; intros Hall c Hc; specialize (Hall c Hc); by rewrite ?Hval in *.
Qed.

(** * The board that preprocessing hands to the search *)

Lemma neighbors_built_kept G G' : keeps_frozen G G' -> neighbors_built G -> neighbors_built G'.
Proof.
  intros [HF Hk] ([HN HN2] & Hnn & Hnb). pose proof HF as (EN & EN2 & _ & Enn & _).
  split; [|split].
  - split; congruence.
  - congruence.
  - intros i j Hon. rewrite (proj1 (Hk i j)), (init_neighbors_frame G G') by done.
    apply Hnb. unfold on_board in *. by rewrite <- EN2.
Qed.

Lemma unfrozen_empty_values G G' : keeps_values G G' -> unfrozen_empty G -> unfrozen_empty G'.
Proof.
  intros [[[HF _] Hfl] Hval] H a b Hon Hfr.
  rewrite Hval. apply H; [|by rewrite <- Hfl].
  destruct HF as (_ & EN2 & _). unfold on_board in *. by rewrite <- EN2.
Qed.

Lemma unfrozen_empty_freeze_one G row col piece :
  unfrozen_empty G -> unfrozen_empty (freeze_one G row col piece).
Proof.
  intros H a b Hon. unfold freeze_one. rewrite sq_set_sq.
  case_decide as E; [simpl; discriminate|]. by apply H.
Qed.

Lemma ready_values G G' : keeps_values G G' -> ready G -> ready G'.
Proof.
  intros HK (HB & HN & HU). split; [|split].
  - eapply neighbors_built_kept; [by apply keeps_values_frozen|done].
  - destruct HK as [[[(_ & -> & _) _] _] _]. done.
  - by eapply unfrozen_empty_values.
Qed.

Lemma ready_freeze_one G row col piece :
  frozen (sq G row col) = false -> ready G -> ready (freeze_one G row col piece).
Proof.
  intros Hf (HB & HN & HU). split; [|split].
  - eapply neighbors_built_kept; [by apply freeze_one_keeps_frozen|done].
  - done.
  - by apply unfrozen_empty_freeze_one.
Qed.

Lemma check_for_only_one_candidate_ready G :
  ready G -> ready (check_for_only_one_candidate G).1.
Proof.
  intros HR. unfold check_for_only_one_candidate.
  apply (foldl_invariant (fun r => ready r.1)); [done|].
  intros [G1 r] c _ H. simpl in *.
  destruct (frozen (sq G1 c.1 c.2)) eqn:Hf; simpl; [done|].
  destruct (num_candidates (sq G1 c.1 c.2) =? 1); simpl; [|done].
  eapply ready_values; [apply bump_keeps_values|]. by apply ready_freeze_one.
Qed.

Lemma check_for_only_one_candidate_false G :
  (check_for_only_one_candidate G).2 = false -> (check_for_only_one_candidate G).1 = G.
Proof.
  unfold check_for_only_one_candidate.
  apply (foldl_invariant (fun r => r.2 = false -> r.1 = G)); [done|].
  intros [G1 r] c _ H. simpl in *.
  destruct (negb (frozen (sq G1 c.1 c.2)) && (num_candidates (sq G1 c.1 c.2) =? 1));
    simpl; [discriminate|done].
Qed.

Lemma try_units_ready G c units : ready G -> ready (try_units G c units).1.
Proof.
  intros HR. induction units as [|u rest IH]; simpl; [done|].
  destruct (scan_unit G u) as [seen index] eqn:Hscan.
  destruct (seen_once G seen) as [k|] eqn:Hk; [|done].
  apply scan_unit_index in Hscan as (H1 & H2 & H3).
  apply seen_once_Some in Hk as [Hk _].
  destruct (H2 k) as [[row col] Hix]; [lia|].
  rewrite Hix. simpl. destruct (H3 _ _ Hix) as [_ Hf]. simpl in Hf.
  eapply ready_values; [apply bump_keeps_values|]. by apply ready_freeze_one.
Qed.

Lemma try_units_false G c units : (try_units G c units).2 = false -> (try_units G c units).1 = G.
Proof.
  induction units as [|u rest IH]; simpl; [done|].
  destruct (scan_unit G u) as [seen index].
  destruct (seen_once G seen) as [k|]; [|done].
  destruct (default (0, 0) (index !! k)). simpl. discriminate.
Qed.

Lemma candidates_exact_same_board G G' :
  (forall a b, sq G' a b = sq G a b) -> N2 G' = N2 G ->
  candidates_exact G -> candidates_exact G'.
Proof.
  intros Hsq HN H i j Hon Hfr v Hv. unfold on_board in *.
  rewrite HN in *. rewrite Hsq in *.
  rewrite (H i j Hon Hfr v Hv).
  split; intros Hall c Hc; specialize (Hall c Hc); by rewrite ?Hsq in *.
Qed.

Lemma base_exact_same_board G G' :
  (forall a b, sq G' a b = sq G a b) -> N2 G' = N2 G -> base_exact G -> base_exact G'.
Proof.
  intros Hsq HN [H1 H2]. split; [by eapply candidates_exact_same_board|].
  intros a b Hon Hfr. unfold on_board in *. rewrite HN in *. rewrite Hsq in *. by apply H2.
Qed.

Lemma find_candidates_base_exact G :
  ready G -> ready (find_candidates G).1 /\ base_exact (find_candidates G).1.
Proof.
  intros (HB & HN & HU).
  destruct (find_candidates_spec G HB HN) as [HK H].
  split; [by eapply ready_values|]. split; [by apply find_candidates_exact|].
  intros a b Hon Hfr.
  destruct HK as [[[(_ & EN2 & _) _] Hfl] _].
  unfold on_board in Hon. rewrite EN2 in Hon. rewrite Hfl in Hfr.
  by apply H.
Qed.

Lemma preprocess_loop_end fuel G first G' :
  ready G -> preprocess_loop fuel G first = Ok (G', false) -> ready G' /\ base_exact G'.
Proof.
  revert G first. induction fuel as [|fuel IH]; intros G first HR; simpl; [discriminate|].
  destruct (find_candidates_base_exact G HR) as [HR0 HE0].
  destruct (find_candidates G) as [G0 ok]. simpl in HR0, HE0.
  set (G1 := if first then compute_candidate_stats G0 true else G0).
  assert (ready G1 /\ base_exact G1) as [HR1 HE1].
  { subst G1. destruct first; [|done]. split.
    - eapply ready_values; [apply compute_candidate_stats_keeps_values|done].
    - eapply base_exact_same_board; [| |exact HE0]; [done|].
      unfold compute_candidate_stats. done. }
  clearbody G1. clear HR0 HE0.
  destruct (negb ok); [discriminate|].
  pose proof (check_for_only_one_candidate_ready G1 HR1) as HR2.
  pose proof (check_for_only_one_candidate_false G1) as HF2.
  destruct (check_for_only_one_candidate G1) as [G2 c2]. simpl in HR2, HF2.
  destruct c2; [by apply IH|]. rewrite HF2 in * by done. clear HF2 HR2.
  unfold try_row_optimization, try_column_optimization, try_subsquare_optimization.
  pose proof (try_units_ready G1 RowOpt (all_rows G1) HR1) as HR3.
  pose proof (try_units_false G1 RowOpt (all_rows G1)) as HF3.
  destruct (try_units G1 RowOpt (all_rows G1)) as [G3 c3]. simpl in HR3, HF3.
  destruct c3; [by apply IH|]. rewrite HF3 in * by done. clear HF3 HR3.
  pose proof (try_units_ready G1 ColumnOpt (all_columns G1) HR1) as HR4.
  pose proof (try_units_false G1 ColumnOpt (all_columns G1)) as HF4.
  destruct (try_units G1 ColumnOpt (all_columns G1)) as [G4 c4]. simpl in HR4, HF4.
  destruct c4; [by apply IH|]. rewrite HF4 in * by done. clear HF4 HR4.
  pose proof (try_units_ready G1 SubsquareOpt (all_subsquares G1) HR1) as HR5.
  pose proof (try_units_false G1 SubsquareOpt (all_subsquares G1)) as HF5.
  destruct (try_units G1 SubsquareOpt (all_subsquares G1)) as [G5 c5]. simpl in HR5, HF5.
  destruct c5; [by apply IH|]. rewrite HF5 in * by done.
  intros [= <-]. done.
Qed.

Lemma preprocess_board_end fuel G G' :
  ready G -> preprocess_board fuel G = Ok (G', true) -> ready G' /\ base_exact G'.
Proof.
  intros HR H. unfold preprocess_board in H.
  apply obind_Ok in H as ([G1 nc] & H1 & H2).
  injection H2 as <- Hnc. destruct nc; [discriminate|].
  destruct (preprocess_loop_end _ _ _ _ HR H1) as [HR1 HE1]. split.
  - eapply ready_values; [apply compute_candidate_stats_keeps_values|done].
  - eapply base_exact_same_board; [| |exact HE1]; done.
Qed.

(** * What a move does to the board *)

Lemma update_neighbor_eq G piece make_avail c G' :
  update_neighbor G piece make_avail c = Ok G' ->
  G' = if frozen (sq G c.1 c.2) then G
       else set_sq G c.1 c.2 (moved_square piece make_avail (sq G c.1 c.2)).
Proof.
  unfold update_neighbor, moved_square.
  destruct (frozen (sq G c.1 c.2)); [by intros [= <-]|].
  destruct make_avail.
  - simpl. destruct (0 <=? topmask (sq G c.1 c.2) - 1); [|discriminate].
    by intros [= <-].
  - destruct (negb (0 <=? topmask (sq G c.1 c.2))); [discriminate|].
    destruct (MAX_NUM_NEIGHBORS <=? topmask (sq G c.1 c.2) + 1); [discriminate|].
    by intros [= <-].
Qed.

Lemma moved_square_frozen piece make_avail q :
  frozen (moved_square piece make_avail q) = frozen q.
Proof. by destruct make_avail. Qed.

Lemma update_fold_spec piece make_avail (l : list (Z * Z)) G G' :
  NoDup l ->
  ofold (fun G c => update_neighbor G piece make_avail c) G l = Ok G' ->
  forall a b,
    sq G' a b = if decide ((a, b) ∈ l /\ frozen (sq G a b) = false)
                then moved_square piece make_avail (sq G a b) else sq G a b.
Proof.
  revert G. induction l as [|c l IH]; intros G Hnd H; simpl in H.
  - injection H as <-. intros a b. rewrite decide_False; [done|].
    intros [H _]. by apply elem_of_nil in H.
  - apply obind_Ok in H as (G1 & H1 & H2).
    apply NoDup_cons in Hnd as [Hc Hnd].
    apply update_neighbor_eq in H1. destruct c as [c1 c2]. simpl in H1.
    intros a b. rewrite (IH G1 Hnd H2 a b).
    destruct (decide ((c1, c2) = (a, b))) as [E|E].
    + inversion E; subst a b.
      rewrite decide_False by (intros [? _]; done).
      destruct (frozen (sq G c1 c2)) eqn:Hf; subst G1.
      * rewrite decide_False; [done|]. intros [_ ?]. congruence.
      * rewrite sq_set_sq_eq, decide_True; [done|]. split; [left|done].
    + assert (sq G1 a b = sq G a b) as Hsame.
      { destruct (frozen (sq G c1 c2)); subst G1; [done|]. by apply sq_set_sq_ne. }
      rewrite Hsame.
      destruct (decide ((a, b) ∈ l /\ frozen (sq G a b) = false)) as [D|D].
      * rewrite decide_True; [done|]. destruct D. split; [by right|done].
      * rewrite decide_False; [done|]. intros [Hin Hf]. apply D. split; [|done].
        apply elem_of_cons in Hin as [Hin|Hin]; [congruence|done].
Qed.

Lemma update_neighbors_spec G row col piece make_avail G' :
  neighbors_built G -> on_board G row col ->
  update_neighbors G row col piece make_avail = Ok G' ->
  forall a b,
    sq G' a b = if decide ((a, b) ∈ neighbor (sq G row col) /\ frozen (sq G a b) = false)
                then moved_square piece make_avail (sq G a b) else sq G a b.
Proof.
  intros HB Hon. unfold update_neighbors.
  destruct (frozen (sq G row col)); [discriminate|].
  destruct (neighbors_built_spec G row col HB Hon) as (-> & Hnd & _).
  by apply update_fold_spec.
Qed.

Lemma neighbor_on_board G i j c :
  neighbors_built G -> on_board G i j -> c ∈ neighbor (sq G i j) -> on_board G c.1 c.2.
Proof.
  intros HB Hon Hc. destruct c as [a b].
  by apply (neighbors_built_spec G i j HB Hon) in Hc as [? _].
Qed.

Lemma neighbor_sym G i j a b :
  neighbors_built G -> on_board G i j -> on_board G a b ->
  (a, b) ∈ neighbor (sq G i j) <-> (i, j) ∈ neighbor (sq G a b).
Proof.
  intros HB Hon Hon'.
  rewrite (proj2 (proj2 (neighbors_built_spec G i j HB Hon))).
  rewrite (proj2 (proj2 (neighbors_built_spec G a b HB Hon'))).
  split; intros [_ Hs]; (split; [done|by apply sees_sym]).
Qed.

Lemma neighbor_irrefl G i j :
  neighbors_built G -> on_board G i j -> (i, j) ∉ neighbor (sq G i j).
Proof.
  intros HB Hon H.
  apply (neighbors_built_spec G i j HB Hon) in H as [_ [Hne _]]. done.
Qed.

(** A placement: the value is written, the unfrozen neighbors get one more
    frame. *)
Lemma place_fields G i j k G' :
  neighbors_built G -> on_board G i j ->
  update_neighbors (set_sq G i j (with_cur_value (sq G i j) k)) i j k false = Ok G' ->
  forall a b,
    frozen (sq G' a b) = frozen (sq G a b)
    /\ neighbor (sq G' a b) = neighbor (sq G a b)
    /\ cur_value (sq G' a b) = (if decide ((i, j) = (a, b)) then k else cur_value (sq G a b))
    /\ topmask (sq G' a b)
       = (if decide ((a, b) ∈ neighbor (sq G i j) /\ frozen (sq G a b) = false)
          then topmask (sq G a b) + 1 else topmask (sq G a b))
    /\ forall t, cand (sq G' a b) t
       = if decide (((a, b) ∈ neighbor (sq G i j) /\ frozen (sq G a b) = false)
                    /\ t = topmask (sq G a b) + 1)
         then Z.land (cand (sq G a b) (topmask (sq G a b))) (bnot64 (bit k))
         else cand (sq G a b) t.
Proof.
  intros HB Hon H a b.
  set (Ga := set_sq G i j (with_cur_value (sq G i j) k)) in *.
  assert (neighbors_built Ga) as HBa.
  { destruct HB as (Hw & Hnn & Hnb). split; [done|]. split; [done|].
    intros x y Hxy. subst Ga. rewrite sq_set_sq.
    destruct (decide ((i, j) = (x, y))) as [E|E].
    - inversion E; subst. simpl. by apply Hnb.
    - by apply Hnb. }
  pose proof (update_neighbors_spec Ga i j k false G' HBa Hon H a b) as Hsq.
  pose proof (neighbor_irrefl G i j HB Hon) as Hirr.
  assert (neighbor (sq Ga i j) = neighbor (sq G i j)) as Hn
    by (subst Ga; by rewrite sq_set_sq_eq).
  assert (frozen (sq Ga a b) = frozen (sq G a b)
          /\ neighbor (sq Ga a b) = neighbor (sq G a b)
          /\ topmask (sq Ga a b) = topmask (sq G a b)
          /\ candidate (sq Ga a b) = candidate (sq G a b)
          /\ cur_value (sq Ga a b)
             = if decide ((i, j) = (a, b)) then k else cur_value (sq G a b))
    as (Ef & En & Et & Ec & Ev).
  { subst Ga. rewrite sq_set_sq.
    destruct (decide ((i, j) = (a, b))) as [E|E]; [inversion E; subst|]; done. }
  rewrite Hn, Ef in Hsq. rewrite Hsq.
  destruct (decide ((a, b) ∈ neighbor (sq G i j) /\ frozen (sq G a b) = false)) as [D|D].
  - unfold moved_square, restrict_square, cand. simpl.
    rewrite Ef, En, Ev, Et, Ec. repeat split; try done.
    intros t. destruct (decide (t = topmask (sq G a b) + 1)) as [->|Hne].
    + rewrite decide_True by done. by rewrite aget_aset_eq.
    + rewrite decide_False by (intros [_ ?]; done). by rewrite aget_aset_ne.
  - unfold cand. rewrite Ef, En, Ev, Et, Ec. repeat split; try done.
    intros t. rewrite decide_False; [done|]. by intros [? _].
Qed.

(** The undoing of a placement: the unfrozen neighbors lose their top
    frame (the masks themselves stay where they are), the value is
    cleared. *)
Lemma undo_fields G i j G1 :
  neighbors_built G -> on_board G i j ->
  update_neighbors (bump G Unstacking) i j (cur_value (sq (bump G Unstacking) i j)) true
    = Ok G1 ->
  let G' := set_sq G1 i j (with_cur_value (sq G1 i j) 0) in
  forall a b,
    frozen (sq G' a b) = frozen (sq G a b)
    /\ neighbor (sq G' a b) = neighbor (sq G a b)
    /\ cur_value (sq G' a b) = (if decide ((i, j) = (a, b)) then 0 else cur_value (sq G a b))
    /\ topmask (sq G' a b)
       = (if decide ((a, b) ∈ neighbor (sq G i j) /\ frozen (sq G a b) = false)
          then topmask (sq G a b) - 1 else topmask (sq G a b))
    /\ forall t, cand (sq G' a b) t = cand (sq G a b) t.
Proof.
  intros HB Hon H G' a b.
  assert (neighbors_built (bump G Unstacking)) as HBa.
  { eapply neighbors_built_kept; [apply keeps_values_frozen, bump_keeps_values|done]. }
  pose proof (update_neighbors_spec _ i j _ true G1 HBa Hon H) as Hsq.
  change (sq (bump G Unstacking)) with (sq G) in Hsq.
  assert (forall x y, frozen (sq G1 x y) = frozen (sq G x y)
            /\ neighbor (sq G1 x y) = neighbor (sq G x y)
            /\ cur_value (sq G1 x y) = cur_value (sq G x y)
            /\ candidate (sq G1 x y) = candidate (sq G x y)
            /\ topmask (sq G1 x y)
               = (if decide ((x, y) ∈ neighbor (sq G i j) /\ frozen (sq G x y) = false)
                  then topmask (sq G x y) - 1 else topmask (sq G x y))) as H1.
  { intros x y. rewrite (Hsq x y). case_decide; done. }
  subst G'. rewrite sq_set_sq. destruct (decide ((i, j) = (a, b))) as [E|E].
  - inversion E; subst a b. simpl. destruct (H1 i j) as (-> & -> & _ & Ec & ->).
    unfold cand. simpl. rewrite Ec. done.
  - destruct (H1 a b) as (-> & -> & -> & Ec & ->). unfold cand. rewrite Ec. done.
Qed.

(** * The invariant of the search *)

Lemma depth_cons q p stk :
  depth q (p :: stk) = depth q stk + (if decide (p ∈ neighbor q) then 1 else 0).
Proof. unfold depth. rewrite filter_cons. case_decide; simpl length; lia. Qed.

Lemma depth_suffix q pre stk : depth q stk <= depth q (pre ++ stk).
Proof. unfold depth. rewrite filter_app, length_app. lia. Qed.

Lemma depth_neighbor q q' stk : neighbor q' = neighbor q -> depth q' stk = depth q stk.
Proof. unfold depth. by intros ->. Qed.

Lemma cond_frame (fz : Z * Z -> bool) (val val' : Z * Z -> Z) (nb stk : list (Z * Z)) p v :
  (forall c, c <> p -> val' c = val c) -> fz p = false -> p ∉ stk ->
  (forall c, c ∈ nb -> fz c = true \/ c ∈ stk -> val' c <> v)
  <-> (forall c, c ∈ nb -> fz c = true \/ c ∈ stk -> val c <> v).
Proof.
  intros Hval Hp Hnin.
  assert (forall c, fz c = true \/ c ∈ stk -> c <> p) as Hne.
  { intros c [H|H] ->; [congruence|done]. }
  split; intros H c Hc Hs; specialize (H c Hc Hs); by rewrite ?Hval in * by auto.
Qed.

Lemma cond_push (fz : Z * Z -> bool) (val val' : Z * Z -> Z) (nb stk : list (Z * Z)) p v k :
  (forall c, c <> p -> val' c = val c) -> val' p = k -> fz p = false -> p ∉ stk -> p ∈ nb ->
  (forall c, c ∈ nb -> fz c = true \/ c ∈ p :: stk -> val' c <> v)
  <-> (v <> k /\ forall c, c ∈ nb -> fz c = true \/ c ∈ stk -> val c <> v).
Proof.
  intros Hval Hk Hp Hnin Hin. split.
  - intros H. split.
    + specialize (H p Hin ltac:(right; left)). congruence.
    + intros c Hc Hs.
      assert (c <> p) as Hne by (destruct Hs as [Hs|Hs]; intros ->; [congruence|done]).
      rewrite <- Hval by done. apply H; [done|].
      destruct Hs as [Hs|Hs]; [by left|right; by right].
  - intros [Hvk H] c Hc Hs. destruct (decide (c = p)) as [->|Hne]; [congruence|].
    rewrite Hval by done. apply H; [done|].
    destruct Hs as [Hs|Hs]; [by left|right].
    apply elem_of_cons in Hs as [Hs|Hs]; [done|done].
Qed.

Lemma cond_push_far (fz : Z * Z -> bool) (val val' : Z * Z -> Z) (nb stk : list (Z * Z)) p v :
  (forall c, c <> p -> val' c = val c) -> p ∉ nb ->
  (forall c, c ∈ nb -> fz c = true \/ c ∈ p :: stk -> val' c <> v)
  <-> (forall c, c ∈ nb -> fz c = true \/ c ∈ stk -> val c <> v).
Proof.
  intros Hval Hnin.
  assert (forall c, c ∈ nb -> c <> p) as Hne by (intros c Hc ->; done).
  split; intros H c Hc Hs.
  - rewrite <- Hval by auto. apply H; [done|].
    destruct Hs as [Hs|Hs]; [by left|right; by right].
  - rewrite Hval by auto. apply H; [done|].
    destruct Hs as [Hs|Hs]; [by left|right].
    apply elem_of_cons in Hs as [Hs|Hs]; [|done]. by apply Hne in Hc.
Qed.

Lemma search_inv_start G : ready G -> base_exact G -> search_inv (search_start G).
Proof.
  intros (HB & HN & HU) [HE HT]. split; [apply stack_inv_start|].
  split; [done|]. split; [done|]. split; [intros a b Hon Hf _; by apply HU|].
  intros a b Hon Hf. simpl in *. split; [by apply HT|].
  intros pre stk Hsplit v Hv.
  symmetry in Hsplit. apply app_eq_nil in Hsplit as [-> ->].
  change (depth (sq G a b) []) with 0. rewrite <- (HT a b Hon Hf).
  change (cand (sq G a b) (topmask (sq G a b))) with (top_mask (sq G a b)).
  rewrite (HE a b Hon Hf v Hv). split.
  - intros H c Hc _. by apply H.
  - intros H c Hc. destruct (frozen (sq G c.1 c.2)) eqn:Hfc; [apply H; auto|].
    rewrite HU; [lia| |done]. by eapply neighbor_on_board.
Qed.

Lemma search_inv_exact s : search_inv s -> candidates_exact (sG s).
Proof.
  intros (Hst & HB & HN & Hempty & Hfr) a b Hon Hf v Hv.
  destruct (Hfr a b Hon Hf) as [Htop Hframes].
  unfold top_mask. rewrite Htop, (Hframes [] (stack s) eq_refl v Hv). split.
  - intros H c Hc. destruct (frozen (sq (sG s) c.1 c.2)) eqn:Hfc; [apply H; auto|].
    destruct (decide (c ∈ stack s)) as [Hin|Hnin]; [apply H; auto|].
    destruct c as [c1 c2]. rewrite Hempty; [lia| |done|done].
    by apply (neighbor_on_board _ a b (c1, c2)).
  - intros H c Hc _. by apply H.
Qed.

Lemma descending_head_fresh p rest : descending (p :: rest) -> p ∉ rest.
Proof. intros [H _] Hin. specialize (H p Hin). by apply before_irrefl in H. Qed.

Lemma search_inv_step s s' : search_inv s -> search_step s = Ok (inl s') -> search_inv s'.
Proof.
  intros (Hst & HB & HN & Hempty & Hfr) Hstep.
  pose proof (stack_inv_step s s' Hst Hstep) as Hst'.
  pose proof (search_step_keeps_flags s s' Hstep) as Hflags.
  assert (neighbors_built (sG s')) as HB'
    by (eapply neighbors_built_kept; [apply keeps_flags_frozen, Hflags|done]).
  assert (N2 (sG s') = N2 (sG s)) as EN2 by apply Hflags.
  split; [done|]. split; [done|]. split; [lia|].
  clear Hst' Hflags HB'. revert Hstep EN2. unfold search_step.
  destruct (N2 (sG s) <? si s) eqn:Ei; [discriminate|].
  destruct (N2 (sG s) <? sj s) eqn:Ej.
  { intros [= <-] _. split; [exact Hempty|exact Hfr]. }
  destruct (frozen (sq (sG s) (si s) (sj s))) eqn:Hf.
  { intros [= <-] _. split; [exact Hempty|exact Hfr]. }
  intros H. apply obind_Ok in H as (found & Hfound & H).
  destruct Hst as ((Hi & Hj & Hp) & Hd & Hstk & Hall).
  destruct found as [k|].
  - (* a piece is placed *)
    apply find_piece_Some in Hfound as (Hk & Hbit & _).
    apply obind_Ok in H as (G1 & H1 & H).
    destruct (negb _); [discriminate|]. injection H as <-.
    unfold frames_exact. cbn [sG stack]. intros EN2.
    assert (on_board (sG s) (si s) (sj s)) as Hon by (unfold on_board; lia).
    pose proof (place_fields _ _ _ _ _ HB Hon H1) as HF.
    assert ((si s, sj s) ∉ stack s) as Hnotin.
    { intros Hin. destruct (Hstk _ _ Hin) as (_ & Hbef & _). by apply before_irrefl in Hbef. }
    unfold on_board in *. rewrite EN2. split.
    + intros a b Hon' Hfz Hnin. destruct (HF a b) as (Ef & _ & Ev & _).
      rewrite Ev, decide_False by (intros E; apply Hnin; rewrite <- E; left).
      rewrite Ef in Hfz. apply Hempty; [done|done|].
      intros Hin. apply Hnin. by right.
    + intros a b Hon' Hfz. destruct (HF a b) as (Ef & En & Ev & Et & Ec).
      rewrite Ef in Hfz. destruct (Hfr a b Hon' Hfz) as [Htop Hframes].
      pose proof (neighbor_sym (sG s) (si s) (sj s) a b HB Hon Hon') as Hsym.
      split.
      * rewrite Et, (depth_neighbor (sq (sG s) a b)), depth_cons, Htop by done.
        destruct (decide ((a, b) ∈ neighbor (sq (sG s) (si s) (sj s))
                          /\ frozen (sq (sG s) a b) = false)) as [D|D];
          destruct (decide ((si s, sj s) ∈ neighbor (sq (sG s) a b))) as [D'|D'];
          try lia; exfalso.
        -- apply D', Hsym, D.
        -- apply D. split; [by apply Hsym|done].
      * intros pre stk Hsplit v Hv.
        rewrite (depth_neighbor (sq (sG s) a b)), En by done.
        assert (forall c : Z * Z, frozen (sq G1 c.1 c.2) = frozen (sq (sG s) c.1 c.2)) as Efz
          by (intros c; apply HF).
        assert (forall c : Z * Z, c <> (si s, sj s) ->
                  cur_value (sq G1 c.1 c.2) = cur_value (sq (sG s) c.1 c.2)) as Eval.
        { intros [c1 c2] Hne. simpl. destruct (HF c1 c2) as (_ & _ & -> & _).
          by rewrite decide_False by congruence. }
        assert (cur_value (sq G1 (si s, sj s).1 (si s, sj s).2) = k) as Evalp.
        { simpl. destruct (HF (si s) (sj s)) as (_ & _ & -> & _). by rewrite decide_True. }
        assert (forall P : Z * Z -> Prop,
                  (forall c, c ∈ neighbor (sq (sG s) a b) ->
                     frozen (sq G1 c.1 c.2) = true \/ P c -> cur_value (sq G1 c.1 c.2) <> v)
                  <-> (forall c, c ∈ neighbor (sq (sG s) a b) ->
                     frozen (sq (sG s) c.1 c.2) = true \/ P c ->
                     cur_value (sq G1 c.1 c.2) <> v)) as Hfzeq.
        { intros P. split; intros H c Hc Hs; apply H; try done; by rewrite ?Efz in *. }
        rewrite Hfzeq.
        destruct pre as [|x pre]; simpl in Hsplit.
        -- subst stk. rewrite depth_cons.
           destruct (decide ((si s, sj s) ∈ neighbor (sq (sG s) a b))) as [D'|D'].
           ++ rewrite Ec, decide_True by (split; [split; [by apply Hsym|done]|lia]).
              rewrite has_bit_restrict, andb_true_iff, negb_true_iff, Z.eqb_neq by lia.
              rewrite Htop, (Hframes [] (stack s) eq_refl v Hv).
              rewrite (cond_push (fun c => frozen (sq (sG s) c.1 c.2))
                         (fun c => cur_value (sq (sG s) c.1 c.2))
                         (fun c => cur_value (sq G1 c.1 c.2))
                         _ _ (si s, sj s) v k); try done.
              tauto.
           ++ rewrite Z.add_0_r, Ec, decide_False by (intros [[D _] _]; by apply D', Hsym).
              rewrite (Hframes [] (stack s) eq_refl v Hv).
              symmetry.
              apply (cond_push_far (fun c => frozen (sq (sG s) c.1 c.2))
                         (fun c => cur_value (sq (sG s) c.1 c.2))
                         (fun c => cur_value (sq G1 c.1 c.2))); done.
        -- injection Hsplit as Hx Hsplit. subst x.
           pose proof (depth_suffix (sq (sG s) a b) pre stk) as Hle. rewrite <- Hsplit in Hle.
           rewrite Ec, decide_False by (intros [_ E]; lia).
           rewrite (Hframes pre stk Hsplit v Hv).
           symmetry.
           apply (cond_frame (fun c => frozen (sq (sG s) c.1 c.2))
                         (fun c => cur_value (sq (sG s) c.1 c.2))
                         (fun c => cur_value (sq G1 c.1 c.2)) _ _ (si s, sj s)); try done.
           intros Hin. apply Hnotin. rewrite Hsplit. apply elem_of_app. by right.
  - (* a move is undone *)
    destruct (stack s) as [|[i' j'] rest] eqn:Estack; [discriminate|].
    apply obind_Ok in H as (G1 & H1 & H). injection H as <-.
    unfold frames_exact. cbn [sG stack]. intros EN2.
    destruct (Hstk i' j') as (Hon & _ & Hfp & _); [left|].
    pose proof (undo_fields _ _ _ _ HB Hon H1) as HF. cbv zeta in HF.
    set (G' := set_sq G1 i' j' (with_cur_value (sq G1 i' j') 0)) in *.
    pose proof (descending_head_fresh _ _ Hd) as Hnotin.
    unfold on_board in *. rewrite EN2. split.
    + intros a b Hon' Hfz Hnin. destruct (HF a b) as (Ef & _ & Ev & _). rewrite Ev.
      case_decide as E; [done|]. rewrite Ef in Hfz. apply Hempty; [done|done|].
      intros Hin. apply elem_of_cons in Hin as [Hin|Hin]; [congruence|done].
    + intros a b Hon' Hfz. destruct (HF a b) as (Ef & En & Ev & Et & Ec).
      rewrite Ef in Hfz. destruct (Hfr a b Hon' Hfz) as [Htop Hframes].
      rewrite Estack in Htop, Hframes.
      pose proof (neighbor_sym (sG s) i' j' a b HB Hon Hon') as Hsym.
      split.
      * rewrite Et, (depth_neighbor (sq (sG s) a b)), Htop, depth_cons by done.
        destruct (decide ((a, b) ∈ neighbor (sq (sG s) i' j')
                          /\ frozen (sq (sG s) a b) = false)) as [D|D];
          destruct (decide ((i', j') ∈ neighbor (sq (sG s) a b))) as [D'|D'];
          try lia; exfalso.
        -- apply D', Hsym, D.
        -- apply D. split; [by apply Hsym|done].
      * intros pre stk Hsplit v Hv.
        rewrite (depth_neighbor (sq (sG s) a b)), En, Ec by done.
        assert (forall c : Z * Z, frozen (sq G' c.1 c.2) = frozen (sq (sG s) c.1 c.2)) as Efz
          by (intros c; apply HF).
        assert (forall c : Z * Z, c <> (i', j') ->
                  cur_value (sq G' c.1 c.2) = cur_value (sq (sG s) c.1 c.2)) as Eval.
        { intros [c1 c2] Hne. simpl. destruct (HF c1 c2) as (_ & _ & -> & _).
          by rewrite decide_False by congruence. }
        assert ((forall c, c ∈ neighbor (sq (sG s) a b) ->
                     frozen (sq G' c.1 c.2) = true \/ c ∈ stk -> cur_value (sq G' c.1 c.2) <> v)
                  <-> (forall c, c ∈ neighbor (sq (sG s) a b) ->
                     frozen (sq (sG s) c.1 c.2) = true \/ c ∈ stk ->
                     cur_value (sq G' c.1 c.2) <> v)) as Hfzeq.
        { split; intros H c Hc Hs; apply H; try done; by rewrite ?Efz in *. }
        rewrite Hfzeq.
        rewrite (Hframes ((i', j') :: pre) stk ltac:(by rewrite Hsplit) v Hv).
        symmetry.
        apply (cond_frame (fun c => frozen (sq (sG s) c.1 c.2))
                         (fun c => cur_value (sq (sG s) c.1 c.2))
                         (fun c => cur_value (sq G' c.1 c.2)) _ _ (i', j')); try done.
        intros Hin. apply Hnotin. rewrite Hsplit. apply elem_of_app. by right.
Qed.

Lemma search_inv_steps n s s' :
  search_inv s -> search_steps n s = Ok (inl s') -> search_inv s'.
Proof.
  revert s. induction n as [|n IH]; intros s Hs; simpl.
  - by intros [= <-].
  - intros H. apply obind_Ok in H as ([s1|G1] & H1 & H2); [|discriminate].
    apply (IH s1); [by eapply search_inv_step|done].
Qed.

(** * Exactness of the candidate masks (claim C2) *)

Lemma forallb_neq_spec G (l : list (Z * Z)) v :
  forallb (fun d => negb (cur_value (sq G d.1 d.2) =? v)) l = true
  <-> forall d, d ∈ l -> cur_value (sq G d.1 d.2) <> v.
Proof.
  rewrite forallb_forall. split; intros H d Hd.
  - apply list_elem_of_In in Hd. specialize (H d Hd). lia.
  - apply list_elem_of_In in Hd. specialize (H d Hd). lia.
Qed.

Lemma candidates_exact_b_spec G : candidates_exact_b G = true <-> candidates_exact G.
Proof.
  unfold candidates_exact_b, candidates_exact. rewrite forallb_forall. split.
  - intros H i j Hon Hf v Hv.
    specialize (H (i, j) ltac:(by apply list_elem_of_In, elem_of_all_squares)).
    simpl in H. rewrite Hf in H. simpl in H. rewrite forallb_seqZ in H.
    specialize (H v ltac:(lia)). apply Bool.eqb_prop in H.
    rewrite H. apply forallb_neq_spec.
  - intros H [i j] Hin. apply list_elem_of_In, elem_of_all_squares in Hin. simpl.
    destruct (frozen (sq G i j)) eqn:Hf; [done|]. simpl.
    apply forallb_seqZ. intros v Hv. specialize (H i j Hin Hf v ltac:(lia)).
    apply Bool.eqb_true_iff, eq_true_iff_eq.
    etransitivity; [exact H|]. symmetry. apply forallb_neq_spec.
Qed.

Lemma neighbors_built_b_spec G : neighbors_built_b G = true -> neighbors_built G.
Proof.
  unfold neighbors_built_b. intros H. repeat (apply andb_prop in H as [H ?]).
  split; [split; lia|]. split; [lia|].
  intros i j Hon. rewrite forallb_forall in *.
  match goal with F : forall x, In x _ -> _ |- _ =>
    specialize (F (i, j) ltac:(by apply list_elem_of_In, elem_of_all_squares));
    by apply bool_decide_eq_true in F end.
Qed.

Lemma clues_frozen_unfrozen_empty G : clues_frozen G = true -> unfrozen_empty G.
Proof.
  unfold clues_frozen. rewrite forallb_seqZ. intros H a b [Ha Hb] Hf.
  specialize (H a ltac:(lia)). rewrite forallb_seqZ in H. specialize (H b ltac:(lia)).
  rewrite Hf in H. lia.
Qed.

Lemma after_release_run s : release_returns s = true -> after_release s = Ok (released s).
Proof. unfold release_returns, released. by destruct (after_release s). Qed.

(** C2, as stated, fails: a release call of [update_neighbors] does not
    preserve the invariant.  In the run on [dead_end_file] the search is
    at a dead end after two placements; the masks are exact there.  The
    step pops (1,2), which holds 2, and calls [update_neighbors] to release
    it: when that call returns, (1,2) still holds 2 and the top mask of its
    neighbor (1,3) has bit 2 set again.  (The statement that follows the
    call clears the value.) *)
Lemma release_breaks_exactness :
  is_dead_end (state_after 2 (preprocessed 40 (loaded dead_end_file))) = true
  /\ stack (state_after 2 (preprocessed 40 (loaded dead_end_file))) = [(1, 2); (1, 1)]
  /\ candidates_exact (sG (state_after 2 (preprocessed 40 (loaded dead_end_file))))
  /\ after_release (state_after 2 (preprocessed 40 (loaded dead_end_file)))
     = Ok (released (state_after 2 (preprocessed 40 (loaded dead_end_file))))
  /\ ~ candidates_exact (released (state_after 2 (preprocessed 40 (loaded dead_end_file)))).
Proof.
  split; [vm_compute; reflexivity|]. split; [vm_compute; reflexivity|].
  split; [apply candidates_exact_b_spec; vm_compute; reflexivity|].
  split; [apply after_release_run; vm_compute; reflexivity|].
  intros H. apply candidates_exact_b_spec in H. revert H. vm_compute. discriminate.
Qed.

Lemma loaded_ok_ready G : loaded_ok G -> ready (save_board G).
Proof.
  intros HL. destruct (loaded_ok_sizes G HL) as [_ H36].
  pose proof (clues_frozen_unfrozen_empty G (loaded_ok_clues_frozen G HL)) as HU.
  destruct HL as ((Hw & Hnn & Hnb) & _ & _).
  split; [|split].
  - split; [exact Hw|]. split; [exact Hnn|].
    intros i j Hon.
    change (neighbor (sq G i j) = init_neighbors (save_board G) i j).
    rewrite (Hnb i j Hon).
    unfold init_neighbors, column_neighbors, row_neighbors, subsquare_neighbors, find_sub_square.
    reflexivity.
  - change (N2 G <= 64). unfold MAX_N2, MAX_N in H36. lia.
  - exact HU.
Qed.

Lemma search_steps_exact fp G G1 n s :
  ready G -> preprocess_board fp G = Ok (G1, true) ->
  search_steps n (search_start G1) = Ok (inl s) -> candidates_exact (sG s).
Proof.
  intros HR Hp Hs.
  destruct (preprocess_board_end fp G G1 HR Hp) as [HR1 HE].
  apply search_inv_exact. eapply search_inv_steps; [|exact Hs].
  by apply search_inv_start.
Qed.

Lemma find_solution_exact fp fs G G1 G2 :
  ready G -> preprocess_board fp G = Ok (G1, true) ->
  find_solution fs G1 = Ok G2 -> candidates_exact G2.
Proof.
  intros HR Hp Hs.
  apply search_run_steps in Hs as (n & s' & Hn & Hlast).
  apply search_step_done in Hlast as [-> _].
  by eapply search_steps_exact.
Qed.

(** C2, amended.  On a board with the neighbor arrays of [init_board] and
    at most 64 values, the masks are exact after every computation of the
    base candidates by [find_candidates].  If, moreover, no unfrozen square
    holds a value and preprocessing reports solvable, the masks are exact
    in the state that the search starts from and after every step of the
    search, that is after a placement together with its restricting call
    of [update_neighbors], and after a releasing call of [update_neighbors]
    together with the clearing of the value that follows it; they are
    exact on the board that the search returns.  The assumptions hold in
    every run of [main]: for every file that loads, the masks are exact
    after every step of the search on the preprocessed board and on the
    board that the search returns. *)
Theorem candidates_exact_after_moves :
  (forall G, neighbors_built G -> N2 G <= 64 -> candidates_exact (find_candidates G).1)
  /\ (forall fp G G1 n s,
        neighbors_built G -> N2 G <= 64 -> unfrozen_empty G ->
        preprocess_board fp G = Ok (G1, true) ->
        search_steps n (search_start G1) = Ok (inl s) -> candidates_exact (sG s))
  /\ (forall fp fs G G1 G2,
        neighbors_built G -> N2 G <= 64 -> unfrozen_empty G ->
        preprocess_board fp G = Ok (G1, true) ->
        find_solution fs G1 = Ok G2 -> candidates_exact G2)
  /\ (forall fp file G G1,
        load_file (init_board zero_game 3) file true = Ok G ->
        preprocess_board fp (save_board G) = Ok (G1, true) ->
        (forall n s, search_steps n (search_start G1) = Ok (inl s) -> candidates_exact (sG s))
        /\ (forall fs G2, find_solution fs G1 = Ok G2 -> candidates_exact G2)).
Proof.
  split; [apply find_candidates_exact|]. split; [|split].
  - intros fp G G1 n s HB HN HU. by apply search_steps_exact.
  - intros fp fs G G1 G2 HB HN HU. by apply find_solution_exact.
  - intros fp file G G1 Hload Hp.
    destruct (main_loaded 0 0 file G Hload) as [_ HL].
    apply loaded_ok_ready in HL. split.
    + intros n s. by apply (search_steps_exact fp (save_board G)).
    + intros fs G2. by apply (find_solution_exact fp fs (save_board G)).
Qed.

Lemma candidates_exact_after_moves_witness :
  candidates_exact (searched 2000 (preprocessed 40 (loaded usage_file))).
Proof.
  apply (proj1 (proj2 (proj2 candidates_exact_after_moves)) 40%nat 2000%nat
           (save_board (loaded usage_file)) (preprocessed 40 (loaded usage_file))).
  - apply neighbors_built_b_spec. vm_compute. reflexivity.
  - vm_compute. discriminate.
  - apply clues_frozen_unfrozen_empty. vm_compute. reflexivity.
  - apply reports_solvable_run. vm_compute. reflexivity.
  - apply search_returns_run. vm_compute. reflexivity.
Defined.

(** * Bit masks: the table, the first candidate and the printed form *)

Lemma has_bit_bit i j : 1 <= i <= 64 -> 1 <= j <= 64 -> has_bit (bit i) j = (j =? i).
Proof.
  intros Hi Hj. rewrite has_bit_testbit, bit_pow2, Z.pow2_bits_eqb by lia.
  destruct (j =? i) eqn:E; lia.
Qed.

(** X1.  The table of [bit].  For a position [i] between 1 and 64, [bit i]
    is the 64-bit mask 2^(64-i): position 1 is the leftmost bit.  It has
    the bit of position [j] set exactly when [j = i], so the masks of two
    different positions have no bit in common.  The 65th shift of
    [init_bit_mask_array] leaves 0, as its final assertion demands. *)
Theorem bit_positions (i j : Z) :
  1 <= i <= 64 -> 1 <= j <= 64 ->
  bit i = 2 ^ (64 - i)
  /\ 0 < bit i < 2 ^ 64
  /\ (has_bit (bit i) j = true <-> j = i)
  /\ (i <> j -> Z.land (bit i) (bit j) = 0)
  /\ Z.shiftr 0x8000000000000000 64 = 0.
Proof.
  intros Hi Hj. split; [by apply bit_pow2|]. split; [|split; [|split]].
  - rewrite bit_pow2 by done. split; [apply Z.pow_pos_nonneg; lia|].
    apply Z.pow_lt_mono_r; lia.
  - rewrite has_bit_bit by done. lia.
  - intros Hne. pose proof (has_bit_bit i j Hi Hj) as H. unfold has_bit in H.
    destruct (Z.land (bit i) (bit j) =? 0) eqn:E; [lia|]. simpl in H. lia.
  - reflexivity.
Qed.

Lemma bit_positions_witness : has_bit (bit 3) 3 = true <-> 3 = 3.
Proof. apply (bit_positions 3 3); lia. Defined.

Lemma find_has_bit_spec b (l : list Z) :
  match List.find (fun i => has_bit b i) l with
  | Some r => exists pre post, l = pre ++ r :: post /\ has_bit b r = true
                               /\ forall k, k ∈ pre -> has_bit b k = false
  | None => forall k, k ∈ l -> has_bit b k = false
  end.
Proof.
  induction l as [|x l IH]; simpl.
  - intros k Hk. by apply elem_of_nil in Hk.
  - destruct (has_bit b x) eqn:E.
    + exists [], l. split; [done|]. split; [done|]. intros k Hk'. by apply elem_of_nil in Hk'.
    + destruct (List.find _ l) as [r|].
      * destruct IH as (pre & post & -> & Hr & Hpre). exists (x :: pre), post.
        split; [done|]. split; [done|]. intros k Hk. apply elem_of_cons in Hk as [->|Hk]; auto.
      * intros k Hk. apply elem_of_cons in Hk as [->|Hk]; auto.
Qed.

Lemma seqZ_split_at (m len : Z) (pre post : list Z) (r : Z) :
  seqZ m len = pre ++ r :: post -> forall k, m <= k < r -> k ∈ pre.
Proof.
  intros E k Hk.
  assert (seqZ m len !! length pre = Some r) as Hr.
  { rewrite E. by apply list_lookup_middle. }
  apply lookup_seqZ in Hr as [Hr Hlt].
  assert (seqZ m len !! Z.to_nat (k - m) = Some k) as Hk'.
  { apply lookup_seqZ. lia. }
  rewrite E, lookup_app_l in Hk' by lia.
  by eapply list_elem_of_lookup_2.
Qed.

Lemma get_first_candidate_spec (G : Game) (b : Z) :
  let r := get_first_candidate G b in
  (r = 0 <-> forall k, 1 <= k <= N2 G -> has_bit b k = false)
  /\ (r <> 0 -> 1 <= r <= N2 G /\ has_bit b r = true
                /\ forall k, 1 <= k < r -> has_bit b k = false).
Proof.
  unfold get_first_candidate.
  pose proof (find_has_bit_spec b (seqZ 1 (N2 G))) as H.
  destruct (List.find _ _) as [r|] eqn:E; simpl.
  - destruct H as (pre & post & Hsplit & Hr & Hpre).
    assert (1 <= r <= N2 G) as Hrange.
    { assert (r ∈ seqZ 1 (N2 G)) as Hin by (rewrite Hsplit; apply elem_of_app; right; left).
      apply elem_of_seqZ' in Hin. lia. }
    split.
    + split; [lia|]. intros Hnone. rewrite Hnone in Hr by done. discriminate.
    + intros _. split; [done|]. split; [done|].
      intros k Hk. apply Hpre. eapply seqZ_split_at; [exact Hsplit|lia].
  - split; [|done]. split; [|done].
    intros _ k Hk. apply H, elem_of_seqZ'. lia.
Qed.

(** X2.  [get_first_candidate] returns the least position from 1 to [N2]
    whose bit is set in the mask, and 0 when none of these bits is set. *)
Theorem get_first_candidate_least (G : Game) (b : Z) :
  let r := get_first_candidate G b in
  (r = 0 <-> forall k, 1 <= k <= N2 G -> has_bit b k = false)
  /\ (r <> 0 -> 1 <= r <= N2 G /\ has_bit b r = true
                /\ forall k, 1 <= k < r -> has_bit b k = false).
Proof. apply get_first_candidate_spec. Qed.

Lemma convert_bits_length n b : String.length (convert_bits n b) = n.
Proof. revert b. induction n as [|n IH]; intros b; simpl; [done|]. by rewrite IH. Qed.

Lemma convert_bits_get (n : nat) : forall (b : Z) (i : nat),
  (i < n)%nat -> 0 <= b < 2 ^ 64 ->
  String.get i (convert_bits n b)
  = Some (if Z.testbit b (63 - Z.of_nat i) then "1"%char else "0"%char).
Proof.
  induction n as [|n IH]; intros b i Hi Hb; [lia|].
  destruct i as [|i]; cbn [convert_bits String.get].
  - f_equal. change 9223372036854775808 with (2 ^ 63).
    replace (63 - Z.of_nat 0) with 63 by lia.
    rewrite land_pow2_testbit by lia. by destruct (Z.testbit b 63).
  - assert (0 <= Z.land (Z.shiftl b 1) (Z.ones 64) < 2 ^ 64) as Hb'.
    { rewrite Z.land_ones by lia. apply Z.mod_pos_bound. lia. }
    rewrite (IH _ i ltac:(lia) Hb'). f_equal.
    rewrite Z.land_spec.
    destruct (decide (Z.of_nat i <= 63)) as [Hle|Hgt].
    + rewrite Z.ones_spec_low, andb_true_r by lia.
      rewrite Z.shiftl_spec by lia.
      replace (63 - Z.of_nat i - 1) with (63 - Z.of_nat (S i)) by lia. done.
    + rewrite (Z.testbit_neg_r _ (63 - Z.of_nat i)) by lia.
      rewrite (Z.testbit_neg_r _ (63 - Z.of_nat (S i))) by lia. done.
Qed.

(** X3.  [convert_bitmask] writes 64 characters, and for a 64-bit mask the
    character at position [k] (counted from 1 at the left) is 1 exactly
    when the bit that [bit k] names is set: the printed form follows the
    numbering of [bit]. *)
Theorem convert_bitmask_positions (b k : Z) :
  0 <= b < 2 ^ 64 -> 1 <= k <= 64 ->
  String.length (convert_bitmask b) = 64%nat
  /\ String.get (Z.to_nat (k - 1)) (convert_bitmask b)
     = Some (if has_bit b k then "1"%char else "0"%char).
Proof.
  intros Hb Hk. split; [apply convert_bits_length|].
  unfold convert_bitmask. rewrite convert_bits_get; [|lia|exact Hb].
  rewrite has_bit_testbit by done.
  by replace (63 - Z.of_nat (Z.to_nat (k - 1))) with (64 - k) by lia.
Qed.

Lemma convert_bitmask_positions_witness :
  String.get (Z.to_nat (2 - 1)) (convert_bitmask (bit 2)) = Some "1"%char.
Proof.
  refine (proj2 (convert_bitmask_positions (bit 2) 2 _ _)).
  - vm_compute. split; [discriminate|reflexivity].
  - lia.
Defined.

(** * What [verify_solution] checks *)

Lemma elem_of_all_units G u :
  well_sized G ->
  u ∈ all_units G
  <-> (exists i, 1 <= i <= N2 G /\ u = row_squares G i)
      \/ (exists i, 1 <= i <= N2 G /\ u = column_squares G i)
      \/ (exists ti tj, 0 <= ti < N G /\ 0 <= tj < N G
                        /\ u = subsquare_squares G (1 + ti * N G) (1 + tj * N G)).
Proof.
  intros Hw. unfold all_units, all_rows, all_columns, all_subsquares.
  rewrite !elem_of_app, !list_elem_of_fmap, list_elem_of_In, in_flat_map.
  split; (intros [H|[H|H]]; [left|right; left|right; right]).
  - destruct H as (i & -> & Hi). apply elem_of_seqZ' in Hi. exists i. split; [lia|done].
  - destruct H as (i & -> & Hi). apply elem_of_seqZ' in Hi. exists i. split; [lia|done].
  - destruct H as (i & Hi & Hu).
    apply list_elem_of_In, elem_of_origins in Hi as (ti & Hti & ->); [|done].
    apply list_elem_of_In, list_elem_of_fmap in Hu as (j & -> & Hj).
    apply elem_of_origins in Hj as (tj & Htj & ->); [|done]. by exists ti, tj.
  - destruct H as (i & Hi & ->). exists i. split; [done|]. apply elem_of_seqZ'. lia.
  - destruct H as (i & Hi & ->). exists i. split; [done|]. apply elem_of_seqZ'. lia.
  - destruct H as (ti & tj & Hti & Htj & ->). exists (1 + ti * N G). split.
    + apply list_elem_of_In, elem_of_origins; [done|]. by exists ti.
    + apply list_elem_of_In, list_elem_of_fmap. exists (1 + tj * N G). split; [done|].
      apply elem_of_origins; [done|]. by exists tj.
Qed.

Lemma subsquare_squares_NoDup G i j : NoDup (subsquare_squares G i j).
Proof.
  unfold subsquare_squares. rewrite flat_map_bind. apply NoDup_bind.
  - intros x1 x2 [a b] _ _ H1 H2.
    apply list_elem_of_fmap in H1 as (j1 & E1 & _). apply list_elem_of_fmap in H2 as (j2 & E2 & _).
    inversion E1; inversion E2; subst. lia.
  - intros x _. apply NoDup_fmap_2; [|apply NoDup_seqZ]. intros a b E. inversion E. lia.
  - apply NoDup_seqZ.
Qed.

Lemma subsquare_squares_length G i j :
  0 <= N G -> Z.of_nat (length (subsquare_squares G i j)) = N G * N G.
Proof.
  intros HN. unfold subsquare_squares.
  rewrite (length_flat_map_const _ _ (Z.to_nat (N G))).
  - rewrite length_seqZ. lia.
  - intros x _. by rewrite length_fmap, length_seqZ.
Qed.

(** The shape of a row, a column or a subsquare: [N2] different squares,
    any two of which see each other. *)
Lemma unit_shape G u :
  well_sized G -> u ∈ all_units G ->
  NoDup u /\ Z.of_nat (length u) = N2 G
  /\ forall a b a' b', (a, b) ∈ u -> (a', b') ∈ u -> (a, b) <> (a', b') -> sees G a b a' b'.
Proof.
  intros Hw Hu. pose proof Hw as [HN HN2].
  apply (proj1 (elem_of_all_units G u Hw)) in Hu
    as [(i & Hi & ->)|[(i & Hi & ->)|(ti & tj & Hti & Htj & ->)]].
  - split; [|split].
    + apply NoDup_fmap_2; [|apply NoDup_seqZ]. intros a b E. by inversion E.
    + unfold row_squares. rewrite length_fmap, length_seqZ. lia.
    + intros a b a' b' H1 H2 Hne.
      apply list_elem_of_fmap in H1 as (j1 & E1 & _).
      apply list_elem_of_fmap in H2 as (j2 & E2 & _).
      inversion E1; inversion E2; subst. split; [done|]. by left.
  - split; [|split].
    + apply NoDup_fmap_2; [|apply NoDup_seqZ]. intros a b E. by inversion E.
    + unfold column_squares. rewrite length_fmap, length_seqZ. lia.
    + intros a b a' b' H1 H2 Hne.
      apply list_elem_of_fmap in H1 as (j1 & E1 & _).
      apply list_elem_of_fmap in H2 as (j2 & E2 & _).
      inversion E1; inversion E2; subst. split; [done|]. right. by left.
  - split; [apply subsquare_squares_NoDup|]. split.
    + rewrite subsquare_squares_length by lia. lia.
    + intros a b a' b' H1 H2 Hne. split; [done|]. right. right.
      apply elem_of_subsquare_squares in H1, H2.
      assert (forall x t, 0 <= t -> 1 + t * N G <= x < 1 + t * N G + N G ->
                (x - 1) ÷ N G = t) as Hq.
      { intros x t Ht Hx. rewrite Z.quot_div_nonneg by lia.
        symmetry. apply (Z.div_unique _ _ _ (x - 1 - t * N G)); lia. }
      unfold same_subsquare.
      rewrite (Hq a ti), (Hq a' ti), (Hq b tj), (Hq b' tj) by lia. done.
Qed.

(** Every square of the board lies in a unit (its row). *)
Lemma on_board_in_unit G a b :
  on_board G a b -> exists u, u ∈ all_units G /\ (a, b) ∈ u.
Proof.
  intros [Ha Hb]. exists (row_squares G a). split.
  - unfold all_units, all_rows. rewrite !elem_of_app. left.
    apply list_elem_of_fmap. exists a. split; [done|]. apply elem_of_seqZ'. lia.
  - apply list_elem_of_fmap. exists b. split; [done|]. apply elem_of_seqZ'. lia.
Qed.

Lemma count_used_range G u used :
  count_used G u = Ok used -> forall c, c ∈ u -> 0 <= cur_value (sq G c.1 c.2) <= N2 G.
Proof.
  unfold count_used. generalize (∅ : gmap Z Z) as acc.
  induction u as [|x u IH]; intros acc H c Hc; [by apply elem_of_nil in Hc|].
  simpl in H. apply obind_Ok in H as (acc' & Hx & H).
  destruct ((0 <=? cur_value (sq G x.1 x.2)) && (cur_value (sq G x.1 x.2) <=? N2 G)) eqn:E;
    [|discriminate].
  apply elem_of_cons in Hc as [->|Hc]; [lia|]. by eapply IH.
Qed.

Lemma used_ok_spec G full used :
  used_ok G full used = true
  <-> forall k, 1 <= k <= N2 G -> aget used k <= 1 /\ (full = true -> aget used k = 1).
Proof.
  unfold used_ok. rewrite forallb_seqZ. split; intros H k Hk; specialize (H k ltac:(lia)).
  - apply andb_prop in H as [H1 H2]. split; [lia|]. intros ->. simpl in H2. lia.
  - destruct H as [H1 H2]. apply andb_true_intro. split; [lia|].
    destruct full; simpl; [|done]. rewrite H2 by done. done.
Qed.

Lemma verify_units_true G full units :
  verify_units G full units = Ok true
  <-> forall u, u ∈ units ->
        (forall c, c ∈ u -> 0 <= cur_value (sq G c.1 c.2) <= N2 G)
        /\ forall k, 1 <= k <= N2 G ->
             occurrences G u k <= 1 /\ (full = true -> occurrences G u k = 1).
Proof.
  induction units as [|u0 rest IH]; simpl.
  - split; [|done]. intros _ u Hu. by apply elem_of_nil in Hu.
  - split.
    + intros H. apply obind_Ok in H as (used & Hc & H).
      destruct (used_ok G full used) eqn:E; [|discriminate].
      pose proof (count_used_range G u0 used Hc) as Hr.
      destruct (count_used_spec G u0 Hr) as (used' & Hc' & Hocc).
      rewrite Hc in Hc'. injection Hc' as <-.
      intros u Hu. apply elem_of_cons in Hu as [->|Hu]; [|by apply IH].
      split; [done|]. intros k Hk. rewrite <- Hocc.
      by apply (proj1 (used_ok_spec G full used) E).
    + intros H. destruct (H u0 ltac:(left)) as [Hr Hk].
      destruct (count_used_spec G u0 Hr) as (used & -> & Hocc). simpl.
      replace (used_ok G full used) with true.
      * apply IH. intros u Hu. apply H. by right.
      * symmetry. apply used_ok_spec. intros k Hk'. rewrite Hocc. by apply Hk.
Qed.

(** Counting in a list of values. *)
Lemma occurrences_fmap G (u : list (Z * Z)) k :
  occurrences G u k
  = Z.of_nat (length (filter (fun x => x = k) ((fun c => cur_value (sq G c.1 c.2)) <$> u))).
Proof.
  unfold occurrences. f_equal. induction u as [|c u IH]; [done|].
  rewrite fmap_cons, !filter_cons. repeat case_decide; simpl; congruence.
Qed.

Lemma filter_eq_absent (l : list Z) k : k ∉ l -> filter (fun x => x = k) l = [].
Proof.
  induction l as [|y l IH]; intros Hk; [done|].
  rewrite filter_cons. apply not_elem_of_cons in Hk as [Hne Hk].
  case_decide; [congruence|]. by apply IH.
Qed.

Lemma count_NoDup (l : list Z) k :
  NoDup l -> k ∈ l -> length (filter (fun x => x = k) l) = 1%nat.
Proof.
  induction 1 as [|x l Hx Hl IH]; intros Hk; [by apply elem_of_nil in Hk|].
  rewrite filter_cons. case_decide as E.
  - subst x. by rewrite filter_eq_absent.
  - apply elem_of_cons in Hk as [->|Hk]; [done|]. by apply IH.
Qed.

Lemma count_elem_of (l : list Z) k :
  (1 <= length (filter (fun x => x = k) l))%nat -> k ∈ l.
Proof.
  intros H. destruct (filter (fun x => x = k) l) as [|y f] eqn:E; [simpl in H; lia|].
  assert (y ∈ filter (fun x => x = k) l) as Hy by (rewrite E; left).
  apply list_elem_of_filter in Hy as [-> Hy]. done.
Qed.

(** A list of [n] values is a permutation of 1..n when each of these
    occurs once, and when the values are different and lie in 1..n. *)
Lemma counts_permutation (l : list Z) (n : Z) :
  Z.of_nat (length l) = n ->
  (forall k, 1 <= k <= n -> length (filter (fun x => x = k) l) = 1%nat) ->
  l ≡ₚ seqZ 1 n.
Proof.
  intros Hlen Hc. symmetry. apply submseteq_length_Permutation.
  - apply NoDup_submseteq; [apply NoDup_seqZ|].
    intros k Hk. apply elem_of_seqZ' in Hk. apply count_elem_of. rewrite Hc; lia.
  - rewrite length_seqZ. lia.
Qed.

Lemma nodup_permutation (l : list Z) (n : Z) :
  Z.of_nat (length l) = n -> NoDup l -> (forall x, x ∈ l -> 1 <= x <= n) ->
  l ≡ₚ seqZ 1 n.
Proof.
  intros Hlen Hnd Hr. apply submseteq_length_Permutation.
  - apply NoDup_submseteq; [done|]. intros x Hx. apply elem_of_seqZ'. specialize (Hr x Hx). lia.
  - rewrite length_seqZ. lia.
Qed.

Lemma filter_two {A} (P : A -> Prop) `{!forall x, Decision (P x)} (l : list A) :
  NoDup l -> (2 <= length (filter P l))%nat ->
  exists x y, x <> y /\ x ∈ l /\ y ∈ l /\ P x /\ P y.
Proof.
  intros Hnd Hlen. pose proof (NoDup_filter P l Hnd) as Hf.
  destruct (filter P l) as [|x [|y f]] eqn:E; simpl in Hlen; [lia|lia|].
  assert (x ∈ filter P l) as Hx by (rewrite E; left).
  assert (y ∈ filter P l) as Hy by (rewrite E; right; left).
  apply list_elem_of_filter in Hx as [Px Hx]. apply list_elem_of_filter in Hy as [Py Hy].
  exists x, y. split; [|done]. apply NoDup_cons in Hf as [Hf _]. intros ->. apply Hf. left.
Qed.

(** No value occurs twice in a unit exactly when no two squares that see
    each other hold the same value of the alphabet. *)
Lemma units_no_duplicates G :
  well_sized G ->
  (forall u k, u ∈ all_units G -> 1 <= k <= N2 G -> occurrences G u k <= 1)
  <-> ~ clue_conflict G.
Proof.
  intros Hw. split.
  - intros H (a & b & a' & b' & Hon & Hon' & Hsees & Hv & Hk).
    destruct (sees_shares_unit G a b a' b' Hw Hon Hon' Hsees) as (u & Hu & Hc & Hc').
    specialize (H u (cur_value (sq G a b)) Hu Hk).
    pose proof (occurrences_two G u (a, b) (a', b') (cur_value (sq G a b))
                  (proj1 Hsees) Hc Hc' eq_refl (eq_sym Hv)). lia.
  - intros Hno u k Hu Hk.
    destruct (Z_le_gt_dec (occurrences G u k) 1) as [|Hgt]; [done|]. exfalso. apply Hno.
    destruct (unit_shape G u Hw Hu) as (Hnd & _ & Hsees).
    destruct (filter_two (fun c => cur_value (sq G c.1 c.2) = k) u Hnd)
      as ([a b] & [a' b'] & Hne & Hc & Hc' & Hv & Hv'); [unfold occurrences in Hgt; lia|].
    simpl in Hv, Hv'. exists a, b, a', b'.
    split; [by eapply all_units_on_board|]. split; [by eapply all_units_on_board|].
    split; [by apply Hsees|]. split; [congruence|]. by rewrite Hv.
Qed.

Lemma solved_no_conflict G : solved G -> ~ clue_conflict G.
Proof.
  intros [_ Hd] (a & b & a' & b' & Hon & Hon' & Hsees & Hv & _).
  by apply (Hd a b a' b').
Qed.

Lemma verify_full_iff (G : Game) :
  well_sized G -> (verify_solution G true = Ok true <-> solved G).
Proof.
  intros Hw. unfold verify_solution. fold (all_units G). rewrite verify_units_true. split.
  - intros H.
    assert (forall a b, on_board G a b -> 1 <= values G a b <= N2 G) as Hrange.
    { intros a b Hon. destruct (on_board_in_unit G a b Hon) as (u & Hu & Hc).
      destruct (H u Hu) as [_ Hk]. destruct (unit_shape G u Hw Hu) as (_ & Hlen & _).
      assert ((fun c => cur_value (sq G c.1 c.2)) <$> u ≡ₚ seqZ 1 (N2 G)) as Hp.
      { apply counts_permutation; [by rewrite length_fmap|].
        intros k Hk'. destruct (Hk k Hk') as [_ H1]. specialize (H1 eq_refl).
        rewrite occurrences_fmap in H1. lia. }
      assert (values G a b ∈ seqZ 1 (N2 G)) as Hin.
      { rewrite <- Hp. apply list_elem_of_fmap. by exists (a, b). }
      apply elem_of_seqZ' in Hin. lia. }
    split; [done|].
    intros a b a' b' Hon Hon' Hsees Hv.
    assert (~ clue_conflict G) as Hno.
    { apply units_no_duplicates; [done|]. intros u k Hu Hk. by apply (H u Hu). }
    apply Hno. exists a, b, a', b'. repeat (split; [done|]). by apply Hrange.
  - intros [Hrange Hd] u Hu.
    destruct (unit_shape G u Hw Hu) as (Hnd & Hlen & Hsees).
    assert (forall c, c ∈ u -> 1 <= cur_value (sq G c.1 c.2) <= N2 G) as Hr.
    { intros [a b] Hc. apply Hrange. by eapply all_units_on_board. }
    split; [intros c Hc; specialize (Hr c Hc); lia|].
    assert ((fun c => cur_value (sq G c.1 c.2)) <$> u ≡ₚ seqZ 1 (N2 G)) as Hp.
    { apply nodup_permutation; [by rewrite length_fmap| |].
      - apply NoDup_fmap_2_strong; [|done].
        intros [a b] [a' b'] Hc Hc' Hv. simpl in Hv.
        destruct (decide ((a, b) = (a', b'))) as [|Hne]; [done|]. exfalso.
        apply (Hd a b a' b'); [by eapply all_units_on_board|by eapply all_units_on_board| |done].
        by apply Hsees.
      - intros x Hx. apply list_elem_of_fmap in Hx as (c & -> & Hc). by apply Hr. }
    intros k Hk.
    assert (occurrences G u k = 1) as E.
    { rewrite occurrences_fmap, Hp, count_NoDup; [done|apply NoDup_seqZ|].
      apply elem_of_seqZ'. lia. }
    rewrite E. done.
Qed.

(** X4.  What the full check establishes.  On a board with the sizes of
    [init_board], [verify_solution] with [full_solution] true returns true
    exactly when the board is a solved Sudoku: every square holds a value
    from 1 to [N2] and no two different squares of one row, one column or
    one subsquare hold the same value. *)
Theorem verify_solution_full (G : Game) :
  well_sized G -> (verify_solution G true = Ok true <-> solved G).
Proof. apply verify_full_iff. Qed.

Lemma verify_solution_full_witness :
  verify_solution (searched 2000 (preprocessed 40 (loaded usage_file))) true = Ok true
  <-> solved (searched 2000 (preprocessed 40 (loaded usage_file))).
Proof.
  apply (verify_solution_full (searched 2000 (preprocessed 40 (loaded usage_file)))).
  vm_compute. split; [discriminate|reflexivity].
Defined.

Lemma verify_partial_iff (G : Game) :
  well_sized G ->
  (verify_solution G false = Ok true
   <-> (forall a b, on_board G a b -> 0 <= cur_value (sq G a b) <= N2 G)
       /\ ~ clue_conflict G).
Proof.
  intros Hw. unfold verify_solution. fold (all_units G). rewrite verify_units_true.
  rewrite <- units_no_duplicates by done. split.
  - intros H. split.
    + intros a b Hon. destruct (on_board_in_unit G a b Hon) as (u & Hu & Hc).
      by apply (proj1 (H u Hu) (a, b)).
    + intros u k Hu Hk. by apply (H u Hu).
  - intros [Hr Hocc] u Hu. split.
    + intros [a b] Hc. apply Hr. by eapply all_units_on_board.
    + intros k Hk. split; [by apply Hocc|discriminate].
Qed.

(** X5.  What the partial check establishes.  On a board with the sizes
    of [init_board], [verify_solution] with [full_solution] false returns
    true exactly when every square of the board holds 0 or a value from 1
    to [N2] and no value from 1 to [N2] occurs in two different squares of
    one row, one column or one subsquare; empty squares are ignored. *)
Theorem verify_solution_partial (G : Game) :
  well_sized G ->
  (verify_solution G false = Ok true
   <-> (forall a b, on_board G a b -> 0 <= cur_value (sq G a b) <= N2 G)
       /\ ~ clue_conflict G).
Proof. apply verify_partial_iff. Qed.

Lemma verify_solution_partial_witness :
  verify_solution (loaded usage_file) false = Ok true
  <-> (forall a b, on_board (loaded usage_file) a b ->
         0 <= cur_value (sq (loaded usage_file) a b) <= N2 (loaded usage_file))
      /\ ~ clue_conflict (loaded usage_file).
Proof.
  apply (verify_solution_partial (loaded usage_file)).
  vm_compute. split; [discriminate|reflexivity].
Defined.

(** * The search places no value twice *)

(** The three kinds of step that do not leave the search: the cursor moves
    on, a value is placed, or the last placement is undone. *)
Lemma search_step_shape s s' :
  neighbors_built (sG s) -> stack_inv s -> search_step s = Ok (inl s') ->
  let G := sG s in
  let i := si s in
  let j := sj s in
  (sG s' = G /\ stack s' = stack s /\ piece_to_place s' = piece_to_place s
   /\ ((N2 G < j /\ si s' = i + 1 /\ sj s' = 1)
       \/ (j <= N2 G /\ frozen (sq G i j) = true /\ si s' = i /\ sj s' = j + 1)))
  \/ (on_board G i j /\ frozen (sq G i j) = false
      /\ exists k, piece_to_place s < k <= N2 G
         /\ has_bit (top_mask (sq G i j)) k = true
         /\ (forall k', piece_to_place s < k' < k -> has_bit (top_mask (sq G i j)) k' = false)
         /\ stack s' = (i, j) :: stack s /\ si s' = i /\ sj s' = j + 1
         /\ piece_to_place s' = 0
         /\ forall a b, values (sG s') a b
                        = if decide ((i, j) = (a, b)) then k else values G a b)
  \/ (on_board G i j /\ frozen (sq G i j) = false
      /\ (forall k, piece_to_place s < k <= N2 G -> has_bit (top_mask (sq G i j)) k = false)
      /\ exists i' j' rest, stack s = (i', j') :: rest /\ stack s' = rest
         /\ si s' = i' /\ sj s' = j' /\ piece_to_place s' = values G i' j'
         /\ forall a b, values (sG s') a b
                        = if decide ((i', j') = (a, b)) then 0 else values G a b).
Proof.
  intros HB Hst. unfold search_step.
  destruct (N2 (sG s) <? si s) eqn:Ei; [discriminate|].
  destruct (N2 (sG s) <? sj s) eqn:Ej.
  { intros [= <-]. left. cbn. repeat (split; [done|]). left. lia. }
  destruct (frozen (sq (sG s) (si s) (sj s))) eqn:Hf.
  { intros [= <-]. left. cbn. repeat (split; [done|]). right. split; [lia|]. by repeat split. }
  intros H. apply obind_Ok in H as (found & Hfound & H).
  destruct Hst as ((Hi & Hj & Hp) & Hd & Hstk & Hall).
  assert (on_board (sG s) (si s) (sj s)) as Hon by (unfold on_board; lia).
  unfold find_piece in Hfound.
  destruct (N2 (sG s) <? piece_to_place s + 1) eqn:Ep.
  - injection Hfound as <-.
    destruct (stack s) as [|[i' j'] rest] eqn:Estack; [discriminate|].
    apply obind_Ok in H as (G1 & H1 & H). injection H as <-.
    right. right. cbn. split; [done|]. split; [done|]. split; [intros k Hk; lia|].
    exists i', j', rest. split; [done|]. split; [done|]. split; [done|]. split; [lia|].
    destruct (Hstk i' j') as (Hon' & _); [left|]. split; [done|].
    pose proof (undo_fields _ _ _ _ HB Hon' H1) as HF. cbv zeta in HF.
    intros a b. unfold values. by destruct (HF a b) as (_ & _ & -> & _).
  - destruct ((topmask (sq (sG s) (si s) (sj s)) <? 0)
              || (MAX_NUM_NEIGHBORS <=? topmask (sq (sG s) (si s) (sj s)))); [discriminate|].
    injection Hfound as <-.
    pose proof (find_has_bit_spec (cand (sq (sG s) (si s) (sj s))
                                        (topmask (sq (sG s) (si s) (sj s))))
                  (seqZ (piece_to_place s + 1) (N2 (sG s) - piece_to_place s))) as Hfind.
    destruct (List.find _ _) as [k|].
    + destruct Hfind as (pre & post & Hsplit & Hbit & Hpre).
      assert (piece_to_place s < k <= N2 (sG s)) as Hk.
      { assert (k ∈ seqZ (piece_to_place s + 1) (N2 (sG s) - piece_to_place s)) as Hin
          by (rewrite Hsplit; apply elem_of_app; right; left).
        apply elem_of_seqZ' in Hin. lia. }
      apply obind_Ok in H as (G1 & H1 & H).
      destruct (negb _); [discriminate|]. injection H as <-.
      right. left. cbn. split; [done|]. split; [done|].
      exists k. split; [done|]. split; [done|]. split.
      { intros k' Hk'. apply Hpre. eapply seqZ_split_at; [exact Hsplit|lia]. }
      repeat (split; [done|]).
      pose proof (place_fields _ _ _ _ _ HB Hon H1) as HF.
      intros a b. unfold values. by destruct (HF a b) as (_ & _ & -> & _).
    + destruct (stack s) as [|[i' j'] rest] eqn:Estack; [discriminate|].
      apply obind_Ok in H as (G1 & H1 & H). injection H as <-.
      right. right. cbn. split; [done|]. split; [done|]. split.
      { intros k Hk. apply Hfind, elem_of_seqZ'. lia. }
      exists i', j', rest. split; [done|]. split; [done|]. split; [done|]. split; [lia|].
      destruct (Hstk i' j') as (Hon' & _); [left|]. split; [done|].
      pose proof (undo_fields _ _ _ _ HB Hon' H1) as HF. cbv zeta in HF.
      intros a b. unfold values. by destruct (HF a b) as (_ & _ & -> & _).
Qed.

Lemma search_step_frame s s' :
  search_step s = Ok (inl s') -> N (sG s') = N (sG s) /\ N2 (sG s') = N2 (sG s).
Proof. intros H. apply search_step_keeps_flags in H as [[(H1 & H2 & _) _] _]. done. Qed.

Lemma conflict_free_step s s' :
  search_inv s -> conflict_free (sG s) -> search_step s = Ok (inl s') ->
  conflict_free (sG s').
Proof.
  intros Hinv Hcf Hstep. pose proof Hinv as (Hst & HB & HN & Hempty & Hfr).
  pose proof (search_step_frame s s' Hstep) as [EN EN2].
  pose proof (search_inv_exact s Hinv) as Hex.
  destruct (search_step_shape s s' HB Hst Hstep) as [(EG & _)|[Hplace|Hundo]].
  - by rewrite EG.
  - destruct Hplace as (Hon & Hf & k & Hk & Hbit & _ & _ & _ & _ & _ & Hval).
    destruct Hst as ((_ & _ & Hp0) & _).
    assert (forall a b, on_board (sG s) a b -> sees (sG s) (si s) (sj s) a b ->
              values (sG s) a b <> k) as Hfree.
    { intros a b Hon' Hsees.
      apply (proj1 (Hex (si s) (sj s) Hon Hf k ltac:(lia)) Hbit (a, b)).
      by apply (neighbors_built_spec (sG s) (si s) (sj s) HB Hon). }
    intros a b a' b' Ha Ha' Hsees. unfold on_board, sees, same_subsquare in Ha, Ha', Hsees.
    rewrite EN2 in Ha, Ha'. rewrite EN in Hsees. rewrite !Hval.
    destruct (decide ((si s, sj s) = (a, b))) as [E|E];
      destruct (decide ((si s, sj s) = (a', b'))) as [E'|E'].
    + rewrite <- E, <- E' in Hsees. by destruct Hsees.
    + injection E as <- <-. intros Hv. exfalso. by apply (Hfree a' b').
    + injection E' as <- <-. intros Hv. exfalso. apply (Hfree a b); [done| |done].
      by apply sees_sym.
    + by apply Hcf.
  - destruct Hundo as (_ & _ & _ & i' & j' & rest & _ & _ & _ & _ & _ & Hval).
    intros a b a' b' Ha Ha' Hsees. unfold on_board, sees, same_subsquare in Ha, Ha', Hsees.
    rewrite EN2 in Ha, Ha'. rewrite EN in Hsees. rewrite !Hval.
    destruct (decide ((i', j') = (a, b))) as [E|E]; [done|].
    destruct (decide ((i', j') = (a', b'))) as [E'|E']; [done|].
    by apply Hcf.
Qed.

Lemma conflict_free_steps n s s' :
  search_inv s -> conflict_free (sG s) -> search_steps n s = Ok (inl s') ->
  conflict_free (sG s').
Proof.
  revert s. induction n as [|n IH]; intros s Hinv Hcf; simpl.
  - by intros [= <-].
  - intros H. apply obind_Ok in H as ([s1|G1] & H1 & H2); [|discriminate].
    apply (IH s1); [by eapply search_inv_step|by eapply conflict_free_step|done].
Qed.

(** When the search returns, every square of the board holds a value. *)
Lemma search_fills_board fs G G' :
  frozen_valued G -> find_solution fs G = Ok G' ->
  forall a b, on_board G' a b -> 1 <= values G' a b <= N2 G'.
Proof.
  intros Hfz H a b Hon. pose proof H as Hflags.
  apply search_run_keeps_flags in Hflags. simpl in Hflags.
  destruct Hflags as [[(_ & EN2 & _) Hk] Hfl].
  apply search_run_steps in H as (n & s' & Hn & Hlast).
  apply stack_inv_steps in Hn; [|apply stack_inv_start].
  apply search_step_done in Hlast as [-> Hi].
  destruct Hn as (_ & _ & Hst & Hall). unfold values.
  destruct (frozen (sq (sG s') a b)) eqn:Hf.
  - rewrite Hfl in Hf. rewrite (proj2 (Hk a b) Hf), EN2.
    apply Hfz; [|done]. unfold on_board in *. by rewrite <- EN2.
  - apply Hst, Hall; [done| |done]. left. destruct Hon. lia.
Qed.

Lemma search_sound fs G G' :
  ready G -> base_exact G -> frozen_valued G -> conflict_free G ->
  find_solution fs G = Ok G' -> solved G'.
Proof.
  intros HR HE Hfz Hcf H.
  split; [by eapply search_fills_board|].
  intros a b a' b' Hon Hon' Hsees Hv.
  pose proof (search_fills_board fs G G' Hfz H a b Hon) as Hr.
  apply search_run_steps in H as (n & s' & Hn & Hlast).
  apply search_step_done in Hlast as [-> _].
  pose proof (conflict_free_steps n (search_start G) s'
                (search_inv_start G HR HE) Hcf Hn a b a' b' Hon Hon' Hsees Hv). lia.
Qed.

Lemma partial_check_conflict_free G :
  well_sized G -> verify_solution G false = Ok true -> conflict_free G.
Proof.
  intros Hw H. unfold verify_solution in H. fold (all_units G) in H.
  rewrite verify_units_true in H.
  assert (~ clue_conflict G) as Hno.
  { apply units_no_duplicates; [done|]. intros u k Hu Hk. by apply (H u Hu). }
  intros a b a' b' Hon Hon' Hsees Hv.
  destruct (on_board_in_unit G a b Hon) as (u & Hu & Hc).
  pose proof (proj1 (H u Hu) (a, b) Hc) as Hr. simpl in Hr.
  destruct (decide (values G a b = 0)) as [|Hne]; [done|]. exfalso. apply Hno.
  exists a, b, a', b'. unfold values in *. repeat (split; [done|]). lia.
Qed.

(** X6.  The search is sound on a consistent board.  Take the board that
    preprocessing hands to the search (preprocessing of a board with the
    neighbor arrays of [init_board], at most 64 values and no value on an
    unfrozen square has reported solvable).  If its frozen squares all hold
    values and it passes the partial check of [verify_solution], then
    whenever [find_solution] returns, the board it leaves is a solved
    Sudoku and passes the full check. *)
Theorem search_result_verified (fp fs : nat) (G G1 G2 : Game) :
  ready G ->
  preprocess_board fp G = Ok (G1, true) ->
  frozen_valued G1 ->
  verify_solution G1 false = Ok true ->
  find_solution fs G1 = Ok G2 ->
  solved G2 /\ verify_solution G2 true = Ok true.
Proof.
  intros HR Hp Hfz Hv Hs.
  destruct (preprocess_board_end fp G G1 HR Hp) as [HR1 HE].
  assert (solved G2) as Hsol.
  { apply (search_sound fs G1); try done.
    apply partial_check_conflict_free; [apply HR1|done]. }
  split; [done|].
  apply verify_full_iff; [|done].
  apply search_run_keeps_flags in Hs. simpl in Hs.
  destruct Hs as [[(EN & EN2 & _) _] _]. destruct HR1 as ((Hw1 & _) & _).
  unfold well_sized. by rewrite EN, EN2.
Qed.

(** * Preprocessing freezes forced values only *)

Lemma foldl_invariant_nodup {A B} (P : list B -> A -> Prop) (f : A -> B -> A) (l : list B) a :
  NoDup l -> P [] a ->
  (forall done a b, b ∈ l -> b ∉ done -> P done a -> P (done ++ [b]) (f a b)) ->
  P l (foldl f a l).
Proof.
  intros Hnd H0 Hstep.
  assert (forall rest done a, done ++ rest = l -> P done a -> P l (foldl f a rest)) as Hgen.
  { induction rest as [|b rest IH]; intros done0 a0 E H; simpl.
    - rewrite app_nil_r in E. by subst.
    - apply (IH (done0 ++ [b])); [by rewrite <- app_assoc|].
      apply Hstep; [rewrite <- E; apply elem_of_app; right; left| |done].
      rewrite <- E in Hnd. apply NoDup_app in Hnd as (_ & Hd & _).
      intros Hin. apply (Hd b Hin). left. }
  by apply (Hgen l []).
Qed.

Lemma NoDup_all_squares G : NoDup (all_squares G).
Proof.
  unfold all_squares. rewrite flat_map_bind. apply NoDup_bind.
  - intros x1 x2 [a b] _ _ H1 H2.
    apply list_elem_of_fmap in H1 as (j1 & E1 & _). apply list_elem_of_fmap in H2 as (j2 & E2 & _).
    congruence.
  - intros x _. apply NoDup_fmap_2; [|apply NoDup_seqZ]. intros a b E. by inversion E.
  - apply NoDup_seqZ.
Qed.

Lemma filter_length_ext_in {A} (P Q : A -> Prop)
    `{!forall x, Decision (P x)} `{!forall x, Decision (Q x)} (l : list A) :
  (forall x, x ∈ l -> (P x <-> Q x)) -> length (filter P l) = length (filter Q l).
Proof.
  induction l as [|x l IH]; intros Hext; [done|].
  rewrite !filter_cons.
  assert (length (filter P l) = length (filter Q l)) as E
    by (apply IH; intros y Hy; apply Hext; by right).
  pose proof (Hext x ltac:(left)) as Hx.
  destruct (decide (P x)), (decide (Q x)); simpl; try lia; tauto.
Qed.

Lemma filter_length_two {A} (P : A -> Prop) `{!forall x, Decision (P x)} (l : list A) x y :
  x <> y -> x ∈ l -> y ∈ l -> P x -> P y -> (2 <= length (filter P l))%nat.
Proof.
  intros Hne Hx Hy Px Py.
  assert (forall z l', z ∈ l' -> P z -> (1 <= length (filter P l'))%nat) as Hone.
  { intros z l' Hz Pz. induction l' as [|w l' IH]; [by apply elem_of_nil in Hz|].
    rewrite filter_cons. apply elem_of_cons in Hz as [<-|Hz].
    - rewrite decide_True by done. simpl. lia.
    - case_decide; simpl; specialize (IH Hz); lia. }
  induction l as [|w l IH]; [by apply elem_of_nil in Hx|].
  rewrite filter_cons.
  apply elem_of_cons in Hx as [<-|Hx]; apply elem_of_cons in Hy as [<-|Hy].
  - done.
  - rewrite decide_True by done. simpl. specialize (Hone y l Hy Py). lia.
  - rewrite decide_True by done. simpl. specialize (Hone x l Hx Px). lia.
  - specialize (IH Hx Hy). case_decide; simpl; lia.
Qed.

(** The counter and the mask of [find_candidate] agree. *)
Lemma mask_fold_count (seen : gmap Z Z) (n2 : Z) :
  n2 <= 64 ->
  let r := foldl (fun '(b, n) k =>
                    if aget seen k =? 0 then (Z.lor b (bit k), n + 1) else (b, n))
                 (0, 0) (seqZ 1 n2) in
  r.2 = Z.of_nat (length (filter (fun v => has_bit r.1 v = true) (seqZ 1 n2)))
  /\ (r.1 = 0 <-> forall v, 1 <= v <= n2 -> aget seen v <> 0).
Proof.
  intros Hn. pose proof (mask_fold_spec seen n2 Hn) as Hmask. cbv zeta in Hmask.
  assert (let r := foldl (fun '(b, n) k =>
                    if aget seen k =? 0 then (Z.lor b (bit k), n + 1) else (b, n))
                 (0, 0) (seqZ 1 n2) in
          r.2 = Z.of_nat (length (filter (fun v => aget seen v = 0) (seqZ 1 n2)))
          /\ (r.1 = 0 <-> forall v, v ∈ seqZ 1 n2 -> aget seen v <> 0)) as H.
  { apply (foldl_invariant_done (fun done0 (r : Z * Z) =>
      r.2 = Z.of_nat (length (filter (fun v => aget seen v = 0) done0))
      /\ (r.1 = 0 <-> forall v, v ∈ done0 -> aget seen v <> 0))).
    - simpl. split; [done|]. split; [|done]. intros _ v Hv. by apply elem_of_nil in Hv.
    - intros done0 [b n] k Hk [H1 H2]. apply elem_of_seqZ' in Hk. simpl in *.
      rewrite filter_app, length_app, filter_cons, filter_nil.
      destruct (aget seen k =? 0) eqn:E; simpl.
      + rewrite decide_True by lia. simpl. split; [lia|]. split.
        * intros H0. apply Z.lor_eq_0_iff in H0 as [_ H0].
          rewrite bit_pow2 in H0 by lia.
          pose proof (Z.pow_pos_nonneg 2 (64 - k) ltac:(lia) ltac:(lia)). lia.
        * intros Hall. exfalso. apply (Hall k); [apply elem_of_app; right; left|lia].
      + rewrite decide_False by lia. simpl. split; [lia|]. rewrite H2. split.
        * intros Hall v Hv. apply elem_of_app in Hv as [Hv|Hv]; [by apply Hall|].
          apply list_elem_of_singleton in Hv. subst. lia.
        * intros Hall v Hv. apply Hall, elem_of_app. by left. }
  cbv zeta in H. destruct H as [H1 H2]. split.
  - rewrite H1. f_equal. apply filter_length_ext_in.
    intros v Hv. apply elem_of_seqZ' in Hv. rewrite (Hmask v) by lia. split; [|tauto].
    intros H. split; [lia|done].
  - rewrite H2. split; intros H v Hv; apply H; [apply elem_of_seqZ'|apply elem_of_seqZ' in Hv]; lia.
Qed.

Lemma find_candidate_flag G row col :
  N2 G <= 64 -> frozen (sq G row col) = false ->
  let r := find_candidate G row col in
  num_candidates (sq r.1 row col) = popcount G (cand (sq r.1 row col) 0)
  /\ (r.2 = true <-> exists v, 1 <= v <= N2 G /\ has_bit (cand (sq r.1 row col) 0) v = true).
Proof.
  intros HN Hf. unfold find_candidate. rewrite Hf.
  set (seen := foldl _ ∅ (neighbors_of G (sq G row col))) in *.
  pose proof (mask_fold_spec seen (N2 G) HN) as Hmask.
  pose proof (mask_fold_count seen (N2 G) HN) as Hcount.
  destruct (foldl _ (0, 0) (seqZ 1 (N2 G))) as [b n]. simpl in *.
  rewrite sq_set_sq_eq. unfold cand, popcount. simpl. rewrite aget_aset_eq.
  destruct Hcount as [Hn Hb]. split; [done|].
  rewrite negb_true_iff, Z.eqb_neq. split.
  - intros Hne. destruct (decide (Exists (fun v => aget seen v = 0) (seqZ 1 (N2 G))))
      as [Hex|Hno].
    + apply Exists_exists in Hex as (v & Hv & H0).
      apply elem_of_seqZ' in Hv. exists v. split; [lia|]. apply Hmask; [lia|]. split; [lia|done].
    + exfalso. apply Hne, Hb. intros v Hv H0. apply Hno, Exists_exists. exists v. split; [|done].
      apply elem_of_seqZ'. lia.
  - intros (v & Hv & Hbit) H0. subst b. rewrite has_bit_zero in Hbit by lia. discriminate.
Qed.

Lemma find_candidate_frozen G row col :
  frozen (sq G row col) = true -> find_candidate G row col = (G, true).
Proof. intros Hf. unfold find_candidate. by rewrite Hf. Qed.

(** What [find_candidates] returns, and the counts it leaves. *)
Lemma find_candidates_flags G :
  N2 G <= 64 ->
  let r := find_candidates G in
  (forall i j, on_board G i j -> frozen (sq G i j) = false ->
     num_candidates (sq r.1 i j) = popcount G (cand (sq r.1 i j) 0))
  /\ (r.2 = true
      <-> forall i j, on_board G i j -> frozen (sq G i j) = false ->
            exists v, 1 <= v <= N2 G /\ has_bit (cand (sq r.1 i j) 0) v = true).
Proof.
  intros HN.
  assert (let r := find_candidates G in
          keeps_values G r.1
          /\ (forall c, c ∈ all_squares G -> frozen (sq G c.1 c.2) = false ->
                num_candidates (sq r.1 c.1 c.2) = popcount G (cand (sq r.1 c.1 c.2) 0))
          /\ (r.2 = true
              <-> forall c, c ∈ all_squares G -> frozen (sq G c.1 c.2) = false ->
                    exists v, 1 <= v <= N2 G /\ has_bit (cand (sq r.1 c.1 c.2) 0) v = true))
    as H.
  { unfold find_candidates.
    apply (foldl_invariant_nodup (fun done0 (r : Game * bool) =>
      keeps_values G r.1
      /\ (forall c, c ∈ done0 -> frozen (sq G c.1 c.2) = false ->
            num_candidates (sq r.1 c.1 c.2) = popcount G (cand (sq r.1 c.1 c.2) 0))
      /\ (r.2 = true
          <-> forall c, c ∈ done0 -> frozen (sq G c.1 c.2) = false ->
                exists v, 1 <= v <= N2 G /\ has_bit (cand (sq r.1 c.1 c.2) 0) v = true)));
      [apply NoDup_all_squares| |].
    - split; [apply keeps_values_refl|]. split; [intros c Hc; by apply elem_of_nil in Hc|].
      split; [|done]. intros _ c Hc. by apply elem_of_nil in Hc.
    - intros done0 [G1 ok] [row col] Hin Hnew (HK & Hnum & Hok). simpl in *.
      pose proof (find_candidate_keeps_values G1 row col) as HK1.
      pose proof (find_candidate_flag G1 row col) as Hflag.
      pose proof (find_candidate_frozen G1 row col) as Hfrz.
      pose proof (find_candidate_other G1 row col) as Hoth.
      assert (N2 G1 = N2 G) as EN2 by apply HK.
      assert (frozen (sq G1 row col) = frozen (sq G row col)) as Efl by apply HK.
      destruct (find_candidate G1 row col) as [G2 ok2]. simpl in *.
      assert (forall c, c ∈ done0 -> sq G2 c.1 c.2 = sq G1 c.1 c.2) as Hsame.
      { intros [a b] Hc. apply Hoth. intros E. apply Hnew. by rewrite E. }
      split; [by eapply keeps_values_trans|]. split.
      + intros [a b] Hc Hfr. apply elem_of_app in Hc as [Hc|Hc].
        * rewrite (Hsame _ Hc). by apply Hnum.
        * apply list_elem_of_singleton in Hc. injection Hc as -> ->. simpl in *.
          unfold popcount. rewrite <- EN2. apply Hflag; [lia|congruence].
      + destruct (frozen (sq G row col)) eqn:Hfr.
        * specialize (Hfrz ltac:(congruence)). injection Hfrz as -> ->.
          rewrite Hok. split.
          -- intros Hall c Hc Hf. apply elem_of_app in Hc as [Hc|Hc]; [by apply Hall|].
             apply list_elem_of_singleton in Hc. subst c. simpl in Hf. congruence.
          -- intros Hall c Hc Hf. apply Hall; [|done]. apply elem_of_app. by left.
        * destruct Hflag as [_ Hflag]; [lia|congruence|]. rewrite EN2 in Hflag.
          split.
          -- intros Hboth. destruct ok2; [|by destruct ok].
             destruct ok; [|done].
             intros c Hc Hf. apply elem_of_app in Hc as [Hc|Hc].
             ++ rewrite (Hsame _ Hc). by apply (proj1 Hok).
             ++ apply list_elem_of_singleton in Hc. subst c. simpl. by apply Hflag.
          -- intros Hall.
             assert (ok2 = true) as ->.
             { apply Hflag. apply (Hall (row, col)); [apply elem_of_app; right; left|done]. }
             apply Hok. intros c Hc Hf. rewrite <- (Hsame _ Hc).
             apply Hall; [|done]. apply elem_of_app. by left. }
  cbv zeta in H. destruct H as (_ & Hnum & Hok). split.
  - intros i j Hon Hf. apply (Hnum (i, j)); [by apply elem_of_all_squares|done].
  - rewrite Hok. split.
    + intros Hall i j Hon Hf. apply (Hall (i, j)); [by apply elem_of_all_squares|done].
    + intros Hall [i j] Hc Hf. apply Hall; [by apply elem_of_all_squares|done].
Qed.

(** ** Solutions and candidates *)

Lemma is_solution_frame G G' S :
  N G' = N G -> N2 G' = N2 G -> is_solution G S -> is_solution G' S.
Proof.
  intros EN EN2 [Hr Hd]. unfold is_solution, on_board, sees, same_subsquare.
  rewrite EN, EN2. split; [exact Hr|exact Hd].
Qed.

Lemma extends_values G G' S : keeps_values G G' -> extends G S -> extends G' S.
Proof.
  intros [[[(_ & EN2 & _) _] Hfl] Hval] He a b Hon Hf.
  rewrite Hval. apply He; [|by rewrite <- Hfl]. unfold on_board in *. by rewrite <- EN2.
Qed.

(** No neighbor of a square holds the value that the solution gives to
    the square. *)
Lemma solution_not_blocked G S i j :
  ready G -> is_solution G S -> extends G S -> on_board G i j ->
  forall c, c ∈ neighbor (sq G i j) -> cur_value (sq G c.1 c.2) <> S i j.
Proof.
  intros (HB & _ & HU) [Hr Hd] He Hon [a b] Hc Hv. simpl in Hv.
  apply (neighbors_built_spec G i j HB Hon) in Hc as [Hon' Hsees].
  destruct (frozen (sq G a b)) eqn:Hf.
  - rewrite (He a b Hon' Hf) in Hv. by apply (Hd i j a b).
  - rewrite (HU a b Hon' Hf) in Hv. specialize (Hr i j Hon). lia.
Qed.

(** In every unit the solution has every value somewhere. *)
Lemma solution_covers G S u k :
  well_sized G -> is_solution G S -> u ∈ all_units G -> 1 <= k <= N2 G ->
  exists d, d ∈ u /\ S d.1 d.2 = k.
Proof.
  intros Hw [Hr Hd] Hu Hk. destruct (unit_shape G u Hw Hu) as (Hnd & Hlen & Hsees).
  assert ((fun c : Z * Z => S c.1 c.2) <$> u ≡ₚ seqZ 1 (N2 G)) as Hp.
  { apply nodup_permutation; [by rewrite length_fmap| |].
    - apply NoDup_fmap_2_strong; [|done].
      intros [a b] [a' b'] Hc Hc' Hv. simpl in Hv.
      destruct (decide ((a, b) = (a', b'))) as [|Hne]; [done|]. exfalso.
      apply (Hd a b a' b'); [by eapply all_units_on_board|by eapply all_units_on_board| |done].
      by apply Hsees.
    - intros x Hx. apply list_elem_of_fmap in Hx as ([a b] & -> & Hc). apply Hr.
      by eapply all_units_on_board. }
  assert (k ∈ (fun c : Z * Z => S c.1 c.2) <$> u) as Hin
    by (rewrite Hp; apply elem_of_seqZ'; lia).
  apply list_elem_of_fmap in Hin as (d & -> & Hd'). by exists d.
Qed.

(** A value that exactly one unfrozen square of a unit offers is the value
    of the solution on that square. *)
Lemma forced_by_unit G S u k c :
  ready G -> base_exact G -> is_solution G S -> extends G S ->
  u ∈ all_units G -> 1 <= k <= N2 G ->
  length (filter (offers G k) u) = 1%nat -> c ∈ u -> offers G k c ->
  S c.1 c.2 = k.
Proof.
  intros HR [Hex Htop] HS He Hu Hk Hone Hc [Hcf Hcb].
  pose proof HR as (HB & HN & HU). pose proof HB as (Hw & _).
  destruct (solution_covers G S u k Hw HS Hu Hk) as ([a b] & Hd & Hdk). simpl in Hdk.
  destruct c as [i j]. simpl in *.
  assert (on_board G i j) as Hon by (by eapply all_units_on_board).
  assert (on_board G a b) as Hon' by (by eapply all_units_on_board).
  destruct (decide ((i, j) = (a, b))) as [E|Hne]; [by injection E as -> ->|]. exfalso.
  destruct (unit_shape G u Hw Hu) as (_ & _ & Hsees).
  destruct (frozen (sq G a b)) eqn:Hf.
  - apply (proj1 (Hex i j Hon Hcf k Hk)) with (c := (a, b)).
    + unfold top_mask. by rewrite (Htop i j Hon Hcf).
    + apply (neighbors_built_spec G i j HB Hon). split; [done|]. by apply Hsees.
    + simpl. by rewrite (He a b Hon' Hf).
  - assert (offers G k (a, b)) as Hoff.
    { split; [done|]. simpl. pose proof (Hex a b Hon' Hf k Hk) as Hiff.
      unfold top_mask in Hiff. rewrite (Htop a b Hon' Hf) in Hiff. apply Hiff.
      rewrite <- Hdk. by apply solution_not_blocked. }
    pose proof (filter_length_two (offers G k) u (i, j) (a, b) Hne Hc Hd
                  (conj Hcf Hcb) Hoff). lia.
Qed.

(** ** The scan of a unit *)

Lemma scan_square_spec (m : Z) (c : Z * Z) (l : list Z) :
  NoDup l -> forall (seen : gmap Z Z) (index : gmap Z (Z * Z)),
  let r := foldl (fun '(seen, index) k =>
                    if has_bit m k then (ainc seen k, <[k := c]> index) else (seen, index))
                 (seen, index) l in
  forall k, aget r.1 k = aget seen k + (if decide (k ∈ l /\ has_bit m k = true) then 1 else 0)
            /\ r.2 !! k = (if decide (k ∈ l /\ has_bit m k = true) then Some c
                           else index !! k).
Proof.
  induction 1 as [|x l Hx Hl IH]; intros seen index; cbn [foldl].
  - intros k. rewrite !decide_False by (intros [H _]; by apply elem_of_nil in H).
    simpl. split; [lia|done].
  - intros k. destruct (has_bit m x) eqn:Ex.
    + destruct (IH (ainc seen x) (<[x := c]> index) k) as [-> ->].
      rewrite aget_ainc. destruct (decide (x = k)) as [->|Hne].
      * rewrite !(decide_False (P := k ∈ l /\ _)) by tauto.
        rewrite !decide_True by (split; [left|done]).
        rewrite lookup_insert_eq. split; [lia|done].
      * rewrite lookup_insert_ne by done.
        destruct (decide (k ∈ l /\ has_bit m k = true)) as [D|D].
        -- rewrite !decide_True by (split; [right|]; tauto). done.
        -- rewrite !decide_False; [done|..]; intros [Hin Hb];
             apply elem_of_cons in Hin as [->|Hin]; tauto.
    + destruct (IH seen index k) as [-> ->].
      destruct (decide (k ∈ l /\ has_bit m k = true)) as [D|D].
      * rewrite !decide_True by (split; [right|]; tauto). done.
      * rewrite !decide_False; [done|..]; intros [Hin Hb];
          (apply elem_of_cons in Hin as [->|Hin]; [congruence|tauto]).
Qed.

Lemma scan_unit_counts G u seen index :
  scan_unit G u = (seen, index) ->
  forall k, 1 <= k <= N2 G ->
    aget seen k = Z.of_nat (length (filter (offers G k) u))
    /\ forall c, index !! k = Some c -> c ∈ u /\ offers G k c.
Proof.
  unfold scan_unit. cbv zeta.
  assert (forall l (acc : gmap Z Z * gmap Z (Z * Z)) k, 1 <= k <= N2 G ->
    aget (foldl (fun acc c =>
         if frozen (sq G c.1 c.2) then acc
         else foldl (fun '(seen, index) k =>
                    if has_bit (cand (sq G c.1 c.2) 0) k then (ainc seen k, <[k := c]> index)
                    else (seen, index)) acc (seqZ 1 (N2 G))) acc l).1 k
      = aget acc.1 k + Z.of_nat (length (filter (offers G k) l))
    /\ forall c, (foldl (fun acc c =>
         if frozen (sq G c.1 c.2) then acc
         else foldl (fun '(seen, index) k =>
                    if has_bit (cand (sq G c.1 c.2) 0) k then (ainc seen k, <[k := c]> index)
                    else (seen, index)) acc (seqZ 1 (N2 G))) acc l).2 !! k = Some c ->
          (c ∈ l /\ offers G k c) \/ acc.2 !! k = Some c) as Hgen.
  { induction l as [|x l IH]; intros acc; simpl.
    - intros k Hk. split; [lia|]. intros c Hc. by right.
    - intros k Hk. rewrite filter_cons.
      assert (k ∈ seqZ 1 (N2 G)) as Hin by (apply elem_of_seqZ'; lia).
      assert (frozen (sq G x.1 x.2) = false ->
              forall (seen0 : gmap Z Z) (index0 : gmap Z (Z * Z)),
                let r := foldl (fun '(seen, index) k =>
                    if has_bit (cand (sq G x.1 x.2) 0) k
                    then (ainc seen k, <[k := x]> index) else (seen, index))
                  (seen0, index0) (seqZ 1 (N2 G)) in
                aget r.1 k = aget seen0 k
                             + (if has_bit (cand (sq G x.1 x.2) 0) k then 1 else 0)
                /\ r.2 !! k = (if has_bit (cand (sq G x.1 x.2) 0) k then Some x
                               else index0 !! k)) as Hsq.
      { intros _ seen0 index0.
        pose proof (scan_square_spec (cand (sq G x.1 x.2) 0) x (seqZ 1 (N2 G))
                      (NoDup_seqZ _ _) seen0 index0 k) as Hsq. cbv zeta in Hsq.
        destruct (has_bit (cand (sq G x.1 x.2) 0) k) eqn:Hb.
        - by rewrite !decide_True in Hsq by done.
        - by rewrite !decide_False in Hsq by (intros [_ ?]; congruence). }
      destruct (decide (offers G k x)) as [[Hf Hb]|Hno].
      + rewrite Hf. specialize (Hsq Hf acc.1 acc.2). cbv zeta in Hsq. rewrite Hb in Hsq.
        destruct acc as [seen0 index0]. simpl in Hsq.
        destruct (foldl _ (seen0, index0) (seqZ 1 (N2 G))) as [seen1 index1]. simpl in Hsq.
        destruct (IH (seen1, index1) k Hk) as [-> Hix]. simpl. destruct Hsq as [-> Hsq].
        split; [lia|]. intros c Hc. destruct (Hix c Hc) as [[? ?]|Hc1].
        * left. split; [by right|done].
        * simpl in Hc1. rewrite Hsq in Hc1. injection Hc1 as <-. left. split; [left|]. by split.
      + destruct (frozen (sq G x.1 x.2)) eqn:Hf.
        * destruct (IH acc k Hk) as [-> Hix].
          split; [done|]. intros c Hc. destruct (Hix c Hc) as [[? ?]|?]; [left|by right].
          split; [by right|done].
        * assert (has_bit (cand (sq G x.1 x.2) 0) k = false) as Hb.
          { apply not_true_is_false. intros Hb. apply Hno. by split. }
          specialize (Hsq eq_refl acc.1 acc.2). cbv zeta in Hsq. rewrite Hb in Hsq.
          destruct acc as [seen0 index0]. simpl in Hsq.
          destruct (foldl _ (seen0, index0) (seqZ 1 (N2 G))) as [seen1 index1]. simpl in Hsq.
          destruct (IH (seen1, index1) k Hk) as [-> Hix]. simpl. destruct Hsq as [-> Hsq].
          split; [lia|]. intros c Hc. destruct (Hix c Hc) as [[? ?]|Hc1].
          -- left. split; [by right|done].
          -- simpl in Hc1. rewrite Hsq in Hc1. by right. }
  intros H k Hk. specialize (Hgen u (∅, ∅) k Hk). rewrite H in Hgen.
  simpl in Hgen. destruct Hgen as [Hs Hi]. rewrite aget_empty in Hs. split; [lia|].
  intros c Hc. destruct (Hi c Hc) as [?|Hc']; [done|]. by rewrite lookup_empty in Hc'.
Qed.

(** ** The three optimizations *)

Lemma extends_freeze G S row col :
  on_board G row col -> extends G S ->
  extends (bump (freeze_one G row col (S row col)) OnlyCandidate) S
  /\ forall c, extends (bump (freeze_one G row col (S row col)) c) S.
Proof.
  intros Hon He.
  assert (forall c, extends (bump (freeze_one G row col (S row col)) c) S) as H.
  { intros c a b Hon' Hf.
    change (sq (bump (freeze_one G row col (S row col)) c) a b)
      with (sq (freeze_one G row col (S row col)) a b) in *.
    unfold freeze_one in *. rewrite sq_set_sq in *.
    destruct (decide ((row, col) = (a, b))) as [E|E]; [by injection E as <- <-|].
    by apply He. }
  split; [apply H|exact H].
Qed.

Lemma try_units_sound G S c units :
  ready G -> base_exact G -> is_solution G S -> extends G S ->
  (forall u, u ∈ units -> u ∈ all_units G) ->
  extends (try_units G c units).1 S.
Proof.
  intros HR HE HS He Hunits.
  induction units as [|u rest IH]; simpl; [done|].
  destruct (scan_unit G u) as [seen index] eqn:Hscan.
  destruct (seen_once G seen) as [k|] eqn:Hk;
    [|apply IH; intros u' Hu'; apply Hunits; by right].
  apply seen_once_Some in Hk as [Hone Hk].
  pose proof (scan_unit_index G u seen index Hscan) as (_ & H2 & _).
  destruct (H2 k) as [[row col] Hix]; [lia|]. rewrite Hix. simpl.
  destruct (scan_unit_counts G u seen index Hscan k Hk) as [Hcount Hoff].
  destruct (Hoff _ Hix) as [Hin Hoffers].
  assert (u ∈ all_units G) as Hu by (apply Hunits; left).
  assert (S row col = k) as <-.
  { apply (forced_by_unit G S u k (row, col)); try done. lia. }
  apply extends_freeze; [|done].
  destruct HR as ((Hw & _) & _). by eapply all_units_on_board.
Qed.

(** ** The single-candidate rule *)

Lemma single_candidate G b s :
  1 <= s <= N2 G -> has_bit b s = true -> popcount G b = 1 -> get_first_candidate G b = s.
Proof.
  intros Hs Hb Hone. destruct (get_first_candidate_spec G b) as [Hzero Hr]. cbv zeta in *.
  destruct (decide (get_first_candidate G b = 0)) as [E|Hne].
  - rewrite (proj1 Hzero E s Hs) in Hb. discriminate.
  - destruct (Hr Hne) as (Hrange & Hbit & _).
    destruct (decide (get_first_candidate G b = s)) as [|Hd]; [done|]. exfalso.
    pose proof (filter_length_two (fun v => has_bit b v = true) (seqZ 1 (N2 G))
                  (get_first_candidate G b) s Hd) as H2.
    unfold popcount in Hone. rewrite !elem_of_seqZ' in H2.
    specialize (H2 ltac:(lia) ltac:(lia) Hbit Hb). lia.
Qed.

Lemma check_for_only_one_candidate_sound G S :
  is_solution G S -> pass_inv G S -> extends (check_for_only_one_candidate G).1 S.
Proof.
  intros HS HP. unfold check_for_only_one_candidate.
  assert (let r := foldl (fun '(G, found_one) c =>
           let p := sq G c.1 c.2 in
           if negb (frozen p) && (num_candidates p =? 1) then
             let t := get_first_candidate G (cand p 0) in
             (bump (freeze_one G c.1 c.2 t) OnlyCandidate, true)
           else (G, found_one)) (G, false) (all_squares G) in
          pass_inv r.1 S /\ N2 r.1 = N2 G) as H; [|apply H].
  apply (foldl_invariant (fun r : Game * bool => pass_inv r.1 S /\ N2 r.1 = N2 G)); [done|].
  intros [G1 r] [i j] Hin [(HR & He & Hm) EN2]. simpl in *.
  destruct (frozen (sq G1 i j)) eqn:Hf; simpl; [done|].
  destruct (num_candidates (sq G1 i j) =? 1) eqn:E1; simpl; [|done].
  apply elem_of_all_squares in Hin.
  assert (on_board G1 i j) as Hon by (unfold on_board in *; by rewrite EN2).
  destruct (Hm i j Hon Hf) as [Hnum Hbit].
  destruct HS as [Hrange Hd].
  rewrite (single_candidate G1 _ (S i j)); [|rewrite EN2; by apply Hrange|done|lia].
  split; [|done]. split; [|split].
  - eapply ready_values; [apply bump_keeps_values|]. by apply ready_freeze_one.
  - by apply extends_freeze.
  - intros a b Hon' Hf'.
    change (sq (bump (freeze_one G1 i j (S i j)) OnlyCandidate) a b)
      with (sq (freeze_one G1 i j (S i j)) a b) in *.
    unfold freeze_one in *. rewrite sq_set_sq in *.
    destruct (decide ((i, j) = (a, b))) as [E|E]; [simpl in Hf'; discriminate|].
    by apply Hm.
Qed.

(** ** The loop *)

Lemma find_candidates_pass G S :
  ready G -> is_solution G S -> extends G S ->
  (find_candidates G).2 = true
  /\ pass_inv (find_candidates G).1 S /\ base_exact (find_candidates G).1.
Proof.
  intros HR HS He. pose proof HR as (HB & HN & HU).
  destruct (find_candidates_base_exact G HR) as [HR1 HE1].
  destruct (find_candidates_spec G HB HN) as [HK Hmask]. cbv zeta in Hmask.
  destruct (find_candidates_flags G HN) as [Hnum Hok]. cbv zeta in Hnum, Hok.
  assert (N2 (find_candidates G).1 = N2 G) as EN2 by apply HK.
  assert (forall a b, frozen (sq (find_candidates G).1 a b) = frozen (sq G a b)) as Efl
    by apply HK.
  assert (forall i j, on_board G i j -> frozen (sq G i j) = false ->
            has_bit (cand (sq (find_candidates G).1 i j) 0) (S i j) = true) as Hbit.
  { intros i j Hon Hf. apply (proj2 (Hmask i j Hon Hf)); [by apply HS|].
    by apply solution_not_blocked. }
  split; [|split; [|done]].
  - apply Hok. intros i j Hon Hf. exists (S i j). split; [by apply HS|by apply Hbit].
  - split; [done|]. split; [by eapply extends_values|].
    intros i j Hon Hf. unfold on_board in Hon. rewrite EN2 in Hon. rewrite Efl in Hf.
    split; [|by apply Hbit]. unfold popcount. rewrite EN2. by apply Hnum.
Qed.

Lemma pass_inv_stats G S before :
  pass_inv G S -> pass_inv (compute_candidate_stats G before) S.
Proof.
  intros (HR & He & Hm).
  assert (forall a b, sq (compute_candidate_stats G before) a b = sq G a b) as Esq
    by (intros a b; unfold compute_candidate_stats; by destruct before).
  assert (N2 (compute_candidate_stats G before) = N2 G) as EN2
    by (unfold compute_candidate_stats; by destruct before).
  split; [|split].
  - eapply ready_values; [apply compute_candidate_stats_keeps_values|done].
  - eapply extends_values; [apply compute_candidate_stats_keeps_values|done].
  - intros i j Hon Hf. unfold on_board, popcount in *. rewrite EN2 in *. rewrite Esq in *.
    by apply Hm.
Qed.

Lemma base_exact_stats G before :
  base_exact G -> base_exact (compute_candidate_stats G before).
Proof.
  apply base_exact_same_board; unfold compute_candidate_stats; by destruct before.
Qed.

Lemma units_included G :
  (forall u, u ∈ all_rows G -> u ∈ all_units G)
  /\ (forall u, u ∈ all_columns G -> u ∈ all_units G)
  /\ (forall u, u ∈ all_subsquares G -> u ∈ all_units G).
Proof. unfold all_units. repeat split; intros u Hu; rewrite !elem_of_app; tauto. Qed.

Lemma preprocess_loop_sound fuel G first S G' nc :
  ready G -> is_solution G S -> extends G S ->
  preprocess_loop fuel G first = Ok (G', nc) -> nc = false /\ extends G' S.
Proof.
  revert G first. induction fuel as [|fuel IH]; intros G first HR HS He; simpl; [discriminate|].
  destruct (find_candidates_pass G S HR HS He) as (Hok & HP & HE).
  pose proof (find_candidates_keeps_values G) as HK0.
  destruct (find_candidates G) as [G0 ok]. simpl in Hok, HP, HE, HK0. subst ok. simpl.
  set (G1 := if first then compute_candidate_stats G0 true else G0).
  assert (pass_inv G1 S) as HP1 by (subst G1; destruct first; [by apply pass_inv_stats|done]).
  assert (base_exact G1) as HE1 by (subst G1; destruct first; [by apply base_exact_stats|done]).
  assert (is_solution G1 S) as HS1.
  { subst G1. destruct HK0 as [[[(EN & EN2 & _) _] _] _].
    destruct first; (eapply is_solution_frame; [| |exact HS]); done. }
  clearbody G1. clear HP HE HK0 G0 HR He HS.
  pose proof HP1 as (HR1 & He1 & _).
  assert (forall G2, keeps_frozen G1 G2 -> is_solution G2 S) as Hframe.
  { intros G2 [(EN & EN2 & _) _]. by eapply is_solution_frame. }
  pose proof (check_for_only_one_candidate_sound G1 S HS1 HP1) as Hs2.
  pose proof (check_for_only_one_candidate_ready G1 HR1) as Hr2.
  pose proof (check_for_only_one_candidate_keeps_frozen G1) as Hk2.
  pose proof (check_for_only_one_candidate_false G1) as Hf2.
  destruct (check_for_only_one_candidate G1) as [G2 c2]. simpl in *.
  destruct c2; [intros H; apply (IH G2 false); auto|].
  rewrite (Hf2 eq_refl). clear Hs2 Hr2 Hk2 Hf2 G2.
  destruct (units_included G1) as (Hrows & Hcols & Hsubs).
  unfold try_row_optimization, try_column_optimization, try_subsquare_optimization.
  pose proof (try_units_sound G1 S RowOpt (all_rows G1) HR1 HE1 HS1 He1 Hrows) as Hs3.
  pose proof (try_units_ready G1 RowOpt (all_rows G1) HR1) as Hr3.
  pose proof (try_units_keeps_frozen G1 RowOpt (all_rows G1)) as Hk3.
  pose proof (try_units_false G1 RowOpt (all_rows G1)) as Hf3.
  destruct (try_units G1 RowOpt (all_rows G1)) as [G3 c3]. simpl in *.
  destruct c3; [intros H; apply (IH G3 false); auto|].
  rewrite (Hf3 eq_refl). clear Hs3 Hr3 Hk3 Hf3 G3.
  pose proof (try_units_sound G1 S ColumnOpt (all_columns G1) HR1 HE1 HS1 He1 Hcols) as Hs4.
  pose proof (try_units_ready G1 ColumnOpt (all_columns G1) HR1) as Hr4.
  pose proof (try_units_keeps_frozen G1 ColumnOpt (all_columns G1)) as Hk4.
  pose proof (try_units_false G1 ColumnOpt (all_columns G1)) as Hf4.
  destruct (try_units G1 ColumnOpt (all_columns G1)) as [G4 c4]. simpl in *.
  destruct c4; [intros H; apply (IH G4 false); auto|].
  rewrite (Hf4 eq_refl). clear Hs4 Hr4 Hk4 Hf4 G4.
  pose proof (try_units_sound G1 S SubsquareOpt (all_subsquares G1) HR1 HE1 HS1 He1 Hsubs)
    as Hs5.
  pose proof (try_units_ready G1 SubsquareOpt (all_subsquares G1) HR1) as Hr5.
  pose proof (try_units_keeps_frozen G1 SubsquareOpt (all_subsquares G1)) as Hk5.
  pose proof (try_units_false G1 SubsquareOpt (all_subsquares G1)) as Hf5.
  destruct (try_units G1 SubsquareOpt (all_subsquares G1)) as [G5 c5]. simpl in *.
  destruct c5; [intros H; apply (IH G5 false); auto|].
  intros [= <- <-]. rewrite (Hf5 eq_refl). done.
Qed.

Lemma preprocess_board_sound fp G S G1 ok :
  ready G -> is_solution G S -> extends G S ->
  preprocess_board fp G = Ok (G1, ok) -> ok = true /\ extends G1 S.
Proof.
  intros HR HS He H. unfold preprocess_board in H.
  apply obind_Ok in H as ([G' nc] & Hloop & H). injection H as <- <-.
  destruct (preprocess_loop_sound fp G true S G' nc HR HS He Hloop) as [-> He'].
  split; [done|].
  eapply extends_values; [apply compute_candidate_stats_keeps_values|done].
Qed.

Lemma agrees_b_spec G G' : agrees_b G G' = true -> extends G (values G').
Proof.
  unfold agrees_b. rewrite forallb_forall. intros H a b Hon Hf.
  specialize (H (a, b) ltac:(by apply list_elem_of_In, elem_of_all_squares)).
  simpl in H. rewrite Hf in H. simpl in H. unfold values. lia.
Qed.

Lemma frozen_valued_b_spec G : frozen_valued_b G = true -> frozen_valued G.
Proof.
  unfold frozen_valued_b. rewrite forallb_forall. intros H a b Hon Hf.
  specialize (H (a, b) ltac:(by apply list_elem_of_In, elem_of_all_squares)).
  simpl in H. rewrite Hf in H. simpl in H. lia.
Qed.

(** X7.  Preprocessing is sound.  Let the board have the neighbor arrays
    of [init_board], at most 64 values and no value on an unfrozen square,
    and let [S] be a solution that keeps its frozen squares.  Then
    [preprocess_board], when it returns, reports solvable, and every square
    that is frozen afterwards holds the value that [S] gives it: each of
    the four rules freezes forced values only, also when the
    single-candidate rule freezes several squares in one pass. *)
Theorem preprocessing_sound (fp : nat) (G G1 : Game) (S : Z -> Z -> Z) (ok : bool) :
  ready G -> is_solution G S -> extends G S ->
  preprocess_board fp G = Ok (G1, ok) ->
  ok = true
  /\ forall a b, on_board G1 a b -> frozen (sq G1 a b) = true -> cur_value (sq G1 a b) = S a b.
Proof. apply preprocess_board_sound. Qed.

(** * Puzzles that have a solution *)

Lemma extends_frozen_valued G S : is_solution G S -> extends G S -> frozen_valued G.
Proof. intros [Hr _] He a b Hon Hf. rewrite (He a b Hon Hf). by apply Hr. Qed.

Lemma extends_conflict_free G S :
  is_solution G S -> extends G S -> unfrozen_empty G -> conflict_free G.
Proof.
  intros [Hr Hd] He HU a b a' b' Hon Hon' Hsees Hv. unfold values in *.
  destruct (frozen (sq G a b)) eqn:Hf; [|by apply HU].
  destruct (frozen (sq G a' b')) eqn:Hf'.
  - rewrite (He a b Hon Hf), (He a' b' Hon' Hf') in Hv. by destruct (Hd a b a' b').
  - rewrite Hv. by apply HU.
Qed.

Lemma loaded_no_conflict G S :
  loaded_ok G -> is_solution G S -> extends G S -> ~ clue_conflict G.
Proof.
  intros (_ & _ & HL) [Hr Hd] He (a & b & a' & b' & Hon & Hon' & Hsees & Hv & Hk).
  assert (forall x y, on_board G x y -> cur_value (sq G x y) <> 0 ->
            cur_value (sq G x y) = S x y) as Hfz.
  { intros x y Hxy Hne. apply He; [done|].
    destruct (HL x y) as [_ [H0|Hf]]; [destruct Hxy; lia..|done|done]. }
  apply (Hd a b a' b' Hon Hon' Hsees).
  rewrite <- (Hfz a b Hon), <- (Hfz a' b' Hon'); [done|lia|lia].
Qed.

Lemma is_solution_save_board G S : is_solution G S -> is_solution (save_board G) S.
Proof. intros H. exact H. Qed.

Lemma extends_save_board G S : extends G S -> extends (save_board G) S.
Proof. intros H. exact H. Qed.

Lemma loaded_run file : loads file = true ->
  load_file (init_board zero_game 3) file true = Ok (loaded file).
Proof. unfold loads, loaded. by destruct (load_file _ file true). Qed.

Lemma main_run fp fs file rep :
  report_of (main fp fs file) = Some rep ->
  main fp fs file = Ok (rep, game_of (main fp fs file)).
Proof. destruct (main fp fs file) as [[r g]| | | |]; simpl; try discriminate. by intros [= ->]. Qed.

Lemma solvable_run fp fs G S rep G' :
  loaded_ok G -> is_solution G S -> extends G S ->
  solve fp fs G = Ok (rep, G') ->
  rep = Solved /\ solved G'
  /\ forall a b, on_board G a b -> frozen (sq G a b) = true ->
       cur_value (sq G' a b) = cur_value (sq G a b).
Proof.
  intros HL HS He H. unfold solve in H.
  destruct (loaded_ok_sizes G HL) as [Hw _].
  assert (verify_solution (save_board G) false = Ok true) as Hv.
  { rewrite verify_solution_save_board. apply verify_partial_iff; [done|]. split.
    - intros a b Hon. destruct HL as (_ & _ & HL).
      apply HL; destruct Hon; lia.
    - by eapply loaded_no_conflict. }
  rewrite Hv in H. simpl in H.
  apply obind_Ok in H as ([G1 ok] & Hp & H).
  pose proof (loaded_ok_ready G HL) as HR.
  pose proof (is_solution_save_board G S HS) as HS0.
  pose proof (extends_save_board G S He) as He0.
  destruct (preprocess_board_sound fp (save_board G) S G1 ok HR HS0 He0 Hp) as [-> He1].
  simpl in H. apply obind_Ok in H as (G2 & Hs & H).
  destruct (preprocess_board_end fp (save_board G) G1 HR Hp) as [HR1 HE1].
  assert (is_solution G1 S) as HS1.
  { apply preprocess_board_keeps_frozen in Hp as [(EN & EN2 & _) _].
    by eapply is_solution_frame. }
  assert (solved G2) as Hsol.
  { apply (search_sound fs G1); try done.
    - by eapply extends_frozen_valued.
    - eapply extends_conflict_free; [done|done|apply HR1]. }
  destruct (clues_kept fp fs G G1 G2 (loaded_ok_clues_frozen G HL) Hp Hs) as [Hkept Hown].
  rewrite Hown in H. simpl in H.
  assert (verify_solution G2 true = Ok true) as Hfull.
  { apply verify_full_iff; [|done].
    apply search_run_keeps_flags in Hs. simpl in Hs.
    destruct Hs as [[(EN & EN2 & _) _] _]. destruct HR1 as ((Hw1 & _) & _).
    unfold well_sized. by rewrite EN, EN2. }
  rewrite Hfull in H. simpl in H. injection H as <- <-.
  split; [done|]. split; [done|]. intros a b _ Hf. by rewrite (proj2 (Hkept a b Hf)).
Qed.

(** X8.  A puzzle that has a solution is solved.  If the file loads and
    some solution keeps its clues, then every run of [main] that returns
    reports none of INVALID SETUP, NO SOLUTIONS EXISTS, NOT A SOLUTION TO
    THE ORIGINAL PROBLEM and INVALID SOLUTION: the board it prints is a
    solved Sudoku with every clue in its place.  (The board need not be
    the solution [S] when the puzzle has several.) *)
Theorem solvable_puzzle_solved (fp fs : nat) (file : list string) (G G' : Game)
    (S : Z -> Z -> Z) (rep : report) :
  load_file (init_board zero_game 3) file true = Ok G ->
  is_solution G S -> extends G S ->
  main fp fs file = Ok (rep, G') ->
  rep = Solved /\ solved G'
  /\ forall a b, on_board G a b -> frozen (sq G a b) = true ->
       cur_value (sq G' a b) = cur_value (sq G a b).
Proof.
  intros Hload HS He H. destruct (main_loaded fp fs file G Hload) as [E HL].
  rewrite E in H. by eapply solvable_run.
Qed.

Lemma usage_solution :
  is_solution (loaded usage_file)
    (values (searched 2000 (preprocessed 40 (loaded usage_file))))
  /\ extends (loaded usage_file)
       (values (searched 2000 (preprocessed 40 (loaded usage_file)))).
Proof.
  split; [|apply agrees_b_spec; vm_compute; reflexivity].
  apply (is_solution_frame (searched 2000 (preprocessed 40 (loaded usage_file))));
    [vm_compute; reflexivity..|].
  apply verify_full_iff; [|vm_compute; reflexivity].
  vm_compute. split; [discriminate|reflexivity].
Qed.

Lemma solvable_puzzle_solved_witness :
  Solved = Solved /\ solved (game_of (main 40 2000 usage_file))
  /\ forall a b, on_board (loaded usage_file) a b ->
       frozen (sq (loaded usage_file) a b) = true ->
       cur_value (sq (game_of (main 40 2000 usage_file)) a b)
       = cur_value (sq (loaded usage_file) a b).
Proof.
  apply (solvable_puzzle_solved 40 2000 usage_file (loaded usage_file)
           (game_of (main 40 2000 usage_file))
           (values (searched 2000 (preprocessed 40 (loaded usage_file)))) Solved).
  - apply loaded_run. vm_compute. reflexivity.
  - apply usage_solution.
  - apply usage_solution.
  - apply main_run. vm_compute. reflexivity.
Defined.

Lemma preprocessing_sound_witness :
  true = true
  /\ forall a b, on_board (preprocessed 40 (loaded usage_file)) a b ->
       frozen (sq (preprocessed 40 (loaded usage_file)) a b) = true ->
       cur_value (sq (preprocessed 40 (loaded usage_file)) a b)
       = values (searched 2000 (preprocessed 40 (loaded usage_file))) a b.
Proof.
  apply (preprocessing_sound 40 (save_board (loaded usage_file))
           (preprocessed 40 (loaded usage_file))
           (values (searched 2000 (preprocessed 40 (loaded usage_file)))) true).
  - split; [apply neighbors_built_b_spec; vm_compute; reflexivity|].
    split; [vm_compute; discriminate|].
    apply clues_frozen_unfrozen_empty. vm_compute. reflexivity.
  - apply is_solution_save_board, usage_solution.
  - apply extends_save_board, usage_solution.
  - apply reports_solvable_run. vm_compute. reflexivity.
Defined.

Lemma search_result_verified_witness :
  solved (searched 2000 (preprocessed 40 (loaded usage_file)))
  /\ verify_solution (searched 2000 (preprocessed 40 (loaded usage_file))) true = Ok true.
Proof.
  apply (search_result_verified 40 2000 (save_board (loaded usage_file))
           (preprocessed 40 (loaded usage_file))).
  - split; [apply neighbors_built_b_spec; vm_compute; reflexivity|].
    split; [vm_compute; discriminate|].
    apply clues_frozen_unfrozen_empty. vm_compute. reflexivity.
  - apply reports_solvable_run. vm_compute. reflexivity.
  - apply frozen_valued_b_spec. vm_compute. reflexivity.
  - vm_compute. reflexivity.
  - apply search_returns_run. vm_compute. reflexivity.
Defined.

(** * The search stays inside its arrays *)

Lemma descending_NoDup l : descending l -> NoDup l.
Proof.
  induction l as [|c l IH]; [constructor|]. intros [Hc Hl].
  apply NoDup_cons. split; [|by apply IH].
  intros Hin. specialize (Hc c Hin). by apply before_irrefl in Hc.
Qed.

Lemma all_squares_length G : 0 <= N2 G -> Z.of_nat (length (all_squares G)) = N2 G * N2 G.
Proof.
  intros HN. unfold all_squares.
  rewrite (length_flat_map_const _ _ (Z.to_nat (N2 G))).
  - rewrite length_seqZ. lia.
  - intros x _. by rewrite length_fmap, length_seqZ.
Qed.

Lemma neighbor_length G i j :
  neighbors_built G -> on_board G i j ->
  Z.of_nat (length (neighbor (sq G i j))) = num_neighbors G.
Proof.
  intros (Hw & Hnn & Hnb) Hon. rewrite (Hnb i j Hon), Hnn. by apply init_neighbors_length.
Qed.

(** The depth of a candidate stack is bounded by the number of neighbors,
    and stays one below it while some neighbor is not on the move stack. *)
Lemma depth_bound q stk :
  NoDup stk -> 0 <= depth q stk <= Z.of_nat (length (neighbor q)).
Proof.
  intros Hnd. unfold depth. split; [lia|].
  apply inj_le, submseteq_length, NoDup_submseteq; [by apply NoDup_filter|].
  intros x Hx. by apply list_elem_of_filter in Hx as [Hx _].
Qed.

Lemma depth_bound_strict q stk p :
  NoDup stk -> p ∈ neighbor q -> p ∉ stk ->
  depth q stk + 1 <= Z.of_nat (length (neighbor q)).
Proof.
  intros Hnd Hp Hnot. unfold depth.
  assert (length (p :: filter (fun c => c ∈ neighbor q) stk) <= length (neighbor q))%nat as H.
  { apply submseteq_length, NoDup_submseteq.
    - apply NoDup_cons. split; [|by apply NoDup_filter].
      intros Hin. by apply list_elem_of_filter in Hin as [_ Hin].
    - intros x Hx. apply elem_of_cons in Hx as [->|Hx]; [done|].
      by apply list_elem_of_filter in Hx as [Hx _]. }
  simpl in H. lia.
Qed.

Lemma depth_positive q stk p : p ∈ neighbor q -> p ∈ stk -> 1 <= depth q stk.
Proof.
  intros Hp Hin. unfold depth.
  assert (p ∈ filter (fun c => c ∈ neighbor q) stk) as H by (by apply list_elem_of_filter).
  destruct (filter _ stk); [by apply elem_of_nil in H|]. simpl. lia.
Qed.

(** The loop of [update_neighbors] runs to its end when every unfrozen
    neighbor can move. *)
Lemma update_fold_ok piece make_avail (l : list (Z * Z)) G :
  NoDup l ->
  (forall c, c ∈ l -> frozen (sq G c.1 c.2) = false -> can_move make_avail (sq G c.1 c.2)) ->
  exists G', ofold (fun G c => update_neighbor G piece make_avail c) G l = Ok G'.
Proof.
  intros Hnd. revert G. induction Hnd as [|c l Hc Hl IH]; intros G Hcan; simpl; [by eexists|].
  assert (exists G1, update_neighbor G piece make_avail c = Ok G1
                     /\ forall c', c' <> c -> sq G1 c'.1 c'.2 = sq G c'.1 c'.2) as (G1 & -> & Hsame).
  { unfold update_neighbor. destruct (frozen (sq G c.1 c.2)) eqn:Hf; [by exists G|].
    specialize (Hcan c ltac:(left) Hf). unfold can_move in Hcan.
    destruct make_avail; simpl.
    - replace (0 <=? topmask (sq G c.1 c.2) - 1) with true by lia.
      eexists. split; [done|]. intros [a b] Hne. destruct c as [c1 c2]. simpl.
      apply sq_set_sq_ne. congruence.
    - replace (0 <=? topmask (sq G c.1 c.2)) with true by lia.
      replace (MAX_NUM_NEIGHBORS <=? topmask (sq G c.1 c.2) + 1) with false by lia. simpl.
      eexists. split; [done|]. intros [a b] Hne. destruct c as [c1 c2]. simpl.
      apply sq_set_sq_ne. congruence. }
  simpl. apply IH. intros c' Hc' Hf. rewrite Hsame in * by (intros ->; done).
  apply Hcan; [by right|done].
Qed.

Lemma update_neighbors_ok G row col piece make_avail :
  neighbors_built G -> on_board G row col -> frozen (sq G row col) = false ->
  (forall c, c ∈ neighbor (sq G row col) -> frozen (sq G c.1 c.2) = false ->
     can_move make_avail (sq G c.1 c.2)) ->
  exists G', update_neighbors G row col piece make_avail = Ok G'.
Proof.
  intros HB Hon Hf Hcan. unfold update_neighbors. rewrite Hf.
  destruct (neighbors_built_spec G row col HB Hon) as (-> & Hnd & _).
  by apply update_fold_ok.
Qed.

Lemma stack_room s :
  stack_inv s -> 0 <= N2 (sG s) -> (si s, sj s) ∉ stack s -> on_board (sG s) (si s) (sj s) ->
  Z.of_nat (length (stack s)) < N2 (sG s) * N2 (sG s).
Proof.
  intros (_ & Hd & Hstk & _) HN Hnot Hon.
  rewrite <- all_squares_length by done.
  assert (length ((si s, sj s) :: stack s) <= length (all_squares (sG s)))%nat as H.
  { apply submseteq_length, NoDup_submseteq.
    - apply NoDup_cons. split; [done|]. by apply descending_NoDup.
    - intros [a b] Hx. apply elem_of_all_squares.
      apply elem_of_cons in Hx as [[= -> ->]|Hx]; [done|]. by apply Hstk. }
  simpl in H. lia.
Qed.

(** One step of the search from a state that satisfies the invariant: it
    is carried out, or it is the exhaustion of the search. *)
Lemma search_step_safe s :
  search_inv s -> roomy (sG s) ->
  (exists r, search_step s = Ok r)
  \/ (search_step s = AssertFail /\ dead_end s /\ stack s = []).
Proof.
  intros (Hst & HB & HN & Hempty & Hfr) [Hsq Hnn].
  pose proof Hst as ((Hi & Hj & Hp) & Hd & Hstk & Hall).
  pose proof (descending_NoDup _ Hd) as Hnd.
  unfold search_step.
  destruct (N2 (sG s) <? si s) eqn:Ei; [left; by eexists|].
  destruct (N2 (sG s) <? sj s) eqn:Ej; [left; by eexists|].
  destruct (frozen (sq (sG s) (si s) (sj s))) eqn:Hf; [left; by eexists|].
  assert (on_board (sG s) (si s) (sj s)) as Hon by (unfold on_board; lia).
  assert ((si s, sj s) ∉ stack s) as Hnotin.
  { intros Hin. destruct (Hstk _ _ Hin) as (_ & Hbef & _). by apply before_irrefl in Hbef. }
  destruct (Hfr _ _ Hon Hf) as [Htop _].
  pose proof (depth_bound (sq (sG s) (si s) (sj s)) (stack s) Hnd) as Hdep.
  rewrite (neighbor_length _ _ _ HB Hon) in Hdep.
  assert (forall c, c ∈ neighbor (sq (sG s) (si s) (sj s)) -> on_board (sG s) c.1 c.2
            /\ (si s, sj s) ∈ neighbor (sq (sG s) c.1 c.2)) as Hnbr.
  { intros [a b] Hc. pose proof (neighbor_on_board _ _ _ _ HB Hon Hc) as Hon'.
    split; [done|]. simpl in *. by apply (neighbor_sym (sG s) (si s) (sj s) a b HB Hon Hon'). }
  unfold find_piece.
  replace ((topmask (sq (sG s) (si s) (sj s)) <? 0)
           || (MAX_NUM_NEIGHBORS <=? topmask (sq (sG s) (si s) (sj s)))) with false by lia.
  set (found := if N2 (sG s) <? piece_to_place s + 1 then None
                else List.find (fun k => has_bit (cand (sq (sG s) (si s) (sj s))
                                                       (topmask (sq (sG s) (si s) (sj s)))) k)
                       (seqZ (piece_to_place s + 1) (N2 (sG s) - piece_to_place s))).
  assert ((if N2 (sG s) <? piece_to_place s + 1 then Ok None
           else Ok (List.find (fun k => has_bit (cand (sq (sG s) (si s) (sj s))
                                                      (topmask (sq (sG s) (si s) (sj s)))) k)
                      (seqZ (piece_to_place s + 1) (N2 (sG s) - piece_to_place s))))
          = (Ok found : outcome (option Z))) as ->
    by (subst found; by destruct (N2 (sG s) <? piece_to_place s + 1)).
  assert (found = None ->
          forall k, piece_to_place s < k <= N2 (sG s) ->
            has_bit (cand (sq (sG s) (si s) (sj s)) (topmask (sq (sG s) (si s) (sj s)))) k
            = false) as Hnone.
  { subst found. destruct (N2 (sG s) <? piece_to_place s + 1) eqn:Ep; [intros _ k Hk; lia|].
    intros E k Hk.
    pose proof (find_has_bit_spec (cand (sq (sG s) (si s) (sj s))
                                        (topmask (sq (sG s) (si s) (sj s))))
                  (seqZ (piece_to_place s + 1) (N2 (sG s) - piece_to_place s))) as Hfind.
    rewrite E in Hfind. apply Hfind, elem_of_seqZ'. lia. }
  clearbody found. simpl. destruct found as [k|].
  - (* placement *)
    set (G1 := set_sq (sG s) (si s) (sj s) (with_cur_value (sq (sG s) (si s) (sj s)) k)).
    assert (forall a b, frozen (sq G1 a b) = frozen (sq (sG s) a b)
                        /\ topmask (sq G1 a b) = topmask (sq (sG s) a b)
                        /\ neighbor (sq G1 a b) = neighbor (sq (sG s) a b)) as HG1.
    { intros a b. subst G1. rewrite sq_set_sq. by case_decide as E; [injection E as <- <-|]. }
    assert (neighbors_built G1) as HB1.
    { eapply neighbors_built_kept; [|exact HB]. apply keeps_flags_frozen.
      by apply set_sq_keeps_flags. }
    assert (exists G2, update_neighbors G1 (si s) (sj s) k false = Ok G2) as (G2 & HG2).
    { apply update_neighbors_ok; [done|done|by rewrite (proj1 (HG1 _ _))|].
      intros [a b] Hc Hfc. simpl in *.
      rewrite (proj2 (proj2 (HG1 _ _))) in Hc. destruct (Hnbr _ Hc) as [Hon' Hsym].
      simpl in *. rewrite (proj1 (HG1 a b)) in Hfc. rewrite (proj1 (proj2 (HG1 a b))).
      destruct (Hfr a b Hon' Hfc) as [Htop' _]. rewrite Htop'.
      pose proof (depth_bound (sq (sG s) a b) (stack s) Hnd) as [H0 _].
      pose proof (depth_bound_strict (sq (sG s) a b) (stack s) _ Hnd Hsym Hnotin) as H1.
      rewrite (neighbor_length _ _ _ HB Hon') in H1. split; lia. }
    rewrite HG2. simpl. left.
    assert (num_squares G2 = num_squares (sG s)) as ->.
    { apply update_neighbors_keeps_values in HG2 as [[[(_ & _ & E & _) _] _] _].
      rewrite E. subst G1. apply set_sq_params. }
    pose proof (stack_room s Hst ltac:(lia) Hnotin Hon) as Hroom.
    replace (Z.of_nat (length (stack s)) <? num_squares (sG s)) with true by lia.
    simpl. by eexists.
  - (* no piece is left *)
    specialize (Hnone eq_refl).
    destruct (stack s) as [|[i' j'] rest] eqn:Estack.
    + right. split; [done|]. split; [|done].
      split; [done|]. split; [done|]. split; [lia|done].
    + destruct (Hstk i' j') as (Hon' & _ & Hf' & _); [left|].
      assert (exists G2, update_neighbors (bump (sG s) Unstacking) i' j'
                  (cur_value (sq (bump (sG s) Unstacking) i' j')) true = Ok G2) as (G2 & HG2).
      { apply update_neighbors_ok; [|done|done|].
        - eapply neighbors_built_kept; [|exact HB].
          apply keeps_values_frozen, bump_keeps_values.
        - intros [a b] Hc Hfc.
          change (sq (bump (sG s) Unstacking) i' j') with (sq (sG s) i' j') in Hc.
          change (sq (bump (sG s) Unstacking) (a, b).1 (a, b).2) with (sq (sG s) a b) in *.
          pose proof (neighbor_on_board _ _ _ _ HB Hon' Hc) as Hon''. simpl in Hon''.
          destruct (Hfr a b Hon'' Hfc) as [Htop' _]. unfold can_move. rewrite Htop'.
          apply (depth_positive _ _ (i', j')); [|rewrite Estack; left].
          by apply (neighbor_sym (sG s) i' j' a b HB Hon' Hon''). }
      rewrite HG2. simpl. left. by eexists.
Qed.

(** * The search does not miss a solution *)

Lemma roomy_frame G G' : same_frame G G' -> roomy G -> roomy G'.
Proof. intros (_ & EN2 & Esq & Enn & _) [H1 H2]. unfold roomy. by rewrite EN2, Esq, Enn. Qed.

Lemma search_run_safe fuel s :
  search_inv s -> roomy (sG s) ->
  (exists G, search_run fuel s = Ok G) \/ search_run fuel s = NoFuel
  \/ (search_run fuel s = AssertFail
      /\ exists n s', search_steps n s = Ok (inl s') /\ dead_end s' /\ stack s' = []).
Proof.
  revert s. induction fuel as [|fuel IH]; intros s Hinv Hroom; simpl; [by right; left|].
  destruct (search_step_safe s Hinv Hroom) as [([s1|G1] & Hstep)|(Hstep & Hd & Hs)].
  - rewrite Hstep. simpl.
    destruct (IH s1) as [H|[H|(H & n & s' & Hn & Hd & Hs)]].
    + by eapply search_inv_step.
    + eapply roomy_frame; [|exact Hroom]. by apply search_step_keeps_flags in Hstep as [[? _] _].
    + by left.
    + right. by left.
    + right. right. split; [done|]. exists (S n), s'. simpl. rewrite Hstep. simpl. done.
  - rewrite Hstep. simpl. left. by eexists.
  - rewrite Hstep. simpl. right. right. split; [done|]. exists O, s. done.
Qed.

(** X9.  The search stays inside its arrays.  Take the board that
    preprocessing hands to the search, on a game whose [num_squares] is the
    number of squares of the board and whose squares have fewer than
    [MAX_NUM_NEIGHBORS] neighbors (subsquare sizes up to 5).  Then no
    candidate stack is indexed outside its array and none of the
    assertions of [update_neighbors] and of the move stack fails: the
    search returns, or is still running when the fuel ends, or fails the
    one assertion that stands for the exhausted search, at a dead end with
    an empty move stack. *)
Theorem search_stays_in_bounds (fp fs : nat) (G G1 : Game) :
  ready G -> roomy G -> preprocess_board fp G = Ok (G1, true) ->
  (exists G2, find_solution fs G1 = Ok G2) \/ find_solution fs G1 = NoFuel
  \/ (find_solution fs G1 = AssertFail
      /\ exists n s, search_steps n (search_start G1) = Ok (inl s)
                     /\ dead_end s /\ stack s = []).
Proof.
  intros HR Hroom Hp. destruct (preprocess_board_end fp G G1 HR Hp) as [HR1 HE1].
  apply (search_run_safe fs (search_start G1)); [by apply search_inv_start|].
  eapply roomy_frame; [|exact Hroom]. by apply preprocess_board_keeps_frozen in Hp as [? _].
Qed.

Lemma search_stays_in_bounds_witness :
  (exists G2, find_solution 2000 (preprocessed 40 (loaded usage_file)) = Ok G2)
  \/ find_solution 2000 (preprocessed 40 (loaded usage_file)) = NoFuel
  \/ (find_solution 2000 (preprocessed 40 (loaded usage_file)) = AssertFail
      /\ exists n s, search_steps n (search_start (preprocessed 40 (loaded usage_file)))
                     = Ok (inl s) /\ dead_end s /\ stack s = []).
Proof.
  apply (search_stays_in_bounds 40 2000 (save_board (loaded usage_file))).
  - split; [apply neighbors_built_b_spec; vm_compute; reflexivity|].
    split; [vm_compute; discriminate|].
    apply clues_frozen_unfrozen_empty. vm_compute. reflexivity.
  - split; vm_compute; reflexivity.
  - apply reports_solvable_run. vm_compute. reflexivity.
Defined.

(** The value of the solution is a candidate of the square under the
    cursor while everything placed so far agrees with the solution. *)
Lemma solution_is_candidate s S :
  search_inv s -> is_solution (sG s) S -> extends (sG s) S ->
  (forall a b, (a, b) ∈ stack s -> values (sG s) a b = S a b) ->
  on_board (sG s) (si s) (sj s) -> frozen (sq (sG s) (si s) (sj s)) = false ->
  has_bit (top_mask (sq (sG s) (si s) (sj s))) (S (si s) (sj s)) = true.
Proof.
  intros Hinv [Hr Hd] He Hag Hon Hf. pose proof Hinv as (Hst & HB & HN & Hempty & Hfr).
  apply (search_inv_exact s Hinv (si s) (sj s) Hon Hf); [by apply Hr|].
  intros [a b] Hc Hv. simpl in Hv.
  apply (neighbors_built_spec (sG s) (si s) (sj s) HB Hon) in Hc as [Hon' Hsees].
  destruct (frozen (sq (sG s) a b)) eqn:Hf'.
  - rewrite (He a b Hon' Hf') in Hv. by apply (Hd (si s) (sj s) a b).
  - destruct (decide ((a, b) ∈ stack s)) as [Hin|Hnin].
    + pose proof (Hag a b Hin) as E. unfold values in E. rewrite E in Hv.
      by apply (Hd (si s) (sj s) a b).
    + rewrite (Hempty a b Hon' Hf' Hnin) in Hv. specialize (Hr _ _ Hon). lia.
Qed.

Lemma not_past_start G S :
  ready G -> base_exact G -> is_solution G S -> extends G S -> not_past (search_start G) S.
Proof.
  intros HR HE HS He. split; [by apply search_inv_start|]. split; [done|]. split; [done|].
  left. split; [|split]; simpl.
  - intros a b Hin. by apply elem_of_nil in Hin.
  - intros Hon _. destruct HS as [Hr _]. specialize (Hr 1 1 Hon). lia.
  - done.
Qed.

Lemma not_past_step s s' S :
  not_past s S -> search_step s = Ok (inl s') -> not_past s' S.
Proof.
  intros (Hinv & HS & He & Hpos) Hstep.
  pose proof Hinv as (Hst & HB & HN & Hempty & Hfr).
  pose proof Hst as (_ & Hdesc & Hstk & _).
  pose proof (search_step_keeps_flags s s' Hstep) as Hflags.
  pose proof Hflags as [[(EN & EN2 & _) Hkeep] Hfl].
  assert (is_solution (sG s') S) as HS' by (by eapply is_solution_frame).
  assert (extends (sG s') S) as He'.
  { intros a b Hon Hf. rewrite Hfl in Hf. rewrite (proj2 (Hkeep a b) Hf).
    apply He; [|done]. unfold on_board in *. by rewrite <- EN2. }
  split; [by eapply search_inv_step|]. split; [done|]. split; [done|].
  pose proof HS as [Hrange _].
  destruct (search_step_shape s s' HB Hst Hstep)
    as [(EG & Estk & Ep & Hmove)|[Hplace|Hundo]].
  - (* the cursor moves *)
    destruct Hpos as [(H1 & H2 & H3)|(a & b & Hin & Hlt & Hbef)].
    + left. unfold on_track. rewrite EG, Estk, Ep.
      assert (piece_to_place s = 0) as E0.
      { apply H3. intros [[_ Hon] Hf]. destruct Hmove as [(? & _)|(_ & ? & _)]; [lia|congruence]. }
      split; [done|]. split; [|done].
      intros Hon _. rewrite E0. specialize (Hrange _ _ Hon). lia.
    + right. exists a, b. by rewrite EG, Estk.
  - (* a value is placed *)
    destruct Hplace as (Hon & Hf & k & Hk & Hbit & Hleast & Estk & Ei & Ej & Ep & Hval).
    assert ((si s, sj s) ∉ stack s) as Hnotin.
    { intros Hin. destruct (Hstk _ _ Hin) as (_ & Hb & _). by apply before_irrefl in Hb. }
    assert (forall a b, (a, b) ∈ stack s -> values (sG s') a b = values (sG s) a b) as Hold.
    { intros a b Hin. rewrite Hval, decide_False; [done|]. intros E. apply Hnotin. by rewrite E. }
    destruct Hpos as [(H1 & H2 & H3)|(a & b & Hin & Hlt & Hbef)].
    + pose proof (solution_is_candidate s S Hinv HS He H1 Hon Hf) as Hcand.
      specialize (H2 Hon Hf).
      assert (k <= S (si s) (sj s)) as Hle.
      { destruct (Z_le_gt_dec k (S (si s) (sj s))) as [|Hgt]; [done|].
        rewrite (Hleast (S (si s) (sj s))) in Hcand by lia. discriminate. }
      destruct (decide (k = S (si s) (sj s))) as [Ek|Hne].
      * left. split; [|split].
        -- intros a b Hin. rewrite Estk in Hin. apply elem_of_cons in Hin as [[= -> ->]|Hin].
           ++ by rewrite Hval, decide_True.
           ++ rewrite Hold by done. by apply H1.
        -- intros Hon' _. rewrite Ep. specialize (proj1 HS' _ _ Hon'). lia.
        -- by rewrite Ep.
      * right. exists (si s), (sj s). split; [rewrite Estk; left|]. split.
        -- rewrite Hval, decide_True by done. lia.
        -- intros c d Hin Hb. rewrite Estk in Hin.
           apply elem_of_cons in Hin as [[= -> ->]|Hin]; [by apply before_irrefl in Hb|].
           rewrite Hold by done. by apply H1.
    + right. exists a, b. split; [rewrite Estk; by right|]. split; [by rewrite Hold|].
      intros c d Hin' Hb. rewrite Estk in Hin'.
      apply elem_of_cons in Hin' as [[= -> ->]|Hin'].
      * exfalso. destruct (Hstk a b Hin) as (_ & Hb' & _).
        apply (before_irrefl a b). by eapply before_trans.
      * rewrite Hold by done. by apply Hbef.
  - (* a placement is undone *)
    destruct Hundo as (Hon & Hf & Hdead & i' & j' & rest & Estk & Estk' & Ei & Ej & Ep & Hval).
    rewrite Estk in Hdesc. pose proof (descending_head_fresh _ _ Hdesc) as Hfresh.
    assert (forall a b, (a, b) ∈ rest -> values (sG s') a b = values (sG s) a b) as Hold.
    { intros a b Hin. rewrite Hval, decide_False; [done|]. intros E. apply Hfresh. by rewrite E. }
    destruct Hpos as [(H1 & H2 & H3)|(a & b & Hin & Hlt & Hbef)].
    + exfalso. pose proof (solution_is_candidate s S Hinv HS He H1 Hon Hf) as Hcand.
      specialize (H2 Hon Hf). rewrite Hdead in Hcand; [discriminate|].
      specialize (Hrange _ _ Hon). lia.
    + rewrite Estk in Hin. apply elem_of_cons in Hin as [[= -> ->]|Hin].
      * left. split; [|split].
        -- intros c d Hin. rewrite Estk' in Hin. rewrite Hold by done.
           apply Hbef; [rewrite Estk; by right|]. by apply (proj1 Hdesc (c, d)).
        -- intros _ _. by rewrite Ep, Ei, Ej.
        -- intros Hno. exfalso. apply Hno. rewrite Ei, Ej.
           destruct (Hstk i' j') as (Hon' & _ & Hf' & _); [rewrite Estk; left|].
           split; [unfold on_board in *; by rewrite EN2|by rewrite Hfl].
      * right. exists a, b. split; [by rewrite Estk'|]. split; [by rewrite Hold|].
        intros c d Hin' Hb. rewrite Estk' in Hin'. rewrite Hold by done.
        apply Hbef; [rewrite Estk; by right|done].
Qed.

Lemma not_past_steps n s s' S :
  not_past s S -> search_steps n s = Ok (inl s') -> not_past s' S.
Proof.
  revert s. induction n as [|n IH]; intros s Hs; simpl.
  - by intros [= <-].
  - intros H. apply obind_Ok in H as ([s1|G1] & H1 & H2); [|discriminate].
    apply (IH s1); [by eapply not_past_step|done].
Qed.

Lemma not_past_no_exhaustion s S : not_past s S -> stack s = [] -> ~ dead_end s.
Proof.
  intros (Hinv & HS & He & Hpos) Hs (Hon & Hf & _ & Hdead).
  destruct Hpos as [(H1 & H2 & H3)|(a & b & Hin & _)];
    [|rewrite Hs in Hin; by apply elem_of_nil in Hin].
  pose proof (solution_is_candidate s S Hinv HS He H1 Hon Hf) as Hcand.
  specialize (H2 Hon Hf). unfold top_mask in Hcand. rewrite Hdead in Hcand; [discriminate|].
  destruct HS as [Hrange _]. specialize (Hrange _ _ Hon). lia.
Qed.

(** X10.  The search does not miss a solution.  Take the board that
    preprocessing hands to the search, and let some solution keep its
    frozen squares.  Then the search never comes to a dead end with an
    empty move stack, so the assertion that stands for the exhausted
    search does not fail; and on a board with room for its candidate
    stacks the search fails nowhere: it returns a solved Sudoku, or is
    still running when the fuel ends. *)
Theorem search_finds_solution (fp : nat) (G G1 : Game) (S : Z -> Z -> Z) :
  ready G -> preprocess_board fp G = Ok (G1, true) ->
  is_solution G1 S -> extends G1 S ->
  (forall n s, search_steps n (search_start G1) = Ok (inl s) -> stack s = [] -> ~ dead_end s)
  /\ (roomy G1 -> forall fs,
        find_solution fs G1 = NoFuel
        \/ exists G2, find_solution fs G1 = Ok G2 /\ solved G2).
Proof.
  intros HR Hp HS He. destruct (preprocess_board_end fp G G1 HR Hp) as [HR1 HE1].
  pose proof (not_past_start G1 S HR1 HE1 HS He) as Hstart.
  assert (forall n s, search_steps n (search_start G1) = Ok (inl s) ->
            stack s = [] -> ~ dead_end s) as Hno.
  { intros n s Hn. apply (not_past_no_exhaustion s S). by eapply not_past_steps. }
  split; [exact Hno|].
  intros Hroom fs.
  destruct (search_run_safe fs (search_start G1)) as [[G2 H]|[H|(_ & n & s & Hn & Hd & Hs)]];
    [by apply search_inv_start|done| | |].
  - right. exists G2. split; [done|]. apply (search_sound fs G1); try done.
    + by eapply extends_frozen_valued.
    + eapply extends_conflict_free; [done|done|apply HR1].
  - by left.
  - by destruct (Hno n s Hn Hs).
Qed.

Lemma search_finds_solution_witness :
  (forall n s, search_steps n (search_start (preprocessed 40 (loaded usage_file))) = Ok (inl s) ->
     stack s = [] -> ~ dead_end s)
  /\ (roomy (preprocessed 40 (loaded usage_file)) -> forall fs,
        find_solution fs (preprocessed 40 (loaded usage_file)) = NoFuel
        \/ exists G2, find_solution fs (preprocessed 40 (loaded usage_file)) = Ok G2
                      /\ solved G2).
Proof.
  apply (search_finds_solution 40 (save_board (loaded usage_file))
           (preprocessed 40 (loaded usage_file))
           (values (searched 2000 (preprocessed 40 (loaded usage_file))))).
  - split; [apply neighbors_built_b_spec; vm_compute; reflexivity|].
    split; [vm_compute; discriminate|].
    apply clues_frozen_unfrozen_empty. vm_compute. reflexivity.
  - apply reports_solvable_run. vm_compute. reflexivity.
  - apply (is_solution_frame (loaded usage_file)); [vm_compute; reflexivity..|].
    apply usage_solution.
  - apply agrees_b_spec. vm_compute. reflexivity.
Defined.

(** * Preprocessing counts what it freezes, and ends *)

Lemma counted_refl G : counted G G.
Proof. unfold counted. repeat split; lia. Qed.

Lemma counted_trans G1 G2 G3 : counted G1 G2 -> counted G2 G3 -> counted G1 G3.
Proof. unfold counted. intros (?&?&?&?&?&?) (?&?&?&?&?&?). repeat split; congruence || lia. Qed.

Lemma filter_length_flip {A} (P Q : A -> Prop)
    `{!forall x, Decision (P x)} `{!forall x, Decision (Q x)} (l : list A) (x : A) :
  NoDup l -> x ∈ l -> ~ P x -> Q x -> (forall y, y <> x -> (P y <-> Q y)) ->
  length (filter Q l) = S (length (filter P l)).
Proof.
  intros Hnd Hx HP HQ Hext. induction Hnd as [|y l Hy Hl IH]; [by apply elem_of_nil in Hx|].
  rewrite !filter_cons. apply elem_of_cons in Hx as [<-|Hx].
  - rewrite decide_True, decide_False by done. simpl. f_equal.
    apply filter_length_ext_in. intros z Hz. symmetry. apply Hext. intros ->. done.
  - specialize (IH Hx). assert (y <> x) as Hne by (intros ->; done).
    pose proof (Hext y Hne) as Hy'.
    destruct (decide (P y)), (decide (Q y)); simpl; try lia; tauto.
Qed.

Lemma frozen_count_bound G : 0 <= N2 G -> 0 <= frozen_count G <= N2 G * N2 G.
Proof.
  intros HN. unfold frozen_count. rewrite <- all_squares_length by done.
  split; [lia|]. apply inj_le, length_filter.
Qed.

Lemma frozen_count_same G G' :
  N2 G' = N2 G -> (forall a b, frozen (sq G' a b) = frozen (sq G a b)) ->
  frozen_count G' = frozen_count G.
Proof.
  intros EN2 Hfl. unfold frozen_count, all_squares. rewrite EN2. f_equal.
  apply filter_length_ext_in. intros [a b] _. simpl. by rewrite Hfl.
Qed.

Lemma counted_values G G' :
  keeps_values G G' -> stats G' = stats G -> counted G G'.
Proof.
  intros [[[(EN & EN2 & Esq & _) _] Hfl] _] Est.
  pose proof (frozen_count_same G G' EN2 Hfl) as Ec.
  unfold counted, num_optimizations. rewrite Est, Ec. repeat split; (done || lia).
Qed.

(** One freeze that is counted. *)
Lemma counted_freeze G row col piece c :
  on_board G row col -> frozen (sq G row col) = false -> c <> Unstacking ->
  counted G (bump (freeze_one G row col piece) c)
  /\ frozen_count G < frozen_count (bump (freeze_one G row col piece) c).
Proof.
  intros Hon Hf Hc.
  assert (frozen_count (bump (freeze_one G row col piece) c) = frozen_count G + 1) as Ec.
  { unfold frozen_count.
    change (all_squares (bump (freeze_one G row col piece) c)) with (all_squares G).
    rewrite (filter_length_flip (fun c => frozen (sq G c.1 c.2) = true)
               (fun d => frozen (sq (bump (freeze_one G row col piece) c) d.1 d.2) = true)
               (all_squares G) (row, col)).
    - lia.
    - apply NoDup_all_squares.
    - by apply elem_of_all_squares.
    - simpl. congruence.
    - simpl. change (sq (bump (freeze_one G row col piece) c) row col)
        with (sq (freeze_one G row col piece) row col).
      unfold freeze_one. by rewrite sq_set_sq_eq.
    - intros [a b] Hne. simpl.
      change (sq (bump (freeze_one G row col piece) c) a b)
        with (sq (freeze_one G row col piece) a b).
      unfold freeze_one. rewrite sq_set_sq_ne by congruence. done. }
  split; [|lia]. unfold counted. rewrite Ec.
  repeat split; try done; try lia.
  unfold num_optimizations, bump, freeze_one, set_sq, set_board, set_stats.
  destruct c; simpl; try lia. done.
Qed.

Lemma find_candidate_stats G row col : stats (find_candidate G row col).1 = stats G.
Proof.
  unfold find_candidate. destruct (frozen (sq G row col)); [done|].
  by destruct (foldl _ (0, 0) _).
Qed.

Lemma find_candidates_stats G : stats (find_candidates G).1 = stats G.
Proof.
  unfold find_candidates.
  apply (foldl_invariant (fun r : Game * bool => stats r.1 = stats G)); [done|].
  intros [G1 r] c _ H. simpl in *.
  pose proof (find_candidate_stats G1 c.1 c.2) as Hs.
  destruct (find_candidate G1 c.1 c.2). simpl in *. congruence.
Qed.

Lemma counted_find_candidates G : counted G (find_candidates G).1.
Proof. apply counted_values; [apply find_candidates_keeps_values|apply find_candidates_stats]. Qed.

Lemma counted_stats G before : counted G (compute_candidate_stats G before).
Proof.
  assert (frozen_count (compute_candidate_stats G before) = frozen_count G) as Ec
    by (apply frozen_count_same; unfold compute_candidate_stats; by destruct before).
  unfold counted, num_optimizations. rewrite Ec.
  unfold compute_candidate_stats. destruct before; simpl; repeat split; lia.
Qed.

Lemma check_for_only_one_candidate_counted G :
  counted G (check_for_only_one_candidate G).1
  /\ ((check_for_only_one_candidate G).2 = true ->
      frozen_count G < frozen_count (check_for_only_one_candidate G).1).
Proof.
  unfold check_for_only_one_candidate.
  apply (foldl_invariant (fun r : Game * bool =>
           counted G r.1 /\ (r.2 = true -> frozen_count G < frozen_count r.1))).
  - split; [apply counted_refl|discriminate].
  - intros [G1 r] [i j] Hin [Hc Hlt]. simpl in *.
    destruct (frozen (sq G1 i j)) eqn:Hf; simpl; [done|].
    destruct (num_candidates (sq G1 i j) =? 1); simpl; [|done].
    apply elem_of_all_squares in Hin.
    assert (on_board G1 i j) as Hon.
    { destruct Hc as (_ & EN2 & _). unfold on_board in *. by rewrite EN2. }
    destruct (counted_freeze G1 i j (get_first_candidate G1 (cand (sq G1 i j) 0))
                OnlyCandidate Hon Hf ltac:(done)) as [Hc1 Hlt1].
    split; [by eapply counted_trans|]. intros _.
    destruct Hc as (_ & _ & _ & _ & _ & Hle). lia.
Qed.

Lemma try_units_counted G c units :
  well_sized G -> c <> Unstacking -> (forall u, u ∈ units -> u ∈ all_units G) ->
  counted G (try_units G c units).1
  /\ ((try_units G c units).2 = true -> frozen_count G < frozen_count (try_units G c units).1).
Proof.
  intros Hw Hc Hunits. induction units as [|u rest IH]; simpl.
  - split; [apply counted_refl|discriminate].
  - destruct (scan_unit G u) as [seen index] eqn:Hscan.
    destruct (seen_once G seen) as [k|] eqn:Hk;
      [|apply IH; intros u' Hu'; apply Hunits; by right].
    apply scan_unit_index in Hscan as (H1 & H2 & H3).
    apply seen_once_Some in Hk as [Hk _].
    destruct (H2 k) as [[row col] Hix]; [lia|].
    rewrite Hix. simpl. destruct (H3 _ _ Hix) as [Hin Hf]. simpl in Hf.
    assert (on_board G row col) as Hon.
    { eapply all_units_on_board; [done| |exact Hin]. apply Hunits. left. }
    destruct (counted_freeze G row col k c Hon Hf Hc) as [Hc1 Hlt1]. by split.
Qed.

(** The loop of [preprocess_board] counts every freeze, and every pass
    but the last freezes a square. *)
Lemma preprocess_loop_counted fuel G first G' nc :
  well_sized G -> preprocess_loop fuel G first = Ok (G', nc) -> counted G G'.
Proof.
  revert G first. induction fuel as [|fuel IH]; intros G first Hw; simpl; [discriminate|].
  pose proof (counted_find_candidates G) as H0.
  destruct (find_candidates G) as [G0 ok]. simpl in H0.
  set (G1 := if first then compute_candidate_stats G0 true else G0).
  assert (counted G G1) as H1.
  { subst G1. destruct first; [|done]. eapply counted_trans; [exact H0|apply counted_stats]. }
  clearbody G1. clear H0 G0.
  assert (forall G2, counted G G2 -> well_sized G2) as Hsize.
  { intros G2 (EN & EN2 & _). unfold well_sized. by rewrite EN, EN2. }
  destruct (negb ok); [by intros [= <- <-]|].
  pose proof (check_for_only_one_candidate_counted G1) as [H2 _].
  destruct (check_for_only_one_candidate G1) as [G2 c2]. simpl in H2.
  assert (counted G G2) as H2' by (by eapply counted_trans).
  destruct c2; [intros H; eapply counted_trans; [exact H2'|eapply IH; [|exact H]; auto]|].
  destruct (units_included G2) as (Hrows & Hcols & Hsubs).
  unfold try_row_optimization, try_column_optimization, try_subsquare_optimization.
  pose proof (try_units_counted G2 RowOpt (all_rows G2) (Hsize _ H2') ltac:(done) Hrows)
    as [H3 _].
  destruct (try_units G2 RowOpt (all_rows G2)) as [G3 c3]. simpl in H3.
  assert (counted G G3) as H3' by (by eapply counted_trans).
  destruct c3; [intros H; eapply counted_trans; [exact H3'|eapply IH; [|exact H]; auto]|].
  destruct (units_included G3) as (Hrows3 & Hcols3 & Hsubs3).
  pose proof (try_units_counted G3 ColumnOpt (all_columns G3) (Hsize _ H3') ltac:(done) Hcols3)
    as [H4 _].
  destruct (try_units G3 ColumnOpt (all_columns G3)) as [G4 c4]. simpl in H4.
  assert (counted G G4) as H4' by (by eapply counted_trans).
  destruct c4; [intros H; eapply counted_trans; [exact H4'|eapply IH; [|exact H]; auto]|].
  destruct (units_included G4) as (Hrows4 & Hcols4 & Hsubs4).
  pose proof (try_units_counted G4 SubsquareOpt (all_subsquares G4) (Hsize _ H4')
                ltac:(done) Hsubs4) as [H5 _].
  destruct (try_units G4 SubsquareOpt (all_subsquares G4)) as [G5 c5]. simpl in H5.
  assert (counted G G5) as H5' by (by eapply counted_trans).
  destruct c5; [intros H; eapply counted_trans; [exact H5'|eapply IH; [|exact H]; auto]|].
  by intros [= <- <-].
Qed.

Lemma preprocess_loop_ends fuel G first :
  well_sized G -> N2 G * N2 G - frozen_count G < Z.of_nat fuel ->
  exists r, preprocess_loop fuel G first = Ok r.
Proof.
  revert G first. induction fuel as [|fuel IH]; intros G first Hw Hfuel.
  { pose proof (frozen_count_bound G) as Hb. destruct Hw as [? Hw2]. nia. }
  simpl.
  pose proof (counted_find_candidates G) as H0.
  destruct (find_candidates G) as [G0 ok]. simpl in H0.
  set (G1 := if first then compute_candidate_stats G0 true else G0).
  assert (counted G G1) as H1.
  { subst G1. destruct first; [|done]. eapply counted_trans; [exact H0|apply counted_stats]. }
  clearbody G1. clear H0 G0.
  assert (forall G2, counted G G2 -> well_sized G2) as Hsize.
  { intros G2 (EN & EN2 & _). unfold well_sized. by rewrite EN, EN2. }
  assert (forall G2 first', counted G G2 -> frozen_count G < frozen_count G2 ->
            exists r, preprocess_loop fuel G2 first' = Ok r) as Hnext.
  { intros G2 first' Hc Hlt. apply IH; [by apply Hsize|].
    destruct Hc as (_ & EN2 & _). rewrite EN2. lia. }
  destruct (negb ok); [by eexists|].
  pose proof (check_for_only_one_candidate_counted G1) as [H2 L2].
  destruct (check_for_only_one_candidate G1) as [G2 c2]. simpl in H2, L2.
  assert (counted G G2) as H2' by (by eapply counted_trans).
  assert (frozen_count G <= frozen_count G1) as Hle1 by apply H1.
  destruct c2; [apply Hnext; [done|specialize (L2 eq_refl); lia]|].
  assert (frozen_count G <= frozen_count G2) as Hle2 by apply H2'.
  destruct (units_included G2) as (Hrows & Hcols & Hsubs).
  unfold try_row_optimization, try_column_optimization, try_subsquare_optimization.
  pose proof (try_units_counted G2 RowOpt (all_rows G2) (Hsize _ H2') ltac:(done) Hrows)
    as [H3 L3].
  destruct (try_units G2 RowOpt (all_rows G2)) as [G3 c3]. simpl in H3, L3.
  assert (counted G G3) as H3' by (by eapply counted_trans).
  destruct c3; [apply Hnext; [done|specialize (L3 eq_refl); lia]|].
  assert (frozen_count G <= frozen_count G3) as Hle3 by apply H3'.
  destruct (units_included G3) as (Hrows3 & Hcols3 & Hsubs3).
  pose proof (try_units_counted G3 ColumnOpt (all_columns G3) (Hsize _ H3') ltac:(done) Hcols3)
    as [H4 L4].
  destruct (try_units G3 ColumnOpt (all_columns G3)) as [G4 c4]. simpl in H4, L4.
  assert (counted G G4) as H4' by (by eapply counted_trans).
  destruct c4; [apply Hnext; [done|specialize (L4 eq_refl); lia]|].
  assert (frozen_count G <= frozen_count G4) as Hle4 by apply H4'.
  destruct (units_included G4) as (Hrows4 & Hcols4 & Hsubs4).
  pose proof (try_units_counted G4 SubsquareOpt (all_subsquares G4) (Hsize _ H4')
                ltac:(done) Hsubs4) as [H5 L5].
  destruct (try_units G4 SubsquareOpt (all_subsquares G4)) as [G5 c5]. simpl in H5, L5.
  assert (counted G G5) as H5' by (by eapply counted_trans).
  destruct c5; [apply Hnext; [done|specialize (L5 eq_refl); lia]|].
  by eexists.
Qed.

Lemma preprocess_board_ends fuel G :
  well_sized G -> N2 G * N2 G - frozen_count G < Z.of_nat fuel ->
  exists G' ok, preprocess_board fuel G = Ok (G', ok).
Proof.
  intros Hw Hfuel. unfold preprocess_board.
  destruct (preprocess_loop_ends fuel G true Hw Hfuel) as ([G' nc] & ->). simpl.
  by eexists _, _.
Qed.

Lemma preprocess_board_counted fuel G G' ok :
  well_sized G -> preprocess_board fuel G = Ok (G', ok) -> counted G G'.
Proof.
  intros Hw H. unfold preprocess_board in H.
  apply obind_Ok in H as ([G1 nc] & H1 & H2). injection H2 as <- <-.
  eapply counted_trans; [by eapply preprocess_loop_counted|apply counted_stats].
Qed.

(** X11.  Preprocessing ends.  On a board with the sizes of [init_board],
    the loop of [preprocess_board] needs at most one pass more than the
    board has unfrozen squares: every pass but the last freezes at least
    one square.  With that much fuel the model returns a result, and the
    four counters of the rules have grown by exactly the number of squares
    that were frozen. *)
Theorem preprocessing_ends (fuel : nat) (G : Game) :
  well_sized G -> N2 G * N2 G - frozen_count G < Z.of_nat fuel ->
  exists G' ok,
    preprocess_board fuel G = Ok (G', ok)
    /\ frozen_count G' - frozen_count G = num_optimizations G' - num_optimizations G
    /\ frozen_count G <= frozen_count G'.
Proof.
  intros Hw Hfuel. destruct (preprocess_board_ends fuel G Hw Hfuel) as (G' & ok & H).
  exists G', ok. split; [done|].
  destruct (preprocess_board_counted fuel G G' ok Hw H) as (_ & _ & _ & _ & Ht & Hle).
  split; lia.
Qed.

Lemma preprocessing_ends_witness :
  exists G' ok,
    preprocess_board 82 (save_board (loaded usage_file)) = Ok (G', ok)
    /\ frozen_count G' - frozen_count (save_board (loaded usage_file))
       = num_optimizations G' - num_optimizations (save_board (loaded usage_file))
    /\ frozen_count (save_board (loaded usage_file)) <= frozen_count G'.
Proof.
  apply (preprocessing_ends 82 (save_board (loaded usage_file))).
  - vm_compute. split; [discriminate|reflexivity].
  - vm_compute. reflexivity.
Defined.

(** * The loader: what a row puts on the board *)

Lemma squeeze_skip_spaces c : squeeze (skip_spaces c) = squeeze c.
Proof. induction c as [|x c IH]; simpl; [done|]. destruct (isspace x) eqn:E; simpl; by rewrite ?E. Qed.

Lemma skip_spaces_squeeze c :
  match skip_spaces c with
  | EmptyString => squeeze c = EmptyString
  | String x r => squeeze c = String x (squeeze r)
  end.
Proof.
  induction c as [|x c IH]; simpl; [done|].
  by destruct (isspace x) eqn:E.
Qed.

Lemma squeeze_no_space c : skip_spaces (squeeze c) = squeeze c.
Proof.
  induction c as [|x c IH]; simpl; [done|].
  destruct (isspace x) eqn:E; [done|]. simpl. by rewrite E.
Qed.

Lemma squeeze_idem c : squeeze (squeeze c) = squeeze c.
Proof.
  induction c as [|x c IH]; simpl; [done|].
  destruct (isspace x) eqn:E; [done|]. simpl. by rewrite E, IH.
Qed.

(** [load_square] at the first character that is not white space. *)
Lemma load_square_spec G i j c :
  load_square G i j c
  = match squeeze c with
    | EmptyString => Exit1
    | String x _ =>
        if char_ok G x then
          Ok (set_sq (if char_frozen x then bump_occupied G else G) i j
                (with_topmask
                   (with_candidate
                      (with_frozen (with_cur_value (sq G i j) (char_value x)) (char_frozen x))
                      (clear_candidates G (candidate (sq G i j))))
                   (-1)),
              next (skip_spaces c))
        else Exit1
    end.
Proof.
  pose proof (skip_spaces_squeeze c) as Hs. unfold load_square.
  destruct (skip_spaces c) as [|x r] eqn:E; rewrite Hs; [reflexivity|].
  unfold char_ok, char_frozen, char_value. cbv [mbind outcome_bind obind deref next].
  destruct (code x =? code "-"); simpl; [reflexivity|].
  destruct ((map_alphabet_to_int x =? -1) || (N2 G <? map_alphabet_to_int x)); reflexivity.
Qed.

Lemma load_square_squeeze G i j c1 c2 :
  squeeze c1 = squeeze c2 ->
  match load_square G i j c1, load_square G i j c2 with
  | Ok (G1, r1), Ok (G2, r2) => G1 = G2 /\ squeeze r1 = squeeze r2
  | Exit1, Exit1 => True
  | _, _ => False
  end.
Proof.
  intros E. rewrite !load_square_spec, <- E.
  pose proof (skip_spaces_squeeze c1) as H1. pose proof (skip_spaces_squeeze c2) as H2.
  destruct (squeeze c1) as [|x r] eqn:Es; [done|].
  destruct (char_ok G x); [|done]. split; [done|].
  destruct (skip_spaces c1) as [|x1 r1]; [discriminate|].
  destruct (skip_spaces c2) as [|x2 r2]; [rewrite <- E in H2; discriminate|].
  simpl. rewrite <- E in H2. congruence.
Qed.

Lemma load_columns_squeeze i js : forall G c1 c2,
  squeeze c1 = squeeze c2 ->
  board_of (ofold (fun '(G, c) j => load_square G i j c) (G, c1) js)
  = board_of (ofold (fun '(G, c) j => load_square G i j c) (G, c2) js).
Proof.
  induction js as [|j js IH]; intros G c1 c2 E; simpl; [done|].
  pose proof (load_square_squeeze G i j c1 c2 E) as H.
  destruct (load_square G i j c1) as [[G1 r1]| | | |], (load_square G i j c2) as [[G2 r2]| | | |];
    try done.
  destruct H as [<- Er]. simpl. by apply IH.
Qed.

Lemma load_row_board_of G i line :
  load_row G i line
  = board_of (ofold (fun '(G, c) j => load_square G i j c) (G, line) (seqZ 1 (N2 G))).
Proof.
  unfold load_row. by destruct (ofold _ (G, line) (seqZ 1 (N2 G))) as [[G1 c1]| | | |].
Qed.

Lemma load_row_squeeze G i line1 line2 :
  squeeze line1 = squeeze line2 -> load_row G i line1 = load_row G i line2.
Proof. intros E. rewrite !load_row_board_of. by apply load_columns_squeeze. Qed.

(** The column loop from column [m] on, [len] columns. *)
Lemma load_columns_contents i (len : nat) : forall G m c G' c',
  ofold (fun '(G, c) j => load_square G i j c) (G, c) (seqZ m (Z.of_nat len)) = Ok (G', c') ->
  N2 G' = N2 G /\ num_neighbors G' = num_neighbors G /\ N G' = N G
  /\ (forall k, (k < len)%nat ->
        exists x, String.get k (squeeze c) = Some x /\ char_ok G x = true
          /\ cur_value (sq G' i (m + Z.of_nat k)) = char_value x
          /\ frozen (sq G' i (m + Z.of_nat k)) = char_frozen x
          /\ topmask (sq G' i (m + Z.of_nat k)) = -1
          /\ neighbor (sq G' i (m + Z.of_nat k)) = neighbor (sq G i (m + Z.of_nat k)))
  /\ (forall a b, a <> i \/ ~ (m <= b < m + Z.of_nat len) -> sq G' a b = sq G a b).
Proof.
  induction len as [|len IH]; intros G m c G' c'.
  - simpl. intros [= <- <-]. repeat split; try done. intros k Hk. lia.
  - rewrite seqZ_cons by lia. cbn [ofold].
    replace (Z.pred (Z.of_nat (S len))) with (Z.of_nat len) by lia.
    intros H. apply obind_Ok in H as ([G1 c1] & H1 & H2).
    rewrite load_square_spec in H1.
    pose proof (skip_spaces_squeeze c) as Hsk.
    destruct (squeeze c) as [|x r] eqn:Es; [discriminate|].
    destruct (char_ok G x) eqn:Eok; [|discriminate]. injection H1 as <- <-.
    destruct (skip_spaces c) as [|x1 r1]; [discriminate|]. injection Hsk as <- ->.
    simpl next in H2.
    apply IH in H2 as (EN2 & Enn & EN & Hcols & Hothers).
    assert (forall a b, sq (set_sq (if char_frozen x then bump_occupied G else G) i m
              (with_topmask
                 (with_candidate
                    (with_frozen (with_cur_value (sq G i m) (char_value x)) (char_frozen x))
                    (clear_candidates G (candidate (sq G i m)))) (-1))) a b
            = if decide ((i, m) = (a, b))
              then with_topmask
                 (with_candidate
                    (with_frozen (with_cur_value (sq G i m) (char_value x)) (char_frozen x))
                    (clear_candidates G (candidate (sq G i m)))) (-1)
              else sq G a b) as Hsq.
    { intros a b. rewrite sq_set_sq. by destruct (char_frozen x). }
    split; [rewrite EN2; by destruct (char_frozen x)|].
    split; [rewrite Enn; by destruct (char_frozen x)|].
    split; [rewrite EN; by destruct (char_frozen x)|].
    split.
    + intros k Hk. destruct k as [|k].
      * exists x. simpl String.get. split; [done|]. split; [done|].
        replace (m + Z.of_nat 0) with m by lia.
        rewrite Hothers by (right; lia). rewrite Hsq, decide_True by done. done.
      * destruct (Hcols k ltac:(lia)) as (y & Hget & Hok & Hv & Hf & Ht & Hn).
        exists y. simpl String.get. split; [done|].
        replace (m + Z.of_nat (S k)) with (Z.succ m + Z.of_nat k) by lia.
        split; [rewrite <- Hok; unfold char_ok; by destruct (char_frozen x)|].
        split; [done|]. split; [done|]. split; [done|].
        rewrite Hn, Hsq, decide_False; [done|]. intros [= E]. lia.
    + intros a b Hab. rewrite Hothers by lia. rewrite Hsq, decide_False; [done|].
      intros [= -> ->]. lia.
Qed.

(** X12.  What a data line puts on the board.  [load_file] reads one
    character per square and skips white space wherever it stands: when
    the column loop for row [i] succeeds on a line, square (i, j) holds
    what the j-th character of the line that is not white space says
    (empty and unfrozen for [-], the frozen value of the character
    otherwise, which is between 1 and [N2]), its candidate stack is reset,
    its neighbors are kept and no other row is touched.  Two lines with
    the same characters apart from white space load alike. *)
Theorem load_row_contents (G G' : Game) (i : Z) (line : string) :
  load_row G i line = Ok G' ->
  (forall j, 1 <= j <= N2 G ->
     exists x, String.get (Z.to_nat (j - 1)) (squeeze line) = Some x
       /\ cur_value (sq G' i j) = char_value x
       /\ frozen (sq G' i j) = char_frozen x
       /\ (char_frozen x = true -> 1 <= cur_value (sq G' i j) <= N2 G)
       /\ topmask (sq G' i j) = -1
       /\ neighbor (sq G' i j) = neighbor (sq G i j))
  /\ (forall a b, a <> i -> sq G' a b = sq G a b)
  /\ (forall line', squeeze line' = squeeze line -> load_row G i line' = Ok G').
Proof.
  intros H. split; [|split].
  - unfold load_row in H. apply obind_Ok in H as ([G1 c1] & H1 & [= <-]).
    intros j Hj.
    replace (N2 G) with (Z.of_nat (Z.to_nat (N2 G))) in H1 by lia.
    apply load_columns_contents in H1 as (_ & _ & _ & Hcols & _).
    destruct (Hcols (Z.to_nat (j - 1)) ltac:(lia)) as (x & Hget & Hok & Hv & Hf & Ht & Hn).
    replace (1 + Z.of_nat (Z.to_nat (j - 1))) with j in * by lia.
    exists x. repeat (split; [done|]). split; [|done].
    intros Hfx. rewrite Hv. unfold char_ok, char_frozen, char_value in *.
    destruct (code x =? code "-"); [discriminate|]. simpl in Hok.
    pose proof (map_alphabet_to_int_range x). lia.
  - unfold load_row in H. apply obind_Ok in H as ([G1 c1] & H1 & [= <-]).
    intros a b Ha.
    assert (seqZ 1 (N2 G) = seqZ 1 (Z.of_nat (Z.to_nat (N2 G)))) as Es
      by (unfold seqZ; by rewrite Nat2Z.id).
    rewrite Es in H1.
    apply load_columns_contents in H1 as (_ & _ & _ & _ & Hothers).
    apply Hothers. by left.
  - intros line' E. by rewrite (load_row_squeeze G i line' line E).
Qed.

Lemma load_row_contents_witness :
  (forall j, 1 <= j <= N2 (init_board zero_game 3) ->
     exists x, String.get (Z.to_nat (j - 1)) (squeeze "  - - 4   5 - -   - - 9") = Some x
       /\ cur_value (sq (row_loaded (init_board zero_game 3) 1 "  - - 4   5 - -   - - 9") 1 j)
          = char_value x
       /\ frozen (sq (row_loaded (init_board zero_game 3) 1 "  - - 4   5 - -   - - 9") 1 j)
          = char_frozen x
       /\ (char_frozen x = true ->
           1 <= cur_value (sq (row_loaded (init_board zero_game 3) 1
                                 "  - - 4   5 - -   - - 9") 1 j)
           <= N2 (init_board zero_game 3))
       /\ topmask (sq (row_loaded (init_board zero_game 3) 1 "  - - 4   5 - -   - - 9") 1 j)
          = -1
       /\ neighbor (sq (row_loaded (init_board zero_game 3) 1 "  - - 4   5 - -   - - 9") 1 j)
          = neighbor (sq (init_board zero_game 3) 1 j))
  /\ (forall a b, a <> 1 ->
        sq (row_loaded (init_board zero_game 3) 1 "  - - 4   5 - -   - - 9") a b
        = sq (init_board zero_game 3) a b)
  /\ (forall line', squeeze line' = squeeze "  - - 4   5 - -   - - 9" ->
        load_row (init_board zero_game 3) 1 line'
        = Ok (row_loaded (init_board zero_game 3) 1 "  - - 4   5 - -   - - 9")).
Proof.
  apply (load_row_contents (init_board zero_game 3)
           (row_loaded (init_board zero_game 3) 1 "  - - 4   5 - -   - - 9") 1
           "  - - 4   5 - -   - - 9").
  apply row_loads_run. vm_compute. reflexivity.
Defined.

(** * The loader: comments, blank lines and the end of the file *)

Lemma plain_tail allowN l file : plain allowN (l :: file) -> plain allowN file.
Proof. intros [H|H]; [by left|right]. intros l' Hl'. apply H. by right. Qed.

Lemma get_line_plain G allowN file :
  plain allowN file ->
  get_line G allowN file
  = match next_data file with
    | Some (t, rest) => Ok (G, t, rest)
    | None => Exit1
    end.
Proof.
  intros Hp. induction file as [|l file IH]; simpl; [done|].
  specialize (IH (plain_tail _ _ _ Hp)).
  unfold data_line, comment_line, blank_line.
  destruct (starts_with2 "/" "/" l) eqn:Ec; simpl.
  - destruct allowN; simpl; [|done].
    destruct Hp as [Hp|Hp]; [discriminate|].
    specialize (Hp l ltac:(left)). unfold directive_line, comment_line in Hp.
    rewrite Ec in Hp. simpl in Hp. rewrite Hp. simpl. done.
  - destruct (trim_trailing l); simpl; done.
Qed.

Lemma next_data_Some file t rest :
  next_data file = Some (t, rest) ->
  exists pre l, file = pre ++ l :: rest /\ data_line l = true /\ t = trim_trailing l
    /\ data_lines pre = [] /\ t <> EmptyString.
Proof.
  revert t rest. induction file as [|l file IH]; intros t rest; simpl; [discriminate|].
  destruct (data_line l) eqn:E.
  - intros [= <- <-]. exists [], l. repeat split; try done.
    apply andb_prop in E as [_ E]. unfold blank_line in E.
    destruct (trim_trailing l); [discriminate|done].
  - intros H. destruct (IH _ _ H) as (pre & l' & -> & Hd & Ht & Hpre & Hne).
    exists (l :: pre), l'. repeat split; try done.
    unfold data_lines. rewrite filter_cons, decide_False by congruence. done.
Qed.

Lemma next_data_None file : next_data file = None -> data_lines file = [].
Proof.
  induction file as [|l file IH]; simpl; [done|].
  destruct (data_line l) eqn:E; [discriminate|]. intros H.
  unfold data_lines. rewrite filter_cons, decide_False by congruence. by apply IH.
Qed.

Lemma data_lines_app a b : data_lines (a ++ b) = data_lines a ++ data_lines b.
Proof. apply filter_app. Qed.

Lemma next_data_data_lines file :
  next_data (data_lines file)
  = match next_data file with
    | Some (t, rest) => Some (t, data_lines rest)
    | None => None
    end.
Proof.
  induction file as [|l file IH]; simpl; [done|].
  unfold data_lines. rewrite filter_cons.
  destruct (data_line l) eqn:E.
  - rewrite decide_True by done. simpl. by rewrite E.
  - rewrite decide_False by congruence. apply IH.
Qed.

Lemma plain_rest allowN file t rest :
  plain allowN file -> next_data file = Some (t, rest) -> plain false rest.
Proof. intros _ _. by left. Qed.

Lemma plain_data_lines allowN file : plain allowN file -> plain allowN (data_lines file).
Proof.
  intros [H|H]; [by left|right]. intros l Hl. apply H.
  by apply list_elem_of_filter in Hl as [_ Hl].
Qed.

(** Comment lines and blank lines do not matter. *)
Lemma load_rows_data_lines fuel : forall G i allowN file,
  plain allowN file ->
  load_rows fuel G i allowN file = load_rows fuel G i allowN (data_lines file).
Proof.
  induction fuel as [|fuel IH]; intros G i allowN file Hp; simpl; [done|].
  destruct (i <=? N2 G); [|done].
  rewrite (get_line_plain G allowN file Hp).
  rewrite (get_line_plain G allowN (data_lines file) (plain_data_lines _ _ Hp)).
  rewrite next_data_data_lines.
  destruct (next_data file) as [[t rest]|]; [|done]. simpl.
  destruct (load_row G i t) as [G1| | | |]; simpl; try done.
  apply IH. by left.
Qed.

Lemma load_square_class G i j c :
  match load_square G i j c with Ok _ | Exit1 => True | _ => False end.
Proof. rewrite load_square_spec. destruct (squeeze c); [done|]. by destruct (char_ok G _). Qed.

Lemma load_row_class G i line :
  match load_row G i line with Ok _ | Exit1 => True | _ => False end.
Proof.
  rewrite load_row_board_of. generalize (seqZ 1 (N2 G)) as js. generalize line as c.
  revert G. intros G c js. revert G c.
  induction js as [|j js IH]; intros G c; simpl; [done|].
  pose proof (load_square_class G i j c) as H.
  destruct (load_square G i j c) as [[G1 c1]| | | |]; try done. simpl. apply IH.
Qed.

Lemma load_row_frame G i line G' : load_row G i line = Ok G' -> N2 G' = N2 G.
Proof.
  unfold load_row. intros H. apply obind_Ok in H as ([G1 c1] & H1 & [= <-]).
  assert (seqZ 1 (N2 G) = seqZ 1 (Z.of_nat (Z.to_nat (N2 G)))) as Es
    by (unfold seqZ; by rewrite Nat2Z.id).
  rewrite Es in H1. by apply load_columns_contents in H1 as (? & _).
Qed.

(** With too few data lines the loader gives up. *)
Lemma load_rows_short fuel : forall G i allowN file,
  plain allowN file -> i <= N2 G -> N2 G - i < Z.of_nat fuel ->
  Z.of_nat (length (data_lines file)) <= N2 G - i ->
  load_rows fuel G i allowN file = Exit1.
Proof.
  induction fuel as [|fuel IH]; intros G i allowN file Hp Hi Hfuel Hlen; [lia|].
  simpl. replace (i <=? N2 G) with true by lia.
  rewrite (get_line_plain G allowN file Hp).
  destruct (next_data file) as [[t rest]|] eqn:En; [|done]. simpl.
  apply next_data_Some in En as (pre & l & -> & Hd & _ & Hpre & _).
  rewrite data_lines_app, Hpre in Hlen. unfold data_lines in Hlen at 1.
  rewrite filter_cons, decide_True in Hlen by done. simpl in Hlen.
  pose proof (load_row_class G i t) as Hc. pose proof (load_row_frame G i t) as Hf.
  destruct (load_row G i t) as [G1| | | |]; try done. simpl.
  specialize (Hf G1 eq_refl).
  apply IH; [by left|rewrite Hf..]; fold (data_lines rest) in Hlen; lia.
Qed.

Lemma get_line_class G allowN file :
  match get_line G allowN file with
  | Ok (G', _, _) => G' = G \/ exists n, 3 <= n <= MAX_N /\ N2 G' = n * n
  | Exit1 => True
  | _ => False
  end.
Proof.
  assert (forall G0, match get_line G0 allowN file with
    | Ok (G', _, _) => G' = G0 \/ exists n, 3 <= n <= MAX_N /\ N2 G' = n * n
    | Exit1 => True
    | _ => False
    end) as H; [|apply H].
  induction file as [|l file IH]; intros G0; simpl; [done|].
  destruct (starts_with2 "/" "/" l).
  - destruct (negb allowN); [apply IH|].
    destruct (negb (starts_with2 "N" "=" (advance 2 l))); [apply IH|].
    destruct ((3 <=? atoi (advance 4 l)) && (atoi (advance 4 l) <=? MAX_N)) eqn:E; [|done].
    specialize (IH (init_board G0 (atoi (advance 4 l)))).
    destruct (get_line _ allowN file) as [[[G' t] rest]| | | |]; try done.
    right. destruct IH as [->|IH]; [|done].
    exists (atoi (advance 4 l)). split; [lia|].
    by destruct (init_board_spec G0 (atoi (advance 4 l))) as (_ & ? & _).
  - destruct (trim_trailing l); [apply IH|]. by left.
Qed.

(** The loader returns a board or exits with status 1. *)
Lemma load_rows_class fuel : forall G i allowN file,
  N2 G <= MAX_N2 -> 1 <= i -> MAX_N2 - i < Z.of_nat fuel ->
  match load_rows fuel G i allowN file with Ok _ | Exit1 => True | _ => False end.
Proof.
  induction fuel as [|fuel IH]; intros G i allowN file HN Hi Hfuel; simpl.
  - replace (i <=? N2 G) with false by lia. done.
  - destruct (i <=? N2 G); [|done].
    pose proof (get_line_class G allowN file) as Hg.
    destruct (get_line G allowN file) as [[[G1 t] rest]| | | |]; try done. simpl.
    pose proof (load_row_class G1 i t) as Hc. pose proof (load_row_frame G1 i t) as Hf.
    destruct (load_row G1 i t) as [G2| | | |]; try done. simpl.
    specialize (Hf G2 eq_refl). apply IH; [|lia|lia].
    rewrite Hf. destruct Hg as [->|(n & Hn & ->)]; [done|]. unfold MAX_N2, MAX_N in *. nia.
Qed.

(** X13.  Comment lines, blank lines and the end of the file.  When no
    size directive can take effect (the directive is switched off or no
    line begins with [//N=]), lines that begin with [//] and lines of
    white space have no effect on what [load_file] does: the file loads
    as its data lines alone do.  If there are fewer data lines than the
    board has rows, [load_file] ends in [exit(1)], whatever the lines
    hold; this includes the empty file. *)
Theorem comment_lines_ignored (G : Game) (allowN : bool) (file : list string) :
  plain allowN file ->
  load_file G file allowN = load_file G (data_lines file) allowN
  /\ (1 <= N2 G <= MAX_N2 -> Z.of_nat (length (data_lines file)) < N2 G ->
      load_file G file allowN = Exit1).
Proof.
  intros Hp. split; [by apply load_rows_data_lines|].
  intros HN Hlen. apply load_rows_short; [done|lia| |lia].
  unfold MAX_N2, MAX_N in *. lia.
Qed.

Lemma comment_lines_ignored_witness :
  load_file (init_board zero_game 3) usage_file true
  = load_file (init_board zero_game 3) (data_lines usage_file) true
  /\ (1 <= N2 (init_board zero_game 3) <= MAX_N2 ->
      Z.of_nat (length (data_lines usage_file)) < N2 (init_board zero_game 3) ->
      load_file (init_board zero_game 3) usage_file true = Exit1).
Proof.
  apply (comment_lines_ignored (init_board zero_game 3) true usage_file).
  right. intros l Hl.
  assert (forallb (fun l => negb (directive_line l)) usage_file = true) as H
    by (vm_compute; reflexivity).
  rewrite forallb_forall in H. apply negb_true_iff, H. by apply list_elem_of_In.
Defined.

(** X14.  How the loader can end.  On a board of a supported size,
    [load_file] returns a board or ends in [exit(1)]: the row loop runs at
    most [MAX_N2] times, a size directive leaves a supported size, and
    nothing in the loader fails an assertion or indexes outside the
    board. *)
Theorem load_file_returns_or_exits (G : Game) (allowN : bool) (file : list string) :
  N2 G <= MAX_N2 ->
  (exists G', load_file G file allowN = Ok G') \/ load_file G file allowN = Exit1.
Proof.
  intros HN. unfold load_file.
  pose proof (load_rows_class (Z.to_nat MAX_N2) G 1 allowN file HN ltac:(lia)) as H.
  destruct (load_rows (Z.to_nat MAX_N2) G 1 allowN file) as [G'| | | |];
    try (exfalso; apply H; unfold MAX_N2, MAX_N; lia).
  - left. by eexists.
  - by right.
Qed.

Lemma load_file_returns_or_exits_witness :
  (exists G', load_file (init_board zero_game 3) usage_file true = Ok G')
  \/ load_file (init_board zero_game 3) usage_file true = Exit1.
Proof.
  apply (load_file_returns_or_exits (init_board zero_game 3) true usage_file).
  vm_compute. discriminate.
Defined.

(** * The statistics *)

Lemma load_inv_init G0 n : 0 <= n -> load_inv (init_board G0 n) /\ fresh_from (init_board G0 n) 1 1.
Proof.
  intros Hn. pose proof (init_board_spec G0 n) as (HN & HN2 & Hsq & _ & _ & Hst & Hfr).
  cbv zeta in *.
  assert (forall a b, on_board (init_board G0 n) a b ->
            frozen (sq (init_board G0 n) a b) = false
            /\ cur_value (sq (init_board G0 n) a b) = 0) as Hfresh.
  { intros a b [Ha Hb]. rewrite HN2 in Ha, Hb.
    destruct (Hfr a b ltac:(lia) ltac:(lia)) as (-> & -> & _). done. }
  split; [|intros a b Hon _; by apply Hfresh].
  assert (frozen_count (init_board G0 n) = 0) as Ec.
  { unfold frozen_count.
    rewrite (filter_length_ext_in _ (fun _ => False) (all_squares (init_board G0 n))).
    - clear. induction (all_squares _) as [|c l IH]; [done|]. by rewrite filter_cons.
    - intros [a b] Hc. apply elem_of_all_squares in Hc. simpl.
      destruct (Hfresh a b Hc) as [-> _]. done. }
  unfold load_inv, num_optimizations. rewrite Ec, Hst, Hsq, HN2. simpl.
  repeat split; try done.
  - intros Hf. by destruct (Hfresh a b H) as [E _]; rewrite E in Hf.
  - intros Hv. by destruct (Hfresh a b H) as [_ E].
Qed.

Lemma load_square_books G i j c G' c' :
  on_board G i j -> load_inv G -> fresh_from G i j ->
  load_square G i j c = Ok (G', c') ->
  load_inv G' /\ fresh_from G' i (j + 1) /\ N2 G' = N2 G.
Proof.
  intros Hon (Hocc & Hopt & Hsq & Hiff) Hfresh H. rewrite load_square_spec in H.
  destruct (squeeze c) as [|x r]; [discriminate|].
  destruct (char_ok G x) eqn:Eok; [|discriminate]. injection H as <- _.
  set (p := with_topmask _ _).
  set (G0 := if char_frozen x then bump_occupied G else G).
  assert (forall a b, sq (set_sq G0 i j p) a b = if decide ((i, j) = (a, b)) then p else sq G a b)
    as Esq by (intros a b; rewrite sq_set_sq; subst G0; by destruct (char_frozen x)).
  assert (N2 (set_sq G0 i j p) = N2 G) as EN2 by (subst G0; by destruct (char_frozen x)).
  assert (frozen p = char_frozen x /\ cur_value p = char_value x) as [Efp Evp] by done.
  destruct (Hfresh i j Hon ltac:(lia)) as [Hf0 Hv0].
  assert (frozen_count (set_sq G0 i j p)
          = frozen_count G + (if char_frozen x then 1 else 0)) as Ec.
  { unfold frozen_count, all_squares. rewrite EN2. fold (all_squares G).
    destruct (char_frozen x) eqn:Ef.
    - rewrite (filter_length_flip (fun c => frozen (sq G c.1 c.2) = true)
                 (fun d => frozen (sq (set_sq G0 i j p) d.1 d.2) = true)
                 (all_squares G) (i, j)).
      + lia.
      + apply NoDup_all_squares.
      + by apply elem_of_all_squares.
      + simpl. congruence.
      + simpl. by rewrite Esq, decide_True.
      + intros [a b] Hne. simpl. rewrite Esq, decide_False by congruence. done.
    - rewrite Z.add_0_r. f_equal. apply filter_length_ext_in. intros [a b] _. simpl.
      rewrite Esq. case_decide as E; [|done]. injection E as <- <-. by rewrite Efp, Hf0. }
  split; [|split; [|done]].
  - unfold load_inv. rewrite Ec, EN2. split; [|split; [|split]].
    + subst G0. destruct (char_frozen x); simpl; lia.
    + subst G0. unfold num_optimizations in *. by destruct (char_frozen x).
    + subst G0. by destruct (char_frozen x).
    + intros a b Hab. unfold on_board in Hab. rewrite EN2 in Hab. rewrite Esq.
      case_decide as E; [|by apply Hiff].
      rewrite Efp, Evp. unfold char_frozen, char_value, char_ok in *.
      destruct (code x =? code "-"); simpl in *; [split; [discriminate|done]|].
      pose proof (map_alphabet_to_int_range x). split; [lia|done].
  - intros a b Hab Hpos. unfold on_board in Hab. rewrite EN2 in Hab.
    rewrite Esq, decide_False by (intros [= <- <-]; lia).
    apply Hfresh; [done|lia].
Qed.

Lemma load_columns_books i js : forall G c G' c' j0,
  1 <= i <= N2 G -> load_inv G -> fresh_from G i j0 ->
  (forall k, (k < length js)%nat -> js !! k = Some (j0 + Z.of_nat k)) ->
  1 <= j0 -> j0 + Z.of_nat (length js) <= N2 G + 1 ->
  ofold (fun '(G, c) j => load_square G i j c) (G, c) js = Ok (G', c') ->
  load_inv G' /\ fresh_from G' i (j0 + Z.of_nat (length js)) /\ N2 G' = N2 G.
Proof.
  induction js as [|j js IH]; intros G c G' c' j0 Hi HL HF Hjs Hj0 Hlen; simpl.
  - intros [= <- <-]. by rewrite Z.add_0_r.
  - intros H. apply obind_Ok in H as ([G1 c1] & H1 & H2).
    change (length (j :: js)) with (S (length js)) in *.
    pose proof (Hjs O ltac:(lia)) as E0. simpl in E0. injection E0 as ->.
    rewrite Z.add_0_r in *.
    destruct (load_square_books G i j0 c G1 c1) as (HL1 & HF1 & EN2); try done.
    { unfold on_board. lia. }
    destruct (IH G1 c1 G' c' (j0 + 1)) as (HL' & HF' & EN2'); try done; try lia.
    + intros k Hk. specialize (Hjs (S k) ltac:(lia)). simpl in Hjs.
      rewrite Hjs. f_equal. lia.
    + split; [done|]. split; [|congruence].
      by replace (j0 + Z.of_nat (S (length js))) with (j0 + 1 + Z.of_nat (length js)) by lia.
Qed.

Lemma load_row_books G i line G' :
  1 <= i <= N2 G -> load_inv G -> fresh_from G i 1 -> load_row G i line = Ok G' ->
  load_inv G' /\ fresh_from G' (i + 1) 1 /\ N2 G' = N2 G.
Proof.
  intros Hi HL HF H. unfold load_row in H. apply obind_Ok in H as ([G1 c1] & H1 & [= <-]).
  destruct (load_columns_books i (seqZ 1 (N2 G)) G line G1 c1 1) as (HL1 & HF1 & EN2);
    try done.
  - intros k Hk. rewrite length_seqZ in Hk. apply lookup_seqZ. lia.
  - rewrite length_seqZ. lia.
  - split; [done|]. split; [|done].
    rewrite length_seqZ in HF1. intros a b Hon Hpos. apply HF1; [done|].
    destruct Hon as [_ Hb]. lia.
Qed.

Lemma get_line_books G allowN file G' t rest :
  load_inv G /\ fresh_from G 1 1 ->
  get_line G allowN file = Ok (G', t, rest) -> load_inv G' /\ fresh_from G' 1 1.
Proof.
  revert G. induction file as [|l file IH]; intros G HG; simpl; [discriminate|].
  destruct (starts_with2 "/" "/" l).
  - destruct (negb allowN); [by apply IH|].
    destruct (negb (starts_with2 "N" "=" (advance 2 l))); [by apply IH|].
    destruct ((3 <=? atoi (advance 4 l)) && (atoi (advance 4 l) <=? MAX_N)) eqn:E;
      [|discriminate].
    apply IH, load_inv_init. lia.
  - destruct (trim_trailing l); [by apply IH|]. by intros [= <- _ _].
Qed.

Lemma get_line_same G file G' t rest : get_line G false file = Ok (G', t, rest) -> G' = G.
Proof.
  induction file as [|l file IH]; simpl; [discriminate|].
  destruct (starts_with2 "/" "/" l); [done|].
  destruct (trim_trailing l); [done|]. by intros [= <- _ _].
Qed.

Lemma load_rows_books fuel : forall G i allowN file G',
  1 <= i -> load_inv G -> fresh_from G i 1 -> (allowN = true -> i = 1) ->
  load_rows fuel G i allowN file = Ok G' -> load_inv G'.
Proof.
  induction fuel as [|fuel IH]; intros G i allowN file G' Hi HL HF Hallow; simpl.
  - destruct (i <=? N2 G); [discriminate|]. by intros [= <-].
  - destruct (i <=? N2 G) eqn:Ei; [|by intros [= <-]].
    intros H. apply obind_Ok in H as ([[G1 l] rest] & H1 & H2).
    apply obind_Ok in H2 as (G2 & H2 & H3).
    assert (load_inv G1 /\ fresh_from G1 i 1 /\ (i <= N2 G1 \/ allowN = true)) as (HL1 & HF1 & Hi1).
    { destruct allowN.
      - rewrite (Hallow eq_refl) in *.
        destruct (get_line_books G true file G1 l rest (conj HL HF) H1). auto.
      - apply get_line_same in H1 as ->. split; [done|]. split; [done|]. left. lia. }
    destruct (Z_le_gt_dec i (N2 G1)) as [Hle|Hgt].
    + destruct (load_row_books G1 i l G2 ltac:(lia) HL1 HF1 H2) as (HL2 & HF2 & EN2).
      apply (IH G2 (i + 1) false rest G'); try done; lia.
    + (* the directive made the board smaller than the row index: no column is read *)
      destruct Hi1 as [?|Ha]; [lia|]. rewrite (Hallow Ha) in *.
      assert (N2 G1 < 1) as Hsmall by lia.
      unfold load_row in H2. replace (seqZ 1 (N2 G1)) with (@nil Z) in H2
        by (unfold seqZ; replace (Z.to_nat (N2 G1)) with O by lia; done).
      simpl in H2. injection H2 as <-.
      apply (IH G1 (1 + 1) false rest G'); try done; try lia.
      intros a b [Ha' _] _. lia.
Qed.

Lemma load_file_books G0 n file allowN G :
  0 <= n -> load_file (init_board G0 n) file allowN = Ok G -> load_inv G.
Proof.
  intros Hn H. destruct (load_inv_init G0 n Hn) as [HL HF].
  unfold load_file in H.
  by apply (load_rows_books _ _ 1 allowN file G ltac:(lia) HL HF ltac:(done) H).
Qed.

(** X15.  The statistics are right.  After [load_file] on a board that
    [init_board] built, [num_occupied_squares_originally] is the number of
    frozen squares, which are the squares that hold a value, and the
    number of empty squares that [print_statistics] derives from it is
    the number of unfrozen squares.  After [preprocess_board] the same
    holds for the numbers of occupied and of empty squares after
    optimization, which [print_statistics] derives from the four counters
    of the rules. *)
Theorem statistics_right (G0 G : Game) (n : Z) (file : list string) (allowN : bool) :
  1 <= n <= MAX_N -> load_file (init_board G0 n) file allowN = Ok G ->
  num_occupied_squares_originally (stats G) = frozen_count G
  /\ (forall a b, on_board G a b -> (frozen (sq G a b) = true <-> cur_value (sq G a b) <> 0))
  /\ num_empty_squares_originally G = N2 G * N2 G - frozen_count G
  /\ forall fp G1 ok, preprocess_board fp (save_board G) = Ok (G1, ok) ->
       num_occupied_squares_after_optimization G1 = frozen_count G1
       /\ num_empty_squares_after_optimization G1 = N2 G1 * N2 G1 - frozen_count G1.
Proof.
  intros Hn H. destruct (load_file_books G0 n file allowN G ltac:(lia) H)
    as (Hocc & Hopt & Hsq & Hiff).
  destruct (loaded_ok_sizes G (load_file_loaded_ok G0 n file allowN G Hn H)) as [Hw _].
  split; [done|]. split; [done|].
  split; [unfold num_empty_squares_originally; lia|].
  intros fp G1 ok Hp.
  destruct (preprocess_board_counted fp (save_board G) G1 ok Hw Hp)
    as (_ & EN2 & Esq & Eocc & Et & _).
  change (frozen_count (save_board G)) with (frozen_count G) in Et.
  change (num_optimizations (save_board G)) with (num_optimizations G) in Et.
  change (stats (save_board G)) with (stats G) in Eocc.
  change (num_squares (save_board G)) with (num_squares G) in Esq.
  change (N2 (save_board G)) with (N2 G) in EN2.
  unfold num_empty_squares_after_optimization, num_occupied_squares_after_optimization.
  rewrite Eocc, Esq, EN2. lia.
Qed.

Lemma statistics_right_witness :
  num_occupied_squares_originally (stats (loaded usage_file)) = frozen_count (loaded usage_file)
  /\ (forall a b, on_board (loaded usage_file) a b ->
        (frozen (sq (loaded usage_file) a b) = true
         <-> cur_value (sq (loaded usage_file) a b) <> 0))
  /\ num_empty_squares_originally (loaded usage_file)
     = N2 (loaded usage_file) * N2 (loaded usage_file) - frozen_count (loaded usage_file)
  /\ forall fp G1 ok,
       preprocess_board fp (save_board (loaded usage_file)) = Ok (G1, ok) ->
       num_occupied_squares_after_optimization G1 = frozen_count G1
       /\ num_empty_squares_after_optimization G1 = N2 G1 * N2 G1 - frozen_count G1.
Proof.
  apply (statistics_right zero_game (loaded usage_file) 3 usage_file true);
    [unfold MAX_N; lia|].
  apply loaded_run. vm_compute. reflexivity.
Defined.

(** * The search ends *)

Lemma search_steps_app n1 n2 s s1 :
  search_steps n1 s = Ok (inl s1) -> search_steps (n1 + n2) s = search_steps n2 s1.
Proof.
  revert s. induction n1 as [|n1 IH]; intros s; simpl.
  - by intros [= <-].
  - intros H. apply obind_Ok in H as ([s'|G'] & H1 & H2); [|discriminate].
    rewrite H1. simpl. by apply IH.
Qed.

Lemma search_steps_run n s :
  match search_steps n s with
  | Ok (inr G) => search_run n s = Ok G
  | AssertFail => search_run n s = AssertFail
  | _ => True
  end.
Proof.
  revert s. induction n as [|n IH]; intros s; simpl; [done|].
  destruct (search_step s) as [[s'|G']| | | |]; simpl; try done. apply IH.
Qed.

Lemma filter_length_le {A} (P Q : A -> Prop)
    `{!forall x, Decision (P x)} `{!forall x, Decision (Q x)} (l : list A) :
  (forall x, x ∈ l -> P x -> Q x) -> (length (filter P l) <= length (filter Q l))%nat.
Proof.
  induction l as [|x l IH]; intros Himp; [done|].
  rewrite !filter_cons.
  assert (length (filter P l) <= length (filter Q l))%nat as E
    by (apply IH; intros y Hy; apply Himp; by right).
  pose proof (Himp x ltac:(left)) as Hx.
  destruct (decide (P x)), (decide (Q x)); simpl; try lia; tauto.
Qed.

Lemma filter_length_lt {A} (P Q : A -> Prop)
    `{!forall x, Decision (P x)} `{!forall x, Decision (Q x)} (l : list A) (u : A) :
  (forall x, x ∈ l -> P x -> Q x) -> u ∈ l -> Q u -> ~ P u ->
  (length (filter P l) < length (filter Q l))%nat.
Proof.
  induction l as [|x l IH]; intros Himp Hu HQ HP; [by apply elem_of_nil in Hu|].
  rewrite !filter_cons.
  assert (length (filter P l) <= length (filter Q l))%nat as E
    by (apply filter_length_le; intros y Hy; apply Himp; by right).
  pose proof (Himp x ltac:(left)) as Hx.
  apply elem_of_cons in Hu as [<-|Hu].
  - rewrite decide_False, decide_True by done. simpl. lia.
  - assert (length (filter P l) < length (filter Q l))%nat as E'
      by (apply IH; [intros y Hy; apply Himp; by right|done..]).
    destruct (decide (P x)), (decide (Q x)); simpl; try lia; tauto.
Qed.

(** The squares not passed, when the cursor moves on. *)
Lemma remaining_le s s' :
  N2 (sG s') = N2 (sG s) ->
  (forall a b, frozen (sq (sG s') a b) = frozen (sq (sG s) a b)) ->
  (forall a b, before a b (si s) (sj s) -> before a b (si s') (sj s')) ->
  remaining s' <= remaining s.
Proof.
  intros EN2 Hfl Hbef. unfold remaining, all_squares. rewrite EN2.
  apply inj_le, filter_length_le. intros [a b] _ [Hf Hnb]. simpl in *.
  rewrite Hfl in Hf. split; [done|]. intros Hb. by apply Hnb, Hbef.
Qed.

Lemma remaining_lt s s' u :
  N2 (sG s') = N2 (sG s) ->
  (forall a b, frozen (sq (sG s') a b) = frozen (sq (sG s) a b)) ->
  (forall a b, before a b (si s) (sj s) -> before a b (si s') (sj s')) ->
  on_board (sG s) u.1 u.2 -> frozen (sq (sG s) u.1 u.2) = false ->
  ~ before u.1 u.2 (si s) (sj s) -> before u.1 u.2 (si s') (sj s') ->
  remaining s' < remaining s.
Proof.
  intros EN2 Hfl Hbef Hon Hf Hnb Hb. unfold remaining, all_squares. rewrite EN2.
  apply inj_lt, (filter_length_lt _ _ _ u).
  - intros [a b] _ [Hf' Hnb']. simpl in *.
    rewrite Hfl in Hf'. split; [done|]. intros Hb'. by apply Hnb', Hbef.
  - destruct u as [a b]. by apply elem_of_all_squares.
  - done.
  - intros [_ Hnb']. done.
Qed.

Lemma remaining_bound s : 0 <= N2 (sG s) -> 0 <= remaining s <= N2 (sG s) * N2 (sG s).
Proof.
  intros HN. unfold remaining. rewrite <- all_squares_length by done.
  split; [lia|]. apply inj_le, length_filter.
Qed.

Lemma searching_start G : ready G -> base_exact G -> roomy G -> searching (search_start G).
Proof.
  intros HR HE Hroom. split; [by apply search_inv_start|]. split; [done|].
  destruct HR as (((HN & HN2) & _) & _). simpl. nia.
Qed.

(** One step keeps the search in its ranges. *)
Lemma searching_step s s' :
  searching s -> search_step s = Ok (inl s') -> searching s'.
Proof.
  intros (Hinv & Hroom & Hi & Hj & Hp) Hstep.
  pose proof Hinv as (Hst & HB & _).
  pose proof Hst as (_ & _ & Hstk & _).
  pose proof (search_step_frame s s' Hstep) as [_ EN2].
  split; [by eapply search_inv_step|].
  split; [eapply roomy_frame; [|exact Hroom];
          by apply search_step_keeps_flags in Hstep as [[? _] _]|].
  rewrite EN2.
  assert (N2 (sG s) < si s -> False) as Hrow.
  { intros Hgt. unfold search_step in Hstep.
    replace (N2 (sG s) <? si s) with true in Hstep by lia. discriminate. }
  destruct (search_step_shape s s' HB Hst Hstep)
    as [(EG & Estk & Ep & [(Hgt & -> & ->)|(Hle & Hf & -> & ->)])|
        [(Hon & Hf & k & Hk & _ & _ & _ & -> & -> & -> & _)|
         (Hon & Hf & _ & i' & j' & rest & Estk & _ & -> & -> & -> & _)]].
  - rewrite Ep. destruct HB as ((HN & HN2) & _). split; [|split]; [|nia|done].
    destruct (Z_le_gt_dec (si s) (N2 (sG s))) as [|Hgt']; [lia|]. exfalso. apply Hrow. lia.
  - rewrite Ep. split; [done|]. split; [lia|done].
  - destruct Hon as [_ Hon]. split; [done|]. split; [lia|lia].
  - destruct (Hstk i' j') as ([Hon1 Hon2] & _ & _ & Hv); [rewrite Estk; left|].
    unfold values. split; [lia|]. split; [lia|lia].
Qed.

Lemma distance_bound s :
  1 <= si s <= N2 (sG s) + 1 -> 1 <= sj s <= N2 (sG s) + 1 ->
  0 <= distance s < (N2 (sG s) + 2) * (N2 (sG s) + 2).
Proof. unfold distance. nia. Qed.

Lemma lex_step (X X' M d d' : Z) :
  0 < M -> (X' <= X /\ d' < d) \/ (X' < X /\ d' < M /\ 0 <= d) ->
  X' * M + d' < X * M + d.
Proof. intros HM [[H1 H2]|(H1 & H2 & H3)]; nia. Qed.

Lemma effort_lt s s' :
  N2 (sG s') = N2 (sG s) -> 0 <= N2 (sG s) ->
  0 <= remaining s' -> 0 <= distance s ->
  distance s' < (N2 (sG s) + 2) * (N2 (sG s) + 2) ->
  0 <= piece_to_place s' -> piece_to_place s <= N2 (sG s) ->
  (remaining s' <= remaining s /\ piece_to_place s' = piece_to_place s
   /\ distance s' < distance s)
  \/ remaining s' < remaining s
  \/ (remaining s' <= remaining s /\ piece_to_place s < piece_to_place s') ->
  effort s' < effort s.
Proof.
  intros EN2 HN Hr' Hd Hd' Hp' Hp Hcases. unfold effort. rewrite EN2.
  set (K := N2 (sG s) + 2) in *.
  apply lex_step; [nia|].
  destruct Hcases as [(H1 & H2 & H3)|[H1|[H1 H2]]].
  - left. split; [|done]. rewrite H2.
    assert (remaining s' * K <= remaining s * K) by (apply Z.mul_le_mono_nonneg_r; lia). lia.
  - right. split; [|split; [done|done]].
    assert ((remaining s' + 1) * K <= remaining s * K)
      by (apply Z.mul_le_mono_nonneg_r; lia).
    lia.
  - right. split; [|split; [done|done]].
    assert (remaining s' * K <= remaining s * K) by (apply Z.mul_le_mono_nonneg_r; lia). lia.
Qed.

(** From every state the search leaves the part of the tree above it
    after finitely many steps. *)
Lemma search_unwinds (m : nat) : forall s,
  searching s -> effort s < Z.of_nat m ->
  exists n, unwound s (search_steps n s).
Proof.
  induction m as [|m IH]; intros s Hs Heff.
  { exfalso. destruct Hs as (Hinv & _ & Hi & Hj & Hp).
    pose proof Hinv as (((Hi1 & Hj1 & Hp0) & _) & ((HN & _) & _) & _).
    pose proof (remaining_bound s ltac:(nia)) as Hr.
    pose proof (distance_bound s ltac:(lia) ltac:(lia)) as Hd.
    assert (0 <= remaining s * (N2 (sG s) + 2) + (N2 (sG s) + 1 - piece_to_place s)) as H1
      by nia.
    assert (0 <= (N2 (sG s) + 2) * (N2 (sG s) + 2)) as H2 by nia.
    pose proof (Z.mul_nonneg_nonneg _ _ H1 H2). unfold effort in Heff. lia. }
  pose proof Hs as (Hinv & Hroom & Hi & Hj & Hp).
  pose proof Hinv as (Hst & HB & _).
  pose proof Hst as ((Hi1 & Hj1 & Hp0) & Hdesc & Hstk & _).
  pose proof HB as ((HN & HN2) & _).
  assert (0 <= N2 (sG s)) as HN0 by nia.
  destruct (search_step_safe s Hinv Hroom) as [([s1|G1] & Hstep)|(Hstep & _ & Hempty)].
  2: { exists 1%nat. simpl. rewrite Hstep. simpl. done. }
  2: { exists 1%nat. simpl. rewrite Hstep. simpl. done. }
  pose proof (searching_step s s1 Hs Hstep) as Hs1.
  pose proof (search_step_keeps_flags s s1 Hstep) as [[(_ & EN2 & _) _] Hfl].
  pose proof (remaining_bound s HN0) as Hr.
  pose proof (remaining_bound s1 ltac:(lia)) as Hr1.
  pose proof (distance_bound s ltac:(lia) ltac:(lia)) as Hd.
  pose proof Hs1 as (Hinv1 & _ & Hi' & Hj' & Hp').
  pose proof Hinv1 as (((Hi1' & Hj1' & Hp0') & _) & _).
  pose proof (distance_bound s1 ltac:(lia) ltac:(lia)) as Hd1.
  destruct (search_step_shape s s1 HB Hst Hstep)
    as [(EG & Estk & Ep & Hmove)|[Hplace|Hundo]].
  - (* the cursor moves: the same part of the tree *)
    assert (effort s1 < Z.of_nat m) as Heff1.
    { assert (remaining s1 <= remaining s) as Hle.
      { apply remaining_le; [done|done|]. intros a b Hb. unfold before in *.
        destruct Hmove as [(? & -> & ->)|(? & ? & -> & ->)]; lia. }
      assert (distance s1 < distance s) as Hlt.
      { unfold distance. rewrite EN2.
        destruct Hmove as [(? & -> & ->)|(? & ? & -> & ->)]; [|lia].
        replace (N2 (sG s) + 1 - (si s + 1)) with (N2 (sG s) + 1 - si s - 1) by lia.
        rewrite Z.mul_sub_distr_r. lia. }
      assert (effort s1 < effort s); [|lia].
      apply effort_lt; first [done | lia]. }
    destruct (IH s1 Hs1 Heff1) as (n & Hn).
    exists (S n). simpl. rewrite Hstep. simpl.
    destruct (search_steps n s1) as [[s2|G2]| | | |]; simpl in *; try done.
    + destruct Hn as (Hs2 & p & rest & E1 & E2 & E3 & E4 & E5 & E6).
      split; [done|]. exists p, rest. rewrite <- Estk, <- EG. done.
    + by rewrite <- Estk.
  - (* a value is placed: the subtree, then the rest of the values *)
    destruct Hplace as (Hon & Hf & k & Hk & _ & _ & Estk & Ei & Ej & Ep & Hval).
    assert (effort s1 < Z.of_nat m) as Heff1.
    { assert (remaining s1 < remaining s) as Hlt.
      { apply (remaining_lt s s1 (si s, sj s)); try done.
        - intros a b Hb. unfold before in *. rewrite Ei, Ej. lia.
        - apply before_irrefl.
        - simpl. unfold before. rewrite Ei, Ej. lia. }
      assert (effort s1 < effort s); [|lia].
      apply effort_lt; first [done | lia]. }
    destruct (IH s1 Hs1 Heff1) as (n1 & Hn1).
    destruct (search_steps n1 s1) as [[s2|G2]| | | |] eqn:E1; simpl in Hn1; try done.
    2: { exists (S n1). simpl. rewrite Hstep. simpl. by rewrite E1. }
    2: { rewrite Estk in Hn1. discriminate. }
    destruct Hn1 as (Hs2 & p & rest & Ep1 & Estk2 & Ei2 & Ej2 & Epiece2 & Hkeep).
    rewrite Estk in Ep1. injection Ep1 as <- <-. simpl in Ei2, Ej2.
    assert (piece_to_place s2 = k) as Ek.
    { rewrite Epiece2, Hval. simpl. by rewrite decide_True. }
    assert (search_steps (S n1) s = Ok (inl s2)) as Hto2.
    { simpl. rewrite Hstep. simpl. exact E1. }
    assert (N2 (sG s2) = N2 (sG s)
            /\ forall a b, frozen (sq (sG s2) a b) = frozen (sq (sG s) a b)) as [EN22 Hfl2].
    { clear -Hto2. revert Hto2. generalize (S n1) as n. intros n. revert s.
      induction n as [|n IHn]; intros s; simpl; [by intros [= <-]|].
      intros H. apply obind_Ok in H as ([s'|G'] & H1 & H2); [|discriminate].
      destruct (IHn s' H2) as [E1 E2].
      apply search_step_keeps_flags in H1 as [[(_ & EN2 & _) _] Hfl].
      split; [congruence|]. intros a b. by rewrite E2, Hfl. }
    assert (effort s2 < Z.of_nat m) as Heff2.
    { assert (remaining s2 <= remaining s) as Hle.
      { apply remaining_le; [done|done|]. intros a b Hb. by rewrite Ei2, Ej2. }
      assert (distance s2 = distance s) as Hd2 by (unfold distance; by rewrite EN22, Ei2, Ej2).
      assert (effort s2 < effort s); [|lia].
      pose proof (remaining_bound s2 ltac:(lia)) as Hr2.
      apply effort_lt; first [done | lia]. }
    destruct (IH s2 Hs2 Heff2) as (n2 & Hn2).
    exists (S n1 + n2)%nat. rewrite (search_steps_app _ n2 _ _ Hto2).
    assert ((si s, sj s) ∉ stack s) as Hnotin.
    { intros Hin. destruct (Hstk _ _ Hin) as (_ & Hb & _). by apply before_irrefl in Hb. }
    assert (forall c, c ∈ stack s -> values (sG s2) c.1 c.2 = values (sG s) c.1 c.2) as Hkeep2.
    { intros [a b] Hc. rewrite (Hkeep _ Hc). simpl. rewrite Hval, decide_False; [done|].
      intros E. apply Hnotin. by rewrite E. }
    destruct (search_steps n2 s2) as [[s3|G3]| | | |]; simpl in *; try done.
    + destruct Hn2 as (Hs3 & p & rest & E1' & E2' & E3' & E4' & E5' & E6').
      split; [done|]. exists p, rest. rewrite <- Estk2. split; [done|]. split; [done|].
      split; [done|]. split; [done|]. split.
      * rewrite E5'. apply (Hkeep2 p). rewrite <- Estk2, E1'. left.
      * intros c Hc. rewrite (E6' c Hc). apply Hkeep2. rewrite <- Estk2, E1'. by right.
    + by rewrite <- Estk2.
  - (* the last placement is undone: the part of the tree above is left *)
    destruct Hundo as (Hon & Hf & _ & i' & j' & rest & Estk & Estk' & Ei & Ej & Ep & Hval).
    exists 1%nat. simpl. rewrite Hstep. simpl. split; [done|].
    exists (i', j'), rest. repeat (split; [done|]).
    intros [a b] Hc. simpl. rewrite Hval, decide_False; [done|].
    rewrite Estk in Hdesc. pose proof (descending_head_fresh _ _ Hdesc) as Hfresh.
    intros E. apply Hfresh. by rewrite E.
Qed.

Lemma search_run_ends G :
  ready G -> base_exact G -> roomy G ->
  exists fs, (exists G', find_solution fs G = Ok G') \/ find_solution fs G = AssertFail.
Proof.
  intros HR HE Hroom. pose proof (searching_start G HR HE Hroom) as Hs.
  destruct (search_unwinds (S (Z.to_nat (effort (search_start G)))) (search_start G) Hs
              ltac:(lia)) as (n & Hn).
  exists n. pose proof (search_steps_run n (search_start G)) as Hrun.
  unfold find_solution. fold (search_start G).
  destruct (search_steps n (search_start G)) as [[s'|G']| | | |]; simpl in Hn; try done.
  - destruct Hn as (_ & p & rest & E & _). discriminate.
  - left. by exists G'.
  - by right.
Qed.

(** X16.  The search ends.  On the board that preprocessing hands to the
    search, with room for the candidate stacks (subsquare sizes up to 5),
    [find_solution] needs finitely many steps: given enough fuel, the
    model returns a board or fails the assertion of the exhausted search;
    it does not run forever.  (The search tries the values of each
    unfrozen square in increasing order and never returns to an assignment
    it has left.) *)
Theorem search_ends (fp : nat) (G G1 : Game) :
  ready G -> roomy G -> preprocess_board fp G = Ok (G1, true) ->
  exists fs, (exists G2, find_solution fs G1 = Ok G2) \/ find_solution fs G1 = AssertFail.
Proof.
  intros HR Hroom Hp. destruct (preprocess_board_end fp G G1 HR Hp) as [HR1 HE1].
  apply search_run_ends; [done|done|].
  eapply roomy_frame; [|exact Hroom]. by apply preprocess_board_keeps_frozen in Hp as [? _].
Qed.

Lemma search_ends_witness :
  exists fs,
    (exists G2, find_solution fs (preprocessed 40 (loaded dead_end_file)) = Ok G2)
    \/ find_solution fs (preprocessed 40 (loaded dead_end_file)) = AssertFail.
Proof.
  apply (search_ends 40 (save_board (loaded dead_end_file))).
  - split; [apply neighbors_built_b_spec; vm_compute; reflexivity|].
    split; [vm_compute; discriminate|].
    apply clues_frozen_unfrozen_empty. vm_compute. reflexivity.
  - split; vm_compute; reflexivity.
  - apply reports_solvable_run. vm_compute. reflexivity.
Defined.

(** * The outcomes of a run *)

(** ** Preprocessing freezes values of the alphabet *)

Lemma first_candidate_range G b :
  popcount G b = 1 -> 1 <= get_first_candidate G b <= N2 G.
Proof.
  intros H. destruct (get_first_candidate_spec G b) as [Hz Hr]. cbv zeta in *.
  destruct (decide (get_first_candidate G b = 0)) as [E|Hne]; [|by apply Hr].
  exfalso. unfold popcount in H.
  destruct (filter (fun v => has_bit b v = true) (seqZ 1 (N2 G))) as [|x l] eqn:Ef;
    [simpl in H; lia|].
  assert (x ∈ filter (fun v => has_bit b v = true) (seqZ 1 (N2 G))) as Hx
    by (rewrite Ef; left).
  apply list_elem_of_filter in Hx as [Hb Hin]. apply elem_of_seqZ' in Hin.
  rewrite (proj1 Hz E x) in Hb; [discriminate|lia].
Qed.

Lemma frozen_valued_values G G' : keeps_values G G' -> frozen_valued G -> frozen_valued G'.
Proof.
  intros [[[(_ & EN2 & _) _] Hfl] Hv] H a b Hon Hf.
  rewrite Hv, EN2. apply H; [unfold on_board in *; by rewrite <- EN2|by rewrite <- Hfl].
Qed.

Lemma frozen_valued_freeze G row col k c :
  1 <= k <= N2 G -> frozen_valued G -> frozen_valued (bump (freeze_one G row col k) c).
Proof.
  intros Hk H a b Hon Hf.
  change (sq (bump (freeze_one G row col k) c) a b) with (sq (freeze_one G row col k) a b) in *.
  change (N2 (bump (freeze_one G row col k) c)) with (N2 G).
  unfold freeze_one in *. rewrite sq_set_sq in *.
  destruct (decide ((row, col) = (a, b))) as [E|E]; [done|by apply H].
Qed.

Lemma check_for_only_one_candidate_valued G :
  counted_masks G -> frozen_valued G -> frozen_valued (check_for_only_one_candidate G).1.
Proof.
  intros HC HV. unfold check_for_only_one_candidate.
  assert (let r := foldl (fun '(G, found_one) c =>
           let p := sq G c.1 c.2 in
           if negb (frozen p) && (num_candidates p =? 1) then
             let t := get_first_candidate G (cand p 0) in
             (bump (freeze_one G c.1 c.2 t) OnlyCandidate, true)
           else (G, found_one)) (G, false) (all_squares G) in
          counted_masks r.1 /\ frozen_valued r.1 /\ N2 r.1 = N2 G) as H; [|apply H].
  apply (foldl_invariant (fun r : Game * bool =>
           counted_masks r.1 /\ frozen_valued r.1 /\ N2 r.1 = N2 G)); [done|].
  intros [G1 r] [i j] Hin (HC1 & HV1 & EN2). simpl in *.
  destruct (frozen (sq G1 i j)) eqn:Hf; simpl; [done|].
  destruct (num_candidates (sq G1 i j) =? 1) eqn:E1; simpl; [|done].
  apply elem_of_all_squares in Hin.
  assert (on_board G1 i j) as Hon by (unfold on_board in *; by rewrite EN2).
  pose proof (HC1 i j Hon Hf) as Hnum.
  pose proof (first_candidate_range G1 (cand (sq G1 i j) 0) ltac:(lia)) as Hr.
  split; [|split; [|done]].
  - intros a b Hon' Hf'.
    change (sq (bump (freeze_one G1 i j (get_first_candidate G1 (cand (sq G1 i j) 0)))
                  OnlyCandidate) a b)
      with (sq (freeze_one G1 i j (get_first_candidate G1 (cand (sq G1 i j) 0))) a b) in *.
    unfold freeze_one in *. rewrite sq_set_sq in *.
    destruct (decide ((i, j) = (a, b))) as [E|E]; [simpl in Hf'; discriminate|].
    by apply HC1.
  - by apply frozen_valued_freeze.
Qed.

Lemma try_units_valued G c units :
  frozen_valued G -> frozen_valued (try_units G c units).1.
Proof.
  intros HV. induction units as [|u rest IH]; simpl; [done|].
  destruct (scan_unit G u) as [seen index] eqn:Hscan.
  destruct (seen_once G seen) as [k|] eqn:Hk; [|done].
  apply seen_once_Some in Hk as [_ Hk].
  destruct (default (0, 0) (index !! k)) as [row col]. simpl.
  by apply frozen_valued_freeze.
Qed.

Lemma find_candidates_counted_masks G :
  ready G -> counted_masks (find_candidates G).1.
Proof.
  intros (HB & HN & HU). destruct (find_candidates_flags G HN) as [Hnum _]. cbv zeta in Hnum.
  pose proof (find_candidates_keeps_values G) as [[[(_ & EN2 & _) _] Hfl] _].
  intros i j Hon Hf. unfold popcount. rewrite EN2. apply Hnum.
  - unfold on_board in *. by rewrite <- EN2.
  - by rewrite <- Hfl.
Qed.

Lemma counted_masks_stats G before :
  counted_masks G -> counted_masks (compute_candidate_stats G before).
Proof.
  intros H i j Hon Hf.
  assert (forall a b, sq (compute_candidate_stats G before) a b = sq G a b) as Esq
    by (intros a b; unfold compute_candidate_stats; by destruct before).
  assert (N2 (compute_candidate_stats G before) = N2 G) as EN2
    by (unfold compute_candidate_stats; by destruct before).
  rewrite Esq in *. unfold popcount. rewrite EN2. apply H; [|done].
  unfold on_board in *. by rewrite <- EN2.
Qed.

Lemma preprocess_loop_valued fuel G first G' nc :
  ready G -> frozen_valued G -> preprocess_loop fuel G first = Ok (G', nc) -> frozen_valued G'.
Proof.
  revert G first. induction fuel as [|fuel IH]; intros G first HR HV; simpl; [discriminate|].
  pose proof (find_candidates_counted_masks G HR) as HC.
  destruct (find_candidates_base_exact G HR) as [HR0 _].
  pose proof (frozen_valued_values _ _ (find_candidates_keeps_values G) HV) as HV0.
  destruct (find_candidates G) as [G0 ok]. simpl in HC, HR0, HV0.
  set (G1 := if first then compute_candidate_stats G0 true else G0).
  assert (counted_masks G1) as HC1
    by (subst G1; destruct first; [by apply counted_masks_stats|done]).
  assert (ready G1) as HR1.
  { subst G1. destruct first; [|done].
    eapply ready_values; [apply compute_candidate_stats_keeps_values|done]. }
  assert (frozen_valued G1) as HV1.
  { subst G1. destruct first; [|done].
    eapply frozen_valued_values; [apply compute_candidate_stats_keeps_values|done]. }
  clearbody G1. clear HC HR0 HV0 G0 HR HV.
  destruct ok; simpl; [|by intros [= <- <-]].
  pose proof (check_for_only_one_candidate_valued G1 HC1 HV1) as Hs2.
  pose proof (check_for_only_one_candidate_ready G1 HR1) as Hr2.
  pose proof (check_for_only_one_candidate_false G1) as Hf2.
  destruct (check_for_only_one_candidate G1) as [G2 c2]. simpl in *.
  destruct c2; [intros H; apply (IH G2 false); auto|].
  rewrite (Hf2 eq_refl). clear Hs2 Hr2 Hf2 G2.
  unfold try_row_optimization, try_column_optimization, try_subsquare_optimization.
  pose proof (try_units_valued G1 RowOpt (all_rows G1) HV1) as Hs3.
  pose proof (try_units_ready G1 RowOpt (all_rows G1) HR1) as Hr3.
  pose proof (try_units_false G1 RowOpt (all_rows G1)) as Hf3.
  destruct (try_units G1 RowOpt (all_rows G1)) as [G3 c3]. simpl in *.
  destruct c3; [intros H; apply (IH G3 false); auto|].
  rewrite (Hf3 eq_refl). clear Hs3 Hr3 Hf3 G3.
  pose proof (try_units_valued G1 ColumnOpt (all_columns G1) HV1) as Hs4.
  pose proof (try_units_ready G1 ColumnOpt (all_columns G1) HR1) as Hr4.
  pose proof (try_units_false G1 ColumnOpt (all_columns G1)) as Hf4.
  destruct (try_units G1 ColumnOpt (all_columns G1)) as [G4 c4]. simpl in *.
  destruct c4; [intros H; apply (IH G4 false); auto|].
  rewrite (Hf4 eq_refl). clear Hs4 Hr4 Hf4 G4.
  pose proof (try_units_valued G1 SubsquareOpt (all_subsquares G1) HV1) as Hs5.
  pose proof (try_units_ready G1 SubsquareOpt (all_subsquares G1) HR1) as Hr5.
  pose proof (try_units_false G1 SubsquareOpt (all_subsquares G1)) as Hf5.
  destruct (try_units G1 SubsquareOpt (all_subsquares G1)) as [G5 c5]. simpl in *.
  destruct c5; [intros H; apply (IH G5 false); auto|].
  intros [= <- <-]. by rewrite (Hf5 eq_refl).
Qed.

Lemma preprocess_board_valued fp G G1 ok :
  ready G -> frozen_valued G -> preprocess_board fp G = Ok (G1, ok) -> frozen_valued G1.
Proof.
  intros HR HV H. unfold preprocess_board in H.
  apply obind_Ok in H as ([G' nc] & Hloop & H). injection H as <- <-.
  eapply frozen_valued_values; [apply compute_candidate_stats_keeps_values|].
  by eapply preprocess_loop_valued.
Qed.

(** ** [verify_solution] returns *)

Lemma verify_units_returns G full units :
  (forall u c, u ∈ units -> c ∈ u -> 0 <= cur_value (sq G c.1 c.2) <= N2 G) ->
  exists b, verify_units G full units = Ok b.
Proof.
  induction units as [|u rest IH]; intros H; simpl; [by exists true|].
  destruct (count_used_spec G u) as (used & -> & _); [intros c Hc; apply (H u); [left|done]|].
  simpl. destruct (used_ok G full used); [|by exists false].
  apply IH. intros u' c Hu' Hc. apply (H u'); [by right|done].
Qed.

Lemma verify_solution_returns G full :
  well_sized G -> (forall a b, on_board G a b -> 0 <= cur_value (sq G a b) <= N2 G) ->
  exists b, verify_solution G full = Ok b.
Proof.
  intros Hw H. unfold verify_solution. fold (all_units G).
  apply verify_units_returns. intros u [a b] Hu Hc. simpl. apply H.
  by eapply all_units_on_board.
Qed.

(** ** The outcomes of [main] *)

Lemma search_not_exhausted fs G S :
  ready G -> base_exact G -> roomy G -> is_solution G S -> extends G S ->
  find_solution fs G <> AssertFail.
Proof.
  intros HR HE Hroom HS He Hfail.
  pose proof (not_past_start G S HR HE HS He) as Hstart.
  destruct (search_run_safe fs (search_start G)) as [[G2 H]|[H|(_ & n & s & Hn & Hd & Hs)]];
    [by apply search_inv_start|done| | |].
  - unfold find_solution in Hfail. fold (search_start G) in Hfail. congruence.
  - unfold find_solution in Hfail. fold (search_start G) in Hfail. congruence.
  - apply (not_past_no_exhaustion s S); [by eapply not_past_steps|done|done].
Qed.

Lemma not_solved_unsolvable fp fs G rep G' :
  loaded_ok G -> solve fp fs G = Ok (rep, G') -> rep <> Solved -> unsolvable G.
Proof.
  intros HL H Hrep (S & HS & He). by destruct (solvable_run fp fs G S rep G' HL HS He H).
Qed.

Lemma solve_ends fp G :
  loaded_ok G -> roomy G -> frozen_valued G ->
  N2 G * N2 G - frozen_count G < Z.of_nat fp ->
  exists fs,
    (solve fp fs G = AssertFail /\ unsolvable G)
    \/ exists rep G', solve fp fs G = Ok (rep, G') /\ rep <> NotASolution
         /\ (rep = Solved -> solved G' /\ clues_in G G')
         /\ (rep <> Solved -> unsolvable G).
Proof.
  intros HL Hroom HV Hfuel.
  destruct (loaded_ok_sizes G HL) as [Hw _].
  pose proof (loaded_ok_ready G HL) as HR.
  assert (exists b, verify_solution (save_board G) false = Ok b) as (b & Hv).
  { rewrite verify_solution_save_board. apply verify_solution_returns; [done|].
    intros x y Hon. destruct HL as (_ & _ & HL). apply HL; destruct Hon; lia. }
  assert (forall fs rep G', solve fp fs G = Ok (rep, G') -> rep <> NotASolution ->
            (rep = Solved -> solved G' /\ clues_in G G') ->
            (solve fp fs G = AssertFail /\ unsolvable G)
            \/ exists rep G', solve fp fs G = Ok (rep, G') /\ rep <> NotASolution
                 /\ (rep = Solved -> solved G' /\ clues_in G G')
                 /\ (rep <> Solved -> unsolvable G)) as Hdone.
  { intros fs rep G' H Hn Hs. right. exists rep, G'. split; [done|]. split; [done|]. split.
    - exact Hs.
    - by eapply not_solved_unsolvable. }
  destruct b.
  2: { exists O. apply (Hdone O InvalidSetup (save_board G)); [|done|done].
       unfold solve. rewrite Hv. reflexivity. }
  destruct (preprocess_board_ends fp (save_board G) Hw Hfuel) as (G1 & ok & Hp).
  destruct ok.
  2: { exists O. apply (Hdone O NoSolutionExists G1); [|done|done].
       unfold solve. rewrite Hv. simpl. rewrite Hp. reflexivity. }
  destruct (preprocess_board_end fp (save_board G) G1 HR Hp) as [HR1 HE1].
  assert (roomy G1) as Hroom1.
  { apply (roomy_frame (save_board G)); [|exact Hroom].
    by apply preprocess_board_keeps_frozen in Hp as [? _]. }
  pose proof (preprocess_board_valued fp (save_board G) G1 true HR HV Hp) as HV1.
  destruct (search_run_ends G1 HR1 HE1 Hroom1) as (fs & [[G2 Hs]|Hs]).
  2: { exists fs. left. split.
       - unfold solve. rewrite Hv. simpl. rewrite Hp. simpl. by rewrite Hs.
       - intros (S & HS & He).
         pose proof (is_solution_save_board G S HS) as HS0.
         pose proof (extends_save_board G S He) as He0.
         destruct (preprocess_board_sound fp (save_board G) S G1 true HR HS0 He0 Hp) as [_ He1].
         assert (is_solution G1 S) as HS1.
         { apply preprocess_board_keeps_frozen in Hp as [(EN & EN2 & _) _].
           by eapply is_solution_frame. }
         by apply (search_not_exhausted fs G1 S). }
  exists fs.
  destruct (clues_kept fp fs G G1 G2 (loaded_ok_clues_frozen G HL) Hp Hs) as [Hkept Hown].
  assert (well_sized G2) as Hw2.
  { apply search_run_keeps_flags in Hs. simpl in Hs.
    destruct Hs as [[(EN & EN2 & _) _] _]. destruct HR1 as ((Hw1 & _) & _).
    unfold well_sized. by rewrite EN, EN2. }
  assert (exists b, verify_solution G2 true = Ok b) as (b & Hfull).
  { apply verify_solution_returns; [done|]. intros x y Hon.
    pose proof (search_fills_board fs G1 G2 HV1 Hs x y Hon) as Hr. unfold values in Hr. lia. }
  destruct b.
  - apply (Hdone fs Solved G2); [|done|].
    + unfold solve. rewrite Hv. simpl. rewrite Hp. simpl. rewrite Hs. simpl.
      rewrite Hown. simpl. by rewrite Hfull.
    + intros _. split; [by apply verify_full_iff|].
      intros x y _ Hf. by rewrite (proj2 (Hkept x y Hf)).
  - apply (Hdone fs InvalidSolution G2); [|done|done].
    unfold solve. rewrite Hv. simpl. rewrite Hp. simpl. rewrite Hs. simpl.
    rewrite Hown. simpl. by rewrite Hfull.
Qed.

Lemma loaded_roomy file G :
  load_file (init_board zero_game 3) file true = Ok G -> N G <= 5 ->
  loaded_ok G /\ roomy G /\ frozen_valued G.
Proof.
  intros Hload HN.
  assert (loaded_ok G) as HL
    by (eapply load_file_loaded_ok; [|exact Hload]; unfold MAX_N; lia).
  pose proof (load_file_books zero_game 3 file true G ltac:(lia) Hload) as (_ & _ & Hsq & Hfv).
  split; [done|]. pose proof HL as (((HN1 & HN2) & Hnn & _) & _ & Hrange). split.
  - split; [done|]. rewrite Hnn, HN2. unfold MAX_NUM_NEIGHBORS, MAX_N2, MAX_N.
    assert (N G * N G <= 5 * 5) by (apply Z.mul_le_mono_nonneg; lia). lia.
  - intros a b Hon Hf. pose proof (proj1 (Hfv a b Hon) Hf) as Hne.
    destruct (Hrange a b) as [Hr _]; [destruct Hon; lia..|]. lia.
Qed.

Lemma main_outcomes fp file G :
  load_file (init_board zero_game 3) file true = Ok G -> N G <= 5 ->
  N2 G * N2 G - frozen_count G < Z.of_nat fp ->
  exists fs,
    (main fp fs file = AssertFail /\ unsolvable G)
    \/ exists rep G', main fp fs file = Ok (rep, G') /\ rep <> NotASolution
         /\ (rep = Solved -> solved G' /\ clues_in G G')
         /\ (rep <> Solved -> unsolvable G).
Proof.
  intros Hload HN Hfuel. destruct (loaded_roomy file G Hload HN) as (HL & Hroom & HV).
  destruct (solve_ends fp G HL Hroom HV Hfuel) as (fs & H). exists fs.
  by rewrite (proj1 (main_loaded fp fs file G Hload)).
Qed.

(** X17.  A puzzle that has a solution is solved, in finitely many steps.
    If the file loads a board with subsquares of size up to 5 and some
    solved Sudoku keeps its clues, then with one preprocessing pass more
    than the board has empty squares and with enough steps of the search,
    [main] returns without any of its four error banners: the board it
    prints is a solved Sudoku with every clue in its place. *)
Theorem solvable_puzzle_total (fp : nat) (file : list string) (G : Game) (S : Z -> Z -> Z) :
  load_file (init_board zero_game 3) file true = Ok G -> N G <= 5 ->
  is_solution G S -> extends G S ->
  N2 G * N2 G - frozen_count G < Z.of_nat fp ->
  exists fs G', main fp fs file = Ok (Solved, G') /\ solved G' /\ clues_in G G'.
Proof.
  intros Hload HN HS He Hfuel.
  destruct (main_outcomes fp file G Hload HN Hfuel)
    as (fs & [[_ Hno]|(rep & G' & H & _ & Hyes & Hno)]).
  - destruct Hno. by exists S.
  - exists fs, G'. destruct rep; try (destruct Hno; [done|by exists S]).
    split; [done|]. by apply Hyes.
Qed.

Lemma solvable_puzzle_total_witness :
  exists fs G', main 100 fs usage_file = Ok (Solved, G') /\ solved G'
                /\ clues_in (loaded usage_file) G'.
Proof.
  apply (solvable_puzzle_total 100 usage_file (loaded usage_file)
           (values (searched 2000 (preprocessed 40 (loaded usage_file))))).
  - apply loaded_run. vm_compute. reflexivity.
  - vm_compute. discriminate.
  - apply usage_solution.
  - apply usage_solution.
  - vm_compute. reflexivity.
Defined.

(** X18.  Every run ends with a report.  If the file loads a board with
    subsquares of size up to 5, then with one preprocessing pass more than
    the board has empty squares and with enough steps of the search,
    [main] indexes no array out of bounds and does not run forever.  It
    returns with a report that is not NOT A SOLUTION TO THE ORIGINAL
    PROBLEM: without a banner only if the board it prints is a solved
    Sudoku that keeps the clues, and with INVALID SETUP, NO SOLUTIONS
    EXISTS or INVALID SOLUTION only if no solved Sudoku keeps the clues; or
    it fails an assertion, and then too no solved Sudoku keeps the
    clues. *)
Theorem main_ends (fp : nat) (file : list string) (G : Game) :
  load_file (init_board zero_game 3) file true = Ok G -> N G <= 5 ->
  N2 G * N2 G - frozen_count G < Z.of_nat fp ->
  exists fs,
    (main fp fs file = AssertFail /\ unsolvable G)
    \/ exists rep G', main fp fs file = Ok (rep, G') /\ rep <> NotASolution
         /\ (rep = Solved -> solved G' /\ clues_in G G')
         /\ (rep <> Solved -> unsolvable G).
Proof. apply main_outcomes. Qed.

Lemma main_ends_witness :
  exists fs,
    (main 100 fs dead_end_file = AssertFail /\ unsolvable (loaded dead_end_file))
    \/ exists rep G', main 100 fs dead_end_file = Ok (rep, G') /\ rep <> NotASolution
         /\ (rep = Solved -> solved G' /\ clues_in (loaded dead_end_file) G')
         /\ (rep <> Solved -> unsolvable (loaded dead_end_file)).
Proof.
  apply (main_ends 100 dead_end_file (loaded dead_end_file)).
  - apply loaded_run. vm_compute. reflexivity.
  - vm_compute. discriminate.
  - vm_compute. reflexivity.
Defined.

(** * Printing the board and reading it back *)

(** ** Strings *)

Lemma append_cons (x : ascii) (a b : string) : String x a +:+ b = String x (a +:+ b).
Proof. reflexivity. Qed.

Lemma append_nil_l (b : string) : "" +:+ b = b.
Proof. reflexivity. Qed.

Ltac str := rewrite ?append_cons, ?append_nil_l.

Lemma append_assoc' (a b c : string) : (a +:+ b) +:+ c = a +:+ (b +:+ c).
Proof. induction a as [|x a IH]; str; [done|]. by rewrite IH. Qed.

Lemma append_nil_r' (a : string) : a +:+ "" = a.
Proof. induction a as [|x a IH]; str; [done|]. by rewrite IH. Qed.

Lemma length_append' (a b : string) :
  String.length (a +:+ b) = (String.length a + String.length b)%nat.
Proof. induction a as [|x a IH]; str; simpl; [done|]. by rewrite IH. Qed.

Lemma no_newline_append (a b : string) :
  no_newline (a +:+ b) = no_newline a && no_newline b.
Proof. induction a as [|x a IH]; str; simpl; [done|]. by rewrite IH, andb_assoc. Qed.

Lemma squeeze_append (a b : string) : squeeze (a +:+ b) = squeeze a +:+ squeeze b.
Proof.
  induction a as [|x a IH]; str; simpl; [done|].
  destruct (isspace x); [done|]. str. by rewrite IH.
Qed.

Lemma trim_trailing_cons (x : ascii) (s : string) :
  trim_trailing (String x s)
  = if code x =? 0 then EmptyString
    else match trim_trailing s with
         | EmptyString => if isspace x then EmptyString else String x EmptyString
         | t => String x t
         end.
Proof. reflexivity. Qed.

Lemma no_nul_append (a b : string) : no_nul (a +:+ b) = no_nul a && no_nul b.
Proof. induction a as [|x a IH]; str; simpl; [done|]. by rewrite IH, andb_assoc. Qed.

Lemma squeeze_trim_trailing (s : string) :
  no_nul s = true -> squeeze (trim_trailing s) = squeeze s.
Proof.
  induction s as [|x s IH]; [done|]. cbn [no_nul]. intros H.
  apply andb_prop in H as [Hx Hs]. apply negb_true_iff in Hx.
  specialize (IH Hs). rewrite trim_trailing_cons, Hx. cbn [squeeze].
  destruct (trim_trailing s) as [|y t] eqn:E.
  - cbn [squeeze] in IH. rewrite <- IH. by destruct (isspace x) eqn:Ex; cbn [squeeze]; rewrite ?Ex.
  - rewrite <- IH. cbn [squeeze]. by destruct (isspace x).
Qed.

(** ** The characters of the values *)

Lemma glyph_table_ok : forallb glyph_ok (seqZ 0 65) = true.
Proof. vm_compute. reflexivity. Qed.

Lemma glyph_spec (v : Z) :
  0 <= v <= 64 ->
  isspace (glyph v) = false /\ (code (glyph v) =? 10) = false
  /\ char_value (glyph v) = v /\ char_frozen (glyph v) = negb (v =? 0)
  /\ (v <> 0 -> map_alphabet_to_int (glyph v) = v).
Proof.
  intros Hv. pose proof (proj1 (forallb_seqZ glyph_ok 0 65) glyph_table_ok v ltac:(lia)) as H.
  unfold glyph_ok in H.
  apply andb_prop in H as [H H5]. apply andb_prop in H as [H H4].
  apply andb_prop in H as [H H3]. apply andb_prop in H as [H1 H2].
  apply negb_true_iff in H1, H2. apply Z.eqb_eq in H3. apply Bool.eqb_prop in H4.
  repeat (split; [done|]). intros Hne.
  unfold char_value in H3. unfold char_frozen in H4.
  destruct (code (glyph v) =? code "-"); [|done]. simpl in H4. lia.
Qed.

Lemma glyph_table_no_nul : forallb (fun v => negb (code (glyph v) =? 0)) (seqZ 0 65) = true.
Proof. vm_compute. reflexivity. Qed.

Lemma glyph_no_nul (v : Z) : 0 <= v <= 64 -> (code (glyph v) =? 0) = false.
Proof.
  intros Hv. apply negb_true_iff.
  apply (proj1 (forallb_seqZ (fun v => negb (code (glyph v) =? 0)) 0 65) glyph_table_no_nul v).
  lia.
Qed.

Lemma map_int_to_alphabet_glyph G v :
  0 <= v <= N2 G -> N2 G <= 64 -> map_int_to_alphabet G v = Ok (glyph v).
Proof.
  intros Hv HN. unfold map_int_to_alphabet, glyph.
  replace ((0 <=? v) && (v <=? N2 G)) with true by lia.
  by replace (66 <=? v) with false by lia.
Qed.

Lemma char_ok_glyph G v : 0 <= v <= N2 G -> N2 G <= 64 -> char_ok G (glyph v) = true.
Proof.
  intros Hv HN. destruct (glyph_spec v ltac:(lia)) as (_ & _ & H3 & H4 & H5).
  unfold char_ok. unfold char_frozen in H4.
  destruct (code (glyph v) =? code "-") eqn:E; [done|]. simpl in *.
  assert (v <> 0) as Hne by (intros ->; discriminate). rewrite (H5 Hne).
  replace (v =? -1) with false by lia. by replace (N2 G <? v) with false by lia.
Qed.

(** ** What [print_board] writes *)

Lemma print_cells G i js : forall out,
  N2 G <= 64 -> (forall j, j ∈ js -> 0 <= cur_value (sq G i j) <= N2 G) ->
  ofold (fun out j =>
           ch ← map_int_to_alphabet G (cur_value (sq G i j));
           Ok (out +:+ String ch (if (j <? N2 G) && (Z.rem j (N G) =? 0)
                                  then "   " else " ")))
        out js
  = Ok (out +:+ cells G i js).
Proof.
  induction js as [|j js IH]; intros out HN Hv; cbn [ofold cells].
  - by rewrite append_nil_r'.
  - rewrite map_int_to_alphabet_glyph by (try done; apply Hv; left).
    cbn [mbind outcome_bind obind].
    rewrite IH; [|done|intros j' Hj'; apply Hv; by right].
    f_equal. rewrite append_assoc'. str. reflexivity.
Qed.

Lemma print_row_eq G i :
  N2 G <= 64 -> (forall j, 1 <= j <= N2 G -> 0 <= cur_value (sq G i j) <= N2 G) ->
  print_row G i = Ok (concat_lines (row_lines G [i])).
Proof.
  intros HN Hv. unfold print_row.
  rewrite print_cells; [|done|intros j Hj; apply Hv; apply elem_of_seqZ' in Hj; lia].
  cbn [mbind outcome_bind obind]. f_equal.
  unfold row_lines, row_line, band_end, concat_lines. cbn [flat_map foldr app].
  destruct ((i <? N2 G) && (Z.rem i (N G) =? 0)); cbn [foldr app];
    rewrite ?append_nil_r', ?append_assoc'; reflexivity.
Qed.

Lemma concat_lines_app a b : concat_lines (a ++ b) = concat_lines a +:+ concat_lines b.
Proof.
  unfold concat_lines. induction a as [|x a IH]; cbn [foldr app]; [done|].
  by rewrite IH, append_assoc'.
Qed.

Lemma row_lines_cons G i rows : row_lines G (i :: rows) = row_lines G [i] ++ row_lines G rows.
Proof. unfold row_lines. cbn [flat_map]. by rewrite app_nil_r. Qed.

Lemma print_rows_eq G rows : forall out,
  N2 G <= 64 ->
  (forall i j, i ∈ rows -> 1 <= j <= N2 G -> 0 <= cur_value (sq G i j) <= N2 G) ->
  ofold (fun out i => r ← print_row G i; Ok (out +:+ r)) out rows
  = Ok (out +:+ concat_lines (row_lines G rows)).
Proof.
  induction rows as [|i rows IH]; intros out HN Hv.
  - cbn [ofold]. by rewrite append_nil_r'.
  - cbn [ofold]. rewrite print_row_eq; [|done|intros j Hj; apply Hv; [left|done]].
    cbn [obind outcome_bind mbind].
    rewrite IH; [|done|intros i' j Hi' Hj; apply Hv; [by right|done]].
    f_equal. by rewrite (row_lines_cons G i rows), concat_lines_app, append_assoc'.
Qed.

Lemma print_board_eq G :
  N2 G <= 64 -> (forall a b, on_board G a b -> 0 <= cur_value (sq G a b) <= N2 G) ->
  print_board G = Ok (concat_lines (printed_lines G)).
Proof.
  intros HN Hv. unfold print_board. rewrite print_rows_eq; [|done|].
  - f_equal. unfold printed_lines. rewrite concat_lines_app. f_equal.
    unfold header_lines, concat_lines. destruct (N G =? 3); cbn [foldr];
      rewrite ?append_nil_r', ?append_assoc'; reflexivity.
  - intros i j Hi Hj. apply Hv. apply elem_of_seqZ' in Hi. unfold on_board. lia.
Qed.

(** ** Reading the text line by line *)

Lemma fgets_go_cons size room cur c t :
  fgets_go size room cur (String c t)
  = if (code c =? 10) || (room <=? 1)%nat
    then (cur +:+ String c EmptyString) :: fgets_go size (size - 1) EmptyString t
    else fgets_go size (room - 1) (cur +:+ String c EmptyString) t.
Proof. reflexivity. Qed.

Lemma fgets_go_line size body : forall cur room rest,
  no_newline body = true -> (String.length body < room)%nat ->
  fgets_go size room cur (body +:+ nl +:+ rest)
  = (cur +:+ body +:+ nl) :: fgets_go size (size - 1) "" rest.
Proof.
  induction body as [|c b IH]; intros cur room rest Hn Hlen.
  - unfold nl. str. rewrite fgets_go_cons. reflexivity.
  - str. rewrite fgets_go_cons. cbn [no_newline] in Hn.
    apply andb_prop in Hn as [Hc Hb]. apply negb_true_iff in Hc. rewrite Hc.
    cbn [String.length] in Hlen.
    replace (room <=? 1)%nat with false by (symmetry; apply Nat.leb_gt; lia). cbn [orb].
    rewrite IH by (done || lia). rewrite append_assoc'. by str.
Qed.

Lemma fgets_lines_concat size ls :
  Forall (whole_line size) ls -> fgets_lines size (concat_lines ls) = ls.
Proof.
  induction 1 as [|l ls (body & -> & Hn & Hlen) Hls IH]; [done|].
  unfold fgets_lines, concat_lines in *. cbn [foldr]. rewrite append_assoc'.
  rewrite fgets_go_line by (done || lia). str. by rewrite IH.
Qed.

Lemma whole_line_nl : whole_line LINESIZE nl.
Proof. exists ""%string. split; [done|]. split; [done|]. unfold LINESIZE. simpl. lia. Qed.

Lemma gap_spec G j :
  no_newline (gap G j) = true /\ (String.length (gap G j) <= 3)%nat
  /\ squeeze (gap G j) = ""%string.
Proof. unfold gap. destruct ((j <? N2 G) && (Z.rem j (N G) =? 0)); repeat split; simpl; lia. Qed.

Lemma gap_no_nul G j : no_nul (gap G j) = true.
Proof. unfold gap. by destruct ((j <? N2 G) && (Z.rem j (N G) =? 0)). Qed.

Lemma cells_no_nul G i js :
  (forall j, j ∈ js -> 0 <= cur_value (sq G i j) <= 64) -> no_nul (cells G i js) = true.
Proof.
  induction js as [|j js IH]; intros Hv; [done|]. cbn [cells no_nul].
  rewrite glyph_no_nul by (apply Hv; left).
  rewrite no_nul_append, gap_no_nul, IH; [done|]. intros j' Hj'. apply Hv. by right.
Qed.

Lemma row_line_no_nul G i :
  (forall j, 1 <= j <= N2 G -> 0 <= cur_value (sq G i j) <= 64) ->
  no_nul (row_line G i) = true.
Proof.
  intros Hv. unfold row_line. rewrite !no_nul_append, cells_no_nul; [done|].
  intros j Hj. apply elem_of_seqZ' in Hj. apply Hv. lia.
Qed.

Lemma cells_spec G i js :
  (forall j, j ∈ js -> 0 <= cur_value (sq G i j) <= 64) ->
  no_newline (cells G i js) = true
  /\ (String.length (cells G i js) <= 4 * length js)%nat
  /\ squeeze (cells G i js) = glyphs G i js.
Proof.
  induction js as [|j js IH]; intros Hv; [repeat split; simpl; lia|].
  destruct IH as (IH1 & IH2 & IH3); [intros j' Hj'; apply Hv; by right|].
  destruct (glyph_spec (cur_value (sq G i j))) as (Hs & Hn & _); [apply Hv; left|].
  destruct (gap_spec G j) as (Hg1 & Hg2 & Hg3).
  cbn [cells glyphs no_newline String.length squeeze length].
  rewrite no_newline_append, length_append', squeeze_append, Hs, Hn, Hg1, IH1, Hg3, IH3.
  split; [done|]. split; [lia|done].
Qed.

Lemma whole_line_row G i :
  0 <= N2 G <= MAX_N2 -> (forall j, 1 <= j <= N2 G -> 0 <= cur_value (sq G i j) <= N2 G) ->
  whole_line LINESIZE (row_line G i).
Proof.
  intros HN Hv. unfold MAX_N2, MAX_N in HN.
  destruct (cells_spec G i (seqZ 1 (N2 G))) as (H1 & H2 & _).
  { intros j Hj. apply elem_of_seqZ' in Hj. specialize (Hv j ltac:(lia)). lia. }
  exists ("  " +:+ cells G i (seqZ 1 (N2 G)))%string. split; [|split].
  - unfold row_line. by rewrite append_assoc'.
  - by rewrite no_newline_append, H1.
  - rewrite length_append'. rewrite length_seqZ in H2. unfold LINESIZE. simpl. lia.
Qed.

Lemma whole_line_directive G :
  3 <= N G <= MAX_N -> whole_line LINESIZE ("//N=" +:+ pretty (N G) +:+ nl).
Proof.
  unfold MAX_N. intros HN.
  exists ("//N=" +:+ pretty (N G))%string. split; [by rewrite append_assoc'|].
  assert (N G = 3 \/ N G = 4 \/ N G = 5 \/ N G = 6) as [-> |[-> |[-> | ->]]] by lia;
    (split; [vm_compute; reflexivity|unfold LINESIZE; vm_compute; lia]).
Qed.

Lemma whole_printed_lines G :
  3 <= N G <= MAX_N -> N2 G = N G * N G ->
  (forall a b, on_board G a b -> 0 <= cur_value (sq G a b) <= N2 G) ->
  Forall (whole_line LINESIZE) (printed_lines G).
Proof.
  intros HN HN2 Hv. unfold printed_lines. apply Forall_app. split.
  - unfold header_lines. apply Forall_cons. split; [apply whole_line_nl|].
    destruct (N G =? 3); [done|].
    apply Forall_cons. split; [by apply whole_line_directive|].
    apply Forall_cons. split; [apply whole_line_nl|done].
  - unfold row_lines. apply Forall_forall. intros l Hl.
    apply list_elem_of_In, in_flat_map in Hl as (i & Hi & Hl).
    apply list_elem_of_In, elem_of_seqZ' in Hi.
    assert (0 <= N2 G <= MAX_N2) as HM by (unfold MAX_N2, MAX_N in *; nia).
    apply list_elem_of_In, elem_of_cons in Hl as [->|Hl].
    + apply whole_line_row; [done|]. intros j Hj. apply Hv. unfold on_board. lia.
    + destruct (band_end G i); [|by apply elem_of_nil in Hl].
      apply list_elem_of_singleton in Hl as ->. apply whole_line_nl.
Qed.

(** ** Loading the lines *)

Lemma get_line_cons G allowN l rest :
  get_line G allowN (l :: rest)
  = if starts_with2 "/" "/" l then
      if negb allowN then get_line G allowN rest
      else if negb (starts_with2 "N" "=" (advance 2 l)) then get_line G allowN rest
      else
        let n := atoi (advance 4 l) in
        if (3 <=? n) && (n <=? MAX_N) then get_line (init_board G n) allowN rest
        else Exit1
    else
      let t := trim_trailing l in
      match t with
      | EmptyString => get_line G allowN rest
      | _ => Ok (G, t, rest)
      end.
Proof. reflexivity. Qed.

Lemma load_rows_S fuel G i allowN file :
  load_rows (S fuel) G i allowN file
  = if i <=? N2 G then
      r ← get_line G allowN file;
      let '(G, linebuff, rest) := r in
      G ← load_row G i linebuff;
      load_rows fuel G (i + 1) false rest
    else Ok G.
Proof. reflexivity. Qed.

Lemma get_line_blank G allowN rest : get_line G allowN (nl :: rest) = get_line G allowN rest.
Proof. by rewrite get_line_cons. Qed.

Lemma load_rows_blank fuel G i allowN rest :
  load_rows fuel G i allowN (nl :: rest) = load_rows fuel G i allowN rest.
Proof. destruct fuel; [done|]. by rewrite !load_rows_S, get_line_blank. Qed.

Lemma load_rows_directive fuel G d n rest :
  starts_with2 "/" "/" d = true -> starts_with2 "N" "=" (advance 2 d) = true ->
  atoi (advance 4 d) = n -> 3 <= n <= MAX_N -> 1 <= N2 G ->
  load_rows (S fuel) G 1 true (d :: nl :: rest)
  = load_rows (S fuel) (init_board G n) 1 true rest.
Proof.
  intros H1 H2 H3 Hn HN. rewrite !load_rows_S.
  pose proof (init_board_spec G n) as (_ & HN2 & _). cbv zeta in HN2.
  replace (1 <=? N2 G) with true by lia.
  replace (1 <=? N2 (init_board G n)) with true by (rewrite HN2; nia).
  rewrite (get_line_cons G true d), H1, H2, H3. cbv zeta. cbn [negb].
  replace ((3 <=? n) && (n <=? MAX_N)) with true by lia.
  by rewrite get_line_blank.
Qed.

Lemma squeeze_glyphs G i js :
  (forall j, j ∈ js -> 0 <= cur_value (sq G i j) <= 64) ->
  squeeze (glyphs G i js) = glyphs G i js.
Proof.
  induction js as [|j js IH]; intros Hv; [done|]. cbn [glyphs squeeze].
  destruct (glyph_spec (cur_value (sq G i j))) as (-> & _); [apply Hv; left|].
  rewrite IH; [done|]. intros j' Hj'. apply Hv. by right.
Qed.

Lemma squeeze_row_line G i :
  (forall j, 1 <= j <= N2 G -> 0 <= cur_value (sq G i j) <= 64) ->
  squeeze (row_line G i) = glyphs G i (seqZ 1 (N2 G)).
Proof.
  intros Hv. unfold row_line. rewrite !squeeze_append.
  destruct (cells_spec G i (seqZ 1 (N2 G))) as (_ & _ & ->).
  { intros j Hj. apply elem_of_seqZ' in Hj. apply Hv. lia. }
  change (squeeze "  ") with ""%string. change (squeeze nl) with ""%string.
  by rewrite append_nil_l, append_nil_r'.
Qed.

Lemma get_glyphs G i (len : nat) : forall m k,
  (k < len)%nat ->
  String.get k (glyphs G i (seqZ m (Z.of_nat len)))
  = Some (glyph (cur_value (sq G i (m + Z.of_nat k)))).
Proof.
  induction len as [|len IH]; intros m k Hk; [lia|].
  rewrite seqZ_cons by lia. cbn [glyphs].
  replace (Z.pred (Z.of_nat (S len))) with (Z.of_nat len) by lia.
  destruct k as [|k]; cbn [String.get].
  - by replace (m + Z.of_nat 0) with m by lia.
  - rewrite IH by lia. by replace (Z.succ m + Z.of_nat k) with (m + Z.of_nat (S k)) by lia.
Qed.

Lemma get_line_row G i Gc allowN rest :
  1 <= N2 G -> (forall j, 1 <= j <= N2 G -> 0 <= cur_value (sq G i j) <= 64) ->
  get_line Gc allowN (row_line G i :: rest) = Ok (Gc, trim_trailing (row_line G i), rest).
Proof.
  intros HN Hv. rewrite get_line_cons.
  assert (starts_with2 "/" "/" (row_line G i) = false) as -> by (unfold row_line; by str).
  cbv zeta. pose proof (squeeze_trim_trailing (row_line G i) (row_line_no_nul G i Hv)) as Hs.
  rewrite (squeeze_row_line G i Hv) in Hs.
  destruct (trim_trailing (row_line G i)) as [|x t]; [|done].
  exfalso. rewrite seqZ_cons in Hs by lia. discriminate.
Qed.

Lemma load_glyph_columns_ok G i (len : nat) : forall Gc m,
  N2 Gc = N2 G -> N2 G <= 64 ->
  (forall b, m <= b < m + Z.of_nat len -> 0 <= cur_value (sq G i b) <= N2 G) ->
  exists G' c',
    ofold (fun '(G, c) j => load_square G i j c)
          (Gc, glyphs G i (seqZ m (Z.of_nat len))) (seqZ m (Z.of_nat len))
    = Ok (G', c').
Proof.
  induction len as [|len IH]; intros Gc m HNc HN Hv; [by eexists _, _|].
  rewrite seqZ_cons by lia. cbn [ofold glyphs].
  replace (Z.pred (Z.of_nat (S len))) with (Z.of_nat len) by lia.
  destruct (glyph_spec (cur_value (sq G i m))) as (Hs & _);
    [specialize (Hv m ltac:(lia)); lia|].
  rewrite load_square_spec. cbn [squeeze skip_spaces]. rewrite Hs.
  rewrite char_ok_glyph by (rewrite ?HNc; try done; apply Hv; lia).
  cbn [next mbind outcome_bind obind].
  apply IH; [by destruct (char_frozen _)|done|]. intros b Hb. apply Hv. lia.
Qed.

Lemma load_printed_row G i Gc :
  N2 Gc = N2 G -> 0 <= N2 G <= 64 ->
  (forall b, 1 <= b <= N2 G -> 0 <= cur_value (sq G i b) <= N2 G) ->
  exists G1,
    load_row Gc i (trim_trailing (row_line G i)) = Ok G1
    /\ N2 G1 = N2 Gc /\ N G1 = N Gc
    /\ (forall b, 1 <= b <= N2 G ->
          cur_value (sq G1 i b) = cur_value (sq G i b)
          /\ frozen (sq G1 i b) = negb (cur_value (sq G i b) =? 0))
    /\ (forall a b, a <> i -> sq G1 a b = sq Gc a b).
Proof.
  intros HNc HN Hv.
  assert (forall j, 1 <= j <= N2 G -> 0 <= cur_value (sq G i j) <= 64) as Hv64
    by (intros j Hj; specialize (Hv j Hj); lia).
  rewrite (load_row_squeeze Gc i _ (glyphs G i (seqZ 1 (N2 G)))).
  2: { rewrite squeeze_trim_trailing, squeeze_row_line by (done || by apply row_line_no_nul).
       symmetry. apply squeeze_glyphs. intros j Hj. apply elem_of_seqZ' in Hj.
       apply Hv64. lia. }
  unfold load_row. rewrite HNc.
  assert (N2 G = Z.of_nat (Z.to_nat (N2 G))) as Elen by lia.
  destruct (load_glyph_columns_ok G i (Z.to_nat (N2 G)) Gc 1 HNc ltac:(lia)) as (G' & c' & H).
  { intros b Hb. apply Hv. lia. }
  rewrite <- Elen in H. rewrite H. cbn [mbind outcome_bind obind fst].
  exists G'. split; [done|]. rewrite Elen in H.
  apply load_columns_contents in H as (EN2 & _ & EN & Hcols & Hothers).
  split; [congruence|]. split; [done|]. split.
  - intros b Hb. destruct (Hcols (Z.to_nat (b - 1)) ltac:(lia)) as (x & Hget & _ & Hval & Hfr & _).
    rewrite <- Elen in Hget. rewrite squeeze_glyphs in Hget.
    2: { intros j Hj. apply elem_of_seqZ' in Hj. apply Hv64. lia. }
    rewrite Elen in Hget. rewrite get_glyphs in Hget by lia. injection Hget as <-.
    replace (1 + Z.of_nat (Z.to_nat (b - 1))) with b in * by lia.
    destruct (glyph_spec (cur_value (sq G i b))) as (_ & _ & H3 & H4 & _); [by apply Hv64|].
    by rewrite Hval, Hfr, H3, H4.
  - intros a b Ha. apply Hothers. by left.
Qed.

Lemma load_printed_rows G (k : nat) : forall fuel Gc i allowN,
  (k <= fuel)%nat -> i + Z.of_nat k = N2 G + 1 -> 1 <= i ->
  N2 Gc = N2 G -> N2 G <= 64 ->
  (forall a b, on_board G a b -> 0 <= cur_value (sq G a b) <= N2 G) ->
  exists G',
    load_rows fuel Gc i allowN (row_lines G (seqZ i (Z.of_nat k))) = Ok G'
    /\ N2 G' = N2 Gc /\ N G' = N Gc
    /\ (forall r b, i <= r <= N2 G -> 1 <= b <= N2 G ->
          cur_value (sq G' r b) = cur_value (sq G r b)
          /\ frozen (sq G' r b) = negb (cur_value (sq G r b) =? 0))
    /\ (forall r b, r < i -> sq G' r b = sq Gc r b).
Proof.
  induction k as [|k IH]; intros fuel Gc i allowN Hfuel Hi H1 HNc HN Hv.
  - exists Gc. split.
    + destruct fuel; [cbn [load_rows]|rewrite load_rows_S];
        by replace (i <=? N2 Gc) with false by lia.
    + repeat split; try done; lia.
  - destruct fuel as [|fuel]; [lia|].
    rewrite seqZ_cons by lia. rewrite row_lines_cons.
    replace (Z.pred (Z.of_nat (S k))) with (Z.of_nat k) by lia.
    unfold row_lines at 1. cbn [flat_map]. rewrite app_nil_r. cbn [app].
    rewrite load_rows_S. replace (i <=? N2 Gc) with true by lia.
    assert (forall b, 1 <= b <= N2 G -> 0 <= cur_value (sq G i b) <= N2 G) as Hrow
      by (intros b Hb; apply Hv; unfold on_board; lia).
    rewrite get_line_row; [|lia|intros j Hj; specialize (Hrow j Hj); lia].
    cbn [mbind outcome_bind obind].
    destruct (load_printed_row G i Gc HNc ltac:(lia) Hrow) as (G1 & -> & EN2 & EN & Hnew & Hold).
    cbn [mbind outcome_bind obind].
    assert (load_rows fuel G1 (i + 1) false
              ((if band_end G i then [nl] else []) ++ row_lines G (seqZ (Z.succ i) (Z.of_nat k)))
            = load_rows fuel G1 (i + 1) false (row_lines G (seqZ (Z.succ i) (Z.of_nat k)))) as ->.
    { destruct (band_end G i); [|done]. cbn [app]. apply load_rows_blank. }
    replace (Z.succ i) with (i + 1) by lia.
    destruct (IH fuel G1 (i + 1) false ltac:(lia) ltac:(lia) ltac:(lia) ltac:(congruence) HN Hv)
      as (G' & -> & EN2' & EN' & Hnew' & Hold').
    exists G'. split; [done|]. split; [congruence|]. split; [congruence|]. split.
    + intros r b Hr Hb. destruct (decide (r = i)) as [->|Hne].
      * rewrite Hold' by lia. by apply Hnew.
      * apply Hnew'; lia.
    + intros r b Hr. rewrite Hold' by lia. apply Hold. lia.
Qed.

Lemma load_printed_lines G0 G :
  3 <= N G <= MAX_N -> N2 G = N G * N G ->
  (forall a b, on_board G a b -> 0 <= cur_value (sq G a b) <= N2 G) ->
  exists G',
    load_file (init_board G0 3) (printed_lines G) true = Ok G'
    /\ N G' = N G /\ N2 G' = N2 G
    /\ forall a b, on_board G a b ->
         cur_value (sq G' a b) = cur_value (sq G a b)
         /\ frozen (sq G' a b) = negb (cur_value (sq G a b) =? 0).
Proof.
  intros HN HN2 Hv. unfold MAX_N in HN.
  assert (N2 G <= 36) as H36 by nia.
  assert (exists Gc, load_file (init_board G0 3) (printed_lines G) true
                     = load_rows 36 Gc 1 true (row_lines G (seqZ 1 (N2 G)))
                     /\ N Gc = N G /\ N2 Gc = N2 G) as (Gc & -> & ENc & EN2c).
  { unfold load_file, printed_lines, header_lines.
    change (Z.to_nat MAX_N2) with 36%nat. cbn [app]. rewrite load_rows_blank.
    pose proof (init_board_spec G0 3) as (E3 & E9 & _). cbv zeta in E3, E9.
    destruct (N G =? 3) eqn:E.
    - exists (init_board G0 3). split; [done|]. split; [lia|]. rewrite E9, HN2. nia.
    - exists (init_board (init_board G0 3) (N G)). cbn [app].
      pose proof (init_board_spec (init_board G0 3) (N G)) as (EN & EN2 & _).
      cbv zeta in EN, EN2. split; [|split; [done|congruence]].
      assert (N G = 4 \/ N G = 5 \/ N G = 6) as HG by lia.
      apply load_rows_directive; [| | |unfold MAX_N; lia|lia];
        destruct HG as [-> |[-> | ->]]; vm_compute; reflexivity. }
  assert (N2 G = Z.of_nat (Z.to_nat (N2 G))) as Elen by nia.
  destruct (load_printed_rows G (Z.to_nat (N2 G)) 36 Gc 1 true ltac:(lia) ltac:(lia) ltac:(lia)
              EN2c ltac:(lia) Hv) as (G' & H & EN2 & EN & Hnew & _).
  rewrite <- Elen in H. exists G'. split; [done|]. split; [congruence|]. split; [congruence|].
  intros a b [Ha Hb]. apply Hnew; lia.
Qed.

(** X19.  A printed board can be read back.  Take a board of subsquare
    size 3 to 6 whose squares hold 0 or a value of the alphabet.  Then
    [print_board] fails no assertion, and when the text it writes is read
    line by line with [fgets] and a buffer of [LINESIZE] characters, as
    [get_line] does, [load_file] accepts it, also for a size other than 3,
    which the printed directive [//N=] restores: the loaded board has the
    size and the values of the printed one, and exactly its nonempty
    squares are frozen. *)
Theorem printed_board_loads (G0 G : Game) :
  3 <= N G <= MAX_N -> N2 G = N G * N G ->
  (forall a b, on_board G a b -> 0 <= cur_value (sq G a b) <= N2 G) ->
  exists text G',
    print_board G = Ok text
    /\ load_file (init_board G0 3) (fgets_lines LINESIZE text) true = Ok G'
    /\ N G' = N G /\ N2 G' = N2 G
    /\ forall a b, on_board G a b ->
         cur_value (sq G' a b) = cur_value (sq G a b)
         /\ frozen (sq G' a b) = negb (cur_value (sq G a b) =? 0).
Proof.
  intros HN HN2 Hv.
  destruct (load_printed_lines G0 G HN HN2 Hv) as (G' & Hload & H).
  exists (concat_lines (printed_lines G)), G'. split.
  - apply print_board_eq; [unfold MAX_N in HN; nia|done].
  - by rewrite fgets_lines_concat by (by apply whole_printed_lines).
Qed.

Lemma printed_board_loads_witness :
  exists text G',
    print_board (loaded usage_file) = Ok text
    /\ load_file (init_board zero_game 3) (fgets_lines LINESIZE text) true = Ok G'
    /\ N G' = N (loaded usage_file) /\ N2 G' = N2 (loaded usage_file)
    /\ forall a b, on_board (loaded usage_file) a b ->
         cur_value (sq G' a b) = cur_value (sq (loaded usage_file) a b)
         /\ frozen (sq G' a b) = negb (cur_value (sq (loaded usage_file) a b) =? 0).
Proof.
  apply (printed_board_loads zero_game (loaded usage_file)).
  - vm_compute. split; discriminate.
  - vm_compute. reflexivity.
  - intros a b [Ha Hb].
    destruct (main_loaded 0 0 usage_file (loaded usage_file)) as [_ (_ & _ & H)];
      [apply loaded_run; vm_compute; reflexivity|].
    apply H; lia.
Defined.

(** * Restricting and releasing *)

Lemma restrict_release G row col piece piece' :
  neighbors_built G -> on_board G row col -> frozen (sq G row col) = false ->
  (forall a b, (a, b) ∈ neighbor (sq G row col) -> frozen (sq G a b) = false ->
     0 <= topmask (sq G a b) /\ topmask (sq G a b) + 1 < MAX_NUM_NEIGHBORS) ->
  exists G1 G2,
    update_neighbors G row col piece false = Ok G1
    /\ update_neighbors G1 row col piece' true = Ok G2
    /\ (forall a b, (a, b) ∈ neighbor (sq G row col) -> frozen (sq G a b) = false ->
          topmask (sq G1 a b) = topmask (sq G a b) + 1
          /\ top_mask (sq G1 a b) = Z.land (top_mask (sq G a b)) (bnot64 (bit piece)))
    /\ forall a b,
         topmask (sq G2 a b) = topmask (sq G a b)
         /\ cur_value (sq G2 a b) = cur_value (sq G a b)
         /\ frozen (sq G2 a b) = frozen (sq G a b)
         /\ neighbor (sq G2 a b) = neighbor (sq G a b)
         /\ num_candidates (sq G2 a b) = num_candidates (sq G a b)
         /\ forall t, t <= topmask (sq G a b) -> cand (sq G2 a b) t = cand (sq G a b) t.
Proof.
  intros HB Hon Hf Hcan.
  destruct (update_neighbors_ok G row col piece false HB Hon Hf) as (G1 & H1).
  { intros [a b] Hc Hfc. by apply Hcan. }
  pose proof (update_neighbors_spec G row col piece false G1 HB Hon H1) as S1.
  pose proof (update_neighbors_keeps_values G row col piece false G1 H1) as HK.
  pose proof (keeps_values_frozen _ _ HK) as HKf.
  pose proof (neighbors_built_kept _ _ HKf HB) as HB1.
  destruct HK as [[[(_ & EN2 & _) Hnb] Hfl] _].
  assert (on_board G1 row col) as Hon1 by (unfold on_board in *; by rewrite EN2).
  assert (neighbor (sq G1 row col) = neighbor (sq G row col)) as Enb by apply Hnb.
  destruct (update_neighbors_ok G1 row col piece' true HB1 Hon1) as (G2 & H2).
  { by rewrite Hfl. }
  { intros [a b] Hc Hfc. simpl in *. rewrite Enb in Hc. rewrite Hfl in Hfc.
    rewrite S1, decide_True by done. unfold can_move. simpl.
    destruct (Hcan a b Hc Hfc). lia. }
  pose proof (update_neighbors_spec G1 row col piece' true G2 HB1 Hon1 H2) as S2.
  exists G1, G2. split; [done|]. split; [done|]. split.
  - intros a b Hc Hfc. rewrite S1, decide_True by done.
    unfold top_mask, cand. simpl. by rewrite aget_aset_eq.
  - intros a b. rewrite S2, Enb, Hfl, S1.
    destruct (decide ((a, b) ∈ neighbor (sq G row col) /\ frozen (sq G a b) = false));
      [|repeat split; done].
    simpl. repeat split; try done; [lia|].
    intros t Ht. unfold cand. simpl. apply aget_aset_ne. lia.
Qed.

(** X20.  Releasing undoes restricting.  Let square (row, col) be an
    unfrozen square of a board with the neighbor arrays of [init_board],
    and let every unfrozen neighbor have a frame on its candidate stack and
    room for one more.  Then [update_neighbors] with [make_avail] false
    pushes on every unfrozen neighbor a copy of its top mask without the
    bit of the piece, and a following call with [make_avail] true, whatever
    piece it names, pops these frames: every square of the board has its
    stack depth, value, flags and neighbors back, and every frame up to the
    top of its stack. *)
Theorem release_undoes_restrict (G : Game) (row col piece piece' : Z) :
  neighbors_built G -> on_board G row col -> frozen (sq G row col) = false ->
  (forall a b, (a, b) ∈ neighbor (sq G row col) -> frozen (sq G a b) = false ->
     0 <= topmask (sq G a b) /\ topmask (sq G a b) + 1 < MAX_NUM_NEIGHBORS) ->
  exists G1 G2,
    update_neighbors G row col piece false = Ok G1
    /\ update_neighbors G1 row col piece' true = Ok G2
    /\ (forall a b, (a, b) ∈ neighbor (sq G row col) -> frozen (sq G a b) = false ->
          topmask (sq G1 a b) = topmask (sq G a b) + 1
          /\ top_mask (sq G1 a b) = Z.land (top_mask (sq G a b)) (bnot64 (bit piece)))
    /\ forall a b,
         topmask (sq G2 a b) = topmask (sq G a b)
         /\ cur_value (sq G2 a b) = cur_value (sq G a b)
         /\ frozen (sq G2 a b) = frozen (sq G a b)
         /\ neighbor (sq G2 a b) = neighbor (sq G a b)
         /\ num_candidates (sq G2 a b) = num_candidates (sq G a b)
         /\ forall t, t <= topmask (sq G a b) -> cand (sq G2 a b) t = cand (sq G a b) t.
Proof. apply restrict_release. Qed.

Lemma release_undoes_restrict_witness :
  exists G1 G2,
    update_neighbors (preprocessed 40 (loaded dead_end_file)) 1 1 2 false = Ok G1
    /\ update_neighbors G1 1 1 2 true = Ok G2
    /\ (forall a b, (a, b) ∈ neighbor (sq (preprocessed 40 (loaded dead_end_file)) 1 1) ->
          frozen (sq (preprocessed 40 (loaded dead_end_file)) a b) = false ->
          topmask (sq G1 a b) = topmask (sq (preprocessed 40 (loaded dead_end_file)) a b) + 1
          /\ top_mask (sq G1 a b)
             = Z.land (top_mask (sq (preprocessed 40 (loaded dead_end_file)) a b))
                      (bnot64 (bit 2)))
    /\ forall a b,
         topmask (sq G2 a b) = topmask (sq (preprocessed 40 (loaded dead_end_file)) a b)
         /\ cur_value (sq G2 a b) = cur_value (sq (preprocessed 40 (loaded dead_end_file)) a b)
         /\ frozen (sq G2 a b) = frozen (sq (preprocessed 40 (loaded dead_end_file)) a b)
         /\ neighbor (sq G2 a b) = neighbor (sq (preprocessed 40 (loaded dead_end_file)) a b)
         /\ num_candidates (sq G2 a b)
            = num_candidates (sq (preprocessed 40 (loaded dead_end_file)) a b)
         /\ forall t, t <= topmask (sq (preprocessed 40 (loaded dead_end_file)) a b) ->
              cand (sq G2 a b) t = cand (sq (preprocessed 40 (loaded dead_end_file)) a b) t.
Proof.
  assert (ready (save_board (loaded dead_end_file))) as HR.
  { split; [apply neighbors_built_b_spec; vm_compute; reflexivity|].
    split; [vm_compute; discriminate|].
    apply clues_frozen_unfrozen_empty. vm_compute. reflexivity. }
  destruct (preprocess_board_end 40 (save_board (loaded dead_end_file))
              (preprocessed 40 (loaded dead_end_file)) HR) as [(HB & _) [_ Htop]];
    [apply reports_solvable_run; vm_compute; reflexivity|].
  assert (on_board (preprocessed 40 (loaded dead_end_file)) 1 1) as Hon
    by (vm_compute; repeat split; discriminate).
  apply (release_undoes_restrict (preprocessed 40 (loaded dead_end_file)) 1 1 2 2).
  - exact HB.
  - exact Hon.
  - vm_compute. reflexivity.
  - intros a b Hc Hf. rewrite Htop; [unfold MAX_NUM_NEIGHBORS, MAX_N2, MAX_N; lia| |done].
    by apply (neighbors_built_spec _ 1 1 HB Hon).
Defined.

(** * Which solution the search returns *)

Lemma search_least fs G G' S :
  ready G -> base_exact G -> is_solution G S -> extends G S ->
  find_solution fs G = Ok G' -> first_in_scan_order G (values G') S.
Proof.
  intros HR HE HS He H.
  pose proof (not_past_start G S HR HE HS He) as Hstart.
  pose proof H as Hflags. apply search_run_keeps_flags in Hflags. simpl in Hflags.
  destruct Hflags as [[(_ & EN2 & _) Hk] Hfl].
  apply search_run_steps in H as (n & s' & Hn & Hlast).
  apply search_step_done in Hlast as [-> Hi].
  pose proof (not_past_steps n _ _ S Hstart Hn) as (Hinv & _ & He' & Hpos).
  destruct Hinv as ((_ & _ & Hin & Hall) & _).
  assert (forall a b, on_board G a b -> on_board (sG s') a b /\ before a b (si s') (sj s'))
    as Hon.
  { intros a b [Ha Hb]. unfold on_board, before. rewrite EN2. lia. }
  assert (forall a b, on_board G a b ->
            frozen (sq (sG s') a b) = true \/ (a, b) ∈ stack s') as Hcase.
  { intros a b Hab. destruct (Hon a b Hab) as [Hab' Hbef].
    destruct (frozen (sq (sG s') a b)) eqn:Hf; [by left|right]. by apply Hall. }
  destruct Hpos as [(Hstk & _)|(a & b & Hab & Hlt & Hbefore)].
  - left. intros a b Hab. destruct (Hcase a b Hab) as [Hf|Hs].
    + apply He'; [by apply Hon|done].
    + by apply Hstk.
  - right. exists a, b. destruct (Hin a b Hab) as (Hab' & _).
    split; [unfold on_board in *; by rewrite <- EN2|]. split; [done|].
    intros c d Hcd Hbef. destruct (Hcase c d Hcd) as [Hf|Hs].
    + apply He'; [by apply Hon|done].
    + by apply Hbefore.
Qed.

Lemma solve_least fp fs G S rep G' :
  loaded_ok G -> is_solution G S -> extends G S ->
  solve fp fs G = Ok (rep, G') -> first_in_scan_order G (values G') S.
Proof.
  intros HL HS He H.
  destruct (solvable_run fp fs G S rep G' HL HS He H) as (-> & _).
  unfold solve in H.
  destruct (verify_solution (save_board G) false) as [[]| | | |]; try discriminate.
  simpl in H. apply obind_Ok in H as ([G1 ok] & Hp & H).
  pose proof (loaded_ok_ready G HL) as HR.
  pose proof (is_solution_save_board G S HS) as HS0.
  pose proof (extends_save_board G S He) as He0.
  destruct (preprocess_board_sound fp (save_board G) S G1 ok HR HS0 He0 Hp) as [-> He1].
  simpl in H. apply obind_Ok in H as (G2 & Hs & H).
  destruct (preprocess_board_end fp (save_board G) G1 HR Hp) as [HR1 HE1].
  pose proof Hp as Hframe.
  apply preprocess_board_keeps_frozen in Hframe as [(EN & EN2 & _) _].
  assert (is_solution G1 S) as HS1 by (by eapply is_solution_frame).
  change (N2 (save_board G)) with (N2 G) in EN2.
  assert (G' = G2) as ->.
  { destruct (negb (verify_solution_to_our_problem G2)); [discriminate|].
    apply obind_Ok in H as (full & _ & H). destruct (negb full); [discriminate|].
    by injection H as <-. }
  pose proof (search_least fs G1 G2 S HR1 HE1 HS1 He1 Hs) as Hleast.
  unfold first_in_scan_order in *.
  destruct Hleast as [Hall|(a & b & Hab & Hlt & Hbef)].
  - left. intros a b Hab. apply Hall. unfold on_board in *. by rewrite EN2.
  - right. exists a, b. split; [unfold on_board in *; by rewrite <- EN2|]. split; [done|].
    intros c d Hcd. apply Hbef. unfold on_board in *. by rewrite EN2.
Qed.

(** X21.  Which solution is printed.  If the file loads and [S] is any
    solved Sudoku that keeps its clues, then the board that a returning
    run of [main] prints comes first in reading order: it is [S], or at
    the first square, row by row, where it differs from [S] it holds the
    smaller value.  So a puzzle with one solution gets that solution, and
    one with several gets the least of them. *)
Theorem least_solution_printed (fp fs : nat) (file : list string) (G G' : Game)
    (S : Z -> Z -> Z) (rep : report) :
  load_file (init_board zero_game 3) file true = Ok G ->
  is_solution G S -> extends G S ->
  main fp fs file = Ok (rep, G') ->
  first_in_scan_order G (values G') S.
Proof.
  intros Hload HS He H. destruct (main_loaded fp fs file G Hload) as [E HL].
  rewrite E in H. by eapply solve_least.
Qed.

Lemma least_solution_printed_witness :
  first_in_scan_order (loaded usage_file) (values (game_of (main 40 2000 usage_file)))
    (values (searched 2000 (preprocessed 40 (loaded usage_file)))).
Proof.
  apply (least_solution_printed 40 2000 usage_file (loaded usage_file)
           (game_of (main 40 2000 usage_file))
           (values (searched 2000 (preprocessed 40 (loaded usage_file)))) Solved).
  - apply loaded_run. vm_compute. reflexivity.
  - apply usage_solution.
  - apply usage_solution.
  - apply main_run. vm_compute. reflexivity.
Defined.

(** * The sums of candidates in the statistics *)

Lemma sum_fold (G : Game) (f : Z * Z -> Z) (l : list (Z * Z)) : forall s,
  foldl (fun s c => if frozen (sq G c.1 c.2) then s else s + f c) s l
  = s + foldr Z.add 0 (map f (filter (fun c => frozen (sq G c.1 c.2) = false) l)).
Proof.
  induction l as [|c l IH]; intros s; cbn [foldl]; [simpl; lia|].
  rewrite IH, filter_cons. destruct (frozen (sq G c.1 c.2)) eqn:Hf.
  - by rewrite decide_False by congruence.
  - rewrite decide_True by done. cbn [map foldr]. lia.
Qed.

Lemma sum_ext (f g : Z * Z -> Z) (l : list (Z * Z)) :
  (forall c, c ∈ l -> f c = g c) -> foldr Z.add 0 (map f l) = foldr Z.add 0 (map g l).
Proof.
  induction l as [|c l IH]; intros H; [done|]. cbn [map foldr].
  rewrite (H c) by left. rewrite IH; [done|]. intros c' Hc'. apply H. by right.
Qed.

Lemma free_total_same G G' :
  N2 G' = N2 G ->
  (forall a b, cur_value (sq G' a b) = cur_value (sq G a b)
               /\ frozen (sq G' a b) = frozen (sq G a b)
               /\ neighbor (sq G' a b) = neighbor (sq G a b)) ->
  free_total G' = free_total G.
Proof.
  intros EN2 Hsq. unfold free_total, all_squares, free_values. rewrite EN2.
  assert (filter (fun c => frozen (sq G' c.1 c.2) = false)
            (flat_map (fun i => map (fun j => (i, j)) (seqZ 1 (N2 G))) (seqZ 1 (N2 G)))
          = filter (fun c => frozen (sq G c.1 c.2) = false)
              (flat_map (fun i => map (fun j => (i, j)) (seqZ 1 (N2 G))) (seqZ 1 (N2 G)))) as ->.
  { apply list_filter_iff. intros [a b]. simpl. by rewrite (proj1 (proj2 (Hsq a b))). }
  apply sum_ext. intros [a b] _. simpl. f_equal. f_equal.
  rewrite (proj2 (proj2 (Hsq a b))).
  apply list_filter_iff. intros v. split; intros H; eapply Forall_impl; try exact H;
    intros d Hd; simpl in *; by rewrite ?(proj1 (Hsq d.1 d.2)) in *.
Qed.

Lemma free_total_values G G' : keeps_values G G' -> free_total G' = free_total G.
Proof.
  intros [[[(_ & EN2 & _) Hnb] Hfl] Hv]. apply free_total_same; [done|].
  intros a b. split; [apply Hv|]. split; [apply Hfl|apply Hnb].
Qed.

(** With exact base masks and counts the sum that
    [compute_candidate_stats] computes is the number of free values. *)
Lemma candidate_sum_free G :
  counted_masks G -> base_exact G ->
  foldl (fun s c => let p := sq G c.1 c.2 in
                    if frozen p then s else s + num_candidates p) 0 (all_squares G)
  = free_total G.
Proof.
  intros HC [HE Htop]. cbv zeta.
  rewrite (sum_fold G (fun c => num_candidates (sq G c.1 c.2))). rewrite Z.add_0_l.
  unfold free_total. apply sum_ext. intros [a b] Hc. simpl.
  apply list_elem_of_filter in Hc as [Hf Hon]. simpl in Hf.
  apply elem_of_all_squares in Hon.
  rewrite (HC a b Hon Hf). unfold popcount, free_values. f_equal.
  apply filter_length_ext_in. intros v Hv. apply elem_of_seqZ' in Hv.
  specialize (HE a b Hon Hf v ltac:(lia)). unfold top_mask in HE.
  rewrite (Htop a b Hon Hf) in HE. rewrite HE. simpl. rewrite Forall_forall. done.
Qed.

Lemma check_for_only_one_candidate_sum G :
  sum_num_candidates_originally (stats (check_for_only_one_candidate G).1)
  = sum_num_candidates_originally (stats G).
Proof.
  unfold check_for_only_one_candidate.
  apply (foldl_invariant (fun r : Game * bool =>
           sum_num_candidates_originally (stats r.1) = sum_num_candidates_originally (stats G)));
    [done|].
  intros [G1 r] c _ H. simpl in *.
  destruct (negb (frozen (sq G1 c.1 c.2)) && (num_candidates (sq G1 c.1 c.2) =? 1));
    simpl; [|done].
  by rewrite <- H.
Qed.

Lemma try_units_sum G c units :
  sum_num_candidates_originally (stats (try_units G c units).1)
  = sum_num_candidates_originally (stats G).
Proof.
  induction units as [|u rest IH]; simpl; [done|].
  destruct (scan_unit G u) as [seen index].
  destruct (seen_once G seen) as [k|]; [|done].
  destruct (default (0, 0) (index !! k)) as [row col]. simpl. by destruct c.
Qed.

Lemma preprocess_loop_sums fuel G first G' nc :
  ready G -> preprocess_loop fuel G first = Ok (G', nc) ->
  sum_num_candidates_originally (stats G')
  = (if first then free_total G else sum_num_candidates_originally (stats G))
  /\ (nc = false -> counted_masks G' /\ base_exact G').
Proof.
  revert G first. induction fuel as [|fuel IH]; intros G first HR; simpl; [discriminate|].
  pose proof (find_candidates_counted_masks G HR) as HC.
  destruct (find_candidates_base_exact G HR) as [HR0 HE0].
  pose proof (find_candidates_stats G) as Hst.
  pose proof (free_total_values _ _ (find_candidates_keeps_values G)) as Hfree.
  destruct (find_candidates G) as [G0 ok]. simpl in HC, HR0, HE0, Hst, Hfree.
  set (G1 := if first then compute_candidate_stats G0 true else G0).
  assert (counted_masks G1) as HC1
    by (subst G1; destruct first; [by apply counted_masks_stats|done]).
  assert (ready G1) as HR1.
  { subst G1. destruct first; [|done].
    eapply ready_values; [apply compute_candidate_stats_keeps_values|done]. }
  assert (base_exact G1) as HE1 by (subst G1; destruct first; [by apply base_exact_stats|done]).
  assert (sum_num_candidates_originally (stats G1)
          = if first then free_total G else sum_num_candidates_originally (stats G)) as Hsum.
  { subst G1. destruct first; [|by rewrite Hst].
    rewrite <- Hfree, <- (candidate_sum_free G0 HC HE0). reflexivity. }
  clearbody G1. clear HC HR0 HE0 Hst Hfree G0.
  assert (forall G2, ready G2 ->
            sum_num_candidates_originally (stats G2) = sum_num_candidates_originally (stats G1) ->
            preprocess_loop fuel G2 false = Ok (G', nc) ->
            sum_num_candidates_originally (stats G')
            = (if first then free_total G else sum_num_candidates_originally (stats G))
            /\ (nc = false -> counted_masks G' /\ base_exact G')) as Hrec.
  { intros G2 HR2 Hs2 H2. destruct (IH G2 false HR2 H2) as [Hs Hc]. split; [|done].
    by rewrite Hs, Hs2. }
  destruct ok; simpl; [|intros [= <- <-]; split; [done|discriminate]].
  pose proof (check_for_only_one_candidate_sum G1) as Hs2.
  pose proof (check_for_only_one_candidate_ready G1 HR1) as Hr2.
  pose proof (check_for_only_one_candidate_false G1) as Hf2.
  destruct (check_for_only_one_candidate G1) as [G2 c2]. simpl in *.
  destruct c2; [by apply Hrec|].
  rewrite (Hf2 eq_refl). clear Hs2 Hr2 Hf2 G2.
  unfold try_row_optimization, try_column_optimization, try_subsquare_optimization.
  pose proof (try_units_sum G1 RowOpt (all_rows G1)) as Hs3.
  pose proof (try_units_ready G1 RowOpt (all_rows G1) HR1) as Hr3.
  pose proof (try_units_false G1 RowOpt (all_rows G1)) as Hf3.
  destruct (try_units G1 RowOpt (all_rows G1)) as [G3 c3]. simpl in *.
  destruct c3; [by apply Hrec|].
  rewrite (Hf3 eq_refl). clear Hs3 Hr3 Hf3 G3.
  pose proof (try_units_sum G1 ColumnOpt (all_columns G1)) as Hs4.
  pose proof (try_units_ready G1 ColumnOpt (all_columns G1) HR1) as Hr4.
  pose proof (try_units_false G1 ColumnOpt (all_columns G1)) as Hf4.
  destruct (try_units G1 ColumnOpt (all_columns G1)) as [G4 c4]. simpl in *.
  destruct c4; [by apply Hrec|].
  rewrite (Hf4 eq_refl). clear Hs4 Hr4 Hf4 G4.
  pose proof (try_units_sum G1 SubsquareOpt (all_subsquares G1)) as Hs5.
  pose proof (try_units_ready G1 SubsquareOpt (all_subsquares G1) HR1) as Hr5.
  pose proof (try_units_false G1 SubsquareOpt (all_subsquares G1)) as Hf5.
  destruct (try_units G1 SubsquareOpt (all_subsquares G1)) as [G5 c5]. simpl in *.
  destruct c5; [by apply Hrec|].
  intros [= <- <-]. rewrite (Hf5 eq_refl). done.
Qed.

Lemma preprocess_board_sums fp G G1 ok :
  ready G -> preprocess_board fp G = Ok (G1, ok) ->
  sum_num_candidates_originally (stats G1) = free_total G
  /\ (ok = true -> sum_num_candidates_after_optimization (stats G1) = free_total G1).
Proof.
  intros HR H. unfold preprocess_board in H.
  apply obind_Ok in H as ([G' nc] & Hloop & H). injection H as <- <-.
  destruct (preprocess_loop_sums fp G true G' nc HR Hloop) as [Hs Hc]. split; [exact Hs|].
  intros Hnc. destruct nc; [discriminate|]. destruct (Hc eq_refl) as [HC HE].
  rewrite (free_total_values G' (compute_candidate_stats G' false))
    by apply compute_candidate_stats_keeps_values.
  rewrite <- (candidate_sum_free G' HC HE). reflexivity.
Qed.

(** X22.  The sums of candidates are right.  After [preprocess_board] on
    a board with the neighbor arrays of [init_board], at most 64 values and
    no value on an unfrozen square, the statistic "sum of no. candidates"
    of the original board is the number of pairs of an unfrozen square of
    that board and a value that none of its neighbors holds; and when
    preprocessing reports solvable, the sum "after optimization" is the
    same number for the board that preprocessing returns. *)
Theorem candidate_sums_right (fp : nat) (G G1 : Game) (ok : bool) :
  ready G -> preprocess_board fp G = Ok (G1, ok) ->
  sum_num_candidates_originally (stats G1) = free_total G
  /\ (ok = true -> sum_num_candidates_after_optimization (stats G1) = free_total G1).
Proof. apply preprocess_board_sums. Qed.

Lemma candidate_sums_right_witness :
  sum_num_candidates_originally (stats (preprocessed 40 (loaded usage_file)))
  = free_total (save_board (loaded usage_file))
  /\ (true = true ->
      sum_num_candidates_after_optimization (stats (preprocessed 40 (loaded usage_file)))
      = free_total (preprocessed 40 (loaded usage_file))).
Proof.
  apply (candidate_sums_right 40 (save_board (loaded usage_file))).
  - split; [apply neighbors_built_b_spec; vm_compute; reflexivity|].
    split; [vm_compute; discriminate|].
    apply clues_frozen_unfrozen_empty. vm_compute. reflexivity.
  - apply reports_solvable_run. vm_compute. reflexivity.
Defined.

(** * Lines longer than the buffer *)

Lemma fgets_go_full size head : forall cur room t,
  no_newline head = true -> String.length head = room -> (1 <= room)%nat ->
  fgets_go size room cur (head +:+ t) = (cur +:+ head) :: fgets_go size (size - 1) "" t.
Proof.
  induction head as [|c b IH]; intros cur room t Hn Hlen Hroom; [simpl in Hlen; lia|].
  str. rewrite fgets_go_cons. cbn [no_newline] in Hn.
  apply andb_prop in Hn as [Hc Hb]. apply negb_true_iff in Hc. rewrite Hc.
  cbn [String.length] in Hlen. cbn [orb].
  destruct b as [|c' b'].
  - cbn [String.length] in Hlen. subst room. cbn [Nat.leb]. by str.
  - cbn [String.length] in Hlen.
    replace (room <=? 1)%nat with false by (symmetry; apply Nat.leb_gt; lia).
    rewrite IH; [|done|cbn [String.length]; lia|lia].
    by rewrite append_assoc'.
Qed.

Lemma long_comment G allowN head tail :
  String.length head = (LINESIZE - 1)%nat -> no_newline head = true ->
  starts_with2 "/" "/" head = true ->
  allowN = false \/ starts_with2 "N" "=" (advance 2 head) = false ->
  get_line G allowN (fgets_lines LINESIZE (head +:+ tail))
  = get_line G allowN (fgets_lines LINESIZE tail).
Proof.
  intros Hlen Hn Hc Hd. unfold fgets_lines.
  rewrite fgets_go_full; [|done|done|unfold LINESIZE; lia].
  rewrite append_nil_l, get_line_cons, Hc. destruct Hd as [-> | ->]; [done|]. by destruct allowN.
Qed.

(** X23.  A comment line longer than the buffer is not skipped whole.
    [get_line] reads with [fgets] and a buffer of [LINESIZE] = 500
    characters.  When a line begins with [//], is not a size directive that
    takes effect and goes on for more than 499 characters, the comment ends
    for [get_line] after its first 499 characters: what follows them is
    read as a line of its own, so that the rest of a long comment is taken
    for a row of the puzzle unless it begins with [//] again. *)
Theorem long_comment_split (G : Game) (allowN : bool) (head tail : string) :
  String.length head = (LINESIZE - 1)%nat -> no_newline head = true ->
  starts_with2 "/" "/" head = true ->
  allowN = false \/ starts_with2 "N" "=" (advance 2 head) = false ->
  get_line G allowN (fgets_lines LINESIZE (head +:+ tail))
  = get_line G allowN (fgets_lines LINESIZE tail).
Proof. apply long_comment. Qed.

Lemma long_comment_split_witness :
  get_line zero_game true
    (fgets_lines LINESIZE (("//" +:+ pad 497 "x") +:+ " 1 2 3" +:+ nl))
  = get_line zero_game true (fgets_lines LINESIZE (" 1 2 3" +:+ nl)).
Proof.
  apply (long_comment_split zero_game true ("//" +:+ pad 497 "x") (" 1 2 3" +:+ nl)).
  - vm_compute. reflexivity.
  - vm_compute. reflexivity.
  - vm_compute. reflexivity.
  - right. vm_compute. reflexivity.
Defined.

(** * The loader at its boundaries (claim C9) *)


(** ** Short lines *)

Lemma tokens_trim_trailing (s : string) : (tokens (trim_trailing s) <= tokens s)%nat.
Proof.
  induction s as [|x s IH]; [done|]. rewrite trim_trailing_cons. cbn [tokens].
  destruct (code x =? 0); [simpl; destruct (isspace x); lia|].
  destruct (trim_trailing s) as [|y t].
  - simpl in IH. destruct (isspace x) eqn:E; simpl; rewrite ?E; lia.
  - cbn [tokens] in *. destruct (isspace x); lia.
Qed.



(** ** More text on a line *)








(** ** Lines longer than the buffer *)


(** ** A NUL inside a line *)









